(** * gif-tools: a shallow embedding of the GIF codec and its checked properties

    The development follows the TypeScript sources module by module:
    [utils.ts] (validation, colour tables, delays), [lzw.ts] (bit packing,
    LZW coder and decoder), [writer.ts] (the GIF writer), [reader.ts]
    (the frame decoder and canvas compositor) and [gif-result.ts]
    (the median-cut quantizer).

    Conventions.
    - A JavaScript [number] that holds an integer is a [Z]; a [Uint8Array]
      or [Uint8ClampedArray] is a [list Z] whose elements lie in [0, 256).
    - A JavaScript string is the [list Z] of its char codes.
    - A [throw] is the [Throw] outcome; a [while] loop is a [Fixpoint] on a
      fuel argument and running out of fuel is the separate outcome
      [OutOfFuel], never a value. *)

From Stdlib Require Import ZArith Lia List.
From stdpp Require Import base option list gmap.
Import ListNotations.
Local Open Scope Z_scope.

(** ** Errors and outcomes (types.ts) *)

Inductive ErrorTag :=
| InvalidWidth | InvalidHeight | InvalidPalette | TooManyColors
| InvalidColorCount | Invalid16BitValue | InvalidByteValue
| ImageDataLengthMismatch | PixelExceedsPalette | NoImages
| UnexpectedEnd | GifTooShort | LooksLikeHTML | LooksLikePNG | LooksLikeJPEG
| InvalidSignature | UnsupportedVersion | UnknownSeparator
| HeaderAlreadyWritten | HeaderNotWritten | LogicalScreenAlreadyWritten
| LogicalScreenNotWritten_Animation | LogicalScreenNotWritten_Image
| InvalidCodeOrBitLength | InvalidBitLength | CompressEmptyData
| InvalidInitialCodeSize | StringNotInDictionary | DictionaryOverflow
| FirstCodeNotInDictionary | InvalidLZWCode | LZWDataEmpty | LZWValueTooLarge
| InvalidMaxColors | EmptyColorCube | EmptyAverage | EmptyCubeList
| InvalidK | EmptyPaletteSearch
| InvalidColorIntensity | GifDataEmpty | InvalidSolidWidth | InvalidSolidHeight
| InvalidRedValue | InvalidGreenValue | InvalidBlueValue.

(** The two error classes of the library; the tag stands for the message. *)
Inductive GifError :=
| GifValidationError (tag : ErrorTag)
| GifEncodingError (tag : ErrorTag).

Inductive result (A : Type) :=
| Ok (a : A)
| Throw (e : GifError)
| OutOfFuel.
Arguments Ok {A} a.
Arguments Throw {A} e.
Arguments OutOfFuel {A}.

Definition rbind {A B} (m : result A) (k : A -> result B) : result B :=
  match m with
  | Ok a => k a
  | Throw e => Throw e
  | OutOfFuel => OutOfFuel
  end.

Declare Scope res_scope.
Delimit Scope res_scope with res.
Notation "'let!' x ':=' m 'in' k" := (rbind m (fun x => k))
  (at level 10, x pattern, m at level 100, k at level 200) : res_scope.
Notation "m ';;!' k" := (rbind m (fun _ => k))
  (at level 100, k at level 200, right associativity) : res_scope.
Local Open Scope res_scope.

Definition is_validation_error {A} (r : result A) : Prop :=
  exists t, r = Throw (GifValidationError t).
Definition is_encoding_error {A} (r : result A) : Prop :=
  exists t, r = Throw (GifEncodingError t).

(** ** utils.ts *)

Definition GIF_SIGNATURE : list Z := [0x47; 0x49; 0x46].
Definition GIF_VERSION_89A : list Z := [0x38; 0x39; 0x61].
Definition GIF_TRAILER : Z := 0x3b.
Definition MAX_COLORS : Z := 256.
Definition MAX_CODE_VALUE : Z := 0xfff.
Definition NETSCAPE_APPLICATION_IDENTIFIER : list Z :=
  [0x4e; 0x45; 0x54; 0x53; 0x43; 0x41; 0x50; 0x45].
Definition NETSCAPE_APPLICATION_AUTHENTICATION_CODE : list Z :=
  [0x32; 0x2e; 0x30].

Definition len {A} (l : list A) : Z := Z.of_nat (length l).

(** [validateDimensions]: on integers, [Number.isInteger] always holds. *)
Definition validateDimensions (width height : Z) : result unit :=
  if (width <=? 0) || (65535 <? width)
  then Throw (GifValidationError InvalidWidth)
  else if (height <=? 0) || (65535 <? height)
  then Throw (GifValidationError InvalidHeight)
  else Ok tt.

Definition validatePalette (palette : list Z) : result unit :=
  if (len palette =? 0) || negb (len palette mod 3 =? 0)
  then Throw (GifValidationError InvalidPalette)
  else if MAX_COLORS <? len palette / 3
  then Throw (GifValidationError TooManyColors)
  else Ok tt.

(** The [while (pow2 < colorCount)] loop of [calculateColorTableSize]. *)
Fixpoint colorTableSize_loop (fuel : nat) (size pow2 colorCount : Z)
  : option Z :=
  if pow2 <? colorCount then
    match fuel with
    | O => None
    | S fuel' =>
        colorTableSize_loop fuel' (size + 1) (Z.shiftl pow2 1) colorCount
    end
  else Some size.

Definition calculateColorTableSize (colorCount : Z) : result Z :=
  if (colorCount <=? 0) || (MAX_COLORS <? colorCount)
  then Throw (GifValidationError InvalidColorCount)
  else match colorTableSize_loop 8 0 2 colorCount with
       | Some s => Ok s
       | None => OutOfFuel
       end.

(** [padColorTable].  [currentColors] is [palette.length / 3] as a real
    number; [currentColors >= targetColors] is compared without division. *)
Definition padColorTable (palette : list Z) (requiredSize : Z) : list Z :=
  let targetColors := Z.shiftl 1 (requiredSize + 1) in
  if 3 * targetColors <=? len palette then palette
  else palette ++ repeat 0 (Z.to_nat (targetColors * 3) - length palette)%nat.

Definition write16BitLE (value : Z) : result (list Z) :=
  if (value <? 0) || (65535 <? value)
  then Throw (GifValidationError Invalid16BitValue)
  else Ok [Z.land value 0xff; Z.land (Z.shiftr value 8) 0xff].

Definition clamp (value min max : Z) : Z := Z.max min (Z.min max value).

(** [Math.round] of the quotient [n / d] of two integers, [d > 0]:
    the nearest integer, halves rounded up. *)
Definition round_div (n d : Z) : Z := (2 * n + d) / (2 * d).

(** [msToGifDelay], for a delay of a whole number of milliseconds. *)
Definition msToGifDelay (ms : Z) : Z := Z.max 0 (round_div ms 10).

Definition gifDelayToMs (delay : Z) : Z := delay * 10.

(** ** Loops

    One iteration of a [while] or [for] loop either goes on with a new
    state or leaves the loop ([break], or the loop condition failing). *)

Inductive step_result (S : Type) :=
| Continue (s : S)
| Break (s : S).
Arguments Continue {S} s.
Arguments Break {S} s.

Fixpoint while_loop {S} (fuel : nat) (body : S -> result (step_result S))
    (s : S) : result S :=
  match fuel with
  | O => OutOfFuel
  | S fuel' =>
      match body s with
      | Ok (Continue s') => while_loop fuel' body s'
      | Ok (Break s') => Ok s'
      | Throw e => Throw e
      | OutOfFuel => OutOfFuel
      end
  end.

(** [for (const x of xs) body], the body possibly throwing. *)
Fixpoint for_each {S A} (body : S -> A -> result S) (xs : list A) (s : S)
  : result S :=
  match xs with
  | [] => Ok s
  | x :: xs' => let! s' := body s x in for_each body xs' s'
  end.

(** ** lzw.ts: packing codes into bytes *)

Record CodeToBytesConverter := mkCodeToBytes {
  cb_output : list Z;
  remainingBits : Z;
  remainingValue : Z
}.

Definition newCodeToBytesConverter : CodeToBytesConverter :=
  mkCodeToBytes [] 0 0.

(** The [while (numBits > 0)] loop of [push].  Every intermediate value is
    below [2^16], so the 32-bit coercions of the JavaScript bit operators
    are the identity and are left out. *)
Fixpoint push_loop (fuel : nat) (c : CodeToBytesConverter) (code numBits : Z)
  : option CodeToBytesConverter :=
  if 0 <? numBits then
    match fuel with
    | O => None
    | S fuel' =>
        let bitsToTake := Z.min numBits (8 - remainingBits c) in
        let mask := Z.shiftl 1 bitsToTake - 1 in
        let bits := Z.land code mask in
        let rv := Z.lor (remainingValue c) (Z.shiftl bits (remainingBits c)) in
        let rb := remainingBits c + bitsToTake in
        let c' :=
          if 8 <=? rb
          then mkCodeToBytes (cb_output c ++ [Z.land rv 0xff]) (rb - 8)
                             (Z.shiftr rv 8)
          else mkCodeToBytes (cb_output c) rb rv in
        push_loop fuel' c' (Z.shiftr code bitsToTake) (numBits - bitsToTake)
    end
  else Some c.

Definition push (c : CodeToBytesConverter) (code numBits : Z)
  : result CodeToBytesConverter :=
  if (code <? 0) || (numBits <=? 0)
  then Throw (GifEncodingError InvalidCodeOrBitLength)
  else match push_loop (Z.to_nat numBits) c code numBits with
       | Some c' => Ok c'
       | None => OutOfFuel
       end.

(** [flush]: the bytes written, with the pending bits as a last byte. *)
Definition flush (c : CodeToBytesConverter) : list Z :=
  if 0 <? remainingBits c
  then cb_output c ++ [Z.land (remainingValue c) 0xff]
  else cb_output c.

(** ** lzw.ts: the compression dictionary *)

Record LZWDictionary := mkLZWDictionary {
  e_initialCodeSize : Z;
  e_dictionary : gmap (list Z) Z;
  e_nextCode : Z
}.

Definition clearCode (initialCodeSize : Z) : Z := Z.shiftl 1 initialCodeSize.
Definition endCode (initialCodeSize : Z) : Z := clearCode initialCodeSize + 1.

Definition e_clear (d : LZWDictionary) : Z := clearCode (e_initialCodeSize d).
Definition e_end (d : LZWDictionary) : Z := endCode (e_initialCodeSize d).

(** [reset]: the single-character strings [0 .. clearCode - 1]. *)
Definition e_reset (d : LZWDictionary) : LZWDictionary :=
  mkLZWDictionary (e_initialCodeSize d)
    (foldl (fun m i => <[ [i] := i ]> m) ∅
           (seqZ 0 (clearCode (e_initialCodeSize d))))
    (endCode (e_initialCodeSize d) + 1).

Definition newLZWDictionary (initialCodeSize : Z) : LZWDictionary :=
  e_reset (mkLZWDictionary initialCodeSize ∅ 0).

Definition e_has (d : LZWDictionary) (str : list Z) : bool :=
  bool_decide (is_Some (e_dictionary d !! str)).

Definition e_get (d : LZWDictionary) (str : list Z) : option Z :=
  e_dictionary d !! str.

Definition e_shouldReset (d : LZWDictionary) : bool :=
  MAX_CODE_VALUE <? e_nextCode d.

Definition e_add (d : LZWDictionary) (str : list Z) : result LZWDictionary :=
  if MAX_CODE_VALUE <? e_nextCode d
  then Throw (GifEncodingError DictionaryOverflow)
  else Ok (mkLZWDictionary (e_initialCodeSize d)
             (<[ str := e_nextCode d ]> (e_dictionary d))
             (e_nextCode d + 1)).

(** The [while (max <= maxCode && bits < 12)] loop of [calculateCodeBits]. *)
Fixpoint codeBits_loop (fuel : nat) (bits max maxCode : Z) : option Z :=
  if (max <=? maxCode) && (bits <? 12) then
    match fuel with
    | O => None
    | S fuel' => codeBits_loop fuel' (bits + 1) (Z.shiftl max 1) maxCode
    end
  else Some bits.

Definition calculateCodeBits (maxCode initialBits : Z) : result Z :=
  if maxCode <? Z.shiftl 1 initialBits then Ok initialBits
  else match codeBits_loop 12 initialBits (Z.shiftl 1 initialBits) maxCode with
       | Some bits => Ok (Z.min bits 12)
       | None => OutOfFuel
       end.

(** ** lzw.ts: [compressLZW] *)

Record compress_state := mkCompress {
  c_converter : CodeToBytesConverter;
  c_dictionary : LZWDictionary;
  c_currentBits : Z;
  c_currentString : list Z
}.

(** The body of [for (let i = 0; i < data.length; i++)]. *)
Definition compress_step (initialCodeSize : Z) (st : compress_state)
    (byte : Z) : result compress_state :=
  let char := [byte] in
  let newString := c_currentString st ++ char in
  if e_has (c_dictionary st) newString then
    Ok (mkCompress (c_converter st) (c_dictionary st) (c_currentBits st)
                   newString)
  else
    match e_get (c_dictionary st) (c_currentString st) with
    | None => Throw (GifEncodingError StringNotInDictionary)
    | Some code =>
        let! conv := push (c_converter st) code (c_currentBits st) in
        if negb (e_shouldReset (c_dictionary st)) then
          let! dict := e_add (c_dictionary st) newString in
          let! newBits :=
            calculateCodeBits (e_nextCode dict - 1) (initialCodeSize + 1) in
          let bits :=
            if (c_currentBits st <? newBits) && (newBits <=? 12)
            then newBits else c_currentBits st in
          Ok (mkCompress conv dict bits char)
        else
          let! conv' := push conv (e_clear (c_dictionary st))
                             (c_currentBits st) in
          Ok (mkCompress conv' (e_reset (c_dictionary st))
                         (initialCodeSize + 1) char)
    end.

Definition compress_finish (st : compress_state) : result (list Z) :=
  let! conv :=
    if 0 <? len (c_currentString st) then
      match e_get (c_dictionary st) (c_currentString st) with
      | None => Throw (GifEncodingError StringNotInDictionary)
      | Some code => push (c_converter st) code (c_currentBits st)
      end
    else Ok (c_converter st) in
  let! conv' := push conv (e_end (c_dictionary st)) (c_currentBits st) in
  Ok (flush conv').

Definition compressLZW (data : list Z) (initialCodeSize : Z)
  : result (list Z) :=
  if len data =? 0 then Throw (GifEncodingError CompressEmptyData)
  else if (initialCodeSize <? 1) || (8 <? initialCodeSize)
  then Throw (GifEncodingError InvalidInitialCodeSize)
  else
    let converter := newCodeToBytesConverter in
    let dictionary := newLZWDictionary initialCodeSize in
    let currentBits := initialCodeSize + 1 in
    let! converter := push converter (e_clear dictionary) currentBits in
    let! st := for_each (compress_step initialCodeSize) data
                 (mkCompress converter dictionary currentBits []) in
    compress_finish st.

(** ** lzw.ts: unpacking codes from bytes *)

Record BytesToCodeConverter := mkBytesToCode {
  b_data : list Z;
  b_position : Z;
  bitBuffer : Z;
  bitsInBuffer : Z
}.

Definition newBytesToCodeConverter (data : list Z) : BytesToCodeConverter :=
  mkBytesToCode data 0 0 0.

Definition byte_at (data : list Z) (i : Z) : Z :=
  nth (Z.to_nat i) data 0.

(** The [while (bitsInBuffer < numBits && position < data.length)] loop of
    [readCode].  With [numBits <= 16] the buffer stays below [2^23]. *)
Fixpoint fill_loop (fuel : nat) (b : BytesToCodeConverter) (numBits : Z)
  : option BytesToCodeConverter :=
  if (bitsInBuffer b <? numBits) && (b_position b <? len (b_data b)) then
    match fuel with
    | O => None
    | S fuel' =>
        fill_loop fuel'
          (mkBytesToCode (b_data b) (b_position b + 1)
             (Z.lor (bitBuffer b)
                (Z.shiftl (byte_at (b_data b) (b_position b)) (bitsInBuffer b)))
             (bitsInBuffer b + 8))
          numBits
    end
  else Some b.

(** [readCode]: [None] is JavaScript's [null]. *)
Definition readCode (b : BytesToCodeConverter) (numBits : Z)
  : result (option Z * BytesToCodeConverter) :=
  if (numBits <=? 0) || (16 <? numBits)
  then Throw (GifEncodingError InvalidBitLength)
  else match fill_loop (length (b_data b)) b numBits with
       | None => OutOfFuel
       | Some b' =>
           if bitsInBuffer b' <? numBits then Ok (None, b')
           else
             let mask := Z.shiftl 1 numBits - 1 in
             let code := Z.land (bitBuffer b') mask in
             Ok (Some code,
                 mkBytesToCode (b_data b') (b_position b')
                   (Z.shiftr (bitBuffer b') numBits)
                   (bitsInBuffer b' - numBits))
       end.

Definition hasMore (b : BytesToCodeConverter) : bool :=
  (b_position b <? len (b_data b)) || (0 <? bitsInBuffer b).

(** ** lzw.ts: the decompression dictionary *)

(** A JavaScript array of strings with holes: [None] is [undefined]. *)
Record LZWDecodeDictionary := mkLZWDecode {
  d_initialCodeSize : Z;
  d_dictionary : list (option (list Z));
  d_nextCode : Z
}.

Definition d_clear (d : LZWDecodeDictionary) : Z := clearCode (d_initialCodeSize d).
Definition d_end (d : LZWDecodeDictionary) : Z := endCode (d_initialCodeSize d).

(** [a[i] = v] on a JavaScript array: past the end, the array grows and the
    skipped slots are holes. *)
Definition js_array_set {A} (a : list (option A)) (i : Z) (v : option A)
  : list (option A) :=
  if i <? len a then <[ Z.to_nat i := v ]> a
  else a ++ repeat None (Z.to_nat i - length a)%nat ++ [v].

Definition d_reset (d : LZWDecodeDictionary) : LZWDecodeDictionary :=
  let k := d_initialCodeSize d in
  let singles := map (fun i => Some [i]) (seqZ 0 (clearCode k)) in
  mkLZWDecode k
    (js_array_set (js_array_set singles (clearCode k) None) (endCode k) None)
    (endCode k + 1).

Definition newLZWDecodeDictionary (initialCodeSize : Z) : LZWDecodeDictionary :=
  d_reset (mkLZWDecode initialCodeSize [] 0).

Definition d_get (d : LZWDecodeDictionary) (code : Z) : option (list Z) :=
  if len (d_dictionary d) <=? code then None
  else match nth_error (d_dictionary d) (Z.to_nat code) with
       | Some v => v
       | None => None
       end.

Definition d_add (d : LZWDecodeDictionary) (str : list Z) : LZWDecodeDictionary :=
  if d_nextCode d <? MAX_CODE_VALUE
  then mkLZWDecode (d_initialCodeSize d)
         (js_array_set (d_dictionary d) (d_nextCode d) (Some str))
         (d_nextCode d + 1)
  else d.

(** ** lzw.ts: [decompressLZW] *)

Record decompress_state := mkDecompress {
  dc_converter : BytesToCodeConverter;
  dc_dictionary : LZWDecodeDictionary;
  dc_output : list Z;
  dc_currentBits : Z;
  dc_previousString : list Z
}.

(** [s.charAt(0)] as a string: empty when [s] is. *)
Definition charAt0 (s : list Z) : list Z := firstn 1 s.

(** One turn of [while (converter.hasMore())]. *)
Definition decompress_step (initialCodeSize : Z) (st : decompress_state)
  : result (step_result decompress_state) :=
  if negb (hasMore (dc_converter st)) then Ok (Break st)
  else
    let! (code, conv) := readCode (dc_converter st) (dc_currentBits st) in
    match code with
    | None => Ok (Break st)
    | Some code =>
        let dict := dc_dictionary st in
        if code =? d_clear dict then
          Ok (Continue (mkDecompress conv (d_reset dict) (dc_output st)
                          (initialCodeSize + 1) []))
        else if code =? d_end dict then
          Ok (Break (mkDecompress conv dict (dc_output st)
                       (dc_currentBits st) (dc_previousString st)))
        else
          let! currentString :=
            if code <? d_nextCode dict then
              Ok (match d_get dict code with
                  | Some s => s
                  | None => []
                  end)
            else if code =? d_nextCode dict then
              if len (dc_previousString st) =? 0
              then Throw (GifEncodingError FirstCodeNotInDictionary)
              else Ok (dc_previousString st ++ charAt0 (dc_previousString st))
            else Throw (GifEncodingError InvalidLZWCode) in
          let output := dc_output st ++ currentString in
          let '(dict', bits') :=
            if (0 <? len (dc_previousString st))
               && (d_nextCode dict <? MAX_CODE_VALUE)
            then
              let dict' := d_add dict (dc_previousString st
                                        ++ charAt0 currentString) in
              (dict',
               if (Z.shiftl 1 (dc_currentBits st) <=? d_nextCode dict')
                  && (dc_currentBits st <? 12)
               then dc_currentBits st + 1 else dc_currentBits st)
            else (dict, dc_currentBits st) in
          Ok (Continue (mkDecompress conv dict' output bits' currentString))
    end.

Definition decompressLZW (compressedData : list Z) (initialCodeSize : Z)
  : result (list Z) :=
  if len compressedData =? 0 then Ok []
  else if (initialCodeSize <? 1) || (8 <? initialCodeSize)
  then Throw (GifEncodingError InvalidInitialCodeSize)
  else
    let! st :=
      while_loop (8 * length compressedData + 1)
        (decompress_step initialCodeSize)
        (mkDecompress (newBytesToCodeConverter compressedData)
           (newLZWDecodeDictionary initialCodeSize) []
           (initialCodeSize + 1) []) in
    Ok (dc_output st).

(** [validateLZWParams]; [data] is a [Uint8Array] and [codeSize] an integer
    by their types. *)
Definition validateLZWParams (data : list Z) (codeSize : Z) : result unit :=
  if len data =? 0 then Throw (GifEncodingError LZWDataEmpty)
  else if (codeSize <? 1) || (8 <? codeSize)
  then Throw (GifEncodingError InvalidInitialCodeSize)
  else
    let maxValue := Z.shiftl 1 codeSize - 1 in
    if forallb (fun v => v <=? maxValue) data then Ok tt
    else Throw (GifEncodingError LZWValueTooLarge).

(** ** types.ts: images and options *)

Inductive DisposalMethod :=
| DisposalNone
| DoNotDispose
| RestoreToBackground
| RestoreToPrevious.

Definition disposal_value (d : DisposalMethod) : Z :=
  match d with
  | DisposalNone => 0
  | DoNotDispose => 1
  | RestoreToBackground => 2
  | RestoreToPrevious => 3
  end.

Global Instance DisposalMethod_eq_dec : EqDecision DisposalMethod.
Proof. solve_decision. Defined.

Record IndexedImage := mkIndexedImage {
  i_width : Z;
  i_height : Z;
  i_data : list Z;
  i_palette : list Z
}.

(** Optional fields are [option]s: [None] is an absent ([undefined]) field. *)
Record GlobalColorTableOptions := mkGlobalOptions {
  g_colors : option (list Z);
  g_sorted : option bool;
  g_backgroundColorIndex : option Z;
  g_pixelAspectRatio : option Z
}.

Record ImageOptions := mkImageOptions {
  o_left : option Z;
  o_top : option Z;
  o_delay : option Z;
  o_disposal : option DisposalMethod;
  o_transparentIndex : option Z
}.

Record AnimationOptions := mkAnimationOptions {
  a_loops : option Z
}.

Definition noGlobalOptions : GlobalColorTableOptions :=
  mkGlobalOptions None None None None.
Definition noImageOptions : ImageOptions :=
  mkImageOptions None None None None None.
Definition noAnimationOptions : AnimationOptions := mkAnimationOptions None.

(** ** writer.ts *)

(** The writer with its [ByteArrayOutputStream]. *)
Record GifWriter := mkGifWriter {
  w_output : list Z;
  hasWrittenHeader : bool;
  hasWrittenLogicalScreen : bool;
  frameCount : Z
}.

Definition newGifWriter : GifWriter := mkGifWriter [] false false 0.

(** A method of the writer: it may throw, and what it wrote before
    throwing stays written. *)
Definition W (A : Type) : Type := GifWriter -> result A * GifWriter.

Definition wret {A} (a : A) : W A := fun w => (Ok a, w).
Definition wlift {A} (r : result A) : W A := fun w => (r, w).
Definition wthrow {A} (e : GifError) : W A := fun w => (Throw e, w).
Definition wbind {A B} (m : W A) (k : A -> W B) : W B :=
  fun w =>
    match m w with
    | (Ok a, w') => k a w'
    | (Throw e, w') => (Throw e, w')
    | (OutOfFuel, w') => (OutOfFuel, w')
    end.

Declare Scope w_scope.
Delimit Scope w_scope with W.
Notation "'let*' x ':=' m 'in' k" := (wbind m (fun x => k))
  (at level 10, x pattern, m at level 100, k at level 200) : w_scope.
Notation "m ';;*' k" := (wbind m (fun _ => k))
  (at level 100, k at level 200, right associativity) : w_scope.
Local Open Scope w_scope.

Definition w_append (bytes : list Z) : W unit :=
  fun w => (Ok tt, mkGifWriter (w_output w ++ bytes) (hasWrittenHeader w)
                     (hasWrittenLogicalScreen w) (frameCount w)).

(** [ByteArrayOutputStream.writeByte]. *)
Definition writeByte (byte : Z) : W unit :=
  if (byte <? 0) || (255 <? byte)
  then wthrow (GifValidationError InvalidByteValue)
  else w_append [byte].

(** [writeBytes] of a [Uint8Array]: no check. *)
Definition writeBytes_u8 (bytes : list Z) : W unit := w_append bytes.

(** [writeBytes] of a [number[]]: byte by byte through [writeByte]. *)
Fixpoint writeBytes_arr (bytes : list Z) : W unit :=
  match bytes with
  | [] => wret tt
  | b :: bs => writeByte b ;;* writeBytes_arr bs
  end.

Definition set_hasWrittenHeader : W unit :=
  fun w => (Ok tt, mkGifWriter (w_output w) true
                     (hasWrittenLogicalScreen w) (frameCount w)).
Definition set_hasWrittenLogicalScreen : W unit :=
  fun w => (Ok tt, mkGifWriter (w_output w) (hasWrittenHeader w) true
                     (frameCount w)).
Definition incr_frameCount : W unit :=
  fun w => (Ok tt, mkGifWriter (w_output w) (hasWrittenHeader w)
                     (hasWrittenLogicalScreen w) (frameCount w + 1)).
Definition w_get : W GifWriter := fun w => (Ok w, w).

Definition writeHeader : W unit :=
  let* w := w_get in
  if hasWrittenHeader w
  then wthrow (GifEncodingError HeaderAlreadyWritten)
  else writeBytes_u8 GIF_SIGNATURE ;;*
       writeBytes_u8 GIF_VERSION_89A ;;*
       set_hasWrittenHeader.

Definition writeLogicalScreen (width height : Z)
    (options : GlobalColorTableOptions) : W unit :=
  let* w := w_get in
  if negb (hasWrittenHeader w)
  then wthrow (GifEncodingError HeaderNotWritten)
  else if hasWrittenLogicalScreen w
  then wthrow (GifEncodingError LogicalScreenAlreadyWritten)
  else
    wlift (validateDimensions width height) ;;*
    let sorted := default false (g_sorted options) in
    let backgroundColorIndex := default 0 (g_backgroundColorIndex options) in
    let pixelAspectRatio := default 0 (g_pixelAspectRatio options) in
    let* (globalColorTableFlag, colorTableSize, paddedColorTable) :=
      match g_colors options with
      | Some colors =>
          if 0 <? len colors then
            wlift (validatePalette colors) ;;*
            let* size := wlift (calculateColorTableSize (len colors / 3)) in
            wret (true, size, Some (padColorTable colors size))
          else wret (false, 0, None)
      | None => wret (false, 0, None)
      end in
    let* wb := wlift (write16BitLE width) in
    writeBytes_u8 wb ;;*
    let* hb := wlift (write16BitLE height) in
    writeBytes_u8 hb ;;*
    let packedFields :=
      Z.lor (Z.lor (Z.lor (if globalColorTableFlag : bool then 0x80 else 0x00)
                          0x70)
                   (if sorted : bool then 0x08 else 0x00))
            colorTableSize in
    writeByte packedFields ;;*
    writeByte (Z.land backgroundColorIndex 0xff) ;;*
    writeByte (Z.land pixelAspectRatio 0xff) ;;*
    match paddedColorTable with
    | Some t => writeBytes_u8 t
    | None => wret tt
    end ;;*
    set_hasWrittenLogicalScreen.

Definition writeAnimationInfo (options : AnimationOptions) : W unit :=
  let* w := w_get in
  if negb (hasWrittenLogicalScreen w)
  then wthrow (GifEncodingError LogicalScreenNotWritten_Animation)
  else
    let loops := default 0 (a_loops options) in
    let loopCount := Z.max 0 (Z.min 65535 loops) in
    let* lc := wlift (write16BitLE loopCount) in
    writeBytes_arr
      ([0x21; 0xff; 11]
         ++ NETSCAPE_APPLICATION_IDENTIFIER
         ++ NETSCAPE_APPLICATION_AUTHENTICATION_CODE
         ++ [3; 0x01] ++ lc ++ [0x00]).

Definition writeGraphicsControl (options : ImageOptions) : W unit :=
  let delay := default 0 (o_delay options) in
  let disposal := default RestoreToBackground (o_disposal options) in
  let transparentIndex := default (-1) (o_transparentIndex options) in
  let delayTime := msToGifDelay delay in
  let hasTransparency := (0 <=? transparentIndex) && (transparentIndex <=? 255) in
  writeBytes_arr [0x21; 0xf9; 0x04] ;;*
  let packedFields :=
    Z.lor (Z.shiftl (Z.land (disposal_value disposal) 0x07) 2)
          (if hasTransparency then 0x01 else 0x00) in
  writeByte packedFields ;;*
  let* db := wlift (write16BitLE delayTime) in
  writeBytes_u8 db ;;*
  writeByte (if hasTransparency then Z.land transparentIndex 0xff else 0) ;;*
  writeByte 0x00.

Definition writeImageDescriptor (image : IndexedImage) (options : ImageOptions)
  : W unit :=
  let left := default 0 (o_left options) in
  let top := default 0 (o_top options) in
  wlift (validatePalette (i_palette image)) ;;*
  let* colorTableSize :=
    wlift (calculateColorTableSize (len (i_palette image) / 3)) in
  writeByte 0x2c ;;*
  let* lb := wlift (write16BitLE left) in
  writeBytes_u8 lb ;;*
  let* tb := wlift (write16BitLE top) in
  writeBytes_u8 tb ;;*
  let* wb := wlift (write16BitLE (i_width image)) in
  writeBytes_u8 wb ;;*
  let* hb := wlift (write16BitLE (i_height image)) in
  writeBytes_u8 hb ;;*
  let packedFields := Z.lor (Z.lor (Z.lor 0x80 0x00) 0x00) colorTableSize in
  writeByte packedFields.

(** The [while (offset < data.length)] loop of [writeDataSubBlocks]. *)
Fixpoint writeDataSubBlocks_loop (fuel : nat) (data : list Z) (offset : Z)
  : W unit :=
  if offset <? len data then
    match fuel with
    | O => wlift OutOfFuel
    | S fuel' =>
        let blockSize := Z.min 255 (len data - offset) in
        writeByte blockSize ;;*
        writeBytes_arr
          (map (fun i => byte_at data (offset + i)) (seqZ 0 blockSize)) ;;*
        writeDataSubBlocks_loop fuel' data (offset + blockSize)
    end
  else wret tt.

Definition writeDataSubBlocks (data : list Z) : W unit :=
  writeDataSubBlocks_loop (length data) data 0.

(** [Math.ceil(Math.log2(n))] for an integer [n >= 1]. *)
Definition ceil_log2 (n : Z) : Z := Z.log2_up n.

Definition lzwCodeSizeFor (colorCount : Z) : Z :=
  let minCodeSize := if colorCount <=? 2 then 2 else ceil_log2 colorCount in
  Z.max 2 minCodeSize.

Definition writeImageData (image : IndexedImage) : W unit :=
  if negb (len (i_data image) =? i_width image * i_height image)
  then wthrow (GifValidationError ImageDataLengthMismatch)
  else
    let colorCount := len (i_palette image) / 3 in
    let lzwCodeSize := lzwCodeSizeFor colorCount in
    let maxIndex := colorCount - 1 in
    if negb (forallb (fun v => v <=? maxIndex) (i_data image))
    then wthrow (GifValidationError PixelExceedsPalette)
    else
      wlift (validateLZWParams (i_data image) lzwCodeSize) ;;*
      let* compressedData := wlift (compressLZW (i_data image) lzwCodeSize) in
      writeByte lzwCodeSize ;;*
      writeDataSubBlocks compressedData ;;*
      writeByte 0x00.

Definition writeImage (image : IndexedImage) (options : ImageOptions)
  : W unit :=
  let* w := w_get in
  if negb (hasWrittenLogicalScreen w)
  then wthrow (GifEncodingError LogicalScreenNotWritten_Image)
  else
    wlift (validateDimensions (i_width image) (i_height image)) ;;*
    wlift (validatePalette (i_palette image)) ;;*
    let needsGraphicsControl :=
      (0 <? frameCount w)
      || bool_decide (is_Some (o_delay options))
      || bool_decide (is_Some (o_disposal options))
      || bool_decide (is_Some (o_transparentIndex options)) in
    (if needsGraphicsControl then writeGraphicsControl options else wret tt) ;;*
    writeImageDescriptor image options ;;*
    let* size := wlift (calculateColorTableSize (len (i_palette image) / 3)) in
    writeBytes_u8 (padColorTable (i_palette image) size) ;;*
    writeImageData image ;;*
    incr_frameCount.

Definition writeTrailer : W unit := writeByte GIF_TRAILER.

Definition writeStaticGif (image : IndexedImage)
    (globalOptions : GlobalColorTableOptions) (imageOptions : ImageOptions)
  : W unit :=
  writeHeader ;;*
  writeLogicalScreen (i_width image) (i_height image) globalOptions ;;*
  writeImage image imageOptions ;;*
  writeTrailer.

(** [images.forEach((image, index) => writeImage(image, imageOptions[index] || {}))]. *)
Fixpoint writeImages (images : list IndexedImage) (index : nat)
    (imageOptions : list ImageOptions) : W unit :=
  match images with
  | [] => wret tt
  | image :: rest =>
      writeImage image (nth index imageOptions noImageOptions) ;;*
      writeImages rest (S index) imageOptions
  end.

Definition writeAnimatedGif (images : list IndexedImage)
    (globalOptions : GlobalColorTableOptions)
    (animationOptions : AnimationOptions) (imageOptions : list ImageOptions)
  : W unit :=
  match images with
  | [] => wthrow (GifValidationError NoImages)
  | first :: _ =>
      writeHeader ;;*
      writeLogicalScreen (i_width first) (i_height first) globalOptions ;;*
      writeAnimationInfo animationOptions ;;*
      writeImages images 0 imageOptions ;;*
      writeTrailer
  end.

(** [new GifWriter().writeStaticGif(...).toUint8Array()] and its animated
    counterpart: the bytes of a completed encode. *)
Definition encodeStatic (image : IndexedImage)
    (globalOptions : GlobalColorTableOptions) (imageOptions : ImageOptions)
  : result (list Z) :=
  match writeStaticGif image globalOptions imageOptions newGifWriter with
  | (r, w) => let! _ := r in Ok (w_output w)
  end.

Definition encodeAnimated (images : list IndexedImage)
    (globalOptions : GlobalColorTableOptions)
    (animationOptions : AnimationOptions) (imageOptions : list ImageOptions)
  : result (list Z) :=
  match writeAnimatedGif images globalOptions animationOptions imageOptions
          newGifWriter with
  | (r, w) => let! _ := r in Ok (w_output w)
  end.

(** ** reader.ts *)

Record ImageData := mkImageData {
  id_data : list Z;
  id_width : Z;
  id_height : Z
}.

Record GifFrame := mkGifFrame {
  f_imageData : ImageData;
  f_delay : Z;
  f_disposal : DisposalMethod;
  f_left : Z;
  f_top : Z;
  f_transparentIndex : Z
}.

(** String constants, as char codes. *)
Definition str_XMP : list Z := [88;77;80;32;68;97;116;97;88;77;80].
Definition str_ICCRGBG1 : list Z := [73;67;67;82;71;66;71;49].
Definition str_MAGPIE01 : list Z := [77;65;71;80;73;69;48;49].
Definition str_MAGPIE02 : list Z := [77;65;71;80;73;69;48;50].
Definition str_ADOBE : list Z := [65;68;79;66;69].
Definition str_ANIMEXTS : list Z := [65;78;73;77;69;88;84;83;49;46;48].

Definition list_eqb (a b : list Z) : bool := bool_decide (a = b).
Definition startsWith (s prefix : list Z) : bool :=
  list_eqb (firstn (length prefix) s) prefix.

(** [validateHeader], run by the constructor. *)
Definition validateHeader (data : list Z) : result unit :=
  if len data <? 6 then Throw (GifValidationError GifTooShort)
  else
    let firstBytes := firstn 4 data in
    if byte_at firstBytes 0 =? 60
    then Throw (GifValidationError LooksLikeHTML)
    else if list_eqb (firstn 3 firstBytes) [80;78;71]
            || list_eqb (skipn 1 firstBytes) [80;78;71]
    then Throw (GifValidationError LooksLikePNG)
    else if (byte_at firstBytes 0 =? 0xff) && (byte_at firstBytes 1 =? 0xd8)
    then Throw (GifValidationError LooksLikeJPEG)
    else if negb (list_eqb (firstn 3 data) [71;73;70])
    then Throw (GifValidationError InvalidSignature)
    else
      let version := firstn 3 (skipn 3 data) in
      if negb (list_eqb version [56;55;97]) && negb (list_eqb version [56;57;97])
      then Throw (GifValidationError UnsupportedVersion)
      else Ok tt.

(** Reading at [this.position]: each reader returns the new position. *)
Definition readByte (data : list Z) (position : Z) : result (Z * Z) :=
  if len data <=? position then Throw (GifValidationError UnexpectedEnd)
  else Ok (byte_at data position, position + 1).

Definition read16 (data : list Z) (position : Z) : result (Z * Z) :=
  let! (low, p) := readByte data position in
  let! (high, p) := readByte data p in
  Ok (Z.lor low (Z.shiftl high 8), p).

Definition slice (data : list Z) (from to : Z) : list Z :=
  firstn (Z.to_nat (to - from)) (skipn (Z.to_nat from) data).

Definition readBytes (data : list Z) (position count : Z)
  : result (list Z * Z) :=
  if len data <? position + count
  then Throw (GifValidationError UnexpectedEnd)
  else Ok (slice data position (position + count), position + count).

(** The [while (blockSize > 0)] loop of [skipDataSubBlocks]. *)
Fixpoint skipDataSubBlocks_loop (fuel : nat) (data : list Z)
    (blockSize position : Z) : result Z :=
  if 0 <? blockSize then
    match fuel with
    | O => OutOfFuel
    | S fuel' =>
        let! (blockSize', p) := readByte data (position + blockSize) in
        skipDataSubBlocks_loop fuel' data blockSize' p
    end
  else Ok position.

Definition skipDataSubBlocks (data : list Z) (position : Z) : result Z :=
  let! (blockSize, p) := readByte data position in
  skipDataSubBlocks_loop (length data) data blockSize p.

(** The [while (blockSize > 0)] loop of [readDataSubBlocks]; the blocks
    are joined as they are read. *)
Fixpoint readDataSubBlocks_loop (fuel : nat) (data : list Z)
    (blockSize position : Z) (acc : list Z) : result (list Z * Z) :=
  if 0 <? blockSize then
    match fuel with
    | O => OutOfFuel
    | S fuel' =>
        let! (blockData, p) := readBytes data position blockSize in
        let! (blockSize', p) := readByte data p in
        readDataSubBlocks_loop fuel' data blockSize' p (acc ++ blockData)
    end
  else Ok (acc, position).

Definition readDataSubBlocks (data : list Z) (position : Z)
  : result (list Z * Z) :=
  let! (blockSize, p) := readByte data position in
  readDataSubBlocks_loop (length data) data blockSize p [].

(** [Math.ceil(a / b)] for integers, [b > 0]. *)
Definition ceil_div (a b : Z) : Z := - ((- a) / b).

Definition deinterlaceY (y height : Z) : Z :=
  let p1 := ceil_div height 8 in
  let p2 := ceil_div (height - 4) 8 in
  let p3 := ceil_div (height - 2) 4 in
  if y <? p1 then y * 8
  else if y <? p1 + p2 then (y - p1) * 8 + 4
  else if y <? p1 + p2 + p3 then (y - p1 - p2) * 4 + 2
  else (y - p1 - p2 - p3) * 2 + 1.

(** Storing into a typed array: an index past the end is ignored. *)
Definition set_at (a : list Z) (i v : Z) : list Z :=
  if i <? 0 then a else <[ Z.to_nat i := v ]> a.

Definition set_rgba (canvas : list Z) (canvasIndex r g b a : Z) : list Z :=
  set_at (set_at (set_at (set_at canvas canvasIndex r) (canvasIndex + 1) g)
            (canvasIndex + 2) b) (canvasIndex + 3) a.

(** The background colour [(bgR, bgG, bgB)] when the global colour table
    has an entry for the background index. *)
Definition backgroundColor (globalColorTable : option (list Z))
    (backgroundColorIndex : Z) : option (Z * Z * Z) :=
  match globalColorTable with
  | Some gct =>
      if 3 * backgroundColorIndex <? len gct
      then Some (byte_at gct (backgroundColorIndex * 3),
                 byte_at gct (backgroundColorIndex * 3 + 1),
                 byte_at gct (backgroundColorIndex * 3 + 2))
      else None
  | None => None
  end.

Definition clearFrameArea (canvas : list Z) (left top width height : Z)
    (globalColorTable : option (list Z)) (backgroundColorIndex canvasWidth : Z)
  : list Z :=
  let '(bgR, bgG, bgB, bgA) :=
    match backgroundColor globalColorTable backgroundColorIndex with
    | Some (r, g, b) => (r, g, b, 255)
    | None => (0, 0, 0, 0)
    end in
  foldl (fun canvas y =>
    foldl (fun canvas x =>
      let canvasX := left + x in
      let canvasY := top + y in
      if (0 <=? canvasX) && (canvasX <? canvasWidth) && (0 <=? canvasY) then
        let canvasIndex := (canvasY * canvasWidth + canvasX) * 4 in
        if canvasIndex <? len canvas
        then set_rgba canvas canvasIndex bgR bgG bgB bgA
        else canvas
      else canvas)
      canvas (seqZ 0 width))
    canvas (seqZ 0 height).

Definition compositeFrame (canvas indexData : list Z)
    (left top width height : Z) (colorTable : option (list Z))
    (transparentIndex : Z) (interlaced : bool) (canvasWidth canvasHeight : Z)
  : list Z :=
  foldl (fun canvas i =>
    let colorIndex := byte_at indexData i in
    if colorIndex =? transparentIndex then canvas
    else
      let frameX := i mod width in
      let frameY := i / width in
      let actualY := if interlaced then deinterlaceY frameY height else frameY in
      let canvasX := left + frameX in
      let canvasY := top + actualY in
      if (0 <=? canvasX) && (canvasX <? canvasWidth)
         && (0 <=? canvasY) && (canvasY <? canvasHeight) then
        let canvasIndex := (canvasY * canvasWidth + canvasX) * 4 in
        if canvasIndex <? len canvas then
          match colorTable with
          | Some ct =>
              if colorIndex * 3 + 2 <? len ct
              then set_rgba canvas canvasIndex (byte_at ct (colorIndex * 3))
                     (byte_at ct (colorIndex * 3 + 1))
                     (byte_at ct (colorIndex * 3 + 2)) 255
              else set_rgba canvas canvasIndex 0 0 0 255
          | None => set_rgba canvas canvasIndex 0 0 0 255
          end
        else canvas
      else canvas)
    canvas (seqZ 0 (Z.min (len indexData) (width * height))).

(** The state of the record loop of [getFrames]. *)
Record frames_state := mkFramesState {
  fs_position : Z;
  fs_canvas : list Z;
  fs_previousCanvas : option (list Z);
  fs_currentDelay : Z;
  fs_currentDisposal : DisposalMethod;
  fs_currentTransparentIndex : Z;
  fs_frames : list GifFrame
}.

(** What [getFrames] reads once, before the loop. *)
Record screen := mkScreen {
  sc_data : list Z;
  sc_width : Z;
  sc_height : Z;
  sc_globalColorTable : option (list Z);
  sc_backgroundColorIndex : Z
}.

Definition with_position (st : frames_state) (p : Z) : frames_state :=
  mkFramesState p (fs_canvas st) (fs_previousCanvas st) (fs_currentDelay st)
    (fs_currentDisposal st) (fs_currentTransparentIndex st) (fs_frames st).

(** The application extensions the reader names; each is skipped. *)
Definition knownApplicationExtension (blockSize : Z) (appData : list Z) : bool :=
  ((blockSize =? 11)
     && (list_eqb appData str_XMP || startsWith appData str_ICCRGBG1))
  || ((8 <=? blockSize)
        && (list_eqb (firstn 8 appData) str_MAGPIE01
            || list_eqb (firstn 8 appData) str_MAGPIE02
            || startsWith (firstn 8 appData) str_ADOBE))
  || ((11 <=? blockSize) && list_eqb (firstn 11 appData) str_ANIMEXTS).

Definition disposalOfFlag (disposalFlag : Z) : DisposalMethod :=
  if disposalFlag =? 1 then DoNotDispose
  else if disposalFlag =? 2 then RestoreToBackground
  else if disposalFlag =? 3 then RestoreToPrevious
  else DoNotDispose.

(** The branch [label === 0xf9]. *)
Definition readGraphicsControl (data : list Z) (st : frames_state) (p : Z)
  : result frames_state :=
  let! (blockSize, p) := readByte data p in
  if blockSize =? 4 then
    let! (packedFlags, p) := readByte data p in
    let! (d, p) := read16 data p in
    let currentDelay := d * 10 in
    let! (transparentIndex, p) := readByte data p in
    let disposalFlag := Z.shiftr (Z.land packedFlags 0x1c) 2 in
    let currentDisposal := disposalOfFlag disposalFlag in
    let currentTransparentIndex :=
      if Z.land packedFlags 0x01 =? 0 then -1 else transparentIndex in
    let! (_, p) := readByte data p in
    Ok (mkFramesState p (fs_canvas st) (fs_previousCanvas st) currentDelay
          currentDisposal currentTransparentIndex (fs_frames st))
  else
    let! (_, p) := readByte data (p + blockSize) in
    Ok (with_position st p).

(** The [try { ... } catch { ... }] of the image branch: disposal,
    snapshot, decompression, compositing, and the frame record; a throw
    of [decompressLZW] is caught and answered with a white frame. *)
Definition processImage (sc : screen) (st : frames_state) (p : Z)
    (frameLeft frameTop frameWidth frameHeight : Z)
    (colorTable : option (list Z)) (interlaceFlag : bool)
    (lzwMinimumCodeSize : Z) (compressedData : list Z)
  : result frames_state :=
  let currentDisposal := fs_currentDisposal st in
  let canvas :=
    match fs_previousCanvas st with
    | Some previousCanvas =>
        if bool_decide (currentDisposal = RestoreToPrevious)
        then previousCanvas
        else if bool_decide (currentDisposal = RestoreToBackground)
        then clearFrameArea (fs_canvas st) frameLeft frameTop frameWidth
               frameHeight (sc_globalColorTable sc)
               (sc_backgroundColorIndex sc) (sc_width sc)
        else fs_canvas st
    | None =>
        if bool_decide (currentDisposal = RestoreToBackground)
        then clearFrameArea (fs_canvas st) frameLeft frameTop frameWidth
               frameHeight (sc_globalColorTable sc)
               (sc_backgroundColorIndex sc) (sc_width sc)
        else fs_canvas st
    end in
  let previousCanvas :=
    if bool_decide (currentDisposal = RestoreToPrevious)
    then Some canvas else fs_previousCanvas st in
  match decompressLZW compressedData lzwMinimumCodeSize with
  | Ok indexData =>
      let canvas :=
        compositeFrame canvas indexData frameLeft frameTop frameWidth
          frameHeight colorTable (fs_currentTransparentIndex st)
          interlaceFlag (sc_width sc) (sc_height sc) in
      let frame :=
        mkGifFrame (mkImageData canvas (sc_width sc) (sc_height sc))
          (fs_currentDelay st) currentDisposal 0 0
          (fs_currentTransparentIndex st) in
      Ok (mkFramesState p canvas previousCanvas 100 DoNotDispose (-1)
            (fs_frames st ++ [frame]))
  | Throw _ =>
      let errorFrame :=
        mkGifFrame
          (mkImageData (repeat 255 (Z.to_nat (frameWidth * frameHeight * 4)))
             frameWidth frameHeight)
          (fs_currentDelay st) currentDisposal frameLeft frameTop
          (fs_currentTransparentIndex st) in
      Ok (mkFramesState p canvas previousCanvas 100 DoNotDispose (-1)
            (fs_frames st ++ [errorFrame]))
  | OutOfFuel => OutOfFuel
  end.

(** The branch [separator === 0x2c]. *)
Definition readImage (sc : screen) (st : frames_state) (p : Z)
  : result frames_state :=
  let data := sc_data sc in
  let! (frameLeft, p) := read16 data p in
  let! (frameTop, p) := read16 data p in
  let! (frameWidth, p) := read16 data p in
  let! (frameHeight, p) := read16 data p in
  let! (framePacked, p) := readByte data p in
  let localColorTableFlag := negb (Z.land framePacked 0x80 =? 0) in
  let interlaceFlag := negb (Z.land framePacked 0x40 =? 0) in
  let localColorTableSize :=
    if localColorTableFlag then Z.shiftl 2 (Z.land framePacked 0x07) else 0 in
  let! (localColorTable, p) :=
    if localColorTableFlag
    then let! (t, p) := readBytes data p (localColorTableSize * 3) in
         Ok (Some t, p)
    else Ok (None, p) in
  let colorTable :=
    match localColorTable with
    | Some t => Some t
    | None => sc_globalColorTable sc
    end in
  let! (lzwMinimumCodeSize, p) := readByte data p in
  let! (compressedData, p) := readDataSubBlocks data p in
  processImage sc st p frameLeft frameTop frameWidth frameHeight colorTable
    interlaceFlag lzwMinimumCodeSize compressedData.

(** One turn of [while (this.position < this.data.length)]. *)
Definition getFrames_step (sc : screen) (st : frames_state)
  : result (step_result frames_state) :=
  let data := sc_data sc in
  if negb (fs_position st <? len data) then Ok (Break st)
  else
    let! (separator, p) := readByte data (fs_position st) in
    if separator =? 0x21 then
      let! (label, p) := readByte data p in
      if label =? 0xff then
        let! (blockSize, p) := readByte data p in
        let! (appData, p) := readBytes data p blockSize in
        if knownApplicationExtension blockSize appData then
          let! p := skipDataSubBlocks data p in
          Ok (Continue (with_position st p))
        else
          let! p := skipDataSubBlocks data p in
          Ok (Continue (with_position st p))
      else if label =? 0xf9 then
        let! st' := readGraphicsControl data st p in
        Ok (Continue st')
      else if label =? 0xfe then
        let! p := skipDataSubBlocks data p in
        Ok (Continue (with_position st p))
      else if label =? 0x01 then
        let! (blockSize, p) := readByte data p in
        let! (_, p) := readBytes data p blockSize in
        let! p := skipDataSubBlocks data p in
        Ok (Continue (with_position st p))
      else if label =? 0xfd then
        let! p := skipDataSubBlocks data p in
        Ok (Continue (with_position st p))
      else if (0x80 <=? label) && (label <=? 0xfc) then
        let! p := skipDataSubBlocks data p in
        Ok (Continue (with_position st p))
      else
        match skipDataSubBlocks data p with
        | Ok p => Ok (Continue (with_position st p))
        | Throw _ => Ok (Break st)
        | OutOfFuel => OutOfFuel
        end
    else if separator =? 0x2c then
      let! st' := readImage sc st p in
      Ok (Continue st')
    else if separator =? 0x3b then Ok (Break (with_position st p))
    else Throw (GifValidationError UnknownSeparator).

(** The canvas before the first frame. *)
Definition initialCanvas (width height : Z)
    (globalColorTable : option (list Z)) (backgroundColorIndex : Z) : list Z :=
  match backgroundColor globalColorTable backgroundColorIndex with
  | Some (bgR, bgG, bgB) =>
      concat (repeat [bgR; bgG; bgB; 255] (Z.to_nat (width * height)))
  | None => repeat 0 (Z.to_nat (width * height * 4))
  end.

(** [new GifReader(data).getFrames()]. *)
Definition getFrames (data : list Z) : result (list GifFrame) :=
  validateHeader data ;;!
  let p := 6 in
  let! (width, p) := read16 data p in
  let! (height, p) := read16 data p in
  let! (packed, p) := readByte data p in
  let! (backgroundColorIndex, p) := readByte data p in
  let! (_, p) := readByte data p in
  let globalColorTableFlag := negb (Z.land packed 0x80 =? 0) in
  let globalColorTableSize := Z.shiftl 2 (Z.land packed 0x07) in
  let! (globalColorTable, p) :=
    if globalColorTableFlag
    then let! (t, p) := readBytes data p (globalColorTableSize * 3) in
         Ok (Some t, p)
    else Ok (None, p) in
  let canvas := initialCanvas width height globalColorTable backgroundColorIndex in
  let sc := mkScreen data width height globalColorTable backgroundColorIndex in
  let! st :=
    while_loop (S (length data)) (getFrames_step sc)
      (mkFramesState p canvas None 100 DoNotDispose (-1) []) in
  Ok (fs_frames st).

(** ** gif-result.ts: the median-cut quantizer *)

Record RGBColor := mkRGB {
  red : Z;
  green : Z;
  blue : Z
}.

Global Instance RGBColor_eq_dec : EqDecision RGBColor.
Proof. solve_decision. Defined.

(** [colorDistanceSquared] and [findClosestColorIndex] of utils.ts. *)
Definition colorDistanceSquared (a b : RGBColor) : Z :=
  let dr := red a - red b in
  let dg := green a - green b in
  let db := blue a - blue b in
  dr * dr + dg * dg + db * db.

(** The [for (let i = 1; ...)] loop, with its [break] on a perfect match. *)
Fixpoint closest_loop (target : RGBColor) (rest : list RGBColor) (i : Z)
    (bestIndex bestDistance : Z) : Z :=
  match rest with
  | [] => bestIndex
  | c :: rest' =>
      let distance := colorDistanceSquared target c in
      if distance <? bestDistance then
        if distance =? 0 then i
        else closest_loop target rest' (i + 1) i distance
      else closest_loop target rest' (i + 1) bestIndex bestDistance
  end.

Definition findClosestColorIndex (target : RGBColor) (palette : list RGBColor)
  : result Z :=
  match palette with
  | [] => Throw (GifValidationError EmptyPaletteSearch)
  | c0 :: rest =>
      Ok (closest_loop target rest 1 0 (colorDistanceSquared target c0))
  end.

Record ColorCubeStats := mkStats {
  minRed : Z; maxRed : Z;
  minGreen : Z; maxGreen : Z;
  minBlue : Z; maxBlue : Z;
  cube_size : Z
}.

Inductive ColorComponent := CRed | CGreen | CBlue.

Definition component (c : ColorComponent) (color : RGBColor) : Z :=
  match c with
  | CRed => red color
  | CGreen => green color
  | CBlue => blue color
  end.

Definition analyzeColorCube (colors : list RGBColor) : result ColorCubeStats :=
  match colors with
  | [] => Throw (GifValidationError EmptyColorCube)
  | _ =>
      Ok (foldl (fun st color =>
                   mkStats (Z.min (minRed st) (red color))
                           (Z.max (maxRed st) (red color))
                           (Z.min (minGreen st) (green color))
                           (Z.max (maxGreen st) (green color))
                           (Z.min (minBlue st) (blue color))
                           (Z.max (maxBlue st) (blue color))
                           (cube_size st))
                (mkStats 255 0 255 0 255 0 (len colors)) colors)
  end.

(** [findLargestComponent].  The ranges are integers in [0, 255] and the
    weights are 1.0, 0.8 and 0.5; the comparisons are made on ten times the
    weighted ranges, which are integers. *)
Definition findLargestComponent (stats : ColorCubeStats) : ColorComponent :=
  let redRange := (maxRed stats - minRed stats) * 10 in
  let greenRange := (maxGreen stats - minGreen stats) * 8 in
  let blueRange := (maxBlue stats - minBlue stats) * 5 in
  if blueRange <=? greenRange
  then (if greenRange <=? redRange then CRed else CGreen)
  else (if blueRange <=? redRange then CRed else CBlue).

Definition arr_get (arr : list Z) (i : Z) : Z := nth (Z.to_nat i) arr 0.
Definition arr_swap (arr : list Z) (i j : Z) : list Z :=
  let ai := arr_get arr i in
  let aj := arr_get arr j in
  <[ Z.to_nat j := ai ]> (<[ Z.to_nat i := aj ]> arr).

(** [partition]: the array after the swaps, and the pivot's index. *)
Definition partition (arr : list Z) (left right : Z) : list Z * Z :=
  let pivot := arr_get arr right in
  let '(arr, i) :=
    foldl (fun '(arr, i) j =>
             if arr_get arr j <=? pivot
             then (arr_swap arr i j, i + 1)
             else (arr, i))
          (arr, left) (seqZ left (right - left)) in
  (arr_swap arr i right, i).

(** The [while (left < right)] loop of [quickSelect]. *)
Fixpoint quickSelect (fuel : nat) (arr : list Z) (left right k : Z)
  : option Z :=
  if left <? right then
    match fuel with
    | O => None
    | S fuel' =>
        let '(arr, pivotIndex) := partition arr left right in
        if pivotIndex =? k then Some (arr_get arr k)
        else if pivotIndex <? k
        then quickSelect fuel' arr (pivotIndex + 1) right k
        else quickSelect fuel' arr left (pivotIndex - 1) k
    end
  else Some (arr_get arr k).

Definition selectKthElement (array : list Z) (k : Z) : result Z :=
  if (k <? 0) || (len array <=? k)
  then Throw (GifValidationError InvalidK)
  else match quickSelect (length array) array 0 (len array - 1) k with
       | Some v => Ok v
       | None => OutOfFuel
       end.

Definition findMedian (colors : list RGBColor) (c : ColorComponent)
  : result Z :=
  let values := map (component c) colors in
  selectKthElement values (len values / 2).

Definition splitColorCube (colors : list RGBColor)
  : result (list (list RGBColor)) :=
  if len colors <=? 1 then Ok [colors]
  else
    let! stats := analyzeColorCube colors in
    let c := findLargestComponent stats in
    let! median := findMedian colors c in
    let lowerHalf := filter (fun color => component c color < median) colors in
    let upperHalf := filter (fun color => ~ component c color < median) colors in
    if (len lowerHalf =? 0) || (len upperHalf =? 0) then Ok [colors]
    else Ok [lowerHalf; upperHalf].

Definition calculateAverageColor (colors : list RGBColor) : result RGBColor :=
  match colors with
  | [] => Throw (GifValidationError EmptyAverage)
  | _ =>
      let totalRed := foldl (fun t c => t + red c) 0 colors in
      let totalGreen := foldl (fun t c => t + green c) 0 colors in
      let totalBlue := foldl (fun t c => t + blue c) 0 colors in
      let count := len colors in
      Ok (mkRGB (totalRed / count) (totalGreen / count) (totalBlue / count))
  end.

(** [findLargestCube], as the index of the cube it returns: the first one
    of the largest size. *)
Fixpoint largest_loop (rest : list (list RGBColor)) (i : nat)
    (largest : nat) (maxSize : Z) : nat :=
  match rest with
  | [] => largest
  | cube :: rest' =>
      if maxSize <? len cube
      then largest_loop rest' (S i) i (len cube)
      else largest_loop rest' (S i) largest maxSize
  end.

Definition findLargestCube (cubes : list (list RGBColor)) : result nat :=
  match cubes with
  | [] => Throw (GifValidationError EmptyCubeList)
  | c0 :: rest => Ok (largest_loop rest 1 0 (len c0))
  end.

(** One turn of [while (cubes.length < maxColors)] in [medianCut]. *)
Definition medianCut_step (maxColors : Z) (cubes : list (list RGBColor))
  : result (step_result (list (list RGBColor))) :=
  if negb (len cubes <? maxColors) then Ok (Break cubes)
  else
    let! index := findLargestCube cubes in
    let largest := nth index cubes [] in
    if len largest <=? 1 then Ok (Break cubes)
    else
      let! splits := splitColorCube largest in
      if len splits =? 1 then Ok (Break cubes)
      else Ok (Continue (delete index cubes ++ splits)).

Definition medianCut (colors : list RGBColor) (maxColors : Z)
  : result (list (list RGBColor)) :=
  if maxColors <=? 0 then Throw (GifValidationError InvalidMaxColors)
  else if len colors <=? maxColors then Ok (map (fun color => [color]) colors)
  else while_loop (Z.to_nat maxColors) (medianCut_step maxColors) [colors].

(** [extractColors]: the distinct colours in order of first appearance
    (the values of an insertion-ordered map keyed by the colour).  The
    image data holds at least [4 * width * height] bytes. *)
Definition pixel_color (data : list Z) (i : Z) : RGBColor :=
  let offset := i * 4 in
  mkRGB (byte_at data offset) (byte_at data (offset + 1))
        (byte_at data (offset + 2)).

Definition extractColors (imageData : ImageData) : list RGBColor :=
  foldl (fun colorMap i =>
           let color := pixel_color (id_data imageData) i in
           if bool_decide (color ∈ colorMap) then colorMap
           else colorMap ++ [color])
        [] (seqZ 0 (id_width imageData * id_height imageData)).

Global Instance RGBColor_countable : Countable RGBColor.
Proof.
  refine (inj_countable' (fun c => (red c, green c, blue c))
            (fun '(r, g, b) => mkRGB r g b) _).
  intros []. reflexivity.
Defined.

Record MedianCutQuantizer := mkQuantizer {
  q_maxColors : Z;
  q_palette : list RGBColor;
  q_colorMap : gmap RGBColor Z
}.

Definition newMedianCutQuantizer (maxColors : Z) : result MedianCutQuantizer :=
  if (maxColors <=? 0) || (256 <? maxColors)
  then Throw (GifValidationError InvalidMaxColors)
  else Ok (mkQuantizer maxColors [] ∅).

Definition buildColorMap (cubes : list (list RGBColor)) : gmap RGBColor Z :=
  fst (foldl (fun '(m, paletteIndex) cube =>
                (foldl (fun m color => <[ color := paletteIndex ]> m) m cube,
                 paletteIndex + 1))
             (∅, 0) cubes).

(** [mapColor]: the index, and the colour map with the answer cached. *)
Definition mapColor (palette : list RGBColor) (colorMap : gmap RGBColor Z)
    (color : RGBColor) : result (Z * gmap RGBColor Z) :=
  match colorMap !! color with
  | Some index => Ok (index, colorMap)
  | None =>
      let! index := findClosestColorIndex color palette in
      Ok (index, <[ color := index ]> colorMap)
  end.

(** [convertToIndexed]; a store into the [Uint8Array] keeps the low byte. *)
Definition convertToIndexed (palette : list RGBColor)
    (colorMap : gmap RGBColor Z) (imageData : ImageData)
  : result (list Z * gmap RGBColor Z) :=
  for_each (fun '(indexed, colorMap) i =>
              let color := pixel_color (id_data imageData) i in
              let! (index, colorMap) := mapColor palette colorMap color in
              Ok (indexed ++ [index mod 256], colorMap))
           (seqZ 0 (id_width imageData * id_height imageData))
           ([], colorMap).

Definition getPaletteData (palette : list RGBColor) : list Z :=
  flat_map (fun color => [red color mod 256; green color mod 256;
                          blue color mod 256]) palette.

Definition quantize (q : MedianCutQuantizer) (imageData : ImageData)
  : result (IndexedImage * MedianCutQuantizer) :=
  let uniqueColors := extractColors imageData in
  let! cubes := medianCut uniqueColors (q_maxColors q) in
  let! palette := for_each (fun acc cube =>
                              let! c := calculateAverageColor cube in
                              Ok (acc ++ [c])) cubes [] in
  let colorMap := buildColorMap cubes in
  let! (indexedData, colorMap) := convertToIndexed palette colorMap imageData in
  let paletteData := getPaletteData palette in
  Ok (mkIndexedImage (id_width imageData) (id_height imageData) indexedData
        paletteData,
      mkQuantizer (q_maxColors q) palette colorMap).

(** [new MedianCutQuantizer(maxColors).quantize(imageData)]. *)
Definition quantizeImage (imageData : ImageData) (maxColors : Z)
  : result IndexedImage :=
  let! q := newMedianCutQuantizer maxColors in
  let! (image, _) := quantize q imageData in
  Ok image.

(** ** utils.ts: colours and palettes *)

Definition validateColorIntensity (value : Z) : result unit :=
  if (value <? 0) || (255 <? value)
  then Throw (GifValidationError InvalidColorIntensity)
  else Ok tt.

Definition validateRGBColor (color : RGBColor) : result unit :=
  validateColorIntensity (red color) ;;!
  validateColorIntensity (green color) ;;!
  validateColorIntensity (blue color).

Definition createColor (red green blue : Z) : result RGBColor :=
  let color := mkRGB red green blue in
  validateRGBColor color ;;! Ok color.

(** The [for (let i = 0; i < palette.length; i += 3)] loop of
    [paletteToColors]. *)
Fixpoint paletteToColors_loop (fuel : nat) (palette : list Z) (i : Z)
    (colors : list RGBColor) : result (list RGBColor) :=
  if i <? len palette then
    match fuel with
    | O => OutOfFuel
    | S fuel' =>
        paletteToColors_loop fuel' palette (i + 3)
          (colors ++ [mkRGB (byte_at palette i) (byte_at palette (i + 1))
                            (byte_at palette (i + 2))])
    end
  else Ok colors.

Definition paletteToColors (palette : list Z) : result (list RGBColor) :=
  validatePalette palette ;;!
  paletteToColors_loop (length palette) palette 0 [].

(** [colorsToPalette]: each colour is validated before its three bytes are
    stored. *)
Definition colorsToPalette (colors : list RGBColor) : result (list Z) :=
  for_each (fun palette color =>
              validateRGBColor color ;;!
              Ok (palette ++ [red color; green color; blue color]))
           colors [].

(** ** reader.ts: the header information *)

Definition isValidGif (data : list Z) : bool :=
  match validateHeader data with
  | Ok _ => true
  | _ => false
  end.

(** [GifResult.isValidGif] of gif-result.ts: the six signature bytes. *)
Definition GifResult_isValidGif (data : list Z) : bool :=
  if len data <? 6 then false
  else (byte_at data 0 =? 0x47) && (byte_at data 1 =? 0x49)
       && (byte_at data 2 =? 0x46) && (byte_at data 3 =? 0x38)
       && ((byte_at data 4 =? 0x37) || (byte_at data 4 =? 0x39))
       && (byte_at data 5 =? 0x61).

(** The names [parse] records in [metadata.extensions]. *)
Inductive ExtensionName :=
| NetscapeAnimation
| XMPMetadata
| ICCColorProfile
| MAGPIEExtension (identifier : list Z)
| AdobeExtension (identifier : list Z)
| AnimationExtensions
| ApplicationExtension (identifier : list Z)
| CommentExtension
| PlainTextExtension
| UnknownExtensionFD
| PrivateExtension (label : Z)
| UnknownExtension (label : Z).

Record GifMetadata := mkGifMetadata {
  m_extensions : list ExtensionName;
  m_comments : list (list Z);
  m_xmpData : option (list Z);
  m_hasInterlacedFrames : bool;
  m_hasLocalColorTables : bool;
  m_hasTransparency : bool;
  m_totalDataSize : Z;
  m_averageFrameSize : Z
}.

Record GifInfo := mkGifInfo {
  gi_width : Z;
  gi_height : Z;
  gi_frameCount : Z;
  gi_loops : Z;
  gi_globalColorTable : option (list Z);
  gi_backgroundColorIndex : Z;
  gi_pixelAspectRatio : Z;
  gi_colorResolution : Z;
  gi_sortFlag : bool;
  gi_duration : Z;
  gi_size : Z;
  gi_version : list Z;
  gi_metadata : GifMetadata
}.

(** The state of the record loop of [parse]. *)
Record parse_state := mkParseState {
  ps_position : Z;
  ps_loops : Z;
  ps_frameCount : Z;
  ps_totalDuration : Z;
  ps_extensions : list ExtensionName;
  ps_comments : list (list Z);
  ps_xmpData : option (list Z);
  ps_hasInterlacedFrames : bool;
  ps_hasLocalColorTables : bool;
  ps_hasTransparency : bool
}.

Definition ps_at (st : parse_state) (p : Z) : parse_state :=
  mkParseState p (ps_loops st) (ps_frameCount st) (ps_totalDuration st)
    (ps_extensions st) (ps_comments st) (ps_xmpData st)
    (ps_hasInterlacedFrames st) (ps_hasLocalColorTables st)
    (ps_hasTransparency st).

Definition ps_extension (st : parse_state) (name : ExtensionName)
  : parse_state :=
  mkParseState (ps_position st) (ps_loops st) (ps_frameCount st)
    (ps_totalDuration st) (ps_extensions st ++ [name]) (ps_comments st)
    (ps_xmpData st) (ps_hasInterlacedFrames st) (ps_hasLocalColorTables st)
    (ps_hasTransparency st).

Definition str_NETSCAPE : list Z := [78;69;84;83;67;65;80;69].
Definition str_ICCRGBG1012 : list Z := [73;67;67;82;71;66;71;49;48;49;50].

(** The branch [label === 0xff] of [parse].  Texts are kept as their char
    codes; [String.fromCharCode(...bytes)] is taken to succeed, so the
    [catch] branches that name binary data are left out. *)
Definition parseApplicationExtension (data : list Z) (st : parse_state)
    (p : Z) : result parse_state :=
  let! (blockSize, p) := readByte data p in
  let! (appData, p) := readBytes data p blockSize in
  if (blockSize =? 11) && list_eqb (firstn 8 appData) str_NETSCAPE then
    let st := ps_extension st NetscapeAnimation in
    let! (subBlockSize, p) := readByte data p in
    let! (loops, p) :=
      if subBlockSize =? 3 then
        let! (_, p) := readByte data p in
        read16 data p
      else Ok (ps_loops st, p) in
    let! (_, p) := readByte data p in
    Ok (mkParseState p loops (ps_frameCount st) (ps_totalDuration st)
          (ps_extensions st) (ps_comments st) (ps_xmpData st)
          (ps_hasInterlacedFrames st) (ps_hasLocalColorTables st)
          (ps_hasTransparency st))
  else if (blockSize =? 11) && list_eqb appData str_XMP then
    let st := ps_extension st XMPMetadata in
    let! (xmpData, p) := readDataSubBlocks data p in
    Ok (mkParseState p (ps_loops st) (ps_frameCount st) (ps_totalDuration st)
          (ps_extensions st) (ps_comments st)
          (if 0 <? len xmpData then Some xmpData else ps_xmpData st)
          (ps_hasInterlacedFrames st) (ps_hasLocalColorTables st)
          (ps_hasTransparency st))
  else if (blockSize =? 11)
          && (list_eqb appData str_ICCRGBG1012
              || startsWith appData str_ICCRGBG1) then
    let! p := skipDataSubBlocks data p in
    Ok (ps_at (ps_extension st ICCColorProfile) p)
  else if (8 <=? blockSize)
          && (list_eqb (firstn 8 appData) str_MAGPIE01
              || list_eqb (firstn 8 appData) str_MAGPIE02) then
    let! p := skipDataSubBlocks data p in
    Ok (ps_at (ps_extension st (MAGPIEExtension (firstn 8 appData))) p)
  else if (8 <=? blockSize) && startsWith (firstn 8 appData) str_ADOBE then
    let! p := skipDataSubBlocks data p in
    Ok (ps_at (ps_extension st (AdobeExtension (firstn 8 appData))) p)
  else if (11 <=? blockSize) && list_eqb (firstn 11 appData) str_ANIMEXTS then
    let! p := skipDataSubBlocks data p in
    Ok (ps_at (ps_extension st AnimationExtensions) p)
  else
    let st :=
      if 0 <? blockSize
      then ps_extension st
             (ApplicationExtension
                (firstn (Z.to_nat (Z.min blockSize 16)) appData))
      else st in
    let! p := skipDataSubBlocks data p in
    Ok (ps_at st p).

(** The branch [label === 0xf9] of [parse]. *)
Definition parseGraphicsControl (data : list Z) (st : parse_state) (p : Z)
  : result parse_state :=
  let! (blockSize, p) := readByte data p in
  if blockSize =? 4 then
    let! (packed, p) := readByte data p in
    let! (d, p) := read16 data p in
    let delay := d * 10 in
    let! (transparentIndex, p) := readByte data p in
    let! (_, p) := readByte data p in
    let hasTransparency :=
      if negb (transparentIndex =? 0) && negb (Z.land packed 0x01 =? 0)
      then true else ps_hasTransparency st in
    Ok (mkParseState p (ps_loops st) (ps_frameCount st)
          (ps_totalDuration st + delay) (ps_extensions st) (ps_comments st)
          (ps_xmpData st) (ps_hasInterlacedFrames st)
          (ps_hasLocalColorTables st) hasTransparency)
  else
    let! (_, p) := readByte data (p + blockSize) in
    Ok (ps_at st p).

(** The branch [separator === 0x2c] of [parse]: the frame is counted and
    skipped. *)
Definition parseImage (data : list Z) (st : parse_state) (p : Z)
  : result parse_state :=
  let frameCount := ps_frameCount st + 1 in
  let p := p + 8 in
  let! (packed, p) := readByte data p in
  let localColorTableFlag := negb (Z.land packed 0x80 =? 0) in
  let interlaceFlag := negb (Z.land packed 0x40 =? 0) in
  let localColorTableSize :=
    if localColorTableFlag then Z.shiftl 2 (Z.land packed 0x07) else 0 in
  let p := if localColorTableFlag then p + localColorTableSize * 3 else p in
  let! (_, p) := readByte data p in
  let! p := skipDataSubBlocks data p in
  Ok (mkParseState p (ps_loops st) frameCount (ps_totalDuration st)
        (ps_extensions st) (ps_comments st) (ps_xmpData st)
        (if interlaceFlag then true else ps_hasInterlacedFrames st)
        (if localColorTableFlag then true else ps_hasLocalColorTables st)
        (ps_hasTransparency st)).

(** One turn of [while (this.position < this.data.length)] in [parse]. *)
Definition parse_step (data : list Z) (st : parse_state)
  : result (step_result parse_state) :=
  if negb (ps_position st <? len data) then Ok (Break st)
  else
    let! (separator, p) := readByte data (ps_position st) in
    if separator =? 0x21 then
      let! (label, p) := readByte data p in
      if label =? 0xff then
        let! st' := parseApplicationExtension data st p in
        Ok (Continue st')
      else if label =? 0xf9 then
        let! st' := parseGraphicsControl data st p in
        Ok (Continue st')
      else if label =? 0xfe then
        let! (commentData, p) := readDataSubBlocks data p in
        if 0 <? len commentData then
          Ok (Continue
                (mkParseState p (ps_loops st) (ps_frameCount st)
                   (ps_totalDuration st)
                   (ps_extensions st ++ [CommentExtension])
                   (ps_comments st ++ [commentData]) (ps_xmpData st)
                   (ps_hasInterlacedFrames st) (ps_hasLocalColorTables st)
                   (ps_hasTransparency st)))
        else Ok (Continue (ps_at st p))
      else if label =? 0x01 then
        let st := ps_extension st PlainTextExtension in
        let! (blockSize, p) := readByte data p in
        let! (_, p) := readBytes data p blockSize in
        let! p := skipDataSubBlocks data p in
        Ok (Continue (ps_at st p))
      else if label =? 0xfd then
        let! p := skipDataSubBlocks data p in
        Ok (Continue (ps_at (ps_extension st UnknownExtensionFD) p))
      else if (0x80 <=? label) && (label <=? 0xfc) then
        let! p := skipDataSubBlocks data p in
        Ok (Continue (ps_at (ps_extension st (PrivateExtension label)) p))
      else
        let st := ps_extension st (UnknownExtension label) in
        match skipDataSubBlocks data p with
        | Ok p => Ok (Continue (ps_at st p))
        | Throw _ => Ok (Break st)
        | OutOfFuel => OutOfFuel
        end
    else if separator =? 0x2c then
      let! st' := parseImage data st p in
      Ok (Continue st')
    else if separator =? 0x3b then Ok (Break (ps_at st p))
    else Throw (GifValidationError UnknownSeparator).

(** [parse], run after the constructor has checked the header. *)
Definition parse (data : list Z) : result GifInfo :=
  let p := 6 in
  let! (width, p) := read16 data p in
  let! (height, p) := read16 data p in
  let! (packed, p) := readByte data p in
  let! (backgroundColorIndex, p) := readByte data p in
  let! (pixelAspectRatio, p) := readByte data p in
  let globalColorTableFlag := negb (Z.land packed 0x80 =? 0) in
  let colorResolution := Z.shiftr (Z.land packed 0x70) 4 + 1 in
  let sortFlag := negb (Z.land packed 0x08 =? 0) in
  let globalColorTableSize := Z.shiftl 2 (Z.land packed 0x07) in
  let! (globalColorTable, p) :=
    if globalColorTableFlag
    then let! (t, p) := readBytes data p (globalColorTableSize * 3) in
         Ok (Some t, p)
    else Ok (None, p) in
  let! st :=
    while_loop (S (length data)) (parse_step data)
      (mkParseState p 0 0 0 [] [] None false false false) in
  let frameCount := ps_frameCount st in
  Ok (mkGifInfo width height frameCount (ps_loops st) globalColorTable
        backgroundColorIndex pixelAspectRatio colorResolution sortFlag
        (ps_totalDuration st) (len data) (slice data 3 6)
        (mkGifMetadata (ps_extensions st) (ps_comments st) (ps_xmpData st)
           (ps_hasInterlacedFrames st) (ps_hasLocalColorTables st)
           (ps_hasTransparency st) (len data)
           (if 0 <? frameCount then round_div (len data) frameCount else 0))).

(** [readGifInfo]: [new GifReader(data).getInfo()]. *)
Definition readGifInfo (data : list Z) : result GifInfo :=
  validateHeader data ;;! parse data.

Definition isAnimated (data : list Z) : result bool :=
  let! info := readGifInfo data in
  Ok (1 <? gi_frameCount info).

(** The [for (let i = 0; i < n; i++)] loop of [getAllColors] and
    [getDominantColors], over the colours [0 .. n - 1] of the table; the
    bound [i < length / 3] is [3 * i < length]. *)
Definition tableColors (colorTable : list Z) (count : option Z)
  : list RGBColor :=
  let n := ceil_div (len colorTable) 3 in
  let n := match count with
           | Some c => Z.min c n
           | None => n
           end in
  map (fun i => mkRGB (byte_at colorTable (i * 3))
                      (byte_at colorTable (i * 3 + 1))
                      (byte_at colorTable (i * 3 + 2)))
      (seqZ 0 n).

Definition getAllColors (data : list Z) : result (list RGBColor) :=
  let! info := readGifInfo data in
  match gi_globalColorTable info with
  | None => Ok []
  | Some colorTable => Ok (tableColors colorTable None)
  end.

Definition getDominantColors (data : list Z) (count : Z)
  : result (list RGBColor) :=
  let! info := readGifInfo data in
  match gi_globalColorTable info with
  | None => Ok []
  | Some colorTable => Ok (tableColors colorTable (Some count))
  end.

(** ** gif-result.ts and index.ts: ready-made GIFs *)

(** [new GifResult(data)]: the bytes of the result; empty data is refused. *)
Definition newGifResult (data : list Z) : result (list Z) :=
  if len data =? 0 then Throw (GifValidationError GifDataEmpty)
  else Ok data.

(** [createStaticGif]: quantize, then write a single frame. *)
Definition createStaticGif (imageData : ImageData) (maxColors : Z)
    (globalColorTable : GlobalColorTableOptions) (imageOptions : ImageOptions)
  : result (list Z) :=
  let! indexedImage := quantizeImage imageData maxColors in
  let! bytes := encodeStatic indexedImage globalColorTable imageOptions in
  newGifResult bytes.

(** [createSolidColorGif]: one palette entry, every pixel index 0.  Memory
    is taken to be unbounded: [new Uint8Array(pixelCount)] always succeeds
    here, and a size that is far too large is refused by the dimension
    check of the writer. *)
Definition createSolidColorGif (width height : Z) (color : RGBColor)
  : result (list Z) :=
  if width <=? 0 then Throw (GifValidationError InvalidSolidWidth)
  else if height <=? 0 then Throw (GifValidationError InvalidSolidHeight)
  else if (red color <? 0) || (255 <? red color)
  then Throw (GifValidationError InvalidRedValue)
  else if (green color <? 0) || (255 <? green color)
  then Throw (GifValidationError InvalidGreenValue)
  else if (blue color <? 0) || (255 <? blue color)
  then Throw (GifValidationError InvalidBlueValue)
  else
    let pixelCount := width * height in
    let data := repeat 0 (Z.to_nat pixelCount) in
    let palette := [red color; green color; blue color] in
    let! bytes := encodeStatic (mkIndexedImage width height data palette)
                    noGlobalOptions noImageOptions in
    newGifResult bytes.

(* ================================================================= *)
(** * Properties *)
(* ================================================================= *)

(** ** Colour tables: size field and padding *)

Lemma colorTableSize_loop_spec fuel : forall size pow2 C s,
  0 <= size -> pow2 = 2 ^ (size + 1) ->
  (forall s', 0 <= s' < size -> 2 ^ (s' + 1) < C) ->
  colorTableSize_loop fuel size pow2 C = Some s ->
  size <= s /\ C <= 2 ^ (s + 1) /\ (forall s', 0 <= s' < s -> 2 ^ (s' + 1) < C).
Proof.
  induction fuel as [|fuel IH]; intros size pow2 C s Hsz Hp Hlow; simpl.
  - destruct (pow2 <? C) eqn:E; [discriminate|].
    intros [= <-]. apply Z.ltb_ge in E. subst pow2. auto with zarith.
  - destruct (pow2 <? C) eqn:E.
    + apply Z.ltb_lt in E. intros H.
      apply IH in H; try lia.
      * destruct H as (H1 & H2 & H3). repeat split; auto with zarith.
      * rewrite Z.shiftl_mul_pow2 by lia. subst pow2.
        replace (size + 1 + 1) with (Z.succ (size + 1)) by lia.
        rewrite Z.pow_succ_r by lia. lia.
      * intros s' Hs'. destruct (Z.eq_dec s' size) as [->|]; [lia|].
        apply Hlow. lia.
    + intros [= <-]. apply Z.ltb_ge in E. subst pow2. auto with zarith.
Qed.

Lemma colorTableSize_loop_fuel fuel : forall size pow2 C,
  0 <= size -> pow2 = 2 ^ (size + 1) ->
  C <= 2 ^ (size + Z.of_nat fuel + 1) ->
  exists s, colorTableSize_loop fuel size pow2 C = Some s.
Proof.
  induction fuel as [|fuel IH]; intros size pow2 C Hsz Hp HC; simpl.
  - replace (size + Z.of_nat 0 + 1) with (size + 1) in HC by lia.
    destruct (pow2 <? C) eqn:E; [apply Z.ltb_lt in E; lia | eauto].
  - destruct (pow2 <? C) eqn:E; [|eauto].
    apply IH; [lia| |].
    + rewrite Z.shiftl_mul_pow2 by lia. subst pow2.
      replace (size + 1 + 1) with (Z.succ (size + 1)) by lia.
      rewrite Z.pow_succ_r by lia. lia.
    + replace (size + 1 + Z.of_nat fuel + 1) with (size + Z.of_nat (S fuel) + 1) by lia. exact HC.
Qed.

Lemma len_app {A} (l1 l2 : list A) : len (l1 ++ l2) = len l1 + len l2.
Proof. unfold len. rewrite length_app. lia. Qed.

Lemma len_nonneg {A} (l : list A) : 0 <= len l.
Proof. unfold len. lia. Qed.

(** C7. For a colour count [C] in [1, 256], [calculateColorTableSize]
    returns the least [s] in [0, 7] with [2^(s+1) >= C]; padding a palette
    of [C] colours with that size field gives exactly [3 * 2^(s+1)] bytes:
    the palette followed by zeros. *)
Theorem color_table_size_and_padding (C : Z) (palette : list Z) :
  1 <= C <= 256 ->
  len palette = 3 * C ->
  exists s,
    calculateColorTableSize C = Ok s /\
    0 <= s <= 7 /\ C <= 2 ^ (s + 1) /\
    (forall s', 0 <= s' < s -> 2 ^ (s' + 1) < C) /\
    len (padColorTable palette s) = 3 * 2 ^ (s + 1) /\
    firstn (Z.to_nat (3 * C)) (padColorTable palette s) = palette /\
    skipn (Z.to_nat (3 * C)) (padColorTable palette s)
      = repeat 0 (Z.to_nat (3 * 2 ^ (s + 1) - 3 * C)).
Proof.
  intros HC Hlen. unfold calculateColorTableSize, MAX_COLORS.
  replace ((C <=? 0) || (256 <? C)) with false
    by (symmetry; apply orb_false_iff; split; [apply Z.leb_gt|apply Z.ltb_ge]; lia).
  destruct (colorTableSize_loop_fuel 8 0 2 C) as [s Hs]; [lia|reflexivity| |].
  { change (2 ^ (0 + Z.of_nat 8 + 1)) with 512. lia. }
  rewrite Hs. exists s.
  pose proof (colorTableSize_loop_spec 8 0 2 C s ltac:(lia) eq_refl
                ltac:(intros; lia) Hs) as (H0 & Hup & Hmin).
  assert (Hs7 : s <= 7).
  { destruct (Z_le_gt_dec s 7) as [|Hgt]; [assumption|].
    specialize (Hmin 7 ltac:(lia)). change (2 ^ (7 + 1)) with 256 in Hmin. lia. }
  assert (Hlenn : length palette = Z.to_nat (3 * C)) by (unfold len in Hlen; lia).
  split; [reflexivity|]. split; [lia|]. split; [assumption|].
  split; [assumption|].
  unfold padColorTable. rewrite Z.shiftl_mul_pow2 by lia. rewrite Z.mul_1_l.
  destruct (3 * 2 ^ (s + 1) <=? len palette) eqn:E.
  - apply Z.leb_le in E. assert (C = 2 ^ (s + 1)) by lia.
    split; [lia|]. split.
    + rewrite <- Hlenn. apply firstn_all.
    + rewrite <- Hlenn, skipn_all.
      replace (3 * 2 ^ (s + 1) - 3 * C) with 0 by lia. reflexivity.
  - apply Z.leb_gt in E. split; [|split].
    + rewrite len_app. unfold len in *. rewrite repeat_length. lia.
    + rewrite <- Hlenn. rewrite firstn_app, firstn_all, Nat.sub_diag. simpl.
      apply app_nil_r.
    + rewrite <- Hlenn. rewrite skipn_app, skipn_all, Nat.sub_diag.
      rewrite app_nil_l, drop_0. f_equal. unfold len in *. lia.
Qed.

Lemma color_table_size_and_padding_witness :
  exists s,
    calculateColorTableSize 3 = Ok s /\
    0 <= s <= 7 /\ 3 <= 2 ^ (s + 1) /\
    (forall s', 0 <= s' < s -> 2 ^ (s' + 1) < 3) /\
    len (padColorTable [255; 0; 0; 0; 255; 0; 0; 0; 255] s) = 3 * 2 ^ (s + 1) /\
    firstn (Z.to_nat (3 * 3)) (padColorTable [255; 0; 0; 0; 255; 0; 0; 0; 255] s)
      = [255; 0; 0; 0; 255; 0; 0; 0; 255] /\
    skipn (Z.to_nat (3 * 3)) (padColorTable [255; 0; 0; 0; 255; 0; 0; 0; 255] s)
      = repeat 0 (Z.to_nat (3 * 2 ^ (s + 1) - 3 * 3)).
Proof.
  apply (color_table_size_and_padding 3 [255; 0; 0; 0; 255; 0; 0; 0; 255]).
  - lia.
  - reflexivity.
Defined.

Example lzw_known_vector_bytes :
  compressLZW [0;1;2;0;1;2;0;1;2] 2 = Ok [68; 100; 120; 5].
Proof. vm_compute. reflexivity. Qed.

Example lzw_known_vector :
  (let! c := compressLZW [0;1;2;0;1;2;0;1;2] 2 in decompressLZW c 2)
  = Ok [0;1;2;0;1;2;0;1;2].
Proof. vm_compute. reflexivity. Qed.


(** ** The writer: what a call appends *)

Definition w_with_output (w : GifWriter) (out : list Z) : GifWriter :=
  mkGifWriter out (hasWrittenHeader w) (hasWrittenLogicalScreen w) (frameCount w).

(** A method only ever appends to the output stream. *)
Definition appends {A} (m : W A) : Prop :=
  forall w r w', m w = (r, w') -> exists extra, w_output w' = w_output w ++ extra.

Lemma appends_ret {A} (a : A) : appends (wret a).
Proof. intros w r w' [= <- <-]. exists []. symmetry; apply app_nil_r. Qed.

Lemma appends_lift {A} (r : result A) : appends (wlift r).
Proof. intros w r' w' [= <- <-]. exists []. symmetry; apply app_nil_r. Qed.

Lemma appends_throw {A} e : appends (@wthrow A e).
Proof. intros w r' w' [= <- <-]. exists []. symmetry; apply app_nil_r. Qed.

Lemma appends_bind {A B} (m : W A) (k : A -> W B) :
  appends m -> (forall a, appends (k a)) -> appends (wbind m k).
Proof.
  intros Hm Hk w r w'. unfold wbind.
  destruct (m w) as [[a|e|] w1] eqn:E; intros H.
  - destruct (Hm _ _ _ E) as [x1 Hx1]. destruct (Hk a _ _ _ H) as [x2 Hx2].
    exists (x1 ++ x2). rewrite Hx2, Hx1. symmetry; apply app_assoc.
  - injection H as <- <-. eauto.
  - injection H as <- <-. eauto.
Qed.

Lemma appends_w_append bytes : appends (w_append bytes).
Proof. intros w r w' [= <- <-]. simpl. eauto. Qed.

Lemma appends_writeByte b : appends (writeByte b).
Proof.
  unfold writeByte. destruct (_ || _);
    [apply appends_throw | apply appends_w_append].
Qed.

Lemma appends_get : appends w_get.
Proof. intros w r w' [= <- <-]. exists []. symmetry; apply app_nil_r. Qed.

Lemma appends_flag (m : W unit) :
  (forall w, exists w', m w = (Ok tt, w') /\ w_output w' = w_output w) ->
  appends m.
Proof.
  intros H w r w' E. destruct (H w) as (w1 & E1 & Ho).
  rewrite E1 in E. injection E as <- <-. exists []. rewrite Ho.
  symmetry; apply app_nil_r.
Qed.

Lemma appends_writeBytes_arr bs : appends (writeBytes_arr bs).
Proof.
  induction bs as [|b bs IH]; simpl.
  - apply appends_ret.
  - apply appends_bind; [apply appends_writeByte | intros _; exact IH].
Qed.

Ltac appends_step :=
  match goal with
  | |- appends (wbind _ _) => apply appends_bind; [|intros ?]
  | |- appends (wret _) => apply appends_ret
  | |- appends (wlift _) => apply appends_lift
  | |- appends (wthrow _) => apply appends_throw
  | |- appends w_get => apply appends_get
  | |- appends (writeByte _) => apply appends_writeByte
  | |- appends (writeBytes_u8 _) => apply appends_w_append
  | |- appends (w_append _) => apply appends_w_append
  | |- appends (writeBytes_arr _) => apply appends_writeBytes_arr
  | |- appends set_hasWrittenHeader => apply appends_flag; intros; eexists; split; reflexivity
  | |- appends set_hasWrittenLogicalScreen => apply appends_flag; intros; eexists; split; reflexivity
  | |- appends incr_frameCount => apply appends_flag; intros; eexists; split; reflexivity
  | |- appends (if ?c then _ else _) => destruct c
  | |- appends (match ?x with _ => _ end) => destruct x
  | |- appends (let '(_, _) := ?x in _) => destruct x
  end.

Lemma appends_writeHeader : appends writeHeader.
Proof. unfold writeHeader. repeat appends_step. Qed.

Lemma appends_writeLogicalScreen wd h o : appends (writeLogicalScreen wd h o).
Proof. unfold writeLogicalScreen. repeat appends_step. Qed.

Lemma appends_writeAnimationInfo o : appends (writeAnimationInfo o).
Proof. unfold writeAnimationInfo. repeat appends_step. Qed.

Lemma appends_writeGraphicsControl o : appends (writeGraphicsControl o).
Proof. unfold writeGraphicsControl. repeat appends_step. Qed.

Lemma appends_writeImageDescriptor i o : appends (writeImageDescriptor i o).
Proof. unfold writeImageDescriptor. repeat appends_step. Qed.

Lemma appends_writeDataSubBlocks_loop fuel : forall data offset,
  appends (writeDataSubBlocks_loop fuel data offset).
Proof.
  induction fuel as [|fuel IH]; intros data offset; simpl.
  - repeat appends_step.
  - destruct (offset <? len data); [|apply appends_ret].
    repeat appends_step. apply IH.
Qed.

Lemma appends_writeImageData i : appends (writeImageData i).
Proof.
  unfold writeImageData, writeDataSubBlocks. repeat appends_step.
  apply appends_writeDataSubBlocks_loop.
Qed.

Lemma appends_writeImage i o : appends (writeImage i o).
Proof.
  unfold writeImage. repeat appends_step;
    first [apply appends_writeGraphicsControl
          |apply appends_writeImageDescriptor
          |apply appends_writeImageData].
Qed.

Lemma appends_writeImages images : forall index os,
  appends (writeImages images index os).
Proof.
  induction images as [|i images IH]; intros index os; simpl.
  - apply appends_ret.
  - apply appends_bind; [apply appends_writeImage | intros _; apply IH].
Qed.

Lemma wbind_ok_inv {A B} (m : W A) (k : A -> W B) w b w' :
  wbind m k w = (Ok b, w') ->
  exists a w1, m w = (Ok a, w1) /\ k a w1 = (Ok b, w').
Proof.
  unfold wbind. destruct (m w) as [[a|e|] w1]; intros H; try discriminate.
  eauto.
Qed.

Lemma writeTrailer_ok_inv w w' :
  writeTrailer w = (Ok tt, w') -> w_output w' = w_output w ++ [0x3b].
Proof.
  unfold writeTrailer, writeByte, GIF_TRAILER. simpl. intros [= <-]. reflexivity.
Qed.

Lemma writeHeader_fresh_inv w' :
  writeHeader newGifWriter = (Ok tt, w') ->
  w_output w' = [0x47; 0x49; 0x46; 0x38; 0x39; 0x61].
Proof. vm_compute. intros [= <-]. reflexivity. Qed.

(** A chain [writeHeader; body; writeTrailer] on a fresh writer. *)
Lemma header_body_trailer (body : W unit) w' :
  appends body ->
  (writeHeader ;;* body ;;* writeTrailer) newGifWriter = (Ok tt, w') ->
  exists mid, w_output w' = [0x47; 0x49; 0x46; 0x38; 0x39; 0x61] ++ mid ++ [0x3b].
Proof.
  intros Hb H.
  apply wbind_ok_inv in H as ([] & w1 & H1 & H).
  apply wbind_ok_inv in H as ([] & w2 & H2 & H3).
  apply writeHeader_fresh_inv in H1. apply writeTrailer_ok_inv in H3.
  destruct (Hb _ _ _ H2) as [mid Hmid]. exists mid.
  rewrite H3, Hmid, H1. rewrite <- app_assoc. reflexivity.
Qed.

Lemma wbind_assoc {A B C} (m : W A) (k : A -> W B) (h : B -> W C) w :
  wbind (wbind m k) h w = wbind m (fun a => wbind (k a) h) w.
Proof. unfold wbind. destruct (m w) as [[a|e|] w1]; reflexivity. Qed.

(** C9. The bytes of a completed encode, static or animated, start with
    "GIF89a" ([47 49 46 38 39 61]) and end with the trailer byte [3B]. *)
Theorem encode_signature_and_trailer
    (image : IndexedImage) (images : list IndexedImage)
    (globalOptions : GlobalColorTableOptions)
    (animationOptions : AnimationOptions)
    (imageOptions : ImageOptions) (imageOptionsList : list ImageOptions)
    (bytes : list Z) :
  encodeStatic image globalOptions imageOptions = Ok bytes \/
  encodeAnimated images globalOptions animationOptions imageOptionsList
    = Ok bytes ->
  exists mid,
    bytes = [0x47; 0x49; 0x46; 0x38; 0x39; 0x61] ++ mid ++ [0x3b].
Proof.
  intros [H|H].
  - unfold encodeStatic in H.
    destruct (writeStaticGif _ _ _ _) as [[[]|e|] w'] eqn:E; simpl in H;
      try discriminate.
    injection H as <-. unfold writeStaticGif in E.
    apply (header_body_trailer
             (writeLogicalScreen (i_width image) (i_height image) globalOptions
              ;;* writeImage image imageOptions)).
    + apply appends_bind; [apply appends_writeLogicalScreen|].
      intros _. apply appends_writeImage.
    + rewrite <- E. unfold wbind.
      destruct (writeHeader newGifWriter) as [[[]|?|] ?]; try reflexivity.
      destruct (writeLogicalScreen _ _ _ _) as [[[]|?|] ?]; reflexivity.
  - unfold encodeAnimated in H.
    destruct (writeAnimatedGif _ _ _ _ _) as [[[]|e|] w'] eqn:E; simpl in H;
      try discriminate.
    injection H as <-. unfold writeAnimatedGif in E.
    destruct images as [|first rest]; [discriminate|].
    apply (header_body_trailer
             (writeLogicalScreen (i_width first) (i_height first) globalOptions
              ;;* writeAnimationInfo animationOptions
              ;;* writeImages (first :: rest) 0 imageOptionsList)).
    + apply appends_bind; [apply appends_writeLogicalScreen|].
      intros _. apply appends_bind; [apply appends_writeAnimationInfo|].
      intros _. apply appends_writeImages.
    + rewrite <- E. unfold wbind.
      destruct (writeHeader newGifWriter) as [[[]|?|] ?]; try reflexivity.
      destruct (writeLogicalScreen _ _ _ _) as [[[]|?|] ?]; try reflexivity.
      destruct (writeAnimationInfo _ _) as [[[]|?|] ?]; reflexivity.
Qed.

Lemma encode_signature_and_trailer_witness :
  exists mid,
    [71; 73; 70; 56; 57; 97; 1; 0; 1; 0; 112; 0; 0; 44; 0; 0; 0; 0; 1;
     0; 1; 0; 128; 255; 0; 0; 0; 0; 0; 2; 2; 68; 1; 0; 59]
    = [0x47; 0x49; 0x46; 0x38; 0x39; 0x61] ++ mid ++ [0x3b].
Proof.
  apply (encode_signature_and_trailer
           (mkIndexedImage 1 1 [0] [255; 0; 0]) []
           noGlobalOptions noAnimationOptions noImageOptions []).
  left. vm_compute. reflexivity.
Defined.

(** ** The writer: call order *)

(** C5, counterexample.  On a new writer, with no header, no logical
    screen and no frame written, [writeTrailer] does not fail: it appends
    the trailer byte. *)
Lemma writeTrailer_unguarded :
  hasWrittenHeader newGifWriter = false /\
  frameCount newGifWriter = 0 /\
  writeTrailer newGifWriter = (Ok tt, mkGifWriter [0x3b] false false 0).
Proof. repeat split. Qed.

(** C5, amended.  The writer keeps two flags and a frame counter.  In any
    state: [writeHeader] after a header, [writeLogicalScreen] before the
    header or after a logical screen, and [writeAnimationInfo] and
    [writeImage] before the logical screen fail with [GifEncodingError]
    and leave the writer, and so its output, as it was; [writeTrailer] has
    no guard and appends [3B] in every state. *)
Theorem writer_order_guards (w : GifWriter) (width height : Z)
    (globalOptions : GlobalColorTableOptions)
    (animationOptions : AnimationOptions)
    (image : IndexedImage) (imageOptions : ImageOptions) :
  (hasWrittenHeader w = true ->
     writeHeader w = (Throw (GifEncodingError HeaderAlreadyWritten), w)) /\
  (hasWrittenHeader w = false ->
     writeLogicalScreen width height globalOptions w
     = (Throw (GifEncodingError HeaderNotWritten), w)) /\
  (hasWrittenHeader w = true -> hasWrittenLogicalScreen w = true ->
     writeLogicalScreen width height globalOptions w
     = (Throw (GifEncodingError LogicalScreenAlreadyWritten), w)) /\
  (hasWrittenLogicalScreen w = false ->
     writeAnimationInfo animationOptions w
     = (Throw (GifEncodingError LogicalScreenNotWritten_Animation), w) /\
     writeImage image imageOptions w
     = (Throw (GifEncodingError LogicalScreenNotWritten_Image), w)) /\
  writeTrailer w = (Ok tt, w_with_output w (w_output w ++ [0x3b])).
Proof.
  split; [|split; [|split; [|split]]].
  - intros H. unfold writeHeader, wbind, w_get. rewrite H. reflexivity.
  - intros H. unfold writeLogicalScreen, wbind, w_get. rewrite H. reflexivity.
  - intros H1 H2. unfold writeLogicalScreen, wbind, w_get. rewrite H1, H2.
    reflexivity.
  - intros H. split.
    + unfold writeAnimationInfo, wbind, w_get. rewrite H. reflexivity.
    + unfold writeImage, wbind, w_get. rewrite H. reflexivity.
  - reflexivity.
Qed.

Lemma writer_order_guards_witness :
  writeLogicalScreen 2 2 noGlobalOptions newGifWriter
  = (Throw (GifEncodingError HeaderNotWritten), newGifWriter) /\
  writeImage (mkIndexedImage 2 2 [0; 0; 0; 0] [255; 0; 0]) noImageOptions
    newGifWriter
  = (Throw (GifEncodingError LogicalScreenNotWritten_Image), newGifWriter) /\
  writeHeader (mkGifWriter [71; 73; 70; 56; 57; 97] true false 0)
  = (Throw (GifEncodingError HeaderAlreadyWritten),
     mkGifWriter [71; 73; 70; 56; 57; 97] true false 0).
Proof.
  pose proof (writer_order_guards newGifWriter 2 2 noGlobalOptions
                noAnimationOptions
                (mkIndexedImage 2 2 [0; 0; 0; 0] [255; 0; 0]) noImageOptions)
    as (_ & H2 & _ & H4 & _).
  pose proof (writer_order_guards
                (mkGifWriter [71; 73; 70; 56; 57; 97] true false 0) 2 2
                noGlobalOptions noAnimationOptions
                (mkIndexedImage 2 2 [0; 0; 0; 0] [255; 0; 0]) noImageOptions)
    as (H1 & _).
  split; [apply H2; reflexivity|].
  split; [apply H4; reflexivity|].
  apply H1; reflexivity.
Defined.

(** ** The writer: validation and partial output *)

(** C4, counterexample.  After the header and the logical screen, an image
    whose pixel count differs from [width * height] is rejected with a
    [GifValidationError], but only once the image descriptor and the local
    colour table have been appended (23 bytes before, 39 after). *)
Lemma writeImage_late_validation :
  let w := mkGifWriter [71; 73; 70; 56; 57; 97; 2; 0; 1; 0; 112; 0; 0]
             true true 0 in
  writeImage (mkIndexedImage 2 1 [0] [255; 0; 0]) noImageOptions w
  = (Throw (GifValidationError ImageDataLengthMismatch),
     mkGifWriter
       ([71; 73; 70; 56; 57; 97; 2; 0; 1; 0; 112; 0; 0]
          ++ [44; 0; 0; 0; 0; 2; 0; 1; 0; 128] ++ [255; 0; 0; 0; 0; 0])
       true true 0).
Proof. vm_compute. reflexivity. Qed.

Definition dimensions_ok (width height : Z) : Prop :=
  1 <= width <= 65535 /\ 1 <= height <= 65535.
Definition palette_ok (palette : list Z) : Prop :=
  len palette <> 0 /\ len palette mod 3 = 0 /\ len palette / 3 <= 256.

Lemma validateDimensions_spec width height :
  (dimensions_ok width height /\ validateDimensions width height = Ok tt) \/
  (~ dimensions_ok width height /\
   exists t, validateDimensions width height = Throw (GifValidationError t)).
Proof.
  unfold validateDimensions, dimensions_ok.
  destruct (width <=? 0) eqn:E1; [apply Z.leb_le in E1; right; split; [lia|eauto]|].
  destruct (65535 <? width) eqn:E2; [apply Z.ltb_lt in E2; right; split; [lia|eauto]|].
  destruct (height <=? 0) eqn:E3; [apply Z.leb_le in E3; right; split; [lia|eauto]|].
  destruct (65535 <? height) eqn:E4; [apply Z.ltb_lt in E4; right; split; [lia|eauto]|].
  apply Z.leb_gt in E1, E3. apply Z.ltb_ge in E2, E4. left. simpl. split; [lia|reflexivity].
Qed.

Lemma validatePalette_spec palette :
  (palette_ok palette /\ validatePalette palette = Ok tt) \/
  (~ palette_ok palette /\
   exists t, validatePalette palette = Throw (GifValidationError t)).
Proof.
  unfold validatePalette, palette_ok, MAX_COLORS.
  destruct (len palette =? 0) eqn:E1;
    [apply Z.eqb_eq in E1; right; split; [lia|eauto]|].
  destruct (len palette mod 3 =? 0) eqn:E2; simpl;
    [|apply Z.eqb_neq in E2; right; split; [lia|eauto]].
  destruct (256 <? len palette / 3) eqn:E3;
    [apply Z.ltb_lt in E3; right; split; [lia|eauto]|].
  apply Z.eqb_neq in E1. apply Z.eqb_eq in E2. apply Z.ltb_ge in E3.
  left. split; [lia|reflexivity].
Qed.

(** C4, amended.  [writeImage] checks the dimensions and the palette
    before it writes: when the width or height is outside [1, 65535], or
    the palette is empty, not a multiple of 3 bytes or longer than 256
    colours, the call fails with a [GifValidationError] and the writer,
    and so its output, is unchanged. *)
Theorem writeImage_validates_before_writing (w : GifWriter)
    (image : IndexedImage) (options : ImageOptions) :
  hasWrittenLogicalScreen w = true ->
  ~ dimensions_ok (i_width image) (i_height image)
    \/ ~ palette_ok (i_palette image) ->
  exists t, writeImage image options w = (Throw (GifValidationError t), w).
Proof.
  intros Hls Hbad. unfold writeImage, wbind, w_get, wlift. rewrite Hls. simpl.
  destruct (validateDimensions_spec (i_width image) (i_height image))
    as [[Hd ->]|[Hd [t ->]]]; [|eauto].
  destruct (validatePalette_spec (i_palette image))
    as [[Hp ->]|[Hp [t ->]]]; [|eauto].
  tauto.
Qed.

Lemma writeImage_validates_before_writing_witness :
  exists t,
    writeImage (mkIndexedImage 0 1 [] [255; 0; 0]) noImageOptions
      (mkGifWriter [71; 73; 70; 56; 57; 97; 2; 0; 1; 0; 112; 0; 0] true true 0)
    = (Throw (GifValidationError t),
       mkGifWriter [71; 73; 70; 56; 57; 97; 2; 0; 1; 0; 112; 0; 0] true true 0).
Proof.
  apply (writeImage_validates_before_writing
           (mkGifWriter [71; 73; 70; 56; 57; 97; 2; 0; 1; 0; 112; 0; 0]
              true true 0)
           (mkIndexedImage 0 1 [] [255; 0; 0]) noImageOptions).
  - reflexivity.
  - left. unfold dimensions_ok. simpl. lia.
Defined.

(** ** The decoder always returns *)

(** Bits still to be read: the buffered ones and those of the unread bytes. *)
Definition rem_bits (b : BytesToCodeConverter) : Z :=
  8 * (len (b_data b) - b_position b) + bitsInBuffer b.

Definition conv_wf (b : BytesToCodeConverter) : Prop :=
  0 <= b_position b <= len (b_data b) /\ 0 <= bitsInBuffer b.

Lemma fill_loop_total fuel : forall b n,
  conv_wf b -> len (b_data b) - b_position b <= Z.of_nat fuel ->
  exists b', fill_loop fuel b n = Some b' /\ conv_wf b' /\
             rem_bits b' = rem_bits b /\ b_data b' = b_data b.
Proof.
  induction fuel as [|fuel IH]; intros b n [Hp Hb] Hf; simpl.
  - destruct (bitsInBuffer b <? n); simpl.
    + destruct (b_position b <? len (b_data b)) eqn:E.
      * apply Z.ltb_lt in E. lia.
      * exists b. unfold conv_wf. auto.
    + exists b. unfold conv_wf. auto.
  - destruct ((bitsInBuffer b <? n) && (b_position b <? len (b_data b))) eqn:E.
    + apply andb_true_iff in E as [_ E]. apply Z.ltb_lt in E.
      edestruct IH as (b' & H1 & H2 & H3 & H4); [| |exists b'; split; [exact H1|]].
      * unfold conv_wf. simpl. lia.
      * simpl. lia.
      * split; [exact H2|]. split; [|exact H4].
        rewrite H3. unfold rem_bits. simpl. lia.
    + exists b. unfold conv_wf. auto.
Qed.

Lemma readCode_total b n :
  conv_wf b -> 1 <= n <= 16 ->
  exists o b', readCode b n = Ok (o, b') /\ conv_wf b' /\
    b_data b' = b_data b /\
    match o with
    | Some _ => rem_bits b' = rem_bits b - n
    | None => True
    end.
Proof.
  intros Hwf Hn. unfold readCode.
  replace ((n <=? 0) || (16 <? n)) with false
    by (symmetry; apply orb_false_iff; split;
        [apply Z.leb_gt|apply Z.ltb_ge]; lia).
  destruct (fill_loop_total (length (b_data b)) b n Hwf)
    as (b' & -> & Hwf' & Hrem & Hd).
  { destruct Hwf. unfold len. lia. }
  destruct (bitsInBuffer b' <? n) eqn:E.
  - exists None, b'. auto.
  - apply Z.ltb_ge in E. eexists (Some _), _. split; [reflexivity|].
    destruct Hwf' as [Hp Hb]. unfold conv_wf, rem_bits in *. simpl.
    repeat split; try lia. exact Hd.
Qed.

Definition decompress_wf (st : decompress_state) : Prop :=
  conv_wf (dc_converter st) /\ 1 <= dc_currentBits st <= 12.

(** One turn of the loop breaks, throws one of the two code errors, or goes
    on having consumed at least one bit. *)
Lemma decompress_step_cases k st :
  1 <= k <= 8 -> decompress_wf st ->
  (exists st', decompress_step k st = Ok (Break st')) \/
  decompress_step k st = Throw (GifEncodingError FirstCodeNotInDictionary) \/
  decompress_step k st = Throw (GifEncodingError InvalidLZWCode) \/
  (exists st', decompress_step k st = Ok (Continue st') /\ decompress_wf st' /\
               rem_bits (dc_converter st') < rem_bits (dc_converter st)).
Proof.
  intros Hk [Hwf Hbits]. unfold decompress_step.
  destruct (hasMore (dc_converter st)); simpl; [|eauto].
  destruct (readCode_total (dc_converter st) (dc_currentBits st) Hwf)
    as (o & b' & -> & Hwf' & Hd & Hrem); [lia|]. simpl.
  destruct o as [code|]; [|eauto].
  destruct (code =? d_clear (dc_dictionary st)).
  { right; right; right. eexists; split; [reflexivity|].
    unfold decompress_wf. simpl. split; [split; [assumption|lia]|lia]. }
  destruct (code =? d_end (dc_dictionary st)); [eauto|].
  assert (Hcont : forall cs,
    exists st', (let output := dc_output st ++ cs in
       let '(dict', bits') :=
         if (0 <? len (dc_previousString st))
            && (d_nextCode (dc_dictionary st) <? MAX_CODE_VALUE)
         then
           let dict' := d_add (dc_dictionary st)
                          (dc_previousString st ++ charAt0 cs) in
           (dict',
            if (Z.shiftl 1 (dc_currentBits st) <=? d_nextCode dict')
               && (dc_currentBits st <? 12)
            then dc_currentBits st + 1 else dc_currentBits st)
         else (dc_dictionary st, dc_currentBits st) in
       Ok (Continue (mkDecompress b' dict' output bits' cs)))
      = Ok (Continue st') /\ decompress_wf st' /\
      rem_bits (dc_converter st') < rem_bits (dc_converter st)).
  { intros cs. cbv zeta.
    destruct ((0 <? len (dc_previousString st)) && _).
    - destruct ((Z.shiftl 1 (dc_currentBits st) <=? _) && (dc_currentBits st <? 12)) eqn:E.
      + apply andb_true_iff in E as [_ E]. apply Z.ltb_lt in E.
        eexists; split; [reflexivity|]. unfold decompress_wf. simpl.
        split; [split; [assumption|lia]|lia].
      + eexists; split; [reflexivity|]. unfold decompress_wf. simpl.
        split; [split; [assumption|lia]|lia].
    - eexists; split; [reflexivity|]. unfold decompress_wf. simpl.
      split; [split; [assumption|lia]|lia]. }
  destruct (code <? d_nextCode (dc_dictionary st)).
  { right; right; right. simpl. apply Hcont. }
  destruct (code =? d_nextCode (dc_dictionary st)); [|auto].
  destruct (len (dc_previousString st) =? 0); [auto|].
  right; right; right. simpl. apply Hcont.
Qed.

Lemma decompress_loop_returns k fuel : forall st,
  1 <= k <= 8 -> decompress_wf st ->
  rem_bits (dc_converter st) < Z.of_nat fuel ->
  while_loop fuel (decompress_step k) st <> OutOfFuel.
Proof.
  induction fuel as [|fuel IH]; intros st Hk Hwf Hrem.
  - destruct Hwf as [[Hp Hb] _]. unfold rem_bits in Hrem. lia.
  - simpl.
    destruct (decompress_step_cases k st Hk Hwf)
      as [[st' ->]|[->|[->|(st' & -> & Hwf' & Hlt)]]]; try discriminate.
    apply IH; auto. lia.
Qed.

Lemma initial_decompress_wf data k :
  1 <= k <= 8 ->
  decompress_wf (mkDecompress (newBytesToCodeConverter data)
                   (newLZWDecodeDictionary k) [] (k + 1) []).
Proof.
  intros Hk. unfold decompress_wf, conv_wf. simpl.
  pose proof (len_nonneg data). lia.
Qed.

Lemma decompressLZW_returns data k : decompressLZW data k <> OutOfFuel.
Proof.
  unfold decompressLZW. destruct (len data =? 0); [discriminate|].
  destruct ((k <? 1) || (8 <? k)) eqn:E; [discriminate|].
  apply orb_false_iff in E as [E1 E2]. apply Z.ltb_ge in E1, E2.
  pose proof (decompress_loop_returns k (8 * length data + 1)
                _ ltac:(lia) (initial_decompress_wf data k ltac:(lia))) as H.
  destruct (while_loop _ _ _); simpl; try discriminate.
  exfalso. apply H; [|reflexivity]. unfold rem_bits, len. simpl. lia.
Qed.

(** ** Decoding a stream that ends early *)

Definition initial_decompress_state (data : list Z) (k : Z) : decompress_state :=
  mkDecompress (newBytesToCodeConverter data) (newLZWDecodeDictionary k) []
    (k + 1) [].

(** The code the loop reads next, when the stream still holds one. *)
Definition next_code (st : decompress_state) : option Z :=
  if hasMore (dc_converter st) then
    match readCode (dc_converter st) (dc_currentBits st) with
    | Ok (Some code, _) => Some code
    | _ => None
    end
  else None.

(** [code] is at most the next assignable code. *)
Definition at_most_next (st : decompress_state) (code : Z) : bool :=
  code <=? d_nextCode (dc_dictionary st).

(** [code] is below the next assignable code, or equal to it with a
    previous string to extend. *)
Definition decodable (st : decompress_state) (code : Z) : bool :=
  (code <? d_nextCode (dc_dictionary st))
  || ((code =? d_nextCode (dc_dictionary st))
        && (0 <? len (dc_previousString st))).

(** Every code read in the first [fuel] turns of the loop passes [ok]. *)
Fixpoint codes_all (ok : decompress_state -> Z -> bool) (fuel : nat) (k : Z)
    (st : decompress_state) : bool :=
  match fuel with
  | O => true
  | S fuel' =>
      match next_code st with
      | Some code =>
          ok st code &&
          match decompress_step k st with
          | Ok (Continue st') => codes_all ok fuel' k st'
          | _ => true
          end
      | None => true
      end
  end.

Lemma decompress_step_throw k st e :
  decompress_step k st = Throw e ->
  1 <= dc_currentBits st <= 16 ->
  exists code, next_code st = Some code /\ decodable st code = false.
Proof.
  unfold decompress_step, next_code, decodable.
  destruct (hasMore (dc_converter st)); simpl; [|discriminate].
  intros H Hb. unfold readCode in *.
  replace ((dc_currentBits st <=? 0) || (16 <? dc_currentBits st)) with false in *
    by (symmetry; apply orb_false_iff; split;
        [apply Z.leb_gt|apply Z.ltb_ge]; lia).
  destruct (fill_loop _ _ _) as [b'|]; [|discriminate].
  destruct (bitsInBuffer b' <? dc_currentBits st); [discriminate|].
  simpl in H. eexists; split; [reflexivity|].
  set (code := Z.land _ _) in *.
  destruct (code =? d_clear (dc_dictionary st)); [discriminate|].
  destruct (code =? d_end (dc_dictionary st)); [discriminate|].
  destruct (code <? d_nextCode (dc_dictionary st)).
  { simpl in H. destruct (_ && _) in H; discriminate. }
  destruct (code =? d_nextCode (dc_dictionary st)); [|reflexivity].
  destruct (len (dc_previousString st) =? 0) eqn:E.
  - apply Z.eqb_eq in E. rewrite E. reflexivity.
  - simpl in H. destruct (_ && _) in H; discriminate.
Qed.

Lemma decompress_loop_decodable k fuel : forall st,
  1 <= k <= 8 -> decompress_wf st ->
  rem_bits (dc_converter st) < Z.of_nat fuel ->
  codes_all decodable fuel k st = true ->
  exists st', while_loop fuel (decompress_step k) st = Ok st'.
Proof.
  induction fuel as [|fuel IH]; intros st Hk Hwf Hrem Hall.
  - destruct Hwf as [[Hp Hb] _]. unfold rem_bits in Hrem. lia.
  - simpl in *.
    destruct (decompress_step k st) as [[st'|st']|e|] eqn:E.
    + destruct (decompress_step_cases k st Hk Hwf)
        as [[st1 H]|[H|[H|(st1 & H & Hwf' & Hlt)]]];
        rewrite E in H; try discriminate.
      injection H as ->. apply IH; auto; [lia|].
      destruct (next_code st) eqn:En.
      * apply andb_true_iff in Hall as [_ Hall]. exact Hall.
      * unfold next_code, decompress_step in *.
        destruct (hasMore (dc_converter st)); [|discriminate].
        simpl in E.
        destruct (readCode _ _) as [[[c|] b]| |]; simpl in E; discriminate.
    + eauto.
    + destruct Hwf as [_ Hbits].
      destruct (decompress_step_throw k st e E) as (code & Hc & Hd); [lia|].
      rewrite Hc, Hd in Hall. discriminate.
    + destruct (decompress_step_cases k st Hk Hwf)
        as [[st1 H]|[H|[H|(st1 & H & _)]]]; rewrite E in H; discriminate.
Qed.

(** C10, counterexample.  With initial code size 2 the one-byte stream
    [06] holds the single code 6, which is the next assignable code, and
    the stream ends without an end code; the decoder throws. *)
Lemma first_code_equal_to_next_throws :
  codes_all at_most_next (8 * 1 + 1) 2 (initial_decompress_state [6] 2) = true /\
  next_code (initial_decompress_state [6] 2) = Some 6 /\
  d_nextCode (dc_dictionary (initial_decompress_state [6] 2)) = 6 /\
  decompressLZW [6] 2 = Throw (GifEncodingError FirstCodeNotInDictionary).
Proof. vm_compute. repeat split. Qed.

(** C10, amended.  [decompressLZW] returns the empty array on the empty
    array.  On any other stream, for an initial code size in [1, 8], if
    every code read is below the next assignable code, or equal to it when
    a previous string exists, the loop ends without throwing, at the end
    code or when the bits run out, and the function returns the indices
    decoded up to that point. *)
Theorem decompress_truncated_returns (data : list Z) (k : Z) :
  1 <= k <= 8 ->
  codes_all decodable (8 * length data + 1) k (initial_decompress_state data k)
    = true ->
  decompressLZW [] k = Ok [] /\
  exists st,
    while_loop (8 * length data + 1) (decompress_step k)
      (initial_decompress_state data k) = Ok st /\
    decompressLZW data k = Ok (dc_output st).
Proof.
  intros Hk Hall. split; [reflexivity|].
  destruct (decompress_loop_decodable k (8 * length data + 1)
              (initial_decompress_state data k) Hk
              (initial_decompress_wf data k Hk)) as [st Hst]; [|exact Hall|].
  { unfold rem_bits, len. simpl. lia. }
  exists st. split; [exact Hst|].
  unfold decompressLZW. destruct (len data =? 0) eqn:E.
  - apply Z.eqb_eq in E. destruct data; [|discriminate E].
    simpl in Hst. unfold decompress_step in Hst. simpl in Hst.
    injection Hst as <-. reflexivity.
  - replace ((k <? 1) || (8 <? k)) with false
      by (symmetry; apply orb_false_iff; split; apply Z.ltb_ge; lia).
    fold (initial_decompress_state data k). rewrite Hst. reflexivity.
Qed.

Lemma decompress_truncated_returns_witness :
  decompressLZW [] 2 = Ok [] /\
  exists st,
    while_loop (8 * length [68; 100] + 1) (decompress_step 2)
      (initial_decompress_state [68; 100] 2) = Ok st /\
    decompressLZW [68; 100] 2 = Ok (dc_output st).
Proof.
  apply (decompress_truncated_returns [68; 100] 2).
  - lia.
  - vm_compute. reflexivity.
Defined.

Example decompress_truncated_prefix :
  decompressLZW [68; 100; 120; 5] 2 = Ok [0; 1; 2; 0; 1; 2; 0; 1; 2] /\
  decompressLZW [68; 100] 2 = Ok [0; 1; 2; 0; 1].
Proof. vm_compute. split; reflexivity. Qed.

(** ** The frame loop: a frame that fails to decode *)

(** A three-frame animation on a 2x1 canvas: a red 2x1 frame, a blue 1x1
    frame, a green 2x1 frame.  [gif3_head] ends after the second frame's
    colour table, [gif3_tail] is the third frame and the trailer; the LZW
    data of the second frame goes in between. *)
Definition gif3_head : list Z :=
  [71; 73; 70; 56; 57; 97; 2; 0; 1; 0; 112; 0; 0;
   33; 255; 11; 78; 69; 84; 83; 67; 65; 80; 69; 50; 46; 48; 3; 1; 0; 0; 0;
   44; 0; 0; 0; 0; 2; 0; 1; 0; 128; 255; 0; 0; 0; 0; 0; 2; 2; 4; 10; 0;
   33; 249; 4; 8; 0; 0; 0; 0;
   44; 0; 0; 0; 0; 1; 0; 1; 0; 128; 0; 0; 255; 0; 0; 0].
Definition gif3_tail : list Z :=
  [33; 249; 4; 8; 0; 0; 0; 0;
   44; 0; 0; 0; 0; 2; 0; 1; 0; 128; 0; 255; 0; 0; 0; 0; 2; 2; 4; 10; 0; 59].

Example gif3_is_encoder_output :
  encodeAnimated
    [mkIndexedImage 2 1 [0; 0] [255; 0; 0]; mkIndexedImage 1 1 [0] [0; 0; 255];
     mkIndexedImage 2 1 [0; 0] [0; 255; 0]]
    noGlobalOptions noAnimationOptions []
  = Ok (gif3_head ++ [2; 2; 68; 1; 0] ++ gif3_tail).
Proof. vm_compute. reflexivity. Qed.

Definition is_placeholder (f : GifFrame) (width height : Z) : Prop :=
  f_imageData f
  = mkImageData (repeat 255 (Z.to_nat (width * height * 4))) width height.

(** C2, counterexample.  The middle frame's LZW data [44 01] is cut:
    (1) with its last byte dropped from the file, sub-block length byte
    untouched, the whole decode aborts and no frame is returned;
    (2) with the sub-block re-framed around the one byte left, three frames
    are returned but the second is the composited 2x1 canvas, not a white
    1x1 placeholder. *)
Lemma truncated_frame_not_a_placeholder :
  getFrames (gif3_head ++ [2; 2; 68; 0] ++ gif3_tail)
    = Throw (GifValidationError UnexpectedEnd) /\
  exists f1 f2 f3,
    getFrames (gif3_head ++ [2; 1; 68; 0] ++ gif3_tail) = Ok [f1; f2; f3] /\
    f_imageData f2 = mkImageData [0; 0; 255; 255; 255; 0; 0; 255] 2 1 /\
    ~ is_placeholder f2 1 1.
Proof.
  split; [vm_compute; reflexivity|].
  do 3 eexists. split; [vm_compute; reflexivity|].
  split; [reflexivity|]. unfold is_placeholder. simpl. discriminate.
Qed.

(** A code the decoder refuses, in whole sub-blocks: three frames, the
    second a white 1x1 placeholder. *)
Example corrupt_middle_frame_yields_three_frames :
  exists f1 f2 f3,
    getFrames (gif3_head ++ [2; 1; 6; 0] ++ gif3_tail) = Ok [f1; f2; f3] /\
    is_placeholder f2 1 1.
Proof. do 3 eexists. split; vm_compute; reflexivity. Qed.

(** ** The frame loop: disposal *)

(** A two-frame animation on a 2x1 canvas with background colour (9,9,9):
    frame 1 is red, covers the canvas and has disposal 2 (restore to
    background); frame 2 is one blue pixel at [left = 1] with disposal 1. *)
Definition disposal_gif : list Z :=
  [71; 73; 70; 56; 57; 97; 2; 0; 1; 0; 240; 0; 0; 9; 9; 9; 0; 0; 0;
   33; 249; 4; 8; 0; 0; 0; 0;
   44; 0; 0; 0; 0; 2; 0; 1; 0; 128; 255; 0; 0; 0; 0; 0; 2; 2; 4; 10; 0;
   33; 249; 4; 4; 0; 0; 0; 0;
   44; 1; 0; 0; 0; 1; 0; 1; 0; 128; 0; 0; 255; 0; 0; 0; 2; 2; 68; 1; 0;
   59].

(** C3, the code at the failing input.  Frame 1 asks to be restored to the
    background, so before frame 2 is drawn its rectangle, the whole canvas,
    should show (9,9,9,255).  The loop tests the disposal of the frame
    being drawn instead, which is 1 for frame 2: pixel 0 of the second
    record is still red. *)
Lemma disposal_taken_from_current_frame :
  exists f1 f2,
    getFrames disposal_gif = Ok [f1; f2] /\
    f_disposal f1 = RestoreToBackground /\
    id_data (f_imageData f1) = [255; 0; 0; 255; 255; 0; 0; 255] /\
    id_data (f_imageData f2) = [255; 0; 0; 255; 0; 0; 255; 255] /\
    id_data (f_imageData f2) <> [9; 9; 9; 255; 0; 0; 255; 255].
Proof.
  do 2 eexists. split; [vm_compute; reflexivity|].
  repeat split. discriminate.
Qed.


(** ** Bit packing, as arithmetic *)

Lemma land_mask (x n : Z) : 0 <= n -> Z.land x (Z.shiftl 1 n - 1) = x mod 2 ^ n.
Proof.
  intros Hn. rewrite Z.shiftl_1_l, Z.sub_1_r, <- Z.ones_equiv.
  apply Z.land_ones; assumption.
Qed.

Lemma land_255 (x : Z) : Z.land x 255 = x mod 256.
Proof. change 255 with (Z.ones 8). rewrite Z.land_ones by lia. reflexivity. Qed.

Lemma lor_shiftl_add (a b n : Z) :
  0 <= n -> 0 <= a < 2 ^ n -> Z.lor a (Z.shiftl b n) = a + b * 2 ^ n.
Proof.
  intros Hn Ha. rewrite <- Z.shiftl_mul_pow2 by assumption.
  symmetry. apply Z.add_nocarry_lor.
  apply Z.bits_inj'. intros i Hi. rewrite Z.land_spec, Z.bits_0.
  destruct (Z_lt_ge_dec i n) as [Hlt|Hge].
  - rewrite Z.shiftl_spec_low by assumption. apply andb_false_r.
  - destruct (Z.eq_dec a 0) as [->|Hne].
    + rewrite Z.bits_0. reflexivity.
    + rewrite (Z.bits_above_log2 a i); [reflexivity|lia|].
      apply Z.lt_le_trans with n; [|lia].
      apply Z.log2_lt_pow2; lia.
Qed.

Fixpoint le_val (bytes : list Z) : Z :=
  match bytes with
  | [] => 0
  | b :: bs => b + 256 * le_val bs
  end.

Definition is_byte (b : Z) : Prop := 0 <= b < 256.

Lemma le_val_app (l1 l2 : list Z) :
  le_val (l1 ++ l2) = le_val l1 + le_val l2 * 2 ^ (8 * len l1).
Proof.
  induction l1 as [|b l1 IH]; simpl.
  - change (len []) with 0. simpl. lia.
  - rewrite IH. replace (len (b :: l1)) with (len l1 + 1) by (unfold len; simpl; lia).
    replace (8 * (len l1 + 1)) with (8 + 8 * len l1) by lia.
    rewrite Z.pow_add_r by (pose proof (len_nonneg l1); lia).
    change (2 ^ 8) with 256. ring.
Qed.

Lemma le_val_bound (l : list Z) :
  Forall is_byte l -> 0 <= le_val l < 2 ^ (8 * len l).
Proof.
  induction 1 as [|b l Hb _ IH]; simpl.
  - change (len []) with 0. simpl. lia.
  - replace (len (b :: l)) with (len l + 1) by (unfold len; simpl; lia).
    replace (8 * (len l + 1)) with (8 + 8 * len l) by lia.
    rewrite Z.pow_add_r by (pose proof (len_nonneg l); lia).
    change (2 ^ 8) with 256. unfold is_byte in Hb. nia.
Qed.

(** The bits a [CodeToBytesConverter] holds, as one number and its width:
    the bytes written, then the pending bits above them. *)
Definition cv_val (c : CodeToBytesConverter) : Z :=
  le_val (cb_output c) + remainingValue c * 2 ^ (8 * len (cb_output c)).
Definition cv_len (c : CodeToBytesConverter) : Z :=
  8 * len (cb_output c) + remainingBits c.
Definition cv_wf (c : CodeToBytesConverter) : Prop :=
  0 <= remainingBits c < 8 /\
  0 <= remainingValue c < 2 ^ remainingBits c /\
  Forall is_byte (cb_output c).

Lemma cv_len_nonneg c : cv_wf c -> 0 <= cv_len c.
Proof. intros (H & _). unfold cv_len. pose proof (len_nonneg (cb_output c)). lia. Qed.

Lemma pow2_pos (n : Z) : 0 <= n -> 0 < 2 ^ n.
Proof. intros. apply Z.pow_pos_nonneg; lia. Qed.

Lemma cv_val_bound c : cv_wf c -> 0 <= cv_val c < 2 ^ cv_len c.
Proof.
  intros (Hb & Hv & Ho). unfold cv_val, cv_len.
  pose proof (le_val_bound _ Ho) as Hl.
  pose proof (len_nonneg (cb_output c)) as Hn.
  rewrite Z.pow_add_r by lia.
  pose proof (pow2_pos (8 * len (cb_output c)) ltac:(lia)).
  nia.
Qed.

Lemma push_loop_spec fuel : forall c code n,
  cv_wf c -> 0 <= n -> 0 <= code < 2 ^ n -> n <= Z.of_nat fuel ->
  exists c', push_loop fuel c code n = Some c' /\ cv_wf c' /\
    cv_val c' = cv_val c + code * 2 ^ cv_len c /\
    cv_len c' = cv_len c + n.
Proof.
  induction fuel as [|fuel IH]; intros c code n Hwf Hn Hcode Hfuel.
  - assert (n = 0) as -> by lia. simpl. exists c.
    change (2 ^ 0) with 1 in Hcode. assert (code = 0) as -> by lia.
    repeat split; try apply Hwf; lia.
  - simpl. destruct (0 <? n) eqn:En.
    2:{ apply Z.ltb_ge in En. assert (n = 0) as -> by lia. exists c.
        change (2 ^ 0) with 1 in Hcode. assert (code = 0) as -> by lia.
        repeat split; try apply Hwf; lia. }
    apply Z.ltb_lt in En. destruct Hwf as (Hrb & Hrv & Hout).
    set (t := Z.min n (8 - remainingBits c)).
    assert (Ht : 1 <= t <= n /\ t <= 8 - remainingBits c) by (unfold t; lia).
    rewrite land_mask by lia.
    rewrite lor_shiftl_add by lia.
    set (bits := code mod 2 ^ t).
    assert (Hbits : 0 <= bits < 2 ^ t)
      by (apply Z.mod_pos_bound, pow2_pos; lia).
    set (rv := remainingValue c + bits * 2 ^ remainingBits c).
    assert (Hrvb : 0 <= rv < 2 ^ (remainingBits c + t)).
    { unfold rv. rewrite Z.pow_add_r by lia.
      pose proof (pow2_pos (remainingBits c) ltac:(lia)). nia. }
    assert (Hcode' : 0 <= Z.shiftr code t < 2 ^ (n - t)).
    { rewrite Z.shiftr_div_pow2 by lia. split.
      - apply Z.div_pos; [lia|apply pow2_pos; lia].
      - apply Z.div_lt_upper_bound; [apply pow2_pos; lia|].
        rewrite <- Z.pow_add_r by lia. replace (t + (n - t)) with n by lia. lia. }
    assert (Hsplit : code = bits + Z.shiftr code t * 2 ^ t).
    { rewrite Z.shiftr_div_pow2 by lia. unfold bits.
      pose proof (Z.div_mod code (2 ^ t)) as Hdm.
      pose proof (pow2_pos t ltac:(lia)). lia. }
    pose proof (len_nonneg (cb_output c)) as Hlen.
    destruct (8 <=? remainingBits c + t) eqn:E8.
    + apply Z.leb_le in E8. assert (Hrt : remainingBits c + t = 8) by lia.
      rewrite Hrt in Hrvb. change (2 ^ 8) with 256 in Hrvb.
      edestruct (IH (mkCodeToBytes (cb_output c ++ [Z.land rv 255])
                       (remainingBits c + t - 8) (Z.shiftr rv 8))
                    (Z.shiftr code t) (n - t))
        as (c' & Hc' & Hwf' & Hval' & Hlen'); [| lia | exact Hcode' | lia |].
      { rewrite land_255, Z.shiftr_div_pow2 by lia. change (2 ^ 8) with 256.
        rewrite Z.mod_small, Z.div_small by lia.
        unfold cv_wf. simpl. rewrite Hrt. simpl. repeat split; try lia.
        apply Forall_app. split; [assumption|]. constructor; [|constructor].
        unfold is_byte. lia. }
      exists c'. split; [exact Hc'|]. split; [exact Hwf'|].
      rewrite Hval', Hlen'. unfold cv_val, cv_len. simpl.
      rewrite land_255, Z.shiftr_div_pow2 by lia. change (2 ^ 8) with 256.
      rewrite Z.mod_small, Z.div_small by lia.
      rewrite le_val_app, len_app. simpl. change (len [rv]) with 1.
      rewrite Hrt. split; [|lia].
      replace (8 * (len (cb_output c) + 1) + (8 - 8))
        with (8 * len (cb_output c) + remainingBits c + t) by lia.
      rewrite (Z.pow_add_r _ _ t) by lia.
      rewrite (Z.pow_add_r _ (8 * len (cb_output c))) by lia.
      rewrite Hsplit at 2. unfold rv. ring.
    + apply Z.leb_gt in E8.
      edestruct (IH (mkCodeToBytes (cb_output c) (remainingBits c + t) rv)
                    (Z.shiftr code t) (n - t))
        as (c' & Hc' & Hwf' & Hval' & Hlen'); [| lia | exact Hcode' | lia |].
      { unfold cv_wf. simpl. repeat split; try lia. assumption. }
      exists c'. split; [exact Hc'|]. split; [exact Hwf'|].
      rewrite Hval', Hlen'. unfold cv_val, cv_len. simpl. split; [|lia].
      replace (8 * len (cb_output c) + (remainingBits c + t))
        with (8 * len (cb_output c) + remainingBits c + t) by lia.
      rewrite (Z.pow_add_r _ _ t) by lia.
      rewrite (Z.pow_add_r _ (8 * len (cb_output c))) by lia.
      rewrite Hsplit at 2. unfold rv. ring.
Qed.

Lemma push_spec c code n :
  cv_wf c -> 0 < n -> 0 <= code < 2 ^ n ->
  exists c', push c code n = Ok c' /\ cv_wf c' /\
    cv_val c' = cv_val c + code * 2 ^ cv_len c /\
    cv_len c' = cv_len c + n.
Proof.
  intros Hwf Hn Hcode. unfold push.
  replace ((code <? 0) || (n <=? 0)) with false
    by (symmetry; apply orb_false_iff; split;
        [apply Z.ltb_ge|apply Z.leb_gt]; lia).
  destruct (push_loop_spec (Z.to_nat n) c code n Hwf)
    as (c' & -> & H); [lia|assumption|lia|].
  exists c'. split; [reflexivity|exact H].
Qed.

Lemma flush_spec c :
  cv_wf c ->
  Forall is_byte (flush c) /\ le_val (flush c) = cv_val c /\
  cv_len c <= 8 * len (flush c) < cv_len c + 8.
Proof.
  intros (Hb & Hv & Ho). unfold flush, cv_val, cv_len.
  pose proof (len_nonneg (cb_output c)) as Hlen.
  destruct (0 <? remainingBits c) eqn:E.
  - apply Z.ltb_lt in E.
    assert (Hv8 : 0 <= remainingValue c < 256).
    { split; [lia|]. apply Z.lt_le_trans with (2 ^ remainingBits c); [lia|].
      change 256 with (2 ^ 8). apply Z.pow_le_mono_r; lia. }
    rewrite land_255, Z.mod_small by lia.
    rewrite le_val_app, len_app. simpl. change (len [remainingValue c]) with 1.
    split; [|split; [lia|lia]].
    apply Forall_app. split; [assumption|]. constructor; [exact Hv8|constructor].
  - apply Z.ltb_ge in E. assert (Hz : remainingBits c = 0) by lia.
    rewrite Hz in Hv. change (2 ^ 0) with 1 in Hv.
    assert (remainingValue c = 0) as -> by lia.
    split; [assumption|]. split; lia.
Qed.

(** The bits a [BytesToCodeConverter] has yet to deliver: the buffered
    ones, then those of the unread bytes. *)
Definition rd_val (b : BytesToCodeConverter) : Z :=
  bitBuffer b
  + le_val (skipn (Z.to_nat (b_position b)) (b_data b)) * 2 ^ bitsInBuffer b.
Definition rd_wf (b : BytesToCodeConverter) : Prop :=
  conv_wf b /\ 0 <= bitBuffer b < 2 ^ bitsInBuffer b /\
  Forall is_byte (b_data b).

Lemma skipn_byte_at (data : list Z) (p : Z) :
  0 <= p < len data ->
  skipn (Z.to_nat p) data = byte_at data p :: skipn (Z.to_nat (p + 1)) data.
Proof.
  intros Hp. unfold byte_at, len in *.
  replace (Z.to_nat (p + 1)) with (S (Z.to_nat p)) by lia.
  assert (Hlt : (Z.to_nat p < length data)%nat) by lia.
  revert Hlt. generalize (Z.to_nat p). clear Hp p.
  induction data as [|x data IH]; intros n Hn; simpl in *; [lia|].
  destruct n as [|n]; [reflexivity|]. simpl. apply IH. lia.
Qed.

Lemma byte_at_is_byte (data : list Z) (p : Z) :
  Forall is_byte data -> is_byte (byte_at data p).
Proof.
  intros H. unfold byte_at. generalize (Z.to_nat p). clear p.
  induction H as [|x l Hx _ IH]; intros n.
  - destruct n; simpl; unfold is_byte; lia.
  - destruct n; simpl; [exact Hx|apply IH].
Qed.

Lemma fill_loop_spec fuel : forall b n,
  rd_wf b -> len (b_data b) - b_position b <= Z.of_nat fuel ->
  exists b', fill_loop fuel b n = Some b' /\ rd_wf b' /\
    rd_val b' = rd_val b /\ rem_bits b' = rem_bits b /\
    b_data b' = b_data b /\
    (bitsInBuffer b' < n -> b_position b' = len (b_data b')).
Proof.
  induction fuel as [|fuel IH]; intros b n Hwf Hfuel.
  - simpl. destruct Hwf as ([Hp Hbits] & Hbuf & Hd).
    destruct ((bitsInBuffer b <? n) && (b_position b <? len (b_data b))) eqn:E.
    { apply andb_true_iff in E as [_ E]. apply Z.ltb_lt in E. lia. }
    exists b. split; [reflexivity|]. split; [unfold rd_wf, conv_wf; auto|].
    do 3 (split; [reflexivity|]).
    intros Hlt. apply andb_false_iff in E as [E|E]; apply Z.ltb_ge in E; lia.
  - simpl. destruct Hwf as ([Hp Hbits] & Hbuf & Hd).
    destruct ((bitsInBuffer b <? n) && (b_position b <? len (b_data b))) eqn:E.
    + apply andb_true_iff in E as [_ E]. apply Z.ltb_lt in E.
      pose proof (byte_at_is_byte (b_data b) (b_position b) Hd) as Hby.
      unfold is_byte in Hby.
      rewrite lor_shiftl_add by lia.
      edestruct (IH (mkBytesToCode (b_data b) (b_position b + 1)
                       (bitBuffer b + byte_at (b_data b) (b_position b)
                                      * 2 ^ bitsInBuffer b)
                       (bitsInBuffer b + 8)) n)
        as (b' & Hb' & Hwf' & Hval' & Hrem' & Hdata' & Hend').
      { unfold rd_wf, conv_wf. simpl. repeat split; try lia; try assumption.
        rewrite Z.pow_add_r by lia. change (2 ^ 8) with 256.
        pose proof (pow2_pos (bitsInBuffer b) ltac:(lia)). nia. }
      { simpl. lia. }
      exists b'. split; [exact Hb'|]. split; [exact Hwf'|].
      split; [|split; [|split; [exact Hdata'|exact Hend']]].
      * rewrite Hval'. unfold rd_val. simpl.
        rewrite (skipn_byte_at (b_data b) (b_position b)) by lia. simpl.
        rewrite Z.pow_add_r by lia. change (2 ^ 8) with 256. ring.
      * rewrite Hrem'. unfold rem_bits. simpl. lia.
    + exists b. split; [reflexivity|]. split; [unfold rd_wf, conv_wf; auto|].
      do 3 (split; [reflexivity|]).
      intros Hlt. apply andb_false_iff in E as [E|E]; apply Z.ltb_ge in E; lia.
Qed.

Lemma skipn_len_nil (data : list Z) :
  skipn (Z.to_nat (len data)) data = [].
Proof. unfold len. rewrite Nat2Z.id. apply skipn_all. Qed.

(** [readCode] takes the low [n] bits of the remaining stream, when it
    holds that many, and [null] otherwise. *)
Lemma readCode_spec b n :
  rd_wf b -> 1 <= n <= 16 ->
  (n <= rem_bits b ->
   exists b', readCode b n = Ok (Some (rd_val b mod 2 ^ n), b') /\ rd_wf b' /\
     rd_val b' = rd_val b / 2 ^ n /\ rem_bits b' = rem_bits b - n /\
     b_data b' = b_data b) /\
  (rem_bits b < n -> exists b', readCode b n = Ok (None, b')).
Proof.
  intros Hwf Hn. unfold readCode.
  replace ((n <=? 0) || (16 <? n)) with false
    by (symmetry; apply orb_false_iff; split;
        [apply Z.leb_gt|apply Z.ltb_ge]; lia).
  destruct (fill_loop_spec (length (b_data b)) b n Hwf)
    as (b' & -> & Hwf' & Hval & Hrem & Hdata & Hend).
  { destruct Hwf as ([Hp _] & _). unfold len. lia. }
  destruct Hwf' as ([Hp Hbits] & Hbuf & Hd).
  split.
  - intros Hge. destruct (bitsInBuffer b' <? n) eqn:E.
    { apply Z.ltb_lt in E. specialize (Hend E).
      rewrite <- Hrem in Hge. unfold rem_bits in Hge. lia. }
    apply Z.ltb_ge in E. rewrite land_mask by lia.
    rewrite Z.shiftr_div_pow2 by lia.
    set (X := le_val (skipn (Z.to_nat (b_position b')) (b_data b'))) in *.
    assert (Hv : rd_val b = bitBuffer b' + X * 2 ^ (bitsInBuffer b' - n) * 2 ^ n).
    { rewrite <- Hval. unfold rd_val. fold X.
      rewrite <- Z.mul_assoc, <- Z.pow_add_r by lia.
      replace (bitsInBuffer b' - n + n) with (bitsInBuffer b') by lia. reflexivity. }
    pose proof (pow2_pos n ltac:(lia)) as Hpn.
    eexists. split; [|split; [|split; [|split]]].
    + rewrite Hv. rewrite Z.mod_add by lia. reflexivity.
    + unfold rd_wf, conv_wf. simpl. repeat split; try lia; try assumption.
      * apply Z.div_pos; lia.
      * apply Z.div_lt_upper_bound; [lia|].
        rewrite <- Z.pow_add_r by lia.
        replace (n + (bitsInBuffer b' - n)) with (bitsInBuffer b') by lia. lia.
    + unfold rd_val at 1. simpl. fold X. rewrite Hv.
      rewrite Z.div_add by lia. reflexivity.
    + rewrite <- Hrem. unfold rem_bits. simpl. lia.
    + simpl. exact Hdata.
  - intros Hlt. destruct (bitsInBuffer b' <? n) eqn:E; [eauto|].
    apply Z.ltb_ge in E. rewrite <- Hrem in Hlt. unfold rem_bits in Hlt. lia.
Qed.

Lemma hasMore_spec b : conv_wf b -> hasMore b = (0 <? rem_bits b).
Proof.
  intros [Hp Hb]. unfold hasMore, rem_bits.
  destruct (b_position b <? len (b_data b)) eqn:E1;
    destruct (0 <? bitsInBuffer b) eqn:E2; simpl; symmetry;
    try (apply Z.ltb_lt); try (apply Z.ltb_ge);
    try apply Z.ltb_lt in E1; try apply Z.ltb_ge in E1;
    try apply Z.ltb_lt in E2; try apply Z.ltb_ge in E2; lia.
Qed.


(** ** The two dictionaries *)

Lemma clearCode_pow k : 0 <= k -> clearCode k = 2 ^ k.
Proof. intros. unfold clearCode. apply Z.shiftl_1_l. Qed.

Lemma initial_map_lookup_gen (l : list Z) : forall (m : gmap (list Z) Z) s c,
  (forall s c, m !! s = Some c -> s = [c]) ->
  foldl (fun m i => <[ [i] := i ]> m) m l !! s = Some c <->
  s = [c] /\ (c ∈ l \/ m !! [c] = Some c).
Proof.
  induction l as [|x l IH]; intros m s c Hm; simpl.
  - split.
    + intros H. pose proof (Hm _ _ H) as ->. split; [reflexivity|right; exact H].
    + intros [-> [H|H]]; [inversion H|exact H].
  - rewrite IH.
    + split; intros [-> H]; (split; [reflexivity|]).
      * destruct H as [H|H]; [left; right; exact H|].
        destruct (decide (x = c)) as [->|Hne]; [left; left|].
        rewrite lookup_insert_ne in H by congruence. right; exact H.
      * destruct H as [H|H].
        -- apply elem_of_cons in H as [->|H]; [|left; exact H].
           right. apply lookup_insert_eq.
        -- destruct (decide (x = c)) as [->|Hne].
           ++ right. apply lookup_insert_eq.
           ++ right. rewrite lookup_insert_ne by congruence. exact H.
    + intros s' c' H. destruct (decide ([x] = s')) as [<-|Hne].
      * rewrite lookup_insert_eq in H. congruence.
      * rewrite lookup_insert_ne in H by assumption. eauto.
Qed.

Lemma e_reset_lookup d s c :
  e_dictionary (e_reset d) !! s = Some c <->
  s = [c] /\ 0 <= c < clearCode (e_initialCodeSize d).
Proof.
  unfold e_reset. simpl. rewrite initial_map_lookup_gen.
  - rewrite elem_of_seqZ, lookup_empty. split.
    + intros [-> [H|H]]; [split; [reflexivity|lia]|discriminate].
    + intros [-> H]. split; [reflexivity|left; lia].
  - intros s' c'. rewrite lookup_empty. discriminate.
Qed.

Lemma js_array_set_end {A} (a : list (option A)) v :
  js_array_set a (len a) v = a ++ [v].
Proof.
  unfold js_array_set. rewrite Z.ltb_irrefl.
  unfold len. rewrite Nat2Z.id, Nat.sub_diag. reflexivity.
Qed.

Lemma d_reset_table d :
  0 <= d_initialCodeSize d ->
  d_dictionary (d_reset d)
  = map (fun i => Some [i]) (seqZ 0 (clearCode (d_initialCodeSize d)))
    ++ [None; None].
Proof.
  intros Hk. unfold d_reset. simpl.
  set (n := clearCode (d_initialCodeSize d)).
  assert (Hn : 0 <= n).
  { unfold n. rewrite clearCode_pow by assumption. apply Z.pow_nonneg. lia. }
  set (singles := map _ _).
  assert (Hl : len singles = n).
  { unfold singles, len. rewrite length_map, length_seqZ. lia. }
  rewrite <- Hl at 1. rewrite js_array_set_end.
  replace (endCode (d_initialCodeSize d)) with (len (singles ++ [None]))
    by (rewrite len_app, Hl; reflexivity).
  rewrite js_array_set_end, <- app_assoc. reflexivity.
Qed.

Lemma nth_error_lookup {A} (l : list A) (n : nat) : nth_error l n = l !! n.
Proof.
  revert n. induction l as [|x l IH]; intros [|n]; simpl; auto.
Qed.

Lemma d_get_lookup d c :
  0 <= c ->
  d_get d c = match d_dictionary d !! Z.to_nat c with
              | Some v => v
              | None => None
              end.
Proof.
  intros Hc. unfold d_get. destruct (len (d_dictionary d) <=? c) eqn:E.
  - apply Z.leb_le in E. rewrite lookup_ge_None_2; [reflexivity|].
    unfold len in E. lia.
  - rewrite nth_error_lookup. reflexivity.
Qed.

Lemma d_reset_get d c :
  0 <= d_initialCodeSize d ->
  0 <= c < clearCode (d_initialCodeSize d) ->
  d_get (d_reset d) c = Some [c].
Proof.
  intros Hk Hc. rewrite d_get_lookup by lia. rewrite d_reset_table by assumption.
  rewrite lookup_app_l by (rewrite length_map, length_seqZ; lia).
  rewrite list_lookup_fmap.
  rewrite (lookup_seqZ_lt 0 _ (Z.to_nat c)) by lia. simpl.
  do 3 f_equal. lia.
Qed.

Lemma d_reset_len d :
  0 <= d_initialCodeSize d ->
  len (d_dictionary (d_reset d)) = clearCode (d_initialCodeSize d) + 2.
Proof.
  intros Hk. rewrite d_reset_table by assumption.
  rewrite len_app. unfold len. rewrite length_map, length_seqZ. simpl.
  assert (0 <= clearCode (d_initialCodeSize d))
    by (rewrite clearCode_pow by assumption; apply Z.pow_nonneg; lia).
  lia.
Qed.

(** Adding at the next code, when the table is that long, appends. *)
Lemma d_add_get d str c :
  len (d_dictionary d) = d_nextCode d -> d_nextCode d < MAX_CODE_VALUE ->
  0 <= c ->
  d_get (d_add d str) c
  = if c =? d_nextCode d then Some str else d_get d c.
Proof.
  intros Hl Hn Hc. rewrite !d_get_lookup by assumption. unfold d_add.
  apply Z.ltb_lt in Hn. rewrite Hn. cbn [d_dictionary].
  rewrite <- Hl. rewrite js_array_set_end.
  destruct (c =? len (d_dictionary d)) eqn:E.
  - apply Z.eqb_eq in E. subst c. unfold len. rewrite Nat2Z.id.
    rewrite lookup_app_r by lia. rewrite Nat.sub_diag. reflexivity.
  - apply Z.eqb_neq in E. unfold len in E.
    destruct (Z_lt_ge_dec c (len (d_dictionary d))) as [Hlt|Hge].
    + rewrite lookup_app_l by (unfold len in Hlt; lia). reflexivity.
    + rewrite !lookup_ge_None_2; [reflexivity| |]; unfold len in Hge.
      * lia.
      * rewrite length_app. simpl. lia.
Qed.

Lemma d_add_next d str :
  len (d_dictionary d) = d_nextCode d -> d_nextCode d < MAX_CODE_VALUE ->
  d_nextCode (d_add d str) = d_nextCode d + 1 /\
  len (d_dictionary (d_add d str)) = d_nextCode d + 1 /\
  d_initialCodeSize (d_add d str) = d_initialCodeSize d.
Proof.
  intros Hl Hn. unfold d_add. apply Z.ltb_lt in Hn. rewrite Hn.
  cbn [d_dictionary d_nextCode d_initialCodeSize].
  split; [reflexivity|]. split; [|reflexivity].
  rewrite <- Hl. rewrite js_array_set_end, len_app.
  change (len [Some str]) with 1. reflexivity.
Qed.

(** ** The code width *)

Lemma codeBits_loop_spec fuel : forall bits max maxCode,
  0 <= bits <= 12 -> max = 2 ^ bits -> 12 - bits <= Z.of_nat fuel ->
  exists b, codeBits_loop fuel bits max maxCode = Some b /\
    bits <= b <= 12 /\ (maxCode < 2 ^ b \/ b = 12) /\
    (forall b', bits <= b' < b -> 2 ^ b' <= maxCode).
Proof.
  induction fuel as [|fuel IH]; intros bits max maxCode Hb Hmax Hfuel; simpl.
  - assert (bits = 12) as -> by lia.
    rewrite Z.ltb_irrefl, andb_false_r. exists 12.
    split; [reflexivity|]. split; [lia|]. split; [right; reflexivity|].
    intros; lia.
  - destruct ((max <=? maxCode) && (bits <? 12)) eqn:E.
    + apply andb_true_iff in E as [E1 E2].
      apply Z.leb_le in E1. apply Z.ltb_lt in E2.
      destruct (IH (bits + 1) (Z.shiftl max 1) maxCode) as (b & Hb' & Hr & Hlt & Hmin);
        [lia| |lia|].
      { rewrite Z.shiftl_mul_pow2 by lia. subst max.
        rewrite Z.pow_add_r by lia. reflexivity. }
      exists b. split; [exact Hb'|]. split; [lia|]. split; [exact Hlt|].
      intros b' Hb''. destruct (Z.eq_dec b' bits) as [->|Hne]; [lia|].
      apply Hmin. lia.
    + exists bits. split; [reflexivity|]. split; [lia|]. split.
      * apply andb_false_iff in E as [E|E].
        -- apply Z.leb_gt in E. left. lia.
        -- apply Z.ltb_ge in E. right. lia.
      * intros b' Hb'. lia.
Qed.

Lemma calculateCodeBits_spec maxCode init :
  1 <= init <= 12 -> 0 <= maxCode < 4096 ->
  exists b, calculateCodeBits maxCode init = Ok b /\
    init <= b <= 12 /\ maxCode < 2 ^ b /\
    (forall b', init <= b' < b -> 2 ^ b' <= maxCode).
Proof.
  intros Hi Hm. unfold calculateCodeBits. rewrite Z.shiftl_1_l.
  destruct (maxCode <? 2 ^ init) eqn:E.
  - apply Z.ltb_lt in E. exists init.
    split; [reflexivity|]. split; [lia|]. split; [exact E|]. intros; lia.
  - apply Z.ltb_ge in E.
    destruct (codeBits_loop_spec 12 init (2 ^ init) maxCode)
      as (b & -> & Hr & Hlt & Hmin); [lia|reflexivity|lia|].
    exists b. rewrite Z.min_l by lia. split; [reflexivity|].
    split; [lia|]. split; [|exact Hmin].
    destruct Hlt as [Hlt| ->]; [exact Hlt|]. change (2 ^ 12) with 4096. lia.
Qed.


(** ** The coder, step by step *)

Section Coder.
Variable k : Z.
Hypothesis Hk : 2 <= k <= 8.

Lemma clear_range : 4 <= clearCode k <= 256.
Proof.
  rewrite clearCode_pow by lia. split.
  - change 4 with (2 ^ 2). apply Z.pow_le_mono_r; lia.
  - change 256 with (2 ^ 8). apply Z.pow_le_mono_r; lia.
Qed.

Lemma clear_lt_width : clearCode k + 1 < 2 ^ (k + 1).
Proof.
  pose proof clear_range. rewrite clearCode_pow in * by lia.
  rewrite Z.pow_add_r by lia. lia.
Qed.

(** The width is the least one, from [k + 1] on, that holds the last code
    assigned. *)
Definition bits_ok (bits next : Z) : Prop :=
  k + 1 <= bits <= 12 /\ next - 1 < 2 ^ bits /\
  (k + 1 < bits -> 2 ^ (bits - 1) <= next - 1).

Lemma bits_ok_initial : bits_ok (k + 1) (clearCode k + 2).
Proof. pose proof clear_lt_width. unfold bits_ok. lia. Qed.

Lemma bits_after_add bits next newBits :
  bits_ok bits next -> next <= 4095 ->
  k + 1 <= newBits <= 12 -> next < 2 ^ newBits ->
  (forall b', k + 1 <= b' < newBits -> 2 ^ b' <= next) ->
  (if (bits <? newBits) && (newBits <=? 12) then newBits else bits)
  = (if (2 ^ bits <=? next) && (bits <? 12) then bits + 1 else bits) /\
  bits_ok (if (2 ^ bits <=? next) && (bits <? 12) then bits + 1 else bits)
          (next + 1).
Proof.
  intros (Hb & Hlt & Hmin) Hn Hnb Hnlt Hnmin.
  destruct (2 ^ bits <=? next) eqn:E.
  - apply Z.leb_le in E. assert (Hb12 : bits < 12).
    { destruct (Z_lt_ge_dec bits 12) as [|Hge]; [assumption|].
      assert (2 ^ 12 <= 2 ^ bits) by (apply Z.pow_le_mono_r; lia).
      change (2 ^ 12) with 4096 in *. lia. }
    assert (Hlt' : bits < newBits).
    { destruct (Z_lt_ge_dec bits newBits) as [|Hge]; [assumption|].
      assert (2 ^ newBits <= 2 ^ bits) by (apply Z.pow_le_mono_r; lia). lia. }
    assert (Heq : newBits = bits + 1).
    { destruct (Z.eq_dec newBits (bits + 1)) as [|Hne]; [assumption|].
      specialize (Hnmin (bits + 1) ltac:(lia)).
      rewrite Z.pow_add_r in Hnmin by lia. lia. }
    replace (bits <? newBits) with true by (symmetry; apply Z.ltb_lt; lia).
    replace (newBits <=? 12) with true by (symmetry; apply Z.leb_le; lia).
    replace (bits <? 12) with true by (symmetry; apply Z.ltb_lt; lia).
    simpl. split; [assumption|]. unfold bits_ok.
    replace (bits + 1 - 1) with bits by lia.
    rewrite <- Heq. repeat split; lia.
  - apply Z.leb_gt in E. simpl.
    assert (Hle : newBits <= bits).
    { destruct (Z_le_gt_dec newBits bits) as [|Hgt]; [assumption|].
      specialize (Hnmin bits ltac:(lia)). lia. }
    replace (bits <? newBits) with false by (symmetry; apply Z.ltb_ge; lia).
    simpl. split; [reflexivity|]. unfold bits_ok. repeat split; lia.
Qed.

Definition enc_inv (st : compress_state) : Prop :=
  let d := c_dictionary st in
  e_initialCodeSize d = k /\
  cv_wf (c_converter st) /\
  clearCode k + 2 <= e_nextCode d <= 4096 /\
  bits_ok (c_currentBits st) (e_nextCode d) /\
  (forall b, 0 <= b < clearCode k -> e_dictionary d !! [b] = Some b) /\
  (forall s c, e_dictionary d !! s = Some c ->
     0 <= c < e_nextCode d /\ (c < clearCode k \/ clearCode k + 1 < c)
     /\ s <> []) /\
  (c_currentString st = []
   \/ is_Some (e_dictionary d !! c_currentString st)).

(** A code of the dictionary fits the current width. *)
Lemma enc_code_fits st s c :
  enc_inv st -> e_dictionary (c_dictionary st) !! s = Some c ->
  0 <= c < 2 ^ c_currentBits st.
Proof.
  intros (_ & _ & _ & (_ & Hlt & _) & _ & Hent & _) H.
  destruct (Hent _ _ H) as (Hc & _). lia.
Qed.

Lemma clear_fits st : enc_inv st -> 0 <= clearCode k + 1 < 2 ^ c_currentBits st.
Proof.
  intros (_ & _ & Hn & (_ & Hlt & _) & _). pose proof clear_range. lia.
Qed.

Lemma enc_bits_range st : enc_inv st -> 3 <= c_currentBits st <= 12.
Proof. intros (_ & _ & _ & (Hb & _) & _). lia. Qed.

Lemma enc_inv_reset conv d b :
  e_initialCodeSize d = k -> cv_wf conv -> 0 <= b < clearCode k ->
  enc_inv (mkCompress conv (e_reset d) (k + 1) [b]).
Proof.
  intros Hd Hwf Hb. unfold enc_inv. cbn [c_dictionary c_converter c_currentBits c_currentString].
  assert (Hn : e_nextCode (e_reset d) = clearCode k + 2)
    by (unfold e_reset, endCode; cbn [e_nextCode]; rewrite Hd; lia).
  assert (Hs : e_initialCodeSize (e_reset d) = k) by exact Hd.
  rewrite Hn, Hs. pose proof clear_range.
  split; [reflexivity|]. split; [assumption|]. split; [lia|].
  split; [apply bits_ok_initial|]. split; [|split].
  - intros b0 Hb0. apply e_reset_lookup. rewrite Hd. auto.
  - intros s c Hsc. apply e_reset_lookup in Hsc as [-> Hc].
    rewrite Hd in Hc. repeat split; try lia. discriminate.
  - right. exists b. apply e_reset_lookup. rewrite Hd. auto.
Qed.

(** What one byte does to the coder. *)
Inductive enc_step (st : compress_state) (b : Z) (st' : compress_state) : Prop :=
| enc_hit :
    is_Some (e_dictionary (c_dictionary st) !! (c_currentString st ++ [b])) ->
    st' = mkCompress (c_converter st) (c_dictionary st) (c_currentBits st)
            (c_currentString st ++ [b]) ->
    enc_step st b st'
| enc_miss_add code conv :
    c_currentString st <> [] ->
    e_dictionary (c_dictionary st) !! c_currentString st = Some code ->
    e_nextCode (c_dictionary st) <= 4095 ->
    push (c_converter st) code (c_currentBits st) = Ok conv ->
    st' = mkCompress conv
            (mkLZWDictionary k
               (<[ c_currentString st ++ [b] := e_nextCode (c_dictionary st) ]>
                  (e_dictionary (c_dictionary st)))
               (e_nextCode (c_dictionary st) + 1))
            (if (2 ^ c_currentBits st <=? e_nextCode (c_dictionary st))
                && (c_currentBits st <? 12)
             then c_currentBits st + 1 else c_currentBits st)
            [b] ->
    enc_step st b st'
| enc_miss_reset code conv conv' :
    c_currentString st <> [] ->
    e_dictionary (c_dictionary st) !! c_currentString st = Some code ->
    e_nextCode (c_dictionary st) = 4096 ->
    push (c_converter st) code (c_currentBits st) = Ok conv ->
    push conv (clearCode k) (c_currentBits st) = Ok conv' ->
    st' = mkCompress conv' (e_reset (c_dictionary st)) (k + 1) [b] ->
    enc_step st b st'.

Lemma compress_step_spec st b :
  enc_inv st -> 0 <= b < clearCode k ->
  exists st', compress_step k st b = Ok st' /\ enc_step st b st' /\ enc_inv st'.
Proof.
  intros Hinv Hb.
  pose proof Hinv as (Hk' & Hwf & Hnext & Hbits & Hsingle & Hent & Hcur).
  unfold compress_step, e_has, e_get.
  case_bool_decide as Hhas.
  - (* the longer string is known *)
    eexists. split; [reflexivity|]. split; [apply enc_hit; auto|].
    unfold enc_inv. simpl. do 6 (split; [assumption|]).
    right. exact Hhas.
  - assert (Hne : c_currentString st <> []).
    { intros E. rewrite E in Hhas. apply Hhas. simpl.
      rewrite Hsingle by assumption. eauto. }
    destruct Hcur as [Hcur|[code Hcode]]; [contradiction|].
    rewrite Hcode.
    destruct (push_spec (c_converter st) code (c_currentBits st) Hwf)
      as (conv & Hpush & Hwf1 & Hval1 & Hlen1).
    { pose proof (enc_bits_range st Hinv). lia. }
    { eapply enc_code_fits; eauto. }
    rewrite Hpush. simpl. unfold e_shouldReset, MAX_CODE_VALUE.
    destruct (4095 <? e_nextCode (c_dictionary st)) eqn:Efull; simpl.
    + (* dictionary full: clear code and reset *)
      apply Z.ltb_lt in Efull.
      destruct (push_spec conv (clearCode k) (c_currentBits st) Hwf1)
        as (conv' & Hpush' & Hwf2 & Hval2 & Hlen2).
      { pose proof (enc_bits_range st Hinv). lia. }
      { pose proof (clear_fits st Hinv). pose proof clear_range. lia. }
      unfold e_clear. rewrite Hk', Hpush'. simpl.
      eexists. split; [reflexivity|]. split.
      * eapply enc_miss_reset; eauto. lia.
      * apply enc_inv_reset; assumption.
    + (* room left: add the longer string *)
      apply Z.ltb_ge in Efull.
      unfold e_add, MAX_CODE_VALUE.
      replace (4095 <? e_nextCode (c_dictionary st)) with false
        by (symmetry; apply Z.ltb_ge; lia).
      simpl. replace (e_nextCode (c_dictionary st) + 1 - 1)
        with (e_nextCode (c_dictionary st)) by lia.
      destruct (calculateCodeBits_spec (e_nextCode (c_dictionary st)) (k + 1))
        as (nb & Hcb & Hnb & Hnlt & Hnmin); [lia|pose proof clear_range; lia|].
      rewrite Hcb. simpl.
      destruct (bits_after_add _ _ nb Hbits Efull Hnb Hnlt Hnmin) as [Heq Hok].
      rewrite Heq, Hk'.
      eexists. split; [reflexivity|]. split.
      * eapply enc_miss_add; eauto.
      * unfold enc_inv. simpl.
        split; [reflexivity|]. split; [assumption|].
        split; [lia|]. split; [exact Hok|].
        assert (Hlong : forall b0, c_currentString st ++ [b] <> [b0]).
        { intros b0 E. destruct (c_currentString st) as [|x [|y l]];
            try contradiction; discriminate. }
        split; [|split].
        -- intros b0 Hb0. rewrite lookup_insert_ne by apply Hlong. auto.
        -- intros s c Hs.
           destruct (decide (c_currentString st ++ [b] = s)) as [<-|Hns].
           ++ rewrite lookup_insert_eq in Hs. injection Hs as <-.
              repeat split; try lia.
              intros E. apply app_eq_nil in E as [_ E]. discriminate.
           ++ rewrite lookup_insert_ne in Hs by assumption.
              destruct (Hent _ _ Hs) as (H1 & H2 & H3). repeat split; try lia.
              assumption.
        -- right. exists b. rewrite lookup_insert_ne by apply Hlong. auto.
Qed.


(** [c2] holds the bits of [c1] and then some more. *)
Definition ext (c1 c2 : CodeToBytesConverter) : Prop :=
  exists X, 0 <= X /\ cv_val c2 = cv_val c1 + X * 2 ^ cv_len c1 /\
            cv_len c1 <= cv_len c2.

Lemma ext_refl c : ext c c.
Proof. exists 0. split; [lia|]. split; lia. Qed.

Lemma ext_trans c1 c2 c3 : cv_wf c1 -> ext c1 c2 -> ext c2 c3 -> ext c1 c3.
Proof.
  intros Hwf (X1 & H1 & Hv1 & Hl1) (X2 & H2 & Hv2 & Hl2).
  pose proof (cv_len_nonneg c1 Hwf) as Hl.
  exists (X1 + X2 * 2 ^ (cv_len c2 - cv_len c1)).
  pose proof (pow2_pos (cv_len c2 - cv_len c1) ltac:(lia)).
  split; [nia|]. split; [|lia].
  rewrite Hv2, Hv1.
  replace (cv_len c2) with (cv_len c2 - cv_len c1 + cv_len c1) at 1 by lia.
  rewrite Z.pow_add_r by lia. ring.
Qed.

Lemma push_ext c code n c' :
  cv_wf c -> 0 < n -> 0 <= code < 2 ^ n -> push c code n = Ok c' ->
  cv_wf c' /\ ext c c' /\
  cv_val c' = cv_val c + code * 2 ^ cv_len c /\ cv_len c' = cv_len c + n.
Proof.
  intros Hwf Hn Hc Hp.
  destruct (push_spec c code n Hwf Hn Hc) as (c1 & Hp1 & Hwf1 & Hv & Hl).
  rewrite Hp in Hp1. injection Hp1 as <-.
  split; [assumption|]. split; [|auto].
  exists code. split; [lia|]. split; [assumption|lia].
Qed.

Lemma enc_step_ext st b st' :
  enc_inv st -> enc_step st b st' ->
  cv_wf (c_converter st') /\ ext (c_converter st) (c_converter st').
Proof.
  intros Hinv Hstep. pose proof Hinv as (_ & Hwf & _).
  pose proof (enc_bits_range st Hinv) as Hb.
  assert (Hpos : 0 < c_currentBits st) by lia.
  destruct Hstep as [_ ->|code conv _ Hc _ Hp ->|code conv conv' _ Hc _ Hp Hp' ->];
    simpl.
  - split; [assumption|apply ext_refl].
  - destruct (push_ext _ _ _ _ Hwf Hpos
                (enc_code_fits st _ _ Hinv Hc) Hp) as (H1 & H2 & _).
    split; assumption.
  - destruct (push_ext _ _ _ _ Hwf Hpos
                (enc_code_fits st _ _ Hinv Hc) Hp) as (H1 & H2 & _).
    assert (Hcl : 0 <= clearCode k < 2 ^ c_currentBits st)
      by (pose proof (clear_fits st Hinv); pose proof clear_range; lia).
    destruct (push_ext _ _ _ _ H1 Hpos Hcl Hp') as (H3 & H4 & _).
    split; [assumption|]. eapply ext_trans; eauto.
Qed.

(** The end of [compressLZW]: the code of the pending string, the end
    code, and the flush. *)
Inductive enc_finish (st : compress_state) (cf : CodeToBytesConverter) : Prop :=
| finish_empty :
    c_currentString st = [] ->
    push (c_converter st) (clearCode k + 1) (c_currentBits st) = Ok cf ->
    enc_finish st cf
| finish_pending code conv :
    c_currentString st <> [] ->
    e_dictionary (c_dictionary st) !! c_currentString st = Some code ->
    push (c_converter st) code (c_currentBits st) = Ok conv ->
    push conv (clearCode k + 1) (c_currentBits st) = Ok cf ->
    enc_finish st cf.

Lemma compress_finish_spec st :
  enc_inv st ->
  exists cf, compress_finish st = Ok (flush cf) /\ enc_finish st cf /\
             cv_wf cf /\ ext (c_converter st) cf.
Proof.
  intros Hinv. pose proof Hinv as (Hk' & Hwf & _ & _ & _ & Hent & Hcur).
  pose proof (enc_bits_range st Hinv) as Hb.
  assert (Hpos : 0 < c_currentBits st) by lia.
  pose proof (clear_fits st Hinv) as Hcf.
  unfold compress_finish, e_get, e_end, endCode. rewrite Hk'.
  destruct (0 <? len (c_currentString st)) eqn:E.
  - apply Z.ltb_lt in E.
    assert (Hne : c_currentString st <> [])
      by (intros E'; rewrite E' in E; discriminate E).
    destruct Hcur as [Hcur|[code Hcode]]; [contradiction|]. rewrite Hcode.
    destruct (push_spec (c_converter st) code (c_currentBits st) Hwf)
      as (conv & Hp & Hwf1 & Hv1 & Hl1); [lia|eapply enc_code_fits; eauto|].
    rewrite Hp. simpl.
    destruct (push_spec conv (clearCode k + 1) (c_currentBits st) Hwf1)
      as (cf & Hp' & Hwf2 & Hv2 & Hl2); [lia|assumption|].
    rewrite Hp'. simpl. exists cf. split; [reflexivity|].
    split; [eapply finish_pending; eauto|]. split; [assumption|].
    destruct (push_ext _ _ _ _ Hwf Hpos
                (enc_code_fits st _ _ Hinv Hcode) Hp) as (_ & He1 & _).
    destruct (push_ext _ _ _ _ Hwf1 Hpos Hcf Hp') as (_ & He2 & _).
    eapply ext_trans; eauto.
  - apply Z.ltb_ge in E.
    assert (Hnil : c_currentString st = []).
    { revert E. destruct (c_currentString st); [reflexivity|].
      unfold len. simpl. intros E. exfalso. lia. }
    simpl.
    destruct (push_spec (c_converter st) (clearCode k + 1) (c_currentBits st) Hwf)
      as (cf & Hp' & Hwf2 & Hv2 & Hl2); [lia|assumption|].
    rewrite Hp'. simpl. exists cf. split; [reflexivity|].
    split; [apply finish_empty; assumption|]. split; [assumption|].
    destruct (push_ext _ _ _ _ Hwf Hpos Hcf Hp') as (_ & He2 & _).
    exact He2.
Qed.

Definition valid_byte (b : Z) : Prop := 0 <= b < clearCode k.

(** The whole coder after the first clear code. *)
Definition compress_rest (rest : list Z) (st : compress_state)
  : result (list Z) :=
  let! st' := for_each (compress_step k) rest st in compress_finish st'.

(** [cf] is the converter the coder ends with, before the flush. *)
Fixpoint enc_final (rest : list Z) (st : compress_state)
    (cf : CodeToBytesConverter) : Prop :=
  match rest with
  | [] => enc_finish st cf
  | b :: rest' =>
      exists st', compress_step k st b = Ok st' /\ enc_final rest' st' cf
  end.

Lemma compress_rest_spec rest : forall st,
  enc_inv st -> Forall valid_byte rest ->
  exists cf, compress_rest rest st = Ok (flush cf) /\ enc_final rest st cf.
Proof.
  induction rest as [|b rest IH]; intros st Hinv Hrest.
  - unfold compress_rest. simpl.
    destruct (compress_finish_spec st Hinv) as (cf & H1 & H2 & _). eauto.
  - inversion Hrest as [|? ? Hb Hrest']; subst.
    destruct (compress_step_spec st b Hinv Hb) as (st' & Hs & Hstep & Hinv').
    destruct (IH st' Hinv' Hrest') as (cf & Hr & Hfin).
    exists cf. unfold compress_rest in *. simpl. rewrite Hs. simpl.
    split; [exact Hr|]. eauto.
Qed.

Lemma enc_finish_ext st cf :
  enc_inv st -> enc_finish st cf -> cv_wf cf /\ ext (c_converter st) cf.
Proof.
  intros Hinv Hfin.
  destruct (compress_finish_spec st Hinv) as (cf' & _ & Hfin' & Hwf & Hext).
  assert (cf = cf') as ->; [|auto].
  destruct Hfin as [Hc Hp|code conv Hc Hcode Hp Hp'];
    destruct Hfin' as [Hc1 Hp1|code1 conv1 Hc1 Hcode1 Hp1 Hp1'];
    try contradiction; congruence.
Qed.

Lemma enc_final_ext rest : forall st cf,
  enc_inv st -> Forall valid_byte rest -> enc_final rest st cf ->
  cv_wf cf /\ ext (c_converter st) cf.
Proof.
  induction rest as [|b rest IH]; intros st cf Hinv Hrest Hfin.
  - apply enc_finish_ext; assumption.
  - inversion Hrest as [|? ? Hb Hrest']; subst.
    destruct Hfin as (st' & Hs & Hfin).
    destruct (compress_step_spec st b Hinv Hb) as (st1 & Hs1 & Hstep & Hinv').
    rewrite Hs in Hs1. injection Hs1 as <-.
    destruct (IH st' cf Hinv' Hrest' Hfin) as [Hwf Hext].
    split; [assumption|].
    destruct (enc_step_ext st b st' Hinv Hstep) as [_ He].
    eapply ext_trans; eauto. apply Hinv.
Qed.



(** ** The decoder follows the coder *)


(** The reader [rd] stands in the bytes flushed from [cf] just after the
    bits that [conv] holds. *)
Definition stream_rel (conv : CodeToBytesConverter) (rd : BytesToCodeConverter)
    (cf : CodeToBytesConverter) : Prop :=
  b_data rd = flush cf /\ rd_wf rd /\
  cv_val cf = cv_val conv + rd_val rd * 2 ^ cv_len conv /\
  rem_bits rd = 8 * len (flush cf) - cv_len conv.

(** A code the coder pushes is the code the reader gets next. *)
Lemma read_emitted conv rd cf code w conv' :
  cv_wf conv -> cv_wf cf -> stream_rel conv rd cf ->
  1 <= w <= 16 -> 0 <= code < 2 ^ w ->
  push conv code w = Ok conv' -> ext conv' cf ->
  hasMore rd = true /\
  exists rd', readCode rd w = Ok (Some code, rd') /\ stream_rel conv' rd' cf /\
              rem_bits rd' = rem_bits rd - w.
Proof.
  intros Hwf Hwff (Hdata & Hrd & Hval & Hrem) Hw Hcode Hpush Hext.
  assert (Hpos : 0 < w) by lia.
  destruct (push_ext _ _ _ _ Hwf Hpos Hcode Hpush) as (Hwf' & _ & Hv' & Hl').
  destruct Hext as (X & HX & HvX & HlX).
  destruct (flush_spec cf Hwff) as (_ & _ & Hfl).
  pose proof (cv_len_nonneg conv Hwf) as HL.
  pose proof (pow2_pos (cv_len conv) HL) as HP.
  pose proof (pow2_pos w ltac:(lia)) as HPw.
  assert (Hrv : rd_val rd = code + X * 2 ^ w).
  { apply (Z.mul_reg_r _ _ (2 ^ cv_len conv)); [lia|].
    rewrite Hl', Z.pow_add_r in HvX by lia. rewrite Hv' in HvX. lia. }
  assert (Hge : w <= rem_bits rd) by lia.
  destruct (readCode_spec rd w Hrd Hw) as [Hread _].
  destruct (Hread Hge) as (rd' & Hr & Hrd' & Hval' & Hrem' & Hdata').
  split.
  - rewrite hasMore_spec by apply Hrd. apply Z.ltb_lt. lia.
  - exists rd'. rewrite Hrv, Z.mod_add, Z.mod_small in Hr by lia.
    split; [exact Hr|]. split; [|exact Hrem'].
    unfold stream_rel. split; [congruence|]. split; [assumption|].
    rewrite Hval', Hrv, Z.div_add, Z.div_small, Z.add_0_l by lia.
    split; [exact HvX|lia].
Qed.

Lemma stream_rel_rem conv rd cf : stream_rel conv rd cf -> 0 <= rem_bits rd.
Proof. intros (_ & ((Hp & Hb) & _) & _). unfold rem_bits. lia. Qed.

Lemma while_continue {S} (body : S -> result (step_result S)) fuel s s' :
  body s = Ok (Continue s') ->
  while_loop (Datatypes.S fuel) body s = while_loop fuel body s'.
Proof. intros H. simpl. rewrite H. reflexivity. Qed.

Lemma while_break {S} (body : S -> result (step_result S)) fuel s s' :
  body s = Ok (Break s') ->
  while_loop (Datatypes.S fuel) body s = Ok s'.
Proof. intros H. simpl. rewrite H. reflexivity. Qed.

(** The decoder's state after a data code decoded as [cur]. *)
Definition dec_next (ds : decompress_state) (rd' : BytesToCodeConverter)
    (cur : list Z) : decompress_state :=
  let dict := dc_dictionary ds in
  if (0 <? len (dc_previousString ds)) && (d_nextCode dict <? MAX_CODE_VALUE)
  then
    let dict' := d_add dict (dc_previousString ds ++ charAt0 cur) in
    mkDecompress rd' dict' (dc_output ds ++ cur)
      (if (Z.shiftl 1 (dc_currentBits ds) <=? d_nextCode dict')
          && (dc_currentBits ds <? 12)
       then dc_currentBits ds + 1 else dc_currentBits ds)
      cur
  else mkDecompress rd' dict (dc_output ds ++ cur) (dc_currentBits ds) cur.

Lemma dec_step_data ds rd' code cur :
  hasMore (dc_converter ds) = true ->
  readCode (dc_converter ds) (dc_currentBits ds) = Ok (Some code, rd') ->
  d_initialCodeSize (dc_dictionary ds) = k ->
  code <> clearCode k -> code <> clearCode k + 1 ->
  (code < d_nextCode (dc_dictionary ds)
   /\ d_get (dc_dictionary ds) code = Some cur)
  \/ (code = d_nextCode (dc_dictionary ds) /\ dc_previousString ds <> []
      /\ cur = dc_previousString ds ++ charAt0 (dc_previousString ds)) ->
  decompress_step k ds = Ok (Continue (dec_next ds rd' cur)).
Proof.
  intros Hmore Hread Hsize Hnc Hne Hcur.
  unfold decompress_step, dec_next. rewrite Hmore, Hread. simpl.
  unfold d_clear, d_end, endCode. rewrite Hsize.
  replace (code =? clearCode k) with false by (symmetry; apply Z.eqb_neq; lia).
  replace (code =? clearCode k + 1) with false
    by (symmetry; apply Z.eqb_neq; lia).
  destruct Hcur as [[Hlt Hget]|(Heq & Hprev & Hcur)].
  - replace (code <? d_nextCode (dc_dictionary ds)) with true
      by (symmetry; apply Z.ltb_lt; lia).
    rewrite Hget. simpl.
    destruct ((0 <? len (dc_previousString ds)) && _); reflexivity.
  - replace (code <? d_nextCode (dc_dictionary ds)) with false
      by (symmetry; apply Z.ltb_ge; lia).
    replace (code =? d_nextCode (dc_dictionary ds)) with true
      by (symmetry; apply Z.eqb_eq; lia).
    replace (len (dc_previousString ds) =? 0) with false.
    2:{ symmetry. apply Z.eqb_neq. destruct (dc_previousString ds);
          [contradiction|]. unfold len. simpl. lia. }
    simpl. rewrite <- Hcur.
    destruct ((0 <? len (dc_previousString ds)) && _); reflexivity.
Qed.

Lemma dec_step_clear ds rd' :
  hasMore (dc_converter ds) = true ->
  readCode (dc_converter ds) (dc_currentBits ds) = Ok (Some (clearCode k), rd') ->
  d_initialCodeSize (dc_dictionary ds) = k ->
  decompress_step k ds
  = Ok (Continue (mkDecompress rd' (d_reset (dc_dictionary ds)) (dc_output ds)
                    (k + 1) [])).
Proof.
  intros Hmore Hread Hsize.
  unfold decompress_step. rewrite Hmore, Hread. simpl.
  unfold d_clear. rewrite Hsize, Z.eqb_refl. reflexivity.
Qed.

Lemma dec_step_end ds rd' :
  hasMore (dc_converter ds) = true ->
  readCode (dc_converter ds) (dc_currentBits ds)
  = Ok (Some (clearCode k + 1), rd') ->
  d_initialCodeSize (dc_dictionary ds) = k ->
  exists ds', decompress_step k ds = Ok (Break ds') /\ dc_output ds' = dc_output ds.
Proof.
  intros Hmore Hread Hsize.
  unfold decompress_step. rewrite Hmore, Hread. simpl.
  unfold d_clear, d_end, endCode. rewrite Hsize, Z.eqb_refl.
  replace (clearCode k + 1 =? clearCode k) with false
    by (symmetry; apply Z.eqb_neq; lia).
  eexists. split; reflexivity.
Qed.

Lemma dec_step_null ds rd' :
  hasMore (dc_converter ds) = true ->
  readCode (dc_converter ds) (dc_currentBits ds) = Ok (None, rd') ->
  decompress_step k ds = Ok (Break ds).
Proof.
  intros Hmore Hread. unfold decompress_step. rewrite Hmore, Hread. reflexivity.
Qed.

(** The decoder's table holds every string of the coder's dictionary but,
    at most, the newest one [pend]. *)
Definition dict_sim (ed : gmap (list Z) Z) (dd : LZWDecodeDictionary)
    (pend : option (list Z)) : Prop :=
  d_initialCodeSize dd = k /\ len (d_dictionary dd) = d_nextCode dd /\
  forall s c, ed !! s = Some c ->
    (c < d_nextCode dd /\ d_get dd c = Some s)
    \/ (pend = Some s /\ c = d_nextCode dd).

Definition sim (st : compress_state) (ds : decompress_state) : Prop :=
  let ed := c_dictionary st in
  let dd := dc_dictionary ds in
  dc_currentBits ds = c_currentBits st /\
  ((dc_previousString ds = [] /\ c_currentBits st = k + 1 /\
    e_nextCode ed = clearCode k + 2 /\ d_nextCode dd = clearCode k + 2 /\
    dict_sim (e_dictionary ed) dd None)
   \/
   (dc_previousString ds <> [] /\ c_currentString st <> [] /\
    e_nextCode ed = d_nextCode dd + 1 /\
    dict_sim (e_dictionary ed) dd
      (Some (dc_previousString ds ++ charAt0 (c_currentString st))))).

Lemma sim_size st ds : sim st ds -> d_initialCodeSize (dc_dictionary ds) = k.
Proof. intros (_ & [(_ & _ & _ & _ & H & _)|(_ & _ & _ & H & _)]); exact H. Qed.

Lemma charAt0_app (s t : list Z) : s <> [] -> charAt0 (s ++ t) = charAt0 s.
Proof. destruct s; [contradiction|reflexivity]. Qed.

(** The string a dictionary code stands for is what the decoder makes of
    that code. *)
Lemma sim_decodes st ds code :
  enc_inv st -> sim st ds ->
  e_dictionary (c_dictionary st) !! c_currentString st = Some code ->
  code <> clearCode k /\ code <> clearCode k + 1 /\
  ((code < d_nextCode (dc_dictionary ds)
    /\ d_get (dc_dictionary ds) code = Some (c_currentString st))
   \/ (code = d_nextCode (dc_dictionary ds) /\ dc_previousString ds <> []
       /\ c_currentString st
          = dc_previousString ds ++ charAt0 (dc_previousString ds))).
Proof.
  intros Hinv (_ & Hsim) Hcode.
  pose proof Hinv as (_ & _ & _ & _ & _ & Hent & _).
  destruct (Hent _ _ Hcode) as (Hc & Hnce & _).
  split; [lia|]. split; [lia|].
  destruct Hsim as [(Hp & _ & _ & _ & _ & _ & Hd)|(Hp & Hcur & _ & _ & _ & Hd)].
  - destruct (Hd _ _ Hcode) as [H|[H _]]; [left; exact H|discriminate].
  - destruct (Hd _ _ Hcode) as [H|[H ->]]; [left; exact H|].
    right. split; [reflexivity|]. split; [assumption|].
    injection H as H. rewrite <- H at 1. f_equal.
    destruct (dc_previousString ds) as [|x l]; [contradiction|].
    rewrite <- H. reflexivity.
Qed.


Lemma clear_plus2_lt_width : clearCode k + 2 < 2 ^ (k + 1).
Proof.
  pose proof clear_range. rewrite clearCode_pow in * by lia.
  rewrite Z.pow_add_r by lia. lia.
Qed.

(** After a code that made the coder add [cur ++ [b]], the decoder is one
    string behind again. *)
Lemma sim_after_add st ds b code conv rd' :
  enc_inv st -> sim st ds ->
  c_currentString st <> [] ->
  e_dictionary (c_dictionary st) !! c_currentString st = Some code ->
  e_nextCode (c_dictionary st) <= 4095 ->
  sim (mkCompress conv
         (mkLZWDictionary k
            (<[ c_currentString st ++ [b] := e_nextCode (c_dictionary st) ]>
               (e_dictionary (c_dictionary st)))
            (e_nextCode (c_dictionary st) + 1))
         (if (2 ^ c_currentBits st <=? e_nextCode (c_dictionary st))
             && (c_currentBits st <? 12)
          then c_currentBits st + 1 else c_currentBits st)
         [b])
      (dec_next ds rd' (c_currentString st)).
Proof.
  intros Hinv (Hbits & Hsim) Hne Hcode Hroom.
  pose proof Hinv as (_ & _ & Hnext & Hbok & _ & Hent & _).
  unfold dec_next, MAX_CODE_VALUE.
  destruct Hsim as [(Hp & Hb1 & Hen & Hdn & Hsz & Hlen & Hd)
                   |(Hp & _ & Hen & Hsz & Hlen & Hd)].
  - (* first code after a clear code: the decoder adds nothing *)
    rewrite Hp. simpl.
    unfold sim. cbn [c_dictionary c_currentBits c_currentString dc_dictionary
                       dc_currentBits dc_previousString e_nextCode e_dictionary].
    pose proof clear_plus2_lt_width as Hlt.
    replace (2 ^ c_currentBits st <=? e_nextCode (c_dictionary st)) with false
      by (symmetry; apply Z.leb_gt; rewrite Hb1, Hen; exact Hlt).
    simpl. split; [exact Hbits|]. right.
    split; [assumption|]. split; [discriminate|]. split; [lia|].
    split; [assumption|]. split; [assumption|].
    intros s c Hs.
    destruct (decide (c_currentString st ++ [b] = s)) as [<-|Hns].
    + rewrite lookup_insert_eq in Hs. injection Hs as <-.
      right. split; [reflexivity|lia].
    + rewrite lookup_insert_ne in Hs by assumption.
      destruct (Hd _ _ Hs) as [H|[H _]]; [left; exact H|discriminate].
  - (* the decoder adds the string the coder added one code earlier *)
    assert (Hdn : d_nextCode (dc_dictionary ds) < 4095) by lia.
    replace (0 <? len (dc_previousString ds)) with true.
    2:{ symmetry. apply Z.ltb_lt. destruct (dc_previousString ds);
          [contradiction|]. unfold len. simpl. lia. }
    replace (d_nextCode (dc_dictionary ds) <? 4095) with true
      by (symmetry; apply Z.ltb_lt; lia).
    simpl.
    destruct (d_add_next (dc_dictionary ds)
                (dc_previousString ds ++ charAt0 (c_currentString st))
                Hlen Hdn) as (Hn' & Hl' & Hs').
    unfold sim. cbn [c_dictionary c_currentBits c_currentString dc_dictionary
                       dc_currentBits dc_previousString e_nextCode e_dictionary].
    rewrite Hn', Z.shiftl_1_l, Hbits, Hen. split; [reflexivity|]. right.
    split; [assumption|]. split; [discriminate|]. split; [lia|].
    split; [congruence|]. split; [lia|].
    intros s c Hs.
    destruct (decide (c_currentString st ++ [b] = s)) as [<-|Hns].
    + rewrite lookup_insert_eq in Hs. injection Hs as <-.
      right. split; [reflexivity|lia].
    + rewrite lookup_insert_ne in Hs by assumption.
      destruct (Hent _ _ Hs) as (Hc0 & _).
      left. rewrite d_add_get by (assumption || lia).
      destruct (Hd _ _ Hs) as [[H1 H2]|[H1 H2]].
      * split; [lia|].
        replace (c =? d_nextCode (dc_dictionary ds)) with false
          by (symmetry; apply Z.eqb_neq; lia).
        exact H2.
      * split; [lia|]. rewrite H2, Z.eqb_refl. exact H1.
Qed.

(** After the code before a clear code, and the clear code, both sides
    start afresh. *)
Lemma dec_next_full st ds rd' cur :
  sim st ds -> e_nextCode (c_dictionary st) = 4096 ->
  dec_next ds rd' cur
  = mkDecompress rd' (dc_dictionary ds) (dc_output ds ++ cur)
      (dc_currentBits ds) cur.
Proof.
  intros (_ & Hsim) Hfull. unfold dec_next, MAX_CODE_VALUE.
  destruct Hsim as [(_ & _ & Hen & _)|(_ & _ & Hen & _)].
  - pose proof clear_range. lia.
  - replace (d_nextCode (dc_dictionary ds) <? 4095) with false
      by (symmetry; apply Z.ltb_ge; lia).
    rewrite andb_false_r. reflexivity.
Qed.

Lemma sim_after_reset conv d cur rd out dd :
  e_initialCodeSize d = k -> d_initialCodeSize dd = k ->
  sim (mkCompress conv (e_reset d) (k + 1) cur)
      (mkDecompress rd (d_reset dd) out (k + 1) []).
Proof.
  intros Hd Hdd. unfold sim.
  cbn [c_dictionary c_currentBits c_currentString dc_dictionary
         dc_currentBits dc_previousString].
  split; [reflexivity|]. left. split; [reflexivity|]. split; [reflexivity|].
  split; [unfold e_reset, endCode; cbn [e_nextCode]; rewrite Hd; lia|].
  split; [unfold d_reset, endCode; cbn [d_nextCode]; rewrite Hdd; lia|].
  unfold dict_sim. split; [exact Hdd|].
  split.
  { rewrite d_reset_len by lia. unfold d_reset, endCode. cbn [d_nextCode].
    rewrite Hdd. lia. }
  intros s c Hs. apply e_reset_lookup in Hs as [-> Hc]. rewrite Hd in Hc.
  left. split.
  - unfold d_reset, endCode. cbn [d_nextCode]. rewrite Hdd. lia.
  - apply d_reset_get; rewrite Hdd; lia.
Qed.

Lemma dec_next_fields ds rd' cur :
  dc_converter (dec_next ds rd' cur) = rd' /\
  dc_output (dec_next ds rd' cur) = dc_output ds ++ cur /\
  d_initialCodeSize (dc_dictionary (dec_next ds rd' cur))
  = d_initialCodeSize (dc_dictionary ds) /\
  dc_currentBits ds <= dc_currentBits (dec_next ds rd' cur)
  <= dc_currentBits ds + 1.
Proof.
  unfold dec_next. destruct (_ && _).
  - cbn [dc_converter dc_output dc_dictionary dc_currentBits].
    split; [reflexivity|]. split; [reflexivity|]. split.
    + unfold d_add. destruct (_ <? _); reflexivity.
    + destruct (_ && _); lia.
  - cbn [dc_converter dc_output dc_dictionary dc_currentBits].
    split; [reflexivity|]. split; [reflexivity|]. split; [reflexivity|lia].
Qed.

(** The end code is read at the decoder's width, which may be one more
    than the coder's: the extra bit is padding, or is missing. *)
Lemma dec_reads_end ds cf conv :
  cv_wf conv -> cv_wf cf ->
  stream_rel conv (dc_converter ds) cf ->
  d_initialCodeSize (dc_dictionary ds) = k ->
  forall w, k + 1 <= w <= 12 -> w <= dc_currentBits ds <= w + 1 ->
  push conv (clearCode k + 1) w = Ok cf ->
  exists ds', decompress_step k ds = Ok (Break ds')
              /\ dc_output ds' = dc_output ds.
Proof.
  intros Hwf Hwff (Hdata & Hrd & Hval & Hrem) Hsize w Hw Hbits Hpush.
  pose proof clear_range as Hcr.
  assert (Hend : 0 <= clearCode k + 1 < 2 ^ w).
  { split; [lia|]. apply Z.lt_le_trans with (2 ^ (k + 1)).
    - pose proof clear_plus2_lt_width. lia.
    - apply Z.pow_le_mono_r; lia. }
  assert (Hpos : 0 < w) by lia.
  destruct (push_ext _ _ _ _ Hwf Hpos Hend Hpush) as (_ & _ & Hv & Hl).
  destruct (flush_spec cf Hwff) as (_ & _ & Hfl).
  pose proof (cv_len_nonneg conv Hwf) as HL.
  pose proof (pow2_pos (cv_len conv) HL) as HP.
  assert (Hrv : rd_val (dc_converter ds) = clearCode k + 1).
  { apply (Z.mul_reg_r _ _ (2 ^ cv_len conv)); [lia|]. lia. }
  assert (Hmore : hasMore (dc_converter ds) = true).
  { rewrite hasMore_spec by apply Hrd. apply Z.ltb_lt. lia. }
  destruct (readCode_spec (dc_converter ds) (dc_currentBits ds) Hrd ltac:(lia))
    as [Hsome Hnone].
  destruct (Z_le_gt_dec (dc_currentBits ds) (rem_bits (dc_converter ds)))
    as [Hge|Hlt].
  - destruct (Hsome Hge) as (rd' & Hr & _).
    rewrite Hrv, Z.mod_small in Hr.
    + eapply dec_step_end; eauto.
    + split; [lia|]. apply Z.lt_le_trans with (2 ^ w); [lia|].
      apply Z.pow_le_mono_r; lia.
  - destruct (Hnone ltac:(lia)) as (rd' & Hr).
    exists ds. split; [eapply dec_step_null; eauto|reflexivity].
Qed.

(** The decoder, started where the coder stands, returns what the coder
    has yet to account for: its pending string and the bytes to come. *)
Lemma round_trip_sim rest : forall st ds cf fuel,
  enc_inv st -> sim st ds -> Forall (valid_byte) rest ->
  enc_final rest st cf ->
  stream_rel (c_converter st) (dc_converter ds) cf ->
  rem_bits (dc_converter ds) < Z.of_nat fuel ->
  exists ds', while_loop fuel (decompress_step k) ds = Ok ds' /\
              dc_output ds' = dc_output ds ++ c_currentString st ++ rest.
Proof.
  induction rest as [|b rest IH]; intros st ds cf fuel Hinv Hsim Hrest Hfin Hstr Hfuel.
  - (* end of the data *)
    destruct (enc_finish_ext st cf Hinv Hfin) as [Hwff _].
    pose proof Hinv as (_ & Hwf & _).
    pose proof (enc_bits_range st Hinv) as Hb.
    pose proof (proj1 Hsim) as Hbits.
    pose proof (sim_size st ds Hsim) as Hsize.
    assert (Hw16 : 1 <= c_currentBits st <= 16) by lia.
    assert (Hwr : k + 1 <= c_currentBits st <= 12)
      by (destruct Hinv as (_ & _ & _ & (? & _) & _); lia).
    pose proof (stream_rel_rem _ _ _ Hstr) as Hrem0.
    simpl in Hfin. destruct Hfin as [Hc Hp|code conv Hc Hcode Hp Hp'].
    + destruct fuel as [|fuel]; [lia|].
      assert (Hbw : c_currentBits st <= dc_currentBits ds <= c_currentBits st + 1)
        by lia.
      destruct (dec_reads_end ds cf (c_converter st) Hwf Hwff Hstr Hsize
                  (c_currentBits st) Hwr Hbw Hp) as (ds' & Hstep & Hout).
      exists ds'. split; [eapply while_break; eauto|].
      rewrite Hout, Hc, !app_nil_r. reflexivity.
    + assert (Hpos : 0 < c_currentBits st) by lia.
      pose proof (enc_code_fits st _ _ Hinv Hcode) as Hfit.
      destruct (push_ext _ _ _ _ Hwf Hpos Hfit Hp) as (Hwf1 & _ & _ & Hl1).
      pose proof (clear_fits st Hinv) as Hcf.
      destruct (push_ext _ _ _ _ Hwf1 Hpos Hcf Hp') as (_ & Hext1 & _ & _).
      destruct (read_emitted _ _ _ _ _ _ Hwf Hwff Hstr Hw16 Hfit Hp Hext1)
        as (Hmore & rd' & Hread & Hstr' & Hrem').
      rewrite <- Hbits in Hread.
      destruct (sim_decodes st ds code Hinv Hsim Hcode) as (Hn1 & Hn2 & Hdec).
      pose proof (dec_step_data ds rd' code _ Hmore Hread Hsize Hn1 Hn2 Hdec)
        as Hstep.
      destruct (dec_next_fields ds rd' (c_currentString st))
        as (Hcv & Hout & Hsz & Hbr).
      destruct fuel as [|fuel]; [lia|].
      rewrite (while_continue _ _ _ _ Hstep).
      assert (Hstr1 : stream_rel conv
                        (dc_converter (dec_next ds rd' (c_currentString st))) cf)
        by (rewrite Hcv; exact Hstr').
      assert (Hsz1 : d_initialCodeSize
                       (dc_dictionary (dec_next ds rd' (c_currentString st))) = k)
        by congruence.
      assert (Hbw : c_currentBits st
                    <= dc_currentBits (dec_next ds rd' (c_currentString st))
                    <= c_currentBits st + 1) by lia.
      destruct (dec_reads_end (dec_next ds rd' (c_currentString st)) cf conv
                  Hwf1 Hwff Hstr1 Hsz1 (c_currentBits st) Hwr Hbw Hp')
        as (ds' & Hstep' & Hout').
      pose proof (stream_rel_rem _ _ _ Hstr') as Hrem1.
      destruct fuel as [|fuel]; [lia|].
      exists ds'. split; [eapply while_break; eauto|].
      rewrite Hout', Hout, app_nil_r. reflexivity.
  - (* one more byte *)
    inversion Hrest as [|? ? Hb Hrest']; subst.
    destruct Hfin as (st' & Hs & Hfin).
    destruct (compress_step_spec st b Hinv Hb) as (st1 & Hs1 & Hstep & Hinv').
    rewrite Hs in Hs1. injection Hs1 as <-.
    destruct (enc_final_ext rest st' cf Hinv' Hrest' Hfin) as [Hwff Hext'].
    pose proof Hinv as (Hesz & Hwf & _).
    pose proof (enc_bits_range st Hinv) as Hbr.
    pose proof (proj1 Hsim) as Hbits.
    pose proof (sim_size st ds Hsim) as Hsize.
    assert (Hpos : 0 < c_currentBits st) by lia.
    assert (Hw16 : 1 <= c_currentBits st <= 16) by lia.
    pose proof (stream_rel_rem _ _ _ Hstr) as Hrem0.
    destruct Hstep as [Hhas ->|code conv Hne Hcode Hroom Hp ->
                      |code conv conv' Hne Hcode Hfull Hp Hp' ->].
    + (* known string: nothing is emitted *)
      destruct (IH _ ds cf fuel Hinv') as (ds' & Hrun & Hout); auto.
      * destruct Hsim as (Hb0 & [H|(H1 & H2 & H3 & H4)]); split; auto.
        right. cbn [c_currentString c_dictionary] in *.
        split; [assumption|]. split.
        { intros E. apply app_eq_nil in E as [_ E]. discriminate. }
        split; [assumption|]. rewrite charAt0_app by assumption. exact H4.
      * exists ds'. split; [exact Hrun|]. rewrite Hout. simpl.
        rewrite <- !app_assoc. reflexivity.
    + (* one code, one new string *)
      pose proof (enc_code_fits st _ _ Hinv Hcode) as Hfit.
      cbn [c_converter] in Hext'.
      destruct (read_emitted _ _ _ _ _ _ Hwf Hwff Hstr Hw16 Hfit Hp Hext')
        as (Hmore & rd' & Hread & Hstr' & Hrem').
      rewrite <- Hbits in Hread.
      destruct (sim_decodes st ds code Hinv Hsim Hcode) as (Hn1 & Hn2 & Hdec).
      pose proof (dec_step_data ds rd' code _ Hmore Hread Hsize Hn1 Hn2 Hdec)
        as Hdstep.
      destruct (dec_next_fields ds rd' (c_currentString st))
        as (Hcv & Hout & Hsz & _).
      destruct fuel as [|fuel]; [lia|].
      rewrite (while_continue _ _ _ _ Hdstep).
      destruct (IH _ (dec_next ds rd' (c_currentString st)) cf fuel Hinv')
        as (ds' & Hrun & Hout'); auto.
      * apply (sim_after_add st ds b code); assumption.
      * rewrite Hcv. exact Hstr'.
      * rewrite Hcv. lia.
      * exists ds'. split; [exact Hrun|]. rewrite Hout', Hout. simpl.
        rewrite <- !app_assoc. reflexivity.
    + (* dictionary full: one code, then a clear code *)
      pose proof (enc_code_fits st _ _ Hinv Hcode) as Hfit.
      assert (Hcl : 0 <= clearCode k < 2 ^ c_currentBits st)
        by (pose proof (clear_fits st Hinv); pose proof clear_range; lia).
      destruct (push_ext _ _ _ _ Hwf Hpos Hfit Hp) as (Hwf1 & _ & _ & _).
      destruct (push_ext _ _ _ _ Hwf1 Hpos Hcl Hp') as (Hwf2 & Hext1 & _ & _).
      cbn [c_converter] in Hext'.
      assert (Hext1' : ext conv cf) by (eapply ext_trans; eauto).
      destruct (read_emitted _ _ _ _ _ _ Hwf Hwff Hstr Hw16 Hfit Hp Hext1')
        as (Hmore & rd' & Hread & Hstr' & Hrem').
      rewrite <- Hbits in Hread.
      destruct (sim_decodes st ds code Hinv Hsim Hcode) as (Hn1 & Hn2 & Hdec).
      pose proof (dec_step_data ds rd' code _ Hmore Hread Hsize Hn1 Hn2 Hdec)
        as Hdstep.
      rewrite (dec_next_full st ds rd' _ Hsim Hfull) in Hdstep.
      destruct fuel as [|fuel]; [lia|].
      rewrite (while_continue _ _ _ _ Hdstep).
      destruct (read_emitted _ _ _ _ _ _ Hwf1 Hwff Hstr' Hw16 Hcl Hp' Hext')
        as (Hmore2 & rd2 & Hread2 & Hstr2 & Hrem2).
      rewrite <- Hbits in Hread2.
      set (ds1 := mkDecompress rd' (dc_dictionary ds)
                    (dc_output ds ++ c_currentString st) (dc_currentBits ds)
                    (c_currentString st)) in *.
      pose proof (dec_step_clear ds1 rd2 Hmore2 Hread2 Hsize) as Hcstep.
      pose proof (stream_rel_rem _ _ _ Hstr') as Hrem1.
      pose proof (stream_rel_rem _ _ _ Hstr2) as Hrem2'.
      destruct fuel as [|fuel]; [lia|].
      rewrite (while_continue _ _ _ _ Hcstep).
      destruct (IH _ (mkDecompress rd2 (d_reset (dc_dictionary ds1))
                        (dc_output ds1) (k + 1) []) cf fuel Hinv')
        as (ds' & Hrun & Hout'); auto.
      * apply sim_after_reset; assumption.
      * cbn [dc_converter]. lia.
      * exists ds'. split; [exact Hrun|]. rewrite Hout'. simpl.
        rewrite <- !app_assoc. reflexivity.
Qed.


Lemma enc_inv_initial conv :
  cv_wf conv -> enc_inv (mkCompress conv (newLZWDictionary k) (k + 1) []).
Proof.
  intros Hwf. unfold enc_inv, newLZWDictionary.
  cbn [c_dictionary c_converter c_currentBits c_currentString].
  set (d := mkLZWDictionary k ∅ 0).
  assert (Hd : e_initialCodeSize d = k) by reflexivity.
  assert (Hn : e_nextCode (e_reset d) = clearCode k + 2)
    by (unfold e_reset, endCode; cbn [e_nextCode]; rewrite Hd; lia).
  assert (Hs : e_initialCodeSize (e_reset d) = k) by exact Hd.
  rewrite Hn, Hs. pose proof clear_range.
  split; [reflexivity|]. split; [assumption|]. split; [lia|].
  split; [apply bits_ok_initial|]. split; [|split].
  - intros b0 Hb0. apply e_reset_lookup. rewrite Hd. auto.
  - intros s c Hsc. apply e_reset_lookup in Hsc as [-> Hc].
    rewrite Hd in Hc. repeat split; try lia. discriminate.
  - left. reflexivity.
Qed.

Lemma new_converter_wf : cv_wf newCodeToBytesConverter.
Proof.
  unfold cv_wf, newCodeToBytesConverter. simpl. repeat split; try lia.
  constructor.
Qed.

Lemma round_trip_valid (s : list Z) :
  s <> [] -> Forall valid_byte s ->
  exists c, compressLZW s k = Ok c /\ decompressLZW c k = Ok s.
Proof.
  intros Hne Hs. pose proof clear_range as Hcr.
  assert (Hcl : 0 <= clearCode k < 2 ^ (k + 1))
    by (pose proof clear_lt_width; lia).
  assert (Hpos : 0 < k + 1) by lia.
  destruct (push_spec newCodeToBytesConverter (clearCode k) (k + 1)
              new_converter_wf Hpos Hcl) as (conv1 & Hp1 & Hwf1 & Hv1 & Hl1).
  set (st0 := mkCompress conv1 (newLZWDictionary k) (k + 1) []).
  pose proof (enc_inv_initial conv1 Hwf1) as Hinv. fold st0 in Hinv.
  destruct (compress_rest_spec s st0 Hinv Hs) as (cf & Hrun & Hfin).
  destruct (enc_final_ext s st0 cf Hinv Hs Hfin) as [Hwff Hext].
  destruct (flush_spec cf Hwff) as (Hfb & Hfv & Hfl).
  assert (Hlen : 0 < len (flush cf)).
  { destruct Hext as (_ & _ & _ & Hle).
    change (c_converter st0) with conv1 in Hle.
    change (cv_len newCodeToBytesConverter) with 0 in Hl1. lia. }
  exists (flush cf). split.
  - unfold compressLZW.
    replace (len s =? 0) with false.
    2:{ symmetry. apply Z.eqb_neq. destruct s; [contradiction|].
        unfold len. simpl. lia. }
    replace ((k <? 1) || (8 <? k)) with false
      by (symmetry; apply orb_false_iff; split; apply Z.ltb_ge; lia).
    change (e_clear (newLZWDictionary k)) with (clearCode k).
    rewrite Hp1. exact Hrun.
  - unfold decompressLZW.
    replace (len (flush cf) =? 0) with false
      by (symmetry; apply Z.eqb_neq; lia).
    replace ((k <? 1) || (8 <? k)) with false
      by (symmetry; apply orb_false_iff; split; apply Z.ltb_ge; lia).
    set (ds0 := mkDecompress (newBytesToCodeConverter (flush cf))
                  (newLZWDecodeDictionary k) [] (k + 1) []).
    assert (Hstr0 : stream_rel newCodeToBytesConverter (dc_converter ds0) cf).
    { unfold stream_rel. cbn [ds0 dc_converter].
      change (cv_val newCodeToBytesConverter) with 0.
      change (cv_len newCodeToBytesConverter) with 0.
      split; [reflexivity|]. split; [|split].
      - unfold rd_wf, conv_wf, newBytesToCodeConverter. simpl.
        repeat split; try lia. assumption.
      - unfold rd_val, newBytesToCodeConverter.
        cbn [b_position b_data bitBuffer bitsInBuffer].
        change (Z.to_nat 0) with 0%nat. rewrite drop_0, Hfv.
        change (2 ^ 0) with 1. lia.
      - unfold rem_bits, newBytesToCodeConverter.
        cbn [b_position b_data bitBuffer bitsInBuffer]. lia. }
    assert (Hw16 : 1 <= k + 1 <= 16) by lia.
    destruct (read_emitted _ _ _ _ _ _ new_converter_wf Hwff Hstr0 Hw16 Hcl Hp1
                Hext) as (Hmore & rd1 & Hread & Hstr1 & Hrem1).
    pose proof (dec_step_clear ds0 rd1 Hmore Hread eq_refl) as Hstep.
    replace (8 * length (flush cf) + 1)%nat with (S (8 * length (flush cf)))
      by lia.
    rewrite (while_continue _ _ _ _ Hstep).
    destruct (round_trip_sim s st0
                (mkDecompress rd1 (d_reset (dc_dictionary ds0)) (dc_output ds0)
                   (k + 1) []) cf (8 * length (flush cf)) Hinv)
      as (ds' & Hloop & Hout); auto.
    + apply sim_after_reset; reflexivity.
    + cbn [dc_converter]. rewrite Hrem1. unfold rem_bits, ds0, len. simpl. lia.
    + rewrite Hloop. simpl. rewrite Hout. reflexivity.
Qed.

End Coder.

(** C1. For a code size [k] in [2, 8] and a non-empty byte sequence [s]
    over the alphabet [0 .. 2^k - 1], [compressLZW] returns a byte array
    and [decompressLZW] returns [s] on it; the known vector
    [0,1,2,0,1,2,0,1,2] at code size 2 is an instance. *)
Theorem lzw_round_trip (s : list Z) (k : Z) :
  s <> [] -> 2 <= k <= 8 -> Forall (fun b => 0 <= b < 2 ^ k) s ->
  exists c, compressLZW s k = Ok c /\ decompressLZW c k = Ok s.
Proof.
  intros Hne Hk Hs. apply round_trip_valid; try assumption.
  eapply Forall_impl; [exact Hs|]. intros b Hb. unfold valid_byte.
  rewrite clearCode_pow by lia. exact Hb.
Qed.

Lemma lzw_round_trip_witness :
  exists c, compressLZW [0; 1; 2; 0; 1; 2; 0; 1; 2] 2 = Ok c /\
            decompressLZW c 2 = Ok [0; 1; 2; 0; 1; 2; 0; 1; 2].
Proof.
  apply (lzw_round_trip [0; 1; 2; 0; 1; 2; 0; 1; 2] 2).
  - discriminate.
  - lia.
  - repeat constructor; lia.
Defined.


(** ** The quantizer *)

Lemma len_cons {A} (x : A) (l : list A) : len (x :: l) = len l + 1.
Proof. unfold len. simpl. lia. Qed.

Lemma len_pos_iff {A} (l : list A) : 0 < len l <-> l <> [].
Proof.
  destruct l; [change (len []) with 0|rewrite len_cons; pose proof (len_nonneg l)];
    split; try lia; try congruence; try discriminate.
Qed.

(** *** Quickselect returns *)

Lemma arr_swap_length arr i j : length (arr_swap arr i j) = length arr.
Proof. unfold arr_swap. rewrite !length_insert. reflexivity. Qed.

Lemma partition_loop_spec pivot (js : list Z) : forall arr i arr' i',
  foldl (fun '(arr, i) j =>
           if arr_get arr j <=? pivot
           then (arr_swap arr i j, i + 1)
           else (arr, i))
        (arr, i) js = (arr', i') ->
  length arr' = length arr /\ i <= i' <= i + len js.
Proof.
  induction js as [|j js IH]; intros arr i arr' i'; simpl.
  - intros [= <- <-]. change (len []) with 0. split; [reflexivity|lia].
  - rewrite len_cons. pose proof (len_nonneg js) as Hjs.
    destruct (arr_get arr j <=? pivot); intros H; apply IH in H as [H1 H2].
    + rewrite arr_swap_length in H1. split; [assumption|lia].
    + split; [assumption|lia].
Qed.

Lemma partition_spec arr left right arr' p :
  left <= right -> partition arr left right = (arr', p) ->
  length arr' = length arr /\ left <= p <= right.
Proof.
  intros Hlr. unfold partition.
  destruct (foldl _ _ _) as [arr1 i1] eqn:E. intros [= <- <-].
  apply partition_loop_spec in E as [H1 H2].
  rewrite arr_swap_length. split; [assumption|].
  unfold len in H2. rewrite length_seqZ in H2. lia.
Qed.

Lemma quickSelect_total fuel : forall arr left right k,
  right - left < Z.of_nat fuel ->
  exists v, quickSelect fuel arr left right k = Some v.
Proof.
  induction fuel as [|fuel IH]; intros arr left right k Hfuel; simpl.
  - destruct (left <? right) eqn:E; [apply Z.ltb_lt in E; lia|eauto].
  - destruct (left <? right) eqn:E; [|eauto]. apply Z.ltb_lt in E.
    destruct (partition arr left right) as [arr' p] eqn:Ep.
    apply partition_spec in Ep as [_ Hp]; [|lia].
    destruct (p =? k); [eauto|].
    destruct (p <? k); apply IH; lia.
Qed.

Lemma selectKthElement_total array k :
  0 <= k < len array -> exists v, selectKthElement array k = Ok v.
Proof.
  intros Hk. unfold selectKthElement.
  replace ((k <? 0) || (len array <=? k)) with false
    by (symmetry; apply orb_false_iff; split;
        [apply Z.ltb_ge|apply Z.leb_gt]; lia).
  destruct (quickSelect_total (length array) array 0 (len array - 1) k)
    as [v ->]; [unfold len; lia|eauto].
Qed.

(** *** Splitting a cube *)

Lemma filter_partition_len (P : RGBColor -> Prop) `{!forall c, Decision (P c)}
    (colors : list RGBColor) :
  len (filter P colors) + len (filter (fun c => ~ P c) colors) = len colors.
Proof.
  induction colors as [|c colors IH]; [reflexivity|].
  rewrite !filter_cons. rewrite len_cons.
  destruct (decide (P c)); destruct (decide (~ P c)); try tauto;
    rewrite ?len_cons; lia.
Qed.

Lemma splitColorCube_spec colors :
  colors <> [] ->
  splitColorCube colors = Ok [colors] \/
  exists lower upper, splitColorCube colors = Ok [lower; upper] /\
                      lower <> [] /\ upper <> [].
Proof.
  intros Hne. unfold splitColorCube.
  destruct (len colors <=? 1) eqn:E; [left; reflexivity|].
  apply Z.leb_gt in E.
  destruct colors as [|c0 colors']; [contradiction|].
  set (colors := c0 :: colors') in *.
  unfold analyzeColorCube. cbn [colors]. fold colors. cbn [rbind].
  set (c := findLargestComponent _).
  unfold findMedian.
  destruct (selectKthElement_total (map (component c) colors)
              (len (map (component c) colors) / 2)) as [median ->].
  { unfold len. rewrite length_map. fold (len colors).
    split; [apply Z.div_pos; lia|]. apply Z.div_lt_upper_bound; lia. }
  cbn [rbind].
  destruct ((len (filter _ colors) =? 0) || (len (filter _ colors) =? 0)) eqn:Ez;
    [left; reflexivity|].
  apply orb_false_iff in Ez as [E1 E2].
  apply Z.eqb_neq in E1, E2.
  right. do 2 eexists. split; [reflexivity|].
  split; apply len_pos_iff.
  - pose proof (len_nonneg (filter (fun color => component c color < median) colors)).
    lia.
  - pose proof (len_nonneg (filter (fun color => ~ component c color < median) colors)).
    lia.
Qed.

(** *** Median cut *)

Definition cubes_ok (maxColors : Z) (cubes : list (list RGBColor)) : Prop :=
  1 <= len cubes <= maxColors /\ Forall (fun cube => cube <> []) cubes.

Lemma largest_loop_bound rest : forall i largest maxSize,
  (largest < i)%nat ->
  (largest_loop rest i largest maxSize < i + length rest)%nat.
Proof.
  induction rest as [|cube rest IH]; intros i largest maxSize Hl; simpl.
  - lia.
  - destruct (maxSize <? len cube).
    + specialize (IH (S i) i (len cube)). lia.
    + specialize (IH (S i) largest maxSize). lia.
Qed.

Lemma findLargestCube_spec cubes :
  cubes <> [] ->
  exists index, findLargestCube cubes = Ok index /\ (index < length cubes)%nat.
Proof.
  destruct cubes as [|c0 rest]; [contradiction|]. intros _.
  eexists. split; [reflexivity|].
  pose proof (largest_loop_bound rest 1 0 (len c0)). simpl. lia.
Qed.

Lemma medianCut_step_spec maxColors cubes :
  cubes_ok maxColors cubes ->
  medianCut_step maxColors cubes = Ok (Break cubes) \/
  exists cubes', medianCut_step maxColors cubes = Ok (Continue cubes') /\
                 cubes_ok maxColors cubes' /\ len cubes' = len cubes + 1.
Proof.
  intros [Hlen Hne]. unfold medianCut_step.
  destruct (len cubes <? maxColors) eqn:E; [|left; reflexivity].
  apply Z.ltb_lt in E. cbn [negb].
  destruct (findLargestCube_spec cubes) as (index & -> & Hidx).
  { apply len_pos_iff. lia. }
  cbn [rbind].
  destruct (len (nth index cubes []) <=? 1) eqn:E1; [left; reflexivity|].
  apply Z.leb_gt in E1.
  destruct (splitColorCube_spec (nth index cubes []))
    as [->|(lower & upper & -> & Hl & Hu)].
  { apply len_pos_iff. lia. }
  - left. reflexivity.
  - right. cbn [rbind]. change (len [lower; upper] =? 1) with false. cbv iota.
    eexists. split; [reflexivity|].
    assert (Hdel : length (delete index cubes) = (length cubes - 1)%nat).
    { apply length_delete. apply lookup_lt_is_Some. exact Hidx. }
    assert (Hlen' : len (delete index cubes ++ [lower; upper]) = len cubes + 1).
    { rewrite len_app. unfold len. rewrite Hdel. simpl. lia. }
    split; [|exact Hlen'].
    split; [lia|]. apply Forall_app. split.
    + apply Forall_delete. exact Hne.
    + repeat constructor; assumption.
Qed.

Lemma medianCut_loop_spec maxColors fuel : forall cubes,
  cubes_ok maxColors cubes -> maxColors - len cubes < Z.of_nat fuel ->
  exists cubes', while_loop fuel (medianCut_step maxColors) cubes = Ok cubes'
                 /\ cubes_ok maxColors cubes'.
Proof.
  induction fuel as [|fuel IH]; intros cubes Hok Hfuel.
  - destruct Hok as [Hlen _]. lia.
  - simpl. destruct (medianCut_step_spec maxColors cubes Hok)
      as [->|(cubes' & -> & Hok' & Hlen')].
    + eauto.
    + apply IH; [assumption|lia].
Qed.

Lemma medianCut_spec colors maxColors :
  colors <> [] -> 1 <= maxColors ->
  exists cubes, medianCut colors maxColors = Ok cubes /\
                cubes_ok maxColors cubes.
Proof.
  intros Hne HN. unfold medianCut.
  replace (maxColors <=? 0) with false by (symmetry; apply Z.leb_gt; lia).
  destruct (len colors <=? maxColors) eqn:E.
  - apply Z.leb_le in E. eexists. split; [reflexivity|].
    split.
    + unfold len in *. rewrite length_map. apply len_pos_iff in Hne.
      unfold len in Hne. lia.
    + apply Forall_map. apply Forall_forall. intros; discriminate.
  - apply medianCut_loop_spec.
    + split; [change (len [colors]) with 1; lia|].
      repeat constructor. assumption.
    + change (len [colors]) with 1. lia.
Qed.

(** *** The palette and the index buffer *)

Lemma averages_spec cubes : forall acc,
  Forall (fun cube => cube <> []) cubes ->
  exists palette,
    for_each (fun acc cube =>
                let! c := calculateAverageColor cube in Ok (acc ++ [c]))
             cubes acc = Ok palette /\
    len palette = len acc + len cubes.
Proof.
  induction cubes as [|cube cubes IH]; intros acc Hne; simpl.
  - exists acc. split; [reflexivity|]. change (len []) with 0. lia.
  - inversion Hne as [|? ? Hc Hrest]; subst.
    destruct cube as [|c0 cube]; [contradiction|]. cbn [calculateAverageColor rbind].
    destruct (IH (acc ++ [mkRGB
        (foldl (fun t c => t + red c) 0 (c0 :: cube) / len (c0 :: cube))
        (foldl (fun t c => t + green c) 0 (c0 :: cube) / len (c0 :: cube))
        (foldl (fun t c => t + blue c) 0 (c0 :: cube) / len (c0 :: cube))])
        Hrest) as (palette & Hp & Hl).
    exists palette. split; [exact Hp|].
    rewrite Hl, len_app, !len_cons. unfold len. simpl. lia.
Qed.

Lemma closest_loop_bound target rest : forall i bestIndex bestDistance,
  0 <= bestIndex < i ->
  0 <= closest_loop target rest i bestIndex bestDistance < i + len rest.
Proof.
  induction rest as [|c rest IH]; intros i best d Hb; simpl.
  - change (len []) with 0. lia.
  - rewrite len_cons. pose proof (len_nonneg rest) as Hr.
    destruct (colorDistanceSquared target c <? d).
    + destruct (colorDistanceSquared target c =? 0); [lia|].
      specialize (IH (i + 1) i (colorDistanceSquared target c)). lia.
    + specialize (IH (i + 1) best d). lia.
Qed.

Lemma findClosestColorIndex_spec target palette :
  palette <> [] ->
  exists index, findClosestColorIndex target palette = Ok index /\
                0 <= index < len palette.
Proof.
  destruct palette as [|c0 rest]; [contradiction|]. intros _.
  eexists. split; [reflexivity|]. rewrite len_cons.
  pose proof (closest_loop_bound target rest 1 0
                (colorDistanceSquared target c0)). lia.
Qed.

Definition map_below (n : Z) (m : gmap RGBColor Z) : Prop :=
  forall color index, m !! color = Some index -> 0 <= index < n.

Lemma buildColorMap_inner cube : forall (m : gmap RGBColor Z) n idx,
  map_below n m -> 0 <= idx < n ->
  map_below n (foldl (fun m color => <[ color := idx ]> m) m cube).
Proof.
  induction cube as [|c cube IH]; intros m n idx Hm Hi; simpl; [assumption|].
  apply IH; [|assumption].
  intros color index. destruct (decide (c = color)) as [->|Hne].
  - rewrite lookup_insert_eq. intros [= <-]. assumption.
  - rewrite lookup_insert_ne by assumption. apply Hm.
Qed.

Lemma buildColorMap_outer cubes : forall (m : gmap RGBColor Z) n idx,
  map_below n m -> 0 <= idx -> idx + len cubes <= n ->
  map_below n
    (fst (foldl (fun '(m, paletteIndex) cube =>
                   (foldl (fun m color => <[ color := paletteIndex ]> m) m cube,
                    paletteIndex + 1))
                (m, idx) cubes)).
Proof.
  induction cubes as [|cube cubes IH]; intros m n idx Hm Hi Hn; simpl;
    [assumption|].
  rewrite len_cons in Hn. pose proof (len_nonneg cubes).
  apply IH; [|lia|lia].
  apply buildColorMap_inner; [assumption|lia].
Qed.

Lemma buildColorMap_below cubes : map_below (len cubes) (buildColorMap cubes).
Proof.
  unfold buildColorMap. apply buildColorMap_outer; [|lia|lia].
  intros color index. rewrite lookup_empty. discriminate.
Qed.

Lemma mapColor_spec palette colorMap color :
  palette <> [] -> map_below (len palette) colorMap ->
  exists index colorMap',
    mapColor palette colorMap color = Ok (index, colorMap') /\
    0 <= index < len palette /\ map_below (len palette) colorMap'.
Proof.
  intros Hne Hm. unfold mapColor.
  destruct (colorMap !! color) as [index|] eqn:E.
  - exists index, colorMap. split; [reflexivity|]. split; [eapply Hm; eauto|assumption].
  - destruct (findClosestColorIndex_spec color palette Hne) as (index & -> & Hi).
    cbn [rbind]. exists index, (<[ color := index ]> colorMap).
    split; [reflexivity|]. split; [assumption|].
    intros c i. destruct (decide (color = c)) as [->|Hnc].
    + rewrite lookup_insert_eq. intros [= <-]. assumption.
    + rewrite lookup_insert_ne by assumption. apply Hm.
Qed.

Lemma convertToIndexed_loop palette data (pixels : list Z) :
  forall indexed colorMap,
  palette <> [] -> len palette <= 256 ->
  map_below (len palette) colorMap ->
  Forall (fun b => 0 <= b < len palette) indexed ->
  exists indexed' colorMap',
    for_each (fun '(indexed, colorMap) i =>
                let color := pixel_color data i in
                let! (index, colorMap) := mapColor palette colorMap color in
                Ok (indexed ++ [index mod 256], colorMap))
             pixels (indexed, colorMap) = Ok (indexed', colorMap') /\
    len indexed' = len indexed + len pixels /\
    Forall (fun b => 0 <= b < len palette) indexed' /\
    map_below (len palette) colorMap'.
Proof.
  induction pixels as [|i pixels IH]; intros indexed colorMap Hne H256 Hm Hin;
    simpl.
  - exists indexed, colorMap. split; [reflexivity|].
    change (len []) with 0. split; [lia|]. split; assumption.
  - destruct (mapColor_spec palette colorMap (pixel_color data i) Hne Hm)
      as (index & colorMap1 & -> & Hi & Hm1).
    cbn [rbind].
    destruct (IH (indexed ++ [index mod 256]) colorMap1 Hne H256 Hm1)
      as (indexed' & colorMap' & Hrun & Hlen & Hall & Hm').
    { apply Forall_app. split; [assumption|]. constructor; [|constructor].
      rewrite Z.mod_small by lia. assumption. }
    exists indexed', colorMap'. split; [exact Hrun|].
    split; [|split; assumption].
    rewrite Hlen, len_app, !len_cons. unfold len. simpl. lia.
Qed.

Lemma convertToIndexed_spec palette colorMap imageData :
  palette <> [] -> len palette <= 256 ->
  map_below (len palette) colorMap ->
  0 <= id_width imageData * id_height imageData ->
  exists indexed colorMap',
    convertToIndexed palette colorMap imageData = Ok (indexed, colorMap') /\
    len indexed = id_width imageData * id_height imageData /\
    Forall (fun b => 0 <= b < len palette) indexed.
Proof.
  intros Hne H256 Hm Hpix.
  destruct (convertToIndexed_loop palette (id_data imageData)
              (seqZ 0 (id_width imageData * id_height imageData))
              [] colorMap Hne H256 Hm ltac:(constructor))
    as (indexed & colorMap' & Hrun & Hil & Hall & _).
  exists indexed, colorMap'. split; [exact Hrun|]. split; [|assumption].
  rewrite Hil. unfold len. rewrite length_seqZ. simpl. lia.
Qed.

Lemma getPaletteData_len palette : len (getPaletteData palette) = 3 * len palette.
Proof.
  induction palette as [|c palette IH]; [reflexivity|].
  unfold getPaletteData in *. simpl. rewrite !len_cons, IH. lia.
Qed.

Lemma extractColors_nonempty imageData :
  0 < id_width imageData * id_height imageData ->
  extractColors imageData <> [].
Proof.
  intros Hpix. unfold extractColors.
  assert (Hgen : forall (pixels : list Z) (acc : list RGBColor),
            acc <> [] \/ pixels <> [] ->
            foldl (fun colorMap i =>
                     let color := pixel_color (id_data imageData) i in
                     if bool_decide (color ∈ colorMap) then colorMap
                     else colorMap ++ [color]) acc pixels <> []).
  { induction pixels as [|i pixels IH]; intros acc Hacc; simpl.
    - destruct Hacc as [H|H]; [assumption|contradiction].
    - apply IH. left. case_bool_decide as Hin.
      + intros ->. inversion Hin.
      + intros E. apply app_eq_nil in E as [_ E]. discriminate. }
  apply Hgen. right. intros E.
  assert (Hl : length (seqZ 0 (id_width imageData * id_height imageData)) = 0%nat)
    by (rewrite E; reflexivity).
  rewrite length_seqZ in Hl. lia.
Qed.

(** Outside the images of the library, whose width and height are at
    least 1: [quantize] checks no dimension, and for no pixel at all it
    returns the empty palette. *)
Example quantize_no_pixel :
  len (id_data (mkImageData [] 0 0)) = 0 * 0 * 4 /\
  quantizeImage (mkImageData [] 0 0) 4 = Ok (mkIndexedImage 0 0 [] []).
Proof. split; vm_compute; reflexivity. Qed.

(** C8.  For an RGBA image, which has at least one pixel (its width and
    height are at least 1), with [data.length = width * height * 4] and
    [maxColors] [N] in [1, 256],
    [MedianCutQuantizer(N).quantize] returns an indexed image of the same
    width and height, a palette of [C] colours with [1 <= C <= N]
    ([3 * C] bytes), [width * height] data bytes, each below [C]. *)
Theorem quantize_indexed_image (imageData : ImageData) (N : Z) :
  len (id_data imageData) = id_width imageData * id_height imageData * 4 ->
  0 < id_width imageData * id_height imageData ->
  1 <= N <= 256 ->
  exists image C,
    quantizeImage imageData N = Ok image /\
    i_width image = id_width imageData /\
    i_height image = id_height imageData /\
    1 <= C <= N /\
    len (i_palette image) = 3 * C /\
    len (i_data image) = id_width imageData * id_height imageData /\
    Forall (fun b => 0 <= b < C) (i_data image).
Proof.
  intros _ Hpix HN. unfold quantizeImage, newMedianCutQuantizer.
  replace ((N <=? 0) || (256 <? N)) with false
    by (symmetry; apply orb_false_iff; split;
        [apply Z.leb_gt|apply Z.ltb_ge]; lia).
  cbn [rbind]. unfold quantize. cbn [q_maxColors].
  destruct (medianCut_spec (extractColors imageData) N
              (extractColors_nonempty imageData Hpix) ltac:(lia))
    as (cubes & -> & [Hlen Hne]).
  cbn [rbind].
  destruct (averages_spec cubes [] Hne) as (palette & -> & Hpl).
  change (len []) with 0 in Hpl. cbn [rbind].
  assert (Hpne : palette <> []) by (apply len_pos_iff; lia).
  assert (H256 : len palette <= 256) by lia.
  assert (Hpix0 : 0 <= id_width imageData * id_height imageData) by lia.
  destruct (convertToIndexed_spec palette (buildColorMap cubes) imageData
              Hpne H256) as (indexed & colorMap & -> & Hil & Hall);
    [|assumption|].
  { replace (len palette) with (len cubes) by lia. apply buildColorMap_below. }
  cbn [rbind].
  eexists _, (len palette). split; [reflexivity|].
  cbn [i_width i_height i_palette i_data].
  split; [reflexivity|]. split; [reflexivity|]. split; [lia|].
  split; [apply getPaletteData_len|]. split; assumption.
Qed.

Lemma quantize_indexed_image_witness :
  exists image C,
    quantizeImage
      (mkImageData [255; 0; 0; 255; 0; 255; 0; 255;
                    0; 0; 255; 255; 255; 255; 0; 255] 2 2) 4 = Ok image /\
    i_width image = 2 /\ i_height image = 2 /\
    1 <= C <= 4 /\
    len (i_palette image) = 3 * C /\
    len (i_data image) = 2 * 2 /\
    Forall (fun b => 0 <= b < C) (i_data image).
Proof.
  apply (quantize_indexed_image
           (mkImageData [255; 0; 0; 255; 0; 255; 0; 255;
                         0; 0; 255; 255; 255; 255; 0; 255] 2 2) 4).
  - reflexivity.
  - simpl. lia.
  - lia.
Defined.

(** The example of four distinct colours at [maxColors = 4]. *)
Example quantize_four_colours :
  quantizeImage
    (mkImageData [255; 0; 0; 255; 0; 255; 0; 255;
                  0; 0; 255; 255; 255; 255; 0; 255] 2 2) 4
  = Ok (mkIndexedImage 2 2 [0; 1; 2; 3]
          [255; 0; 0; 0; 255; 0; 0; 0; 255; 255; 255; 0]).
Proof. vm_compute. reflexivity. Qed.

(** ** A frame's delay, written and read back *)

(** *** What a successful write appended *)

Lemma wlift_ok_inv {A} (r : result A) w a w' :
  wlift r w = (Ok a, w') -> r = Ok a /\ w' = w.
Proof. unfold wlift. intros [= -> ->]. auto. Qed.

Lemma w_get_inv w a w' : w_get w = (Ok a, w') -> a = w /\ w' = w.
Proof. unfold w_get. intros [= -> ->]. auto. Qed.

Lemma wret_inv {A} (x : A) w a w' : wret x w = (Ok a, w') -> a = x /\ w' = w.
Proof. unfold wret. intros [= -> ->]. auto. Qed.

Lemma w_append_inv bytes w u w' :
  w_append bytes w = (Ok u, w') -> w' = w_with_output w (w_output w ++ bytes).
Proof. unfold w_append. intros [= _ <-]. reflexivity. Qed.

Lemma writeByte_ok_inv b w u w' :
  writeByte b w = (Ok u, w') ->
  0 <= b <= 255 /\ w' = w_with_output w (w_output w ++ [b]).
Proof.
  unfold writeByte. destruct ((b <? 0) || (255 <? b)) eqn:E; [discriminate|].
  apply orb_false_iff in E as [E1 E2]. apply Z.ltb_ge in E1, E2.
  intros H. apply w_append_inv in H. split; [lia|assumption].
Qed.

Lemma writeBytes_arr_ok_inv bs : forall w u w',
  writeBytes_arr bs w = (Ok u, w') ->
  w' = w_with_output w (w_output w ++ bs).
Proof.
  induction bs as [|b bs IH]; intros w u w'; simpl.
  - intros [= _ <-]. unfold w_with_output. rewrite app_nil_r. destruct w; reflexivity.
  - intros H. apply wbind_ok_inv in H as (a & w1 & H1 & H).
    apply writeByte_ok_inv in H1 as [_ ->]. apply IH in H. subst w'.
    unfold w_with_output. simpl. rewrite <- app_assoc. reflexivity.
Qed.

Lemma write16BitLE_ok_inv value bs :
  write16BitLE value = Ok bs ->
  0 <= value <= 65535 /\
  bs = [Z.land value 0xff; Z.land (Z.shiftr value 8) 0xff].
Proof.
  unfold write16BitLE. destruct ((value <? 0) || (65535 <? value)) eqn:E;
    [discriminate|].
  apply orb_false_iff in E as [E1 E2]. apply Z.ltb_ge in E1, E2.
  intros [= <-]. split; [lia|reflexivity].
Qed.

(** Two bytes written by [write16BitLE] are read back by [read16]. *)
Lemma le16_read_back value :
  0 <= value <= 65535 ->
  Z.lor (Z.land value 0xff) (Z.shiftl (Z.land (Z.shiftr value 8) 0xff) 8)
  = value.
Proof.
  intros Hv. apply Z.bits_inj'. intros i Hi.
  rewrite Z.lor_spec, Z.land_spec.
  destruct (Z_lt_ge_dec i 8) as [Hlt|Hge].
  - rewrite Z.shiftl_spec_low by lia. rewrite orb_false_r.
    change 0xff with (Z.ones 8). rewrite Z.ones_spec_low by lia.
    apply andb_true_r.
  - rewrite Z.shiftl_spec by lia. rewrite Z.land_spec, Z.shiftr_spec by lia.
    replace (i - 8 + 8) with i by lia.
    change 0xff with (Z.ones 8). rewrite Z.ones_spec_high by lia.
    rewrite andb_false_r. simpl.
    destruct (Z_lt_ge_dec i 16) as [Hlt|Hge'].
    + rewrite Z.ones_spec_low by lia. apply andb_true_r.
    + rewrite Z.ones_spec_high by lia. rewrite andb_false_r.
      destruct (Z.eq_dec value 0) as [->|Hne]; [rewrite Z.bits_0; reflexivity|].
      symmetry. apply Z.bits_above_log2; [lia|].
      apply Z.lt_le_trans with 16; [|lia].
      apply Z.log2_lt_pow2; [lia|]. change (2 ^ 16) with 65536. lia.
Qed.

(** *** Reading at a position of the file *)

(** The reader stands at [p], with [rest] still to be read. *)
Definition at_pos (data : list Z) (p : Z) (rest : list Z) : Prop :=
  exists pre, data = pre ++ rest /\ len pre = p.

Lemma at_pos_len data p rest : at_pos data p rest -> len data = p + len rest.
Proof. intros (pre & -> & <-). apply len_app. Qed.

Lemma at_pos_start (pre rest : list Z) : at_pos (pre ++ rest) (len pre) rest.
Proof. exists pre. auto. Qed.

Lemma at_pos_skip data p (bs rest : list Z) :
  at_pos data p (bs ++ rest) -> at_pos data (p + len bs) rest.
Proof.
  intros (pre & -> & <-). exists (pre ++ bs). split.
  - apply app_assoc.
  - apply len_app.
Qed.

Lemma at_pos_readByte data p b rest :
  at_pos data p (b :: rest) ->
  readByte data p = Ok (b, p + 1) /\ at_pos data (p + 1) rest.
Proof.
  intros H. split; [|apply (at_pos_skip data p [b] rest H)].
  pose proof (at_pos_len _ _ _ H) as Hl. destruct H as (pre & -> & <-).
  unfold readByte. pose proof (len_nonneg rest).
  replace (len (pre ++ b :: rest) <=? len pre) with false
    by (symmetry; apply Z.leb_gt; rewrite len_app, len_cons; lia).
  unfold byte_at, len. rewrite Nat2Z.id.
  rewrite app_nth2 by lia. rewrite Nat.sub_diag. reflexivity.
Qed.

Lemma at_pos_read16 data p lo hi rest :
  at_pos data p (lo :: hi :: rest) ->
  read16 data p = Ok (Z.lor lo (Z.shiftl hi 8), p + 2) /\
  at_pos data (p + 2) rest.
Proof.
  intros H. apply at_pos_readByte in H as [E1 H].
  apply at_pos_readByte in H as [E2 H]. unfold read16.
  rewrite E1. simpl. rewrite E2. simpl.
  replace (p + 1 + 1) with (p + 2) in * by lia. auto.
Qed.

Lemma at_pos_readBytes data p (bs rest : list Z) :
  at_pos data p (bs ++ rest) ->
  readBytes data p (len bs) = Ok (bs, p + len bs) /\
  at_pos data (p + len bs) rest.
Proof.
  intros H. split; [|apply (at_pos_skip _ _ _ _ H)].
  pose proof (at_pos_len _ _ _ H) as Hl. destruct H as (pre & -> & <-).
  unfold readBytes. pose proof (len_nonneg rest).
  replace (len (pre ++ bs ++ rest) <? len pre + len bs) with false
    by (symmetry; apply Z.ltb_ge; rewrite !len_app; lia).
  unfold slice. replace (len pre + len bs - len pre) with (len bs) by lia.
  unfold len. rewrite !Nat2Z.id.
  rewrite skipn_app, skipn_all, Nat.sub_diag, app_nil_l, drop_0.
  rewrite firstn_app, firstn_all, Nat.sub_diag, take_0, app_nil_r.
  reflexivity.
Qed.

(** *** Data sub-blocks *)

(** The framing of [writeDataSubBlocks]: blocks of at most 255 bytes, each
    after its size. *)
Fixpoint sub_blocks (fuel : nat) (rest : list Z) : list Z :=
  match fuel with
  | O => []
  | S fuel' =>
      match rest with
      | [] => []
      | _ =>
          let n := Z.min 255 (len rest) in
          n :: firstn (Z.to_nat n) rest
            ++ sub_blocks fuel' (skipn (Z.to_nat n) rest)
      end
  end.

Lemma sub_blocks_nil fuel : sub_blocks fuel [] = [].
Proof. destruct fuel; reflexivity. Qed.

Lemma len_skipn {A} (n : nat) (l : list A) :
  (n <= length l)%nat -> len (skipn n l) = len l - Z.of_nat n.
Proof. intros H. unfold len. rewrite length_skipn. lia. Qed.

Lemma len_firstn {A} (n : nat) (l : list A) :
  (n <= length l)%nat -> len (firstn n l) = Z.of_nat n.
Proof. intros H. unfold len. rewrite length_firstn. lia. Qed.

Lemma map_byte_at_seqZ (data : list Z) (offset n : Z) :
  0 <= offset -> 0 <= n -> offset + n <= len data ->
  map (fun i => byte_at data (offset + i)) (seqZ 0 n)
  = firstn (Z.to_nat n) (skipn (Z.to_nat offset) data).
Proof.
  intros Ho Hn Hl. apply list_eq. intros i.
  rewrite list_lookup_fmap.
  destruct (decide (i < Z.to_nat n)%nat) as [Hi|Hi].
  - rewrite lookup_take_lt by lia. rewrite lookup_seqZ_lt by lia. simpl.
    rewrite lookup_drop. unfold byte_at, len in *.
    replace (Z.to_nat (offset + (0 + Z.of_nat i)))
      with (Z.to_nat offset + i)%nat by lia.
    destruct (nth_lookup_or_length data (Z.to_nat offset + i) 0) as [->|Hge];
      [reflexivity|lia].
  - rewrite lookup_take_ge by lia. rewrite lookup_seqZ_ge by lia. reflexivity.
Qed.

Lemma sub_blocks_step fuel (l : list Z) :
  1 <= len l ->
  sub_blocks (S fuel) l
  = Z.min 255 (len l)
      :: firstn (Z.to_nat (Z.min 255 (len l))) l
      ++ sub_blocks fuel (skipn (Z.to_nat (Z.min 255 (len l))) l).
Proof. destruct l; [unfold len; simpl; lia|reflexivity]. Qed.

Lemma writeDataSubBlocks_loop_ok_inv fuel : forall data offset w w',
  0 <= offset <= len data ->
  writeDataSubBlocks_loop fuel data offset w = (Ok tt, w') ->
  w' = w_with_output w
         (w_output w ++ sub_blocks fuel (skipn (Z.to_nat offset) data)).
Proof.
  induction fuel as [|fuel IH]; intros data offset w w' Ho;
    cbn [writeDataSubBlocks_loop].
  - destruct (offset <? len data); [discriminate|].
    intros [= <-]. unfold w_with_output. simpl. rewrite app_nil_r.
    destruct w; reflexivity.
  - destruct (offset <? len data) eqn:E.
    + apply Z.ltb_lt in E. intros H.
      apply wbind_ok_inv in H as ([] & w1 & H1 & H).
      apply wbind_ok_inv in H as ([] & w2 & H2 & H).
      apply writeByte_ok_inv in H1 as [_ ->].
      apply writeBytes_arr_ok_inv in H2. subst w2.
      apply IH in H; [|lia]. subst w'.
      assert (Hl : len (skipn (Z.to_nat offset) data) = len data - offset)
        by (rewrite len_skipn; unfold len in *; lia).
      rewrite sub_blocks_step by lia. rewrite Hl.
      rewrite map_byte_at_seqZ by lia.
      replace (Z.to_nat (offset + Z.min 255 (len data - offset)))
        with (Z.to_nat offset + Z.to_nat (Z.min 255 (len data - offset)))%nat
        by lia.
      rewrite <- drop_drop. unfold w_with_output. simpl.
      rewrite <- !app_assoc. reflexivity.
    + apply Z.ltb_ge in E. intros [= <-].
      rewrite skipn_all2 by (unfold len in *; lia).
      rewrite sub_blocks_nil.
      unfold w_with_output. rewrite app_nil_r. destruct w; reflexivity.
Qed.

Lemma at_pos_readDataSubBlocks_loop wfuel : forall rest data p tail acc rfuel,
  at_pos data p (sub_blocks wfuel rest ++ 0 :: tail) ->
  len rest <= Z.of_nat wfuel -> len rest <= Z.of_nat rfuel ->
  exists p',
    (let! (blockSize, p) := readByte data p in
     readDataSubBlocks_loop rfuel data blockSize p acc) = Ok (acc ++ rest, p')
    /\ at_pos data p' tail.
Proof.
  induction wfuel as [|wfuel IH]; intros l data p tail acc rfuel H Hw Hr.
  - destruct l as [|x rest];
      [|rewrite len_cons in Hw; pose proof (len_nonneg rest); lia].
    simpl in H. apply at_pos_readByte in H as [E H]. rewrite E. simpl.
    exists (p + 1). rewrite app_nil_r.
    destruct rfuel; simpl; auto.
  - destruct (Z_lt_ge_dec (len l) 1) as [Hz|Hpos].
    + destruct l as [|x rest];
        [|rewrite len_cons in Hz; pose proof (len_nonneg rest); lia].
      simpl in H. apply at_pos_readByte in H as [E H]. rewrite E. simpl.
      exists (p + 1). rewrite app_nil_r. destruct rfuel; simpl; auto.
    + rewrite sub_blocks_step in H by lia.
      set (n := Z.min 255 (len l)) in *.
      assert (Hn : 1 <= n <= len l) by (unfold n; lia).
      rewrite <- app_comm_cons in H.
      apply at_pos_readByte in H as [E H]. rewrite E.
      destruct rfuel as [|rfuel]; [lia|].
      cbn [rbind readDataSubBlocks_loop].
      replace (0 <? n) with true by (symmetry; apply Z.ltb_lt; lia).
      rewrite <- app_assoc in H.
      assert (Hf : len (firstn (Z.to_nat n) l) = n)
        by (rewrite len_firstn; unfold len in *; lia).
      pose proof (at_pos_readBytes _ _ _ _ H) as [E2 H2].
      rewrite Hf in E2, H2. rewrite E2. cbn [rbind].
      destruct (IH (skipn (Z.to_nat n) l) data (p + 1 + n) tail
                  (acc ++ firstn (Z.to_nat n) l) rfuel H2) as (p' & E3 & H3).
      * rewrite len_skipn; unfold len in *; lia.
      * rewrite len_skipn; unfold len in *; lia.
      * exists p'. rewrite E3. rewrite <- app_assoc, firstn_skipn. auto.
Qed.

Lemma sub_blocks_len fuel : forall c,
  len c <= Z.of_nat fuel -> len c <= len (sub_blocks fuel c).
Proof.
  induction fuel as [|fuel IH]; intros c Hc.
  - unfold len in *. simpl. lia.
  - destruct (Z_lt_ge_dec (len c) 1) as [Hz|Hpos];
      [pose proof (len_nonneg (sub_blocks (S fuel) c)); lia|].
    rewrite sub_blocks_step by lia. rewrite len_cons, len_app.
    specialize (IH (skipn (Z.to_nat (Z.min 255 (len c))) c)).
    rewrite len_firstn by (unfold len in *; lia).
    rewrite len_skipn in IH by (unfold len in *; lia). lia.
Qed.

(** What [writeDataSubBlocks] wrote, followed by the terminator,
    [readDataSubBlocks] reads back. *)
Lemma at_pos_readDataSubBlocks (c : list Z) data p tail :
  at_pos data p (sub_blocks (length c) c ++ 0 :: tail) ->
  exists p', readDataSubBlocks data p = Ok (c, p') /\ at_pos data p' tail.
Proof.
  intros H. unfold readDataSubBlocks.
  assert (Hlen : len c <= Z.of_nat (length data)).
  { pose proof (at_pos_len _ _ _ H) as Hl. rewrite len_app in Hl.
    destruct H as (pre & _ & Hp). pose proof (len_nonneg pre).
    pose proof (len_nonneg (0 :: tail)).
    pose proof (sub_blocks_len (length c) c). unfold len in *. lia. }
  destruct (at_pos_readDataSubBlocks_loop (length c) c data p tail []
              (length data) H) as (p' & E & H'); [unfold len; lia|lia|].
  exists p'. auto.
Qed.

(** *** The records of the file, as written *)

Lemma wthrow_ok_inv {A} e w (a : A) w' : wthrow e w = (Ok a, w') -> False.
Proof. discriminate. Qed.

Ltac winv :=
  repeat match goal with
  | u : unit |- _ => destruct u
  | H : wbind _ _ _ = (Ok _, _) |- _ =>
      apply wbind_ok_inv in H; destruct H as (? & ? & ? & H)
  | H : wthrow _ _ = (Ok _, _) |- _ => discriminate H
  | H : wlift _ _ = (Ok _, _) |- _ =>
      apply wlift_ok_inv in H; destruct H as [H ?]; subst
  | H : wret _ _ = (Ok _, _) |- _ =>
      apply wret_inv in H; destruct H as [? ?]; subst
  | H : w_get _ = (Ok _, _) |- _ =>
      apply w_get_inv in H; destruct H as [? ?]; subst
  | H : writeByte _ _ = (Ok _, _) |- _ =>
      apply writeByte_ok_inv in H; destruct H as [? ?]; subst
  | H : writeBytes_u8 _ _ = (Ok _, _) |- _ =>
      apply w_append_inv in H; subst
  | H : writeBytes_arr _ _ = (Ok _, _) |- _ =>
      apply writeBytes_arr_ok_inv in H; subst
  | H : write16BitLE _ = Ok _ |- _ =>
      apply write16BitLE_ok_inv in H; destruct H as [? ?]; subst
  | H : (if ?c then _ else _) _ = (Ok _, _) |- _ => destruct c eqn:?
  | H : (match ?x with _ => _ end) _ = (Ok _, _) |- _ => destruct x eqn:?
  end.

Lemma writeHeader_ok_inv w w' :
  writeHeader w = (Ok tt, w') ->
  w' = mkGifWriter (w_output w ++ [0x47; 0x49; 0x46; 0x38; 0x39; 0x61])
         true (hasWrittenLogicalScreen w) (frameCount w).
Proof.
  unfold writeHeader, set_hasWrittenHeader. intros H. winv.
  injection H as <-. unfold w_with_output. simpl.
  rewrite <- app_assoc. reflexivity.
Qed.

Lemma calculateColorTableSize_ok_inv C s :
  calculateColorTableSize C = Ok s ->
  1 <= C <= 256 /\ 0 <= s <= 7 /\ C <= 2 ^ (s + 1).
Proof.
  unfold calculateColorTableSize, MAX_COLORS.
  destruct ((C <=? 0) || (256 <? C)) eqn:E; [discriminate|].
  apply orb_false_iff in E as [E1 E2]. apply Z.leb_gt in E1.
  apply Z.ltb_ge in E2.
  destruct (colorTableSize_loop 8 0 2 C) as [s'|] eqn:El; [|discriminate].
  intros [= ->].
  assert (H0 : 0 <= 0) by lia.
  assert (Hlow : forall s', 0 <= s' < 0 -> 2 ^ (s' + 1) < C) by (intros; lia).
  destruct (colorTableSize_loop_spec 8 0 2 C s H0 eq_refl Hlow El)
    as (Hs0 & Hup & Hmin).
  split; [lia|]. split; [|assumption]. split; [assumption|].
  destruct (Z_le_gt_dec s 7) as [|Hgt]; [assumption|].
  assert (H7 : 0 <= 7 < s) by lia. specialize (Hmin 7 H7).
  change (2 ^ (7 + 1)) with 256 in Hmin. lia.
Qed.

Lemma padColorTable_len palette s :
  palette_ok palette ->
  calculateColorTableSize (len palette / 3) = Ok s ->
  0 <= s <= 7 /\ len (padColorTable palette s) = 3 * 2 ^ (s + 1).
Proof.
  intros (Hne & Hmod & Hmax) Hs.
  apply calculateColorTableSize_ok_inv in Hs as (HC & Hs & Hup).
  split; [assumption|].
  assert (Hl : len palette = 3 * (len palette / 3))
    by (pose proof (Z.div_mod (len palette) 3); lia).
  unfold padColorTable. rewrite Z.shiftl_mul_pow2 by lia. rewrite Z.mul_1_l.
  destruct (3 * 2 ^ (s + 1) <=? len palette) eqn:E.
  - apply Z.leb_le in E. lia.
  - apply Z.leb_gt in E. rewrite len_app. unfold len in *.
    rewrite repeat_length. lia.
Qed.

(** The size field sits in the low three bits of a packed byte, the
    colour-table flag in bit 7 and the interlace flag in bit 6. *)
Lemma screen_packed_fields (flag sorted : bool) (s : Z) :
  0 <= s <= 7 ->
  let packed := Z.lor (Z.lor (Z.lor (if flag then 0x80 else 0x00) 0x70)
                         (if sorted then 0x08 else 0x00)) s in
  (Z.land packed 0x80 =? 0) = negb flag /\ Z.land packed 0x07 = s.
Proof.
  intros Hs.
  assert (H : s = 0 \/ s = 1 \/ s = 2 \/ s = 3 \/ s = 4 \/ s = 5 \/ s = 6
              \/ s = 7) by lia.
  destruct flag, sorted;
    repeat (destruct H as [->|H]; [split; reflexivity|]); subst s;
    split; reflexivity.
Qed.

Lemma image_packed_fields (s : Z) :
  0 <= s <= 7 ->
  let packed := Z.lor (Z.lor (Z.lor 0x80 0x00) 0x00) s in
  (Z.land packed 0x80 =? 0) = false /\ (Z.land packed 0x40 =? 0) = true /\
  Z.land packed 0x07 = s.
Proof.
  intros Hs.
  assert (H : s = 0 \/ s = 1 \/ s = 2 \/ s = 3 \/ s = 4 \/ s = 5 \/ s = 6
              \/ s = 7) by lia.
  repeat (destruct H as [->|H]; [repeat split; reflexivity|]); subst s;
    repeat split; reflexivity.
Qed.

Lemma shiftl_2_size (s : Z) : 0 <= s -> Z.shiftl 2 s * 3 = 3 * 2 ^ (s + 1).
Proof.
  intros Hs. rewrite Z.shiftl_mul_pow2 by lia.
  rewrite Z.pow_add_r by lia. lia.
Qed.

Lemma writeLogicalScreen_ok_inv width height options w w' :
  writeLogicalScreen width height options w = (Ok tt, w') ->
  hasWrittenHeader w = true /\
  exists w0 w1 h0 h1 packed bg par gct,
    w' = mkGifWriter
           (w_output w ++ [w0; w1; h0; h1; packed; bg; par] ++ gct)
           (hasWrittenHeader w) true (frameCount w) /\
    (((Z.land packed 0x80 =? 0) = true /\ gct = []) \/
     ((Z.land packed 0x80 =? 0) = false /\
      len gct = Z.shiftl 2 (Z.land packed 0x07) * 3)).
Proof.
  unfold writeLogicalScreen, set_hasWrittenLogicalScreen. intros H.
  apply wbind_ok_inv in H as (w1 & w2 & Hg & H).
  apply w_get_inv in Hg as [-> ->].
  destruct (hasWrittenHeader w) eqn:Ehdr; [|discriminate]. simpl in H.
  split; [reflexivity|].
  destruct (hasWrittenLogicalScreen w) eqn:Els; [discriminate|].
  apply wbind_ok_inv in H as ([] & w1 & Hd & H).
  apply wlift_ok_inv in Hd as [_ ->].
  apply wbind_ok_inv in H as ([[flag size] padded] & w1 & Ht & H).
  assert (Htable : w1 = w /\
            0 <= size <= 7 /\
            ((flag = false /\ padded = None) \/
             (flag = true /\ exists t, padded = Some t /\
                len t = 3 * 2 ^ (size + 1)))).
  { destruct (g_colors options) as [colors|].
    - destruct (0 <? len colors).
      + apply wbind_ok_inv in Ht as ([] & w3 & Hv & Ht).
        apply wlift_ok_inv in Hv as [Hv ->].
        apply wbind_ok_inv in Ht as (s & w3 & Hc & Ht).
        apply wlift_ok_inv in Hc as [Hc ->].
        apply wret_inv in Ht as [[= -> -> ->] ->].
        destruct (validatePalette_spec colors) as [[Hok _]|[_ [t Ht]]];
          [|congruence].
        destruct (padColorTable_len colors s Hok Hc) as [Hs Hl].
        split; [reflexivity|]. split; [assumption|]. right. eauto.
      + apply wret_inv in Ht as [[= -> -> ->] ->].
        split; [reflexivity|]. split; [lia|]. left. auto.
    - apply wret_inv in Ht as [[= -> -> ->] ->].
      split; [reflexivity|]. split; [lia|]. left. auto. }
  destruct Htable as (-> & Hsize & Htab). clear Ht.
  destruct (screen_packed_fields flag (default false (g_sorted options)) size
              Hsize) as [Hp1 Hp2].
  winv; injection H as <-; do 8 eexists; (split;
    [unfold w_with_output; simpl; rewrite Ehdr; rewrite <- !app_assoc;
     simpl; reflexivity|]).
  - destruct Htab as [[-> [=]]|[-> (t & [= ->] & Hl)]].
    right. rewrite Hp1, Hp2. split; [reflexivity|].
    rewrite shiftl_2_size by lia. exact Hl.
  - destruct Htab as [[-> _]|[-> (t & [=] & _)]].
    left. rewrite Hp1. auto.
Qed.

(** The graphics control extension of a frame whose delay in the file is
    [v] centiseconds. *)
Definition graphics_control (packed v transparentIndex : Z) : list Z :=
  [0x21; 0xf9; 0x04; packed; Z.land v 0xff; Z.land (Z.shiftr v 8) 0xff;
   transparentIndex; 0x00].

Lemma writeGraphicsControl_ok_inv options w w' :
  writeGraphicsControl options w = (Ok tt, w') ->
  let v := msToGifDelay (default 0 (o_delay options)) in
  0 <= v <= 65535 /\
  exists packed transparentIndex,
    w' = w_with_output w
           (w_output w ++ graphics_control packed v transparentIndex).
Proof.
  unfold writeGraphicsControl. intros H. winv. simpl. split; [assumption|].
  do 2 eexists. unfold w_with_output, graphics_control. simpl.
  rewrite <- !app_assoc. simpl. reflexivity.
Qed.

(** The image descriptor, the local colour table and the image data of a
    frame. *)
Definition image_record (position : list Z) (s : Z) (table : list Z)
    (codeSize : Z) (compressed : list Z) : list Z :=
  [0x2c] ++ position ++ [Z.lor (Z.lor (Z.lor 0x80 0x00) 0x00) s] ++ table
    ++ [codeSize] ++ sub_blocks (length compressed) compressed ++ [0x00].

Lemma writeImageDescriptor_ok_inv image options w w' :
  writeImageDescriptor image options w = (Ok tt, w') ->
  exists l0 l1 t0 t1 w0 w1 h0 h1 s,
    calculateColorTableSize (len (i_palette image) / 3) = Ok s /\
    w' = w_with_output w
           (w_output w ++ [0x2c] ++ [l0; l1; t0; t1; w0; w1; h0; h1]
              ++ [Z.lor (Z.lor (Z.lor 0x80 0x00) 0x00) s]).
Proof.
  unfold writeImageDescriptor. intros H. winv.
  do 9 eexists. split; [eassumption|].
  unfold w_with_output. simpl. rewrite <- !app_assoc. simpl. reflexivity.
Qed.

Lemma writeImageData_ok_inv image w w' :
  writeImageData image w = (Ok tt, w') ->
  exists codeSize compressed,
    w' = w_with_output w
           (w_output w ++ [codeSize]
              ++ sub_blocks (length compressed) compressed ++ [0x00]).
Proof.
  unfold writeImageData, writeDataSubBlocks. intros H. winv.
  match goal with
  | Hl : writeDataSubBlocks_loop _ _ _ _ = _ |- _ =>
      apply writeDataSubBlocks_loop_ok_inv in Hl;
        [|split; [lia|apply len_nonneg]]; subst
  end.
  do 2 eexists. unfold w_with_output. simpl. rewrite <- !app_assoc. simpl.
  reflexivity.
Qed.

(** [writeImage] writes a graphics control extension when the frame is
    not the first or has an option set. *)
Definition needsGraphicsControl (frameCount : Z) (options : ImageOptions)
  : bool :=
  (0 <? frameCount)
  || bool_decide (is_Some (o_delay options))
  || bool_decide (is_Some (o_disposal options))
  || bool_decide (is_Some (o_transparentIndex options)).

Lemma writeImage_ok_inv image options w w' :
  writeImage image options w = (Ok tt, w') ->
  let v := msToGifDelay (default 0 (o_delay options)) in
  exists gce position s table codeSize compressed,
    w' = mkGifWriter
           (w_output w ++ gce
              ++ image_record position s table codeSize compressed)
           (hasWrittenHeader w) (hasWrittenLogicalScreen w)
           (frameCount w + 1) /\
    len position = 8 /\ 0 <= s <= 7 /\ len table = 3 * 2 ^ (s + 1) /\
    ((needsGraphicsControl (frameCount w) options = false /\ gce = []) \/
     (needsGraphicsControl (frameCount w) options = true /\ 0 <= v <= 65535 /\
      exists packed transparentIndex,
        gce = graphics_control packed v transparentIndex)).
Proof.
  unfold writeImage, incr_frameCount. intros H.
  apply wbind_ok_inv in H as (w1 & w2 & Hg & H).
  apply w_get_inv in Hg as [-> ->].
  destruct (hasWrittenLogicalScreen w) eqn:Els; [|discriminate]. simpl in H.
  apply wbind_ok_inv in H as ([] & w1 & Hd & H).
  apply wlift_ok_inv in Hd as [_ ->].
  apply wbind_ok_inv in H as ([] & w1 & Hp & H).
  apply wlift_ok_inv in Hp as [Hp ->].
  destruct (validatePalette_spec (i_palette image)) as [[Hok _]|[_ [t Ht]]];
    [|congruence].
  fold (needsGraphicsControl (frameCount w) options) in H.
  apply wbind_ok_inv in H as ([] & w1 & Hgc & H).
  apply wbind_ok_inv in H as ([] & w2 & Hdesc & H).
  apply wbind_ok_inv in H as (s & w3 & Hs & H).
  apply wlift_ok_inv in Hs as [Hs ->].
  apply wbind_ok_inv in H as ([] & w3 & Ht & H).
  apply w_append_inv in Ht.
  apply wbind_ok_inv in H as ([] & w4 & Hdata & H).
  injection H as <-.
  apply writeImageDescriptor_ok_inv in Hdesc
    as (l0 & l1 & t0 & t1 & x0 & x1 & h0 & h1 & s' & Hs' & ->).
  rewrite Hs in Hs'. injection Hs' as <-.
  apply writeImageData_ok_inv in Hdata as (codeSize & compressed & ->).
  subst w3. destruct (padColorTable_len _ _ Hok Hs) as [Hs7 Hl].
  assert (Hgce : exists gce,
    w1 = w_with_output w (w_output w ++ gce) /\
    ((needsGraphicsControl (frameCount w) options = false /\ gce = []) \/
     (needsGraphicsControl (frameCount w) options = true /\
      0 <= msToGifDelay (default 0 (o_delay options)) <= 65535 /\
      exists packed transparentIndex,
        gce = graphics_control packed
                (msToGifDelay (default 0 (o_delay options)))
                transparentIndex))).
  { destruct (needsGraphicsControl (frameCount w) options).
    - apply writeGraphicsControl_ok_inv in Hgc as (Hv & p & ti & ->).
      eexists. split; [reflexivity|]. right. eauto.
    - apply wret_inv in Hgc as [_ ->]. exists []. split; [|left; auto].
      unfold w_with_output. rewrite app_nil_r. destruct w; reflexivity. }
  destruct Hgce as (gce & -> & Hgce).
  exists gce, [l0; l1; t0; t1; x0; x1; h0; h1], s,
    (padColorTable (i_palette image) s), codeSize, compressed.
  split.
  { unfold w_with_output, image_record. simpl. rewrite Els.
    rewrite <- !app_assoc. simpl. reflexivity. }
  split; [reflexivity|]. split; [assumption|]. split; [assumption|].
  exact Hgce.
Qed.

(** *** The records of the file, as read *)

Lemma processImage_adds_frame (sc : screen) (st : frames_state)
    (p frameLeft frameTop frameWidth frameHeight : Z)
    (colorTable : option (list Z)) (interlaceFlag : bool)
    (lzwMinimumCodeSize : Z) (compressedData : list Z) :
  exists st' f,
    processImage sc st p frameLeft frameTop frameWidth frameHeight colorTable
      interlaceFlag lzwMinimumCodeSize compressedData = Ok st' /\
    fs_frames st' = fs_frames st ++ [f] /\
    fs_position st' = p /\
    f_delay f = fs_currentDelay st /\
    fs_currentDelay st' = 100.
Proof.
  unfold processImage.
  pose proof (decompressLZW_returns compressedData lzwMinimumCodeSize) as Hret.
  destruct (decompressLZW compressedData lzwMinimumCodeSize) as [idx|e|];
    [| |contradiction]; do 2 eexists; (split; [reflexivity|]); simpl; auto.
Qed.

Lemma at_pos_in_range data p b rest :
  at_pos data p (b :: rest) -> negb (p <? len data) = false.
Proof.
  intros H. apply at_pos_len in H. rewrite len_cons in H.
  pose proof (len_nonneg rest). apply negb_false_iff. apply Z.ltb_lt. lia.
Qed.

Ltac read_byte H :=
  let E := fresh "E" in
  apply at_pos_readByte in H as [E H]; rewrite E; clear E; cbn [rbind].

Ltac read_16 H :=
  let E := fresh "E" in
  apply at_pos_read16 in H as [E H]; rewrite E; clear E; cbn [rbind].

Lemma step_graphics_control sc st packed v transparentIndex tail :
  at_pos (sc_data sc) (fs_position st)
    (graphics_control packed v transparentIndex ++ tail) ->
  0 <= v <= 65535 ->
  exists st',
    getFrames_step sc st = Ok (Continue st') /\
    fs_frames st' = fs_frames st /\
    fs_currentDelay st' = v * 10 /\
    at_pos (sc_data sc) (fs_position st') tail.
Proof.
  intros H Hv. unfold getFrames_step, graphics_control in *.
  cbn [app] in H. rewrite (at_pos_in_range _ _ _ _ H).
  read_byte H. change (0x21 =? 0x21) with true. cbv iota.
  read_byte H. change (0xf9 =? 0xff) with false.
  change (0xf9 =? 0xf9) with true. cbv iota.
  unfold readGraphicsControl.
  read_byte H. change (0x04 =? 4) with true. cbv iota.
  read_byte H. read_16 H. read_byte H. read_byte H.
  eexists. split; [reflexivity|]. cbn [fs_frames fs_currentDelay fs_position].
  split; [reflexivity|]. split; [|exact H].
  rewrite le16_read_back by assumption. reflexivity.
Qed.

Lemma step_trailer sc st :
  at_pos (sc_data sc) (fs_position st) [0x3b] ->
  getFrames_step sc st = Ok (Break (with_position st (fs_position st + 1))).
Proof.
  intros H. unfold getFrames_step. rewrite (at_pos_in_range _ _ _ _ H).
  read_byte H. reflexivity.
Qed.

Lemma step_image sc st position s table codeSize compressed tail :
  at_pos (sc_data sc) (fs_position st)
    (image_record position s table codeSize compressed ++ tail) ->
  len position = 8 -> 0 <= s <= 7 -> len table = 3 * 2 ^ (s + 1) ->
  exists st' f,
    getFrames_step sc st = Ok (Continue st') /\
    fs_frames st' = fs_frames st ++ [f] /\
    f_delay f = fs_currentDelay st /\
    fs_currentDelay st' = 100 /\
    at_pos (sc_data sc) (fs_position st') tail.
Proof.
  intros H Hpos Hs Htab. unfold getFrames_step, image_record in *.
  destruct position as [|l0 [|l1 [|t0 [|t1 [|w0 [|w1 [|h0 [|h1 [|]]]]]]]]];
    try (unfold len in Hpos; simpl in Hpos; lia). clear Hpos.
  destruct (image_packed_fields s Hs) as (Hflag & Hint & Hsize).
  set (packed := Z.lor (Z.lor (Z.lor 0x80 0x00) 0x00) s) in *.
  rewrite <- !app_assoc in H. cbn [app] in H.
  rewrite (at_pos_in_range _ _ _ _ H).
  read_byte H. change (0x2c =? 0x21) with false.
  change (0x2c =? 0x2c) with true. cbv iota.
  unfold readImage.
  read_16 H. read_16 H. read_16 H. read_16 H. read_byte H.
  rewrite Hflag, Hint, Hsize. cbn [negb].
  rewrite shiftl_2_size by lia. rewrite <- Htab.
  pose proof (at_pos_readBytes _ _ _ _ H) as [E H1]. rewrite E. clear E H.
  cbn [rbind].
  read_byte H1.
  destruct (at_pos_readDataSubBlocks compressed _ _ tail H1) as (p' & E & H2).
  rewrite E. cbn [rbind].
  match goal with
  | |- context [processImage ?a ?b ?c ?d ?e ?f ?g ?h ?i ?j ?k] =>
      destruct (processImage_adds_frame a b c d e f g h i j k)
        as (st' & fr & Ep & Hfr & Hp & Hd & Hd')
  end.
  rewrite Ep. cbn [rbind]. exists st', fr.
  split; [reflexivity|]. split; [assumption|]. split; [assumption|].
  split; [assumption|]. rewrite Hp. exact H2.
Qed.

(** *** Frames, written and read *)

(** The delay the reader reports for a frame: ten times the centiseconds
    of its graphics control extension, and 100 ms for a frame without
    one. *)
Definition decoded_delay (frameCount : Z) (options : ImageOptions) : Z :=
  if needsGraphicsControl frameCount options
  then msToGifDelay (default 0 (o_delay options)) * 10
  else 100.

(** The bytes of one frame: an optional graphics control extension and
    the image record. *)
Definition frame_record (delay : Z) (bytes : list Z) : Prop :=
  exists gce position s table codeSize compressed,
    bytes = gce ++ image_record position s table codeSize compressed /\
    len position = 8 /\ 0 <= s <= 7 /\ len table = 3 * 2 ^ (s + 1) /\
    ((gce = [] /\ delay = 100) \/
     (exists packed v transparentIndex,
        gce = graphics_control packed v transparentIndex /\
        0 <= v <= 65535 /\ delay = v * 10)).

Lemma writeImage_frame_record image options w w' :
  writeImage image options w = (Ok tt, w') ->
  exists bytes,
    w' = mkGifWriter (w_output w ++ bytes) (hasWrittenHeader w)
           (hasWrittenLogicalScreen w) (frameCount w + 1) /\
    frame_record (decoded_delay (frameCount w) options) bytes.
Proof.
  intros H. apply writeImage_ok_inv in H.
  destruct H as (gce & position & s & table & codeSize & compressed & -> &
                 Hpos & Hs & Htab & Hgce).
  eexists. split; [reflexivity|].
  exists gce, position, s, table, codeSize, compressed.
  split; [reflexivity|]. split; [assumption|]. split; [assumption|].
  split; [assumption|]. unfold decoded_delay.
  destruct Hgce as [[-> ->]|(-> & Hv & packed & ti & ->)].
  - left. auto.
  - right. exists packed, (msToGifDelay (default 0 (o_delay options))), ti.
    auto.
Qed.

Lemma while_loop_continue {S} fuel (body : S -> result (step_result S)) s s' :
  body s = Ok (Continue s') ->
  while_loop (Datatypes.S fuel) body s = while_loop fuel body s'.
Proof. intros H. simpl. rewrite H. reflexivity. Qed.

Lemma while_loop_break {S} fuel (body : S -> result (step_result S)) s s' :
  body s = Ok (Break s') ->
  while_loop (Datatypes.S fuel) body s = Ok s'.
Proof. intros H. simpl. rewrite H. reflexivity. Qed.

Lemma frame_record_read sc st delay bytes tail :
  frame_record delay bytes ->
  at_pos (sc_data sc) (fs_position st) (bytes ++ tail) ->
  fs_currentDelay st = 100 ->
  exists st' f n,
    (n <= 2)%nat /\
    (forall fuel,
       while_loop (n + fuel) (getFrames_step sc) st
       = while_loop fuel (getFrames_step sc) st') /\
    fs_frames st' = fs_frames st ++ [f] /\
    f_delay f = delay /\
    fs_currentDelay st' = 100 /\
    at_pos (sc_data sc) (fs_position st') tail.
Proof.
  intros (gce & position & s & table & codeSize & compressed & -> &
          Hpos & Hs & Htab & Hgce) H Hd.
  rewrite <- app_assoc in H.
  destruct Hgce as [[-> ->]|(packed & v & ti & -> & Hv & ->)].
  - rewrite app_nil_l in H.
    destruct (step_image sc st _ _ _ _ _ _ H Hpos Hs Htab)
      as (st' & f & E & Hf & Hfd & Hd' & H').
    exists st', f, 1%nat. split; [lia|]. split.
    { intros fuel. apply while_loop_continue. exact E. }
    split; [assumption|]. split; [congruence|]. auto.
  - destruct (step_graphics_control sc st _ _ _ _ H Hv)
      as (st1 & E1 & Hf1 & Hd1 & H1).
    destruct (step_image sc st1 _ _ _ _ _ _ H1 Hpos Hs Htab)
      as (st' & f & E & Hf & Hfd & Hd' & H').
    exists st', f, 2%nat. split; [lia|]. split.
    { intros fuel. change (2 + fuel)%nat with (S (S fuel)).
      rewrite (while_loop_continue _ _ _ _ E1).
      apply while_loop_continue. exact E. }
    split; [congruence|]. split; [congruence|]. auto.
Qed.

Lemma frame_record_len delay bytes : frame_record delay bytes -> 2 <= len bytes.
Proof.
  intros (gce & position & s & table & codeSize & compressed & -> &
          Hpos & _).
  unfold image_record. rewrite !len_app.
  pose proof (len_nonneg gce). pose proof (len_nonneg table).
  pose proof (len_nonneg (sub_blocks (length compressed) compressed)).
  change (len [44]) with 1. change (len [codeSize]) with 1.
  change (len [0]) with 1.
  change (len [Z.lor (Z.lor (Z.lor 128 0) 0) s]) with 1. lia.
Qed.

Lemma frame_records_read sc delays : forall chunks,
  Forall2 frame_record delays chunks ->
  forall st tail,
  at_pos (sc_data sc) (fs_position st) (concat chunks ++ tail) ->
  fs_currentDelay st = 100 ->
  exists st' n,
    Z.of_nat n <= len (concat chunks) /\
    (forall fuel,
       while_loop (n + fuel) (getFrames_step sc) st
       = while_loop fuel (getFrames_step sc) st') /\
    map f_delay (fs_frames st') = map f_delay (fs_frames st) ++ delays /\
    at_pos (sc_data sc) (fs_position st') tail.
Proof.
  induction 1 as [|delay bytes delays chunks Hc Hrest IH]; intros st tail H Hd.
  - exists st, 0%nat. split; [unfold len; simpl; lia|].
    split; [reflexivity|]. rewrite app_nil_r. auto.
  - cbn [concat] in H. rewrite <- app_assoc in H.
    destruct (frame_record_read sc st _ _ _ Hc H Hd)
      as (st1 & f & n1 & Hn1 & E1 & Hf1 & Hfd & Hd1 & H1).
    destruct (IH st1 tail H1 Hd1) as (st' & n & Hn & E & Hf & H').
    exists st', (n1 + n)%nat. split.
    { cbn [concat]. rewrite len_app.
      pose proof (frame_record_len _ _ Hc). lia. }
    split.
    { intros fuel. rewrite <- Nat.add_assoc. rewrite E1. apply E. }
    split; [|exact H'].
    rewrite Hf, Hf1, map_app, <- app_assoc. subst delay. reflexivity.
Qed.

(** The application extension of [writeAnimationInfo]. *)
Definition animation_info (lo hi : Z) : list Z :=
  [0x21; 0xff; 11] ++ NETSCAPE_APPLICATION_IDENTIFIER
    ++ NETSCAPE_APPLICATION_AUTHENTICATION_CODE ++ [3; 0x01] ++ [lo; hi]
    ++ [0x00].

Lemma writeAnimationInfo_ok_inv options w w' :
  writeAnimationInfo options w = (Ok tt, w') ->
  exists lo hi,
    w' = w_with_output w (w_output w ++ animation_info lo hi).
Proof.
  unfold writeAnimationInfo. intros H. winv.
  do 2 eexists. unfold animation_info. reflexivity.
Qed.

Lemma skipDataSubBlocks_loop_done fuel data p :
  skipDataSubBlocks_loop fuel data 0 p = Ok p.
Proof. destruct fuel; reflexivity. Qed.

Lemma step_animation_info sc st lo hi tail :
  at_pos (sc_data sc) (fs_position st) (animation_info lo hi ++ tail) ->
  exists st',
    getFrames_step sc st = Ok (Continue st') /\
    fs_frames st' = fs_frames st /\
    fs_currentDelay st' = fs_currentDelay st /\
    at_pos (sc_data sc) (fs_position st') tail.
Proof.
  intros H. unfold getFrames_step, animation_info in *.
  unfold NETSCAPE_APPLICATION_IDENTIFIER,
    NETSCAPE_APPLICATION_AUTHENTICATION_CODE in H.
  cbn [app] in H. rewrite (at_pos_in_range _ _ _ _ H).
  assert (Hfuel : length (sc_data sc) <> 0%nat).
  { destruct H as (pre & -> & _). rewrite length_app. simpl. lia. }
  read_byte H. change (0x21 =? 0x21) with true. cbv iota.
  read_byte H. change (0xff =? 0xff) with true. cbv iota.
  read_byte H.
  change (at_pos (sc_data sc) (fs_position st + 1 + 1 + 1)
            ([78; 69; 84; 83; 67; 65; 80; 69; 50; 46; 48]
               ++ 3 :: [1; lo; hi] ++ 0 :: tail)) in H.
  pose proof (at_pos_readBytes _ _ _ _ H) as [E H1].
  change (len [78; 69; 84; 83; 67; 65; 80; 69; 50; 46; 48]) with 11 in E, H1.
  rewrite E. clear E H. cbn [rbind].
  assert (Hskip : skipDataSubBlocks (sc_data sc) (fs_position st + 1 + 1 + 1 + 11)
                  = Ok (fs_position st + 1 + 1 + 1 + 11 + 1 + 3 + 1)).
  { unfold skipDataSubBlocks. pose proof H1 as H2.
    apply at_pos_readByte in H2 as [E H2]. rewrite E. cbn [rbind].
    destruct (length (sc_data sc)) as [|fuel]; [contradiction|].
    cbn [skipDataSubBlocks_loop]. change (0 <? 3) with true. cbv iota.
    apply at_pos_skip in H2. change (len [1; lo; hi]) with 3 in H2.
    apply at_pos_readByte in H2 as [E2 H2]. rewrite E2. cbn [rbind].
    apply skipDataSubBlocks_loop_done. }
  rewrite Hskip. cbn [rbind].
  eexists. split; [destruct (knownApplicationExtension _ _); reflexivity|].
  split; [reflexivity|]. split; [reflexivity|].
  cbn [with_position fs_position].
  apply at_pos_readByte in H1 as [_ H1]. apply at_pos_skip in H1.
  apply at_pos_readByte in H1 as [_ H1].
  change (len [1; lo; hi]) with 3 in H1. exact H1.
Qed.

Lemma validateHeader_gif89a (rest : list Z) :
  validateHeader ([0x47; 0x49; 0x46; 0x38; 0x39; 0x61] ++ rest) = Ok tt.
Proof.
  unfold validateHeader. cbn [app]. rewrite !len_cons.
  pose proof (len_nonneg rest).
  replace (len rest + 1 + 1 + 1 + 1 + 1 + 1 <? 6) with false
    by (symmetry; apply Z.ltb_ge; lia).
  reflexivity.
Qed.

(** A file made of the header, the logical screen descriptor with its
    colour table, an optional animation block, frames and the trailer is
    read frame by frame. *)
Lemma getFrames_of_records (w0 w1 h0 h1 packed bg par : Z)
    (gct ext : list Z) (delays : list Z) (chunks : list (list Z)) :
  (((Z.land packed 0x80 =? 0) = true /\ gct = []) \/
   ((Z.land packed 0x80 =? 0) = false /\
    len gct = Z.shiftl 2 (Z.land packed 0x07) * 3)) ->
  (ext = [] \/ exists lo hi, ext = animation_info lo hi) ->
  Forall2 frame_record delays chunks ->
  exists frames,
    getFrames ([0x47; 0x49; 0x46; 0x38; 0x39; 0x61]
                 ++ [w0; w1; h0; h1; packed; bg; par] ++ gct ++ ext
                 ++ concat chunks ++ [0x3b]) = Ok frames /\
    map f_delay frames = delays.
Proof.
  intros Hgct Hext Hchunks.
  set (data := [0x47; 0x49; 0x46; 0x38; 0x39; 0x61]
                 ++ [w0; w1; h0; h1; packed; bg; par] ++ gct ++ ext
                 ++ concat chunks ++ [0x3b]).
  assert (Hlen : length data
                 = (14 + length gct + length ext + length (concat chunks))%nat).
  { unfold data. rewrite !length_app. simpl. lia. }
  pose proof (at_pos_start [0x47; 0x49; 0x46; 0x38; 0x39; 0x61]
                ([w0; w1; h0; h1; packed; bg; par] ++ gct ++ ext
                   ++ concat chunks ++ [0x3b])) as H.
  fold data in H. change (len [0x47; 0x49; 0x46; 0x38; 0x39; 0x61]) with 6 in H.
  unfold getFrames. unfold data at 1. rewrite validateHeader_gif89a.
  fold data. cbn [rbind]. cbn [app] in H.
  read_16 H. read_16 H. read_byte H. read_byte H. read_byte H.
  set (width := Z.lor w0 (Z.shiftl w1 8)).
  set (height := Z.lor h0 (Z.shiftl h1 8)).
  assert (Htable : exists table p,
    (if negb (Z.land packed 0x80 =? 0)
     then let! (t, p) := readBytes data (6 + 2 + 2 + 1 + 1 + 1)
                           (Z.shiftl 2 (Z.land packed 0x07) * 3) in
          Ok (Some t, p)
     else Ok (None, 6 + 2 + 2 + 1 + 1 + 1)) = Ok (table, p) /\
    at_pos data p (ext ++ concat chunks ++ [0x3b])).
  { destruct Hgct as [[-> ->]|[-> Hl]]; cbn [negb].
    - do 2 eexists. split; [reflexivity|exact H].
    - rewrite <- Hl. apply at_pos_readBytes in H as [E H]. rewrite E.
      cbn [rbind]. do 2 eexists. split; [reflexivity|exact H]. }
  destruct Htable as (table & p & -> & Hp). cbn [rbind]. clear H.
  set (sc := mkScreen data width height table bg).
  set (st0 := mkFramesState p (initialCanvas width height table bg) None 100
                DoNotDispose (-1) []).
  change data with (sc_data sc) in Hp.
  change p with (fs_position st0) in Hp.
  assert (Hext' : exists st1 e,
    (e <= 1)%nat /\ (e <= length ext)%nat /\
    (forall fuel, while_loop (e + fuel) (getFrames_step sc) st0
                  = while_loop fuel (getFrames_step sc) st1) /\
    fs_frames st1 = [] /\ fs_currentDelay st1 = 100 /\
    at_pos (sc_data sc) (fs_position st1) (concat chunks ++ [0x3b])).
  { destruct Hext as [->|(lo & hi & ->)].
    - exists st0, 0%nat. split; [lia|]. split; [simpl; lia|].
      split; [reflexivity|]. auto.
    - destruct (step_animation_info sc st0 lo hi _ Hp)
        as (st1 & E & Hf & Hd & H1).
      exists st1, 1%nat. split; [lia|]. split; [simpl; lia|]. split.
      { intros fuel. apply while_loop_continue. exact E. }
      auto. }
  destruct Hext' as (st1 & e & He & He' & E1 & Hf1 & Hd1 & H1).
  destruct (frame_records_read sc delays chunks Hchunks st1 [0x3b] H1 Hd1)
    as (st2 & n & Hn & E2 & Hf2 & H2).
  replace (S (length data))
    with (e + (n + S (length data - e - n)))%nat
    by (unfold len in Hn; lia).
  rewrite E1, E2.
  rewrite (while_loop_break _ _ _ _ (step_trailer sc st2 H2)).
  cbn [rbind]. eexists. split; [reflexivity|].
  cbn [with_position fs_frames]. rewrite Hf2, Hf1. reflexivity.
Qed.

(** The delays the reader reports for the frames of [writeImages]. *)
Fixpoint decoded_delays (images : list IndexedImage) (index : nat)
    (imageOptions : list ImageOptions) (frameCount : Z) : list Z :=
  match images with
  | [] => []
  | _ :: rest =>
      decoded_delay frameCount (nth index imageOptions noImageOptions)
        :: decoded_delays rest (S index) imageOptions (frameCount + 1)
  end.

Lemma decoded_delays_length images : forall index imageOptions frameCount,
  length (decoded_delays images index imageOptions frameCount) = length images.
Proof.
  induction images as [|x images IH]; intros; simpl; [reflexivity|].
  rewrite IH. reflexivity.
Qed.

Lemma decoded_delays_lookup images : forall index imageOptions frameCount i,
  (i < length images)%nat ->
  decoded_delays images index imageOptions frameCount !! i
  = Some (decoded_delay (frameCount + Z.of_nat i)
            (nth (index + i) imageOptions noImageOptions)).
Proof.
  induction images as [|x images IH]; intros index imageOptions frameCount i Hi;
    simpl in *; [lia|].
  destruct i as [|i].
  - simpl. rewrite Z.add_0_r, Nat.add_0_r. reflexivity.
  - simpl. rewrite IH by lia. do 2 f_equal; [lia|f_equal; lia].
Qed.

Lemma writeImages_frame_records images : forall index imageOptions w w',
  writeImages images index imageOptions w = (Ok tt, w') ->
  exists chunks,
    w' = mkGifWriter (w_output w ++ concat chunks) (hasWrittenHeader w)
           (hasWrittenLogicalScreen w) (frameCount w + len images) /\
    Forall2 frame_record
      (decoded_delays images index imageOptions (frameCount w)) chunks.
Proof.
  induction images as [|image images IH]; intros index imageOptions w w' H;
    simpl in H.
  - apply wret_inv in H as [_ ->]. exists []. split; [|constructor].
    cbn [concat]. rewrite app_nil_r.
    replace (frameCount w + len []) with (frameCount w)
      by (unfold len; simpl; lia).
    destruct w; reflexivity.
  - apply wbind_ok_inv in H as ([] & w1 & H1 & H).
    apply writeImage_frame_record in H1 as (bytes & -> & Hrec).
    apply IH in H as (chunks & -> & Hrest). cbn in Hrest |- *.
    exists (bytes :: chunks). split.
    + rewrite len_cons. cbn [concat]. rewrite <- app_assoc.
      f_equal. lia.
    + constructor; assumption.
Qed.

Lemma encodeStatic_ok_inv image globalOptions imageOptions bytes :
  encodeStatic image globalOptions imageOptions = Ok bytes ->
  exists w0 w1 h0 h1 packed bg par gct chunk,
    bytes = [0x47; 0x49; 0x46; 0x38; 0x39; 0x61]
              ++ [w0; w1; h0; h1; packed; bg; par] ++ gct ++ []
              ++ concat [chunk] ++ [0x3b] /\
    (((Z.land packed 0x80 =? 0) = true /\ gct = []) \/
     ((Z.land packed 0x80 =? 0) = false /\
      len gct = Z.shiftl 2 (Z.land packed 0x07) * 3)) /\
    frame_record (decoded_delay 0 imageOptions) chunk.
Proof.
  unfold encodeStatic.
  destruct (writeStaticGif _ _ _ _) as [[[]|e|] w'] eqn:E; simpl;
    try discriminate.
  intros [= <-]. unfold writeStaticGif in E.
  apply wbind_ok_inv in E as ([] & w1 & H1 & E).
  apply wbind_ok_inv in E as ([] & w2 & H2 & E).
  apply wbind_ok_inv in E as ([] & w3 & H3 & E).
  apply writeHeader_ok_inv in H1. subst w1.
  apply writeLogicalScreen_ok_inv in H2
    as (_ & x0 & x1 & h0 & h1 & packed & bg & par & gct & -> & Hgct).
  apply writeImage_frame_record in H3 as (chunk & -> & Hrec).
  apply writeTrailer_ok_inv in E. rewrite E. cbn in Hrec |- *.
  exists x0, x1, h0, h1, packed, bg, par, gct, chunk.
  split; [|auto]. rewrite <- !app_assoc. reflexivity.
Qed.

Lemma encodeAnimated_ok_inv images globalOptions animationOptions
    imageOptions bytes :
  encodeAnimated images globalOptions animationOptions imageOptions
    = Ok bytes ->
  exists w0 w1 h0 h1 packed bg par gct lo hi chunks,
    bytes = [0x47; 0x49; 0x46; 0x38; 0x39; 0x61]
              ++ [w0; w1; h0; h1; packed; bg; par] ++ gct
              ++ animation_info lo hi ++ concat chunks ++ [0x3b] /\
    (((Z.land packed 0x80 =? 0) = true /\ gct = []) \/
     ((Z.land packed 0x80 =? 0) = false /\
      len gct = Z.shiftl 2 (Z.land packed 0x07) * 3)) /\
    Forall2 frame_record (decoded_delays images 0 imageOptions 0) chunks.
Proof.
  unfold encodeAnimated.
  destruct (writeAnimatedGif _ _ _ _ _) as [[[]|e|] w'] eqn:E; simpl;
    try discriminate.
  intros [= <-]. unfold writeAnimatedGif in E.
  destruct images as [|first rest]; [discriminate|].
  apply wbind_ok_inv in E as ([] & w1 & H1 & E).
  apply wbind_ok_inv in E as ([] & w2 & H2 & E).
  apply wbind_ok_inv in E as ([] & w3 & H3 & E).
  apply wbind_ok_inv in E as ([] & w4 & H4 & E).
  apply writeHeader_ok_inv in H1. subst w1.
  apply writeLogicalScreen_ok_inv in H2
    as (_ & x0 & x1 & h0 & h1 & packed & bg & par & gct & -> & Hgct).
  apply writeAnimationInfo_ok_inv in H3 as (lo & hi & ->).
  apply writeImages_frame_records in H4 as (chunks & -> & Hrec).
  apply writeTrailer_ok_inv in E. rewrite E. cbn in Hrec |- *.
  exists x0, x1, h0, h1, packed, bg, par, gct, lo, hi, chunks.
  split; [|auto]. rewrite <- !app_assoc. reflexivity.
Qed.

(** *** The delay field *)

Lemma writeByte_ok b w :
  0 <= b <= 255 -> writeByte b w = w_append [b] w.
Proof.
  intros Hb. unfold writeByte.
  replace ((b <? 0) || (255 <? b)) with false; [reflexivity|].
  symmetry. apply orb_false_iff. split; [apply Z.ltb_ge|apply Z.ltb_ge]; lia.
Qed.

Lemma graphics_control_packed_byte (disposal : DisposalMethod) (t : bool) :
  0 <= Z.lor (Z.shiftl (Z.land (disposal_value disposal) 0x07) 2)
         (if t then 0x01 else 0x00) <= 255.
Proof. destruct disposal, t; vm_compute; split; discriminate. Qed.

Lemma msToGifDelay_nonneg ms : 0 <= msToGifDelay ms.
Proof. unfold msToGifDelay. lia. Qed.

Lemma wbind_ret {A B} (a : A) (k : A -> W B) w : wbind (wret a) k w = k a w.
Proof. reflexivity. Qed.

Lemma wbind_append {B} bytes (k : unit -> W B) w :
  wbind (w_append bytes) k w = k tt (w_with_output w (w_output w ++ bytes)).
Proof. reflexivity. Qed.

Lemma wbind_writeByte {B} b (k : unit -> W B) w :
  0 <= b <= 255 ->
  wbind (writeByte b) k w = k tt (w_with_output w (w_output w ++ [b])).
Proof. intros Hb. unfold wbind. rewrite writeByte_ok by assumption. reflexivity. Qed.

(** [writeGraphicsControl] writes the delay when it fits sixteen bits,
    and throws, four bytes into the extension, when it does not. *)
Lemma writeGraphicsControl_delay options w :
  let v := msToGifDelay (default 0 (o_delay options)) in
  (v <= 65535 ->
   exists packed transparentIndex,
     writeGraphicsControl options w
     = (Ok tt, w_with_output w
                 (w_output w ++ graphics_control packed v transparentIndex)))
  /\
  (65535 < v ->
   exists packed,
     writeGraphicsControl options w
     = (Throw (GifValidationError Invalid16BitValue),
        w_with_output w (w_output w ++ [0x21; 0xf9; 0x04; packed]))).
Proof.
  intros v. pose proof (msToGifDelay_nonneg (default 0 (o_delay options))) as Hv.
  fold v in Hv. unfold writeGraphicsControl. fold v.
  set (t := (0 <=? default (-1) (o_transparentIndex options))
            && (default (-1) (o_transparentIndex options) <=? 255)).
  set (packed := Z.lor _ _).
  assert (Hp : 0 <= packed <= 255) by apply graphics_control_packed_byte.
  set (ti := if t then _ else 0).
  assert (Hti : 0 <= ti <= 255).
  { unfold ti. destruct t; [|lia]. rewrite land_255.
    pose proof (Z.mod_pos_bound (default (-1) (o_transparentIndex options)) 256).
    lia. }
  assert (Hstart : forall B (k : unit -> W B),
    wbind (writeBytes_arr [0x21; 0xf9; 0x04]) (fun _ => wbind (writeByte packed) k) w
    = k tt (w_with_output w (w_output w ++ [0x21; 0xf9; 0x04; packed]))).
  { intros B k. cbn [writeBytes_arr]. rewrite !wbind_assoc.
    rewrite wbind_writeByte by lia. rewrite wbind_assoc.
    rewrite wbind_writeByte by lia. rewrite wbind_assoc.
    rewrite wbind_writeByte by lia. rewrite wbind_ret.
    rewrite wbind_writeByte by lia.
    unfold w_with_output. cbn [w_output hasWrittenHeader
      hasWrittenLogicalScreen frameCount]. rewrite <- !app_assoc.
    reflexivity. }
  rewrite Hstart. split; intros Hr.
  - exists packed, ti. unfold wbind at 1, wlift, write16BitLE.
    replace ((v <? 0) || (65535 <? v)) with false
      by (symmetry; apply orb_false_iff; split; apply Z.ltb_ge; lia).
    unfold writeBytes_u8. rewrite wbind_append.
    rewrite wbind_writeByte by assumption. rewrite writeByte_ok by lia.
    unfold w_append, w_with_output.
    cbn [w_output hasWrittenHeader hasWrittenLogicalScreen frameCount].
    unfold graphics_control. rewrite <- !app_assoc. reflexivity.
  - exists packed. unfold wbind at 1, wlift, write16BitLE.
    replace ((v <? 0) || (65535 <? v)) with true
      by (symmetry; apply orb_true_iff; right; apply Z.ltb_lt; lia).
    reflexivity.
Qed.

Lemma decoded_delay_of_delay frameCount options d :
  o_delay options = Some d ->
  decoded_delay frameCount options = Z.max 0 (round_div d 10) * 10.
Proof.
  intros Hd. unfold decoded_delay, needsGraphicsControl. rewrite Hd.
  rewrite (bool_decide_eq_true_2 (is_Some (Some d))) by eauto.
  rewrite orb_true_r. reflexivity.
Qed.

(** The frames of a completed encode, static or animated, are all read
    back, each with the delay of its graphics control extension. *)
Lemma encoded_frames_read_back
    (image : IndexedImage) (images : list IndexedImage)
    (globalOptions : GlobalColorTableOptions)
    (animationOptions : AnimationOptions)
    (options : ImageOptions) (imageOptions : list ImageOptions)
    (bytes : list Z) :
  (encodeStatic image globalOptions options = Ok bytes /\
   images = [image] /\ imageOptions = [options]) \/
  encodeAnimated images globalOptions animationOptions imageOptions
    = Ok bytes ->
  exists chunks frames,
    Forall2 frame_record (decoded_delays images 0 imageOptions 0) chunks /\
    getFrames bytes = Ok frames /\
    map f_delay frames = decoded_delays images 0 imageOptions 0.
Proof.
  intros [(H & -> & ->)|H].
  - apply encodeStatic_ok_inv in H
      as (w0 & w1 & h0 & h1 & packed & bg & par & gct & chunk & -> & Hgct
          & Hrec).
    assert (Hchunks : Forall2 frame_record
                        (decoded_delays [image] 0 [options] 0) [chunk])
      by (repeat constructor; exact Hrec).
    destruct (getFrames_of_records w0 w1 h0 h1 packed bg par gct [] _ _ Hgct
                (or_introl eq_refl) Hchunks) as (frames & E & Hf).
    exists [chunk], frames. auto.
  - apply encodeAnimated_ok_inv in H
      as (w0 & w1 & h0 & h1 & packed & bg & par & gct & lo & hi & chunks & ->
          & Hgct & Hchunks).
    assert (Hext : animation_info lo hi = [] \/
                   exists lo' hi', animation_info lo hi = animation_info lo' hi')
      by (right; eauto).
    destruct (getFrames_of_records w0 w1 h0 h1 packed bg par gct _ _ _ Hgct
                Hext Hchunks) as (frames & E & Hf).
    exists chunks, frames. auto.
Qed.

(** C6, counterexample.  A delay the encoder does not clamp: 700000 ms is
    70000 centiseconds, which [write16BitLE] rejects, so the encode throws
    instead of writing 65535. *)
Lemma long_delay_is_rejected :
  msToGifDelay 700000 = 70000 /\
  encodeStatic (mkIndexedImage 1 1 [0] [255; 0; 0]) noGlobalOptions
    (mkImageOptions None None (Some 700000) None None)
  = Throw (GifValidationError Invalid16BitValue) /\
  encodeAnimated [mkIndexedImage 1 1 [0] [255; 0; 0]] noGlobalOptions
    noAnimationOptions [mkImageOptions None None (Some 700000) None None]
  = Throw (GifValidationError Invalid16BitValue).
Proof. repeat split; vm_compute; reflexivity. Qed.

(** C6, amended.  For a frame given a delay of [d] whole milliseconds,
    in a static or an animated encode that completes: the centiseconds
    [v = max 0 (round (d / 10))] fit sixteen bits, [writeGraphicsControl]
    writes [v], low byte first, into the graphics control extension, and
    decoding the file reports [v * 10] milliseconds for that frame.  The
    value is not clamped from above: a delay with [v > 65535] makes
    [writeGraphicsControl], and with it the encode, throw. *)
Theorem frame_delay_round_trip
    (image : IndexedImage) (images : list IndexedImage)
    (globalOptions : GlobalColorTableOptions)
    (animationOptions : AnimationOptions)
    (options : ImageOptions) (imageOptions : list ImageOptions)
    (bytes : list Z) (i : nat) (d : Z) :
  (encodeStatic image globalOptions options = Ok bytes /\
   images = [image] /\ imageOptions = [options]) \/
  encodeAnimated images globalOptions animationOptions imageOptions
    = Ok bytes ->
  (i < length images)%nat ->
  o_delay (nth i imageOptions noImageOptions) = Some d ->
  let v := Z.max 0 (round_div d 10) in
  msToGifDelay d = v /\
  v <= 65535 /\
  (forall w, exists packed transparentIndex,
     writeGraphicsControl (nth i imageOptions noImageOptions) w
     = (Ok tt,
        w_with_output w
          (w_output w
             ++ [0x21; 0xf9; 0x04; packed; Z.land v 0xff;
                 Z.land (Z.shiftr v 8) 0xff; transparentIndex; 0x00]))) /\
  (forall options' w, 65535 < msToGifDelay (default 0 (o_delay options')) ->
     exists w',
       writeGraphicsControl options' w
       = (Throw (GifValidationError Invalid16BitValue), w')) /\
  exists frames f,
    getFrames bytes = Ok frames /\
    length frames = length images /\
    frames !! i = Some f /\
    f_delay f = v * 10.
Proof.
  intros H Hi Hd v.
  destruct (encoded_frames_read_back _ _ _ _ _ _ _ H)
    as (chunks & frames & Hchunks & E & Hf).
  pose proof (decoded_delays_lookup images 0 imageOptions 0 i Hi) as Hl.
  cbn [Nat.add] in Hl.
  rewrite (decoded_delay_of_delay _ _ d Hd) in Hl. fold v in Hl.
  assert (Hv : v <= 65535).
  { destruct (Forall2_lookup_l _ _ _ _ _ Hchunks Hl) as (chunk & _ & Hrec).
    destruct Hrec as (gce & position & s & table & codeSize & compressed & _
                      & _ & _ & _ & Hgce).
    destruct Hgce as [[_ Hx]|(packed & v' & ti & _ & Hv' & Hx)]; lia. }
  split; [reflexivity|]. split; [exact Hv|]. split.
  { intros w.
    destruct (writeGraphicsControl_delay (nth i imageOptions noImageOptions) w)
      as [Hok _].
    rewrite Hd in Hok. exact (Hok Hv). }
  split.
  { intros options' w Hlong.
    destruct (writeGraphicsControl_delay options' w) as [_ Hthrow].
    destruct (Hthrow Hlong) as [packed Ht]. eauto. }
  assert (Hlen : length frames = length images).
  { rewrite <- (length_map f_delay), Hf. apply decoded_delays_length. }
  destruct (lookup_lt_is_Some_2 frames i) as [f Hfi]; [lia|].
  exists frames, f. split; [exact E|]. split; [exact Hlen|].
  split; [exact Hfi|].
  assert (Hm : map f_delay frames !! i = Some (f_delay f))
    by (rewrite list_lookup_fmap, Hfi; reflexivity).
  rewrite Hf, Hl in Hm. congruence.
Qed.

Lemma frame_delay_round_trip_witness :
  let v := Z.max 0 (round_div 46 10) in
  msToGifDelay 46 = v /\
  v <= 65535 /\
  (forall w, exists packed transparentIndex,
     writeGraphicsControl
       (nth 1 [mkImageOptions None None (Some 123) None None;
               mkImageOptions None None (Some 46) None None] noImageOptions) w
     = (Ok tt,
        w_with_output w
          (w_output w
             ++ [0x21; 0xf9; 0x04; packed; Z.land v 0xff;
                 Z.land (Z.shiftr v 8) 0xff; transparentIndex; 0x00]))) /\
  (forall options' w, 65535 < msToGifDelay (default 0 (o_delay options')) ->
     exists w',
       writeGraphicsControl options' w
       = (Throw (GifValidationError Invalid16BitValue), w')) /\
  exists frames f,
    getFrames
      [71; 73; 70; 56; 57; 97; 1; 0; 1; 0; 112; 0; 0; 33; 255; 11; 78; 69;
       84; 83; 67; 65; 80; 69; 50; 46; 48; 3; 1; 0; 0; 0; 33; 249; 4; 8;
       12; 0; 0; 0; 44; 0; 0; 0; 0; 1; 0; 1; 0; 128; 255; 0; 0; 0; 0; 0;
       2; 2; 68; 1; 0; 33; 249; 4; 8; 5; 0; 0; 0; 44; 0; 0; 0; 0; 1; 0; 1;
       0; 128; 255; 0; 0; 0; 0; 0; 2; 2; 68; 1; 0; 59] = Ok frames /\
    length frames
    = length [mkIndexedImage 1 1 [0] [255; 0; 0];
              mkIndexedImage 1 1 [0] [255; 0; 0]] /\
    frames !! 1%nat = Some f /\
    f_delay f = v * 10.
Proof.
  apply (frame_delay_round_trip
           (mkIndexedImage 1 1 [0] [255; 0; 0])
           [mkIndexedImage 1 1 [0] [255; 0; 0];
            mkIndexedImage 1 1 [0] [255; 0; 0]]
           noGlobalOptions noAnimationOptions noImageOptions
           [mkImageOptions None None (Some 123) None None;
            mkImageOptions None None (Some 46) None None]).
  - right. vm_compute. reflexivity.
  - simpl. lia.
  - reflexivity.
Defined.

Example static_delay_reads_back :
  (let! bytes := encodeStatic (mkIndexedImage 1 1 [0] [255; 0; 0])
                   noGlobalOptions
                   (mkImageOptions None None (Some 123) None None) in
   let! frames := getFrames bytes in
   Ok (map f_delay frames)) = Ok [120].
Proof. vm_compute. reflexivity. Qed.

(** A negative delay is written as 0 and read back as 0. *)
Example negative_delay_reads_back_zero :
  msToGifDelay (-100) = 0 /\
  (let! bytes := encodeStatic (mkIndexedImage 1 1 [0] [255; 0; 0])
                   noGlobalOptions
                   (mkImageOptions None None (Some (-100)) None None) in
   let! frames := getFrames bytes in
   Ok (map f_delay frames)) = Ok [0].
Proof. split; vm_compute; reflexivity. Qed.

(** * Further properties of the code *)

(** ** utils.ts: colours and palettes *)

Definition color_ok (color : RGBColor) : Prop :=
  0 <= red color <= 255 /\ 0 <= green color <= 255 /\ 0 <= blue color <= 255.

Definition palette_bytes (colors : list RGBColor) : list Z :=
  flat_map (fun color => [red color; green color; blue color]) colors.

Lemma validateColorIntensity_spec value :
  (0 <= value <= 255 /\ validateColorIntensity value = Ok tt) \/
  (~ 0 <= value <= 255 /\
   validateColorIntensity value
   = Throw (GifValidationError InvalidColorIntensity)).
Proof.
  unfold validateColorIntensity.
  destruct (value <? 0) eqn:E1; [apply Z.ltb_lt in E1; right; split; [lia|auto]|].
  destruct (255 <? value) eqn:E2; [apply Z.ltb_lt in E2; right; split; [lia|auto]|].
  apply Z.ltb_ge in E1, E2. left. split; [lia|reflexivity].
Qed.

Lemma validateRGBColor_spec color :
  (color_ok color /\ validateRGBColor color = Ok tt) \/
  (~ color_ok color /\
   validateRGBColor color = Throw (GifValidationError InvalidColorIntensity)).
Proof.
  unfold validateRGBColor, color_ok.
  destruct (validateColorIntensity_spec (red color)) as [[H1 ->]|[H1 ->]];
    [|right; split; [tauto|reflexivity]].
  destruct (validateColorIntensity_spec (green color)) as [[H2 ->]|[H2 ->]];
    [|right; split; [tauto|reflexivity]].
  destruct (validateColorIntensity_spec (blue color)) as [[H3 ->]|[H3 ->]];
    [|right; split; [tauto|reflexivity]].
  left. auto.
Qed.

Lemma colorsToPalette_loop colors : forall acc,
  Forall color_ok colors ->
  for_each (fun palette color =>
              validateRGBColor color ;;!
              Ok (palette ++ [red color; green color; blue color]))
           colors acc = Ok (acc ++ palette_bytes colors).
Proof.
  induction colors as [|c colors IH]; intros acc H; simpl.
  - rewrite app_nil_r. reflexivity.
  - inversion H as [|? ? Hc Hrest]; subst.
    destruct (validateRGBColor_spec c) as [[_ ->]|[Hn _]]; [|contradiction].
    simpl. rewrite IH by assumption. rewrite <- app_assoc. reflexivity.
Qed.

Lemma colorsToPalette_throws colors : forall acc,
  ~ Forall color_ok colors ->
  for_each (fun palette color =>
              validateRGBColor color ;;!
              Ok (palette ++ [red color; green color; blue color]))
           colors acc = Throw (GifValidationError InvalidColorIntensity).
Proof.
  induction colors as [|c colors IH]; intros acc H; simpl.
  - exfalso. apply H. constructor.
  - destruct (validateRGBColor_spec c) as [[Hc ->]|[Hn ->]]; [|reflexivity].
    simpl. apply IH. intros Hrest. apply H. constructor; assumption.
Qed.

Lemma palette_bytes_len colors : len (palette_bytes colors) = 3 * len colors.
Proof.
  induction colors as [|c colors IH]; [reflexivity|].
  cbn [palette_bytes flat_map]. rewrite len_app. fold (palette_bytes colors).
  rewrite IH, (len_cons c colors). change (len [red c; green c; blue c]) with 3.
  lia.
Qed.

Lemma byte_at_app_r (pre rest : list Z) (i : Z) :
  0 <= i -> byte_at (pre ++ rest) (len pre + i) = byte_at rest i.
Proof.
  intros Hi. unfold byte_at, len.
  rewrite app_nth2 by lia. f_equal. lia.
Qed.

Lemma paletteToColors_loop_spec colors : forall fuel pre acc,
  len (palette_bytes colors) <= Z.of_nat fuel ->
  paletteToColors_loop fuel (pre ++ palette_bytes colors) (len pre) acc
  = Ok (acc ++ colors).
Proof.
  induction colors as [|c colors IH]; intros fuel pre acc Hf.
  - cbn [palette_bytes flat_map]. rewrite !app_nil_r.
    destruct fuel; simpl; rewrite Z.ltb_irrefl; reflexivity.
  - rewrite palette_bytes_len, len_cons in Hf. pose proof (len_nonneg colors).
    destruct fuel as [|fuel]; [lia|].
    cbn [paletteToColors_loop].
    replace (len pre <? len (pre ++ palette_bytes (c :: colors))) with true.
    2:{ symmetry. apply Z.ltb_lt. rewrite len_app, palette_bytes_len, len_cons.
        lia. }
    pose proof (byte_at_app_r pre (palette_bytes (c :: colors)) 0) as H0.
    pose proof (byte_at_app_r pre (palette_bytes (c :: colors)) 1) as H1.
    pose proof (byte_at_app_r pre (palette_bytes (c :: colors)) 2) as H2.
    rewrite Z.add_0_r in H0. rewrite H0, H1, H2 by lia.
    change (byte_at (palette_bytes (c :: colors)) 0) with (red c).
    change (byte_at (palette_bytes (c :: colors)) 1) with (green c).
    change (byte_at (palette_bytes (c :: colors)) 2) with (blue c).
    replace (mkRGB (red c) (green c) (blue c)) with c by (destruct c; reflexivity).
    change (palette_bytes (c :: colors))
      with ([red c; green c; blue c] ++ palette_bytes colors).
    rewrite app_assoc.
    replace (len pre + 3) with (len (pre ++ [red c; green c; blue c]))
      by (rewrite len_app; reflexivity).
    rewrite IH by (rewrite palette_bytes_len; lia).
    rewrite <- app_assoc. reflexivity.
Qed.

(** X1. A non-empty list of at most 256 colours with components in
    [0, 255] is turned by [colorsToPalette] into a palette of three bytes
    per colour, and [paletteToColors] gives the colours back. *)
Theorem colors_palette_round_trip (colors : list RGBColor) :
  Forall color_ok colors -> colors <> [] -> len colors <= 256 ->
  exists palette,
    colorsToPalette colors = Ok palette /\
    len palette = 3 * len colors /\
    paletteToColors palette = Ok colors.
Proof.
  intros Hok Hne Hmax. exists (palette_bytes colors).
  unfold colorsToPalette. rewrite colorsToPalette_loop by assumption.
  split; [reflexivity|]. split; [apply palette_bytes_len|].
  unfold paletteToColors.
  assert (Hpos : 0 < len colors) by (apply len_pos_iff; assumption).
  destruct (validatePalette_spec (palette_bytes colors)) as [[_ ->]|[Hn _]].
  - simpl. apply (paletteToColors_loop_spec colors _ [] []).
    unfold len. lia.
  - exfalso. apply Hn. unfold palette_ok. rewrite palette_bytes_len.
    replace (3 * len colors) with (len colors * 3) by lia.
    rewrite Z.mod_mul, Z.div_mul by lia. lia.
Qed.

Lemma colors_palette_round_trip_witness :
  exists palette,
    colorsToPalette [mkRGB 255 0 0; mkRGB 0 128 255] = Ok palette /\
    len palette = 3 * len [mkRGB 255 0 0; mkRGB 0 128 255] /\
    paletteToColors palette = Ok [mkRGB 255 0 0; mkRGB 0 128 255].
Proof.
  apply (colors_palette_round_trip [mkRGB 255 0 0; mkRGB 0 128 255]).
  - repeat constructor; simpl; lia.
  - discriminate.
  - vm_compute. discriminate.
Defined.

(** The other way round: a palette is a sequence of colours. *)
Lemma palette_chunks (n : nat) : forall palette : list Z,
  length palette = (3 * n)%nat ->
  exists colors, palette = palette_bytes colors /\ length colors = n /\
                 (Forall is_byte palette -> Forall color_ok colors).
Proof.
  induction n as [|n IH]; intros palette Hl.
  - destruct palette; [|discriminate]. exists []. repeat split. constructor.
  - destruct palette as [|r [|g [|b rest]]]; simpl in Hl; try lia.
    destruct (IH rest) as (colors & -> & Hn & Hok); [lia|].
    exists (mkRGB r g b :: colors). split; [reflexivity|].
    split; [simpl; lia|]. intros Hb.
    inversion Hb as [|? ? Hr Hb1]; subst.
    inversion Hb1 as [|? ? Hg Hb2]; subst.
    inversion Hb2 as [|? ? Hbl Hb3]; subst.
    constructor; [|auto]. unfold color_ok, is_byte in *. simpl. lia.
Qed.

(** X2. When [paletteToColors] accepts a palette of bytes it returns one
    colour per three bytes, each with components in [0, 255], and
    [colorsToPalette] turns them back into the same palette. *)
Theorem palette_colors_round_trip (palette : list Z) (colors : list RGBColor) :
  Forall is_byte palette ->
  paletteToColors palette = Ok colors ->
  3 * len colors = len palette /\
  1 <= len colors <= 256 /\
  Forall color_ok colors /\
  colorsToPalette colors = Ok palette.
Proof.
  intros Hb H. unfold paletteToColors in H.
  destruct (validatePalette_spec palette) as [[Hok E]|[_ [t E]]];
    rewrite E in H; [|discriminate]. simpl in H.
  destruct Hok as (Hne & Hmod & Hmax).
  assert (Hl : len palette = 3 * (len palette / 3))
    by (pose proof (Z.div_mod (len palette) 3); lia).
  destruct (palette_chunks (Z.to_nat (len palette / 3)) palette)
    as (cs & Hp & Hn & Hcok); [unfold len in *; lia|].
  rewrite Hp in H at 2.
  change (paletteToColors_loop (length palette) ([] ++ palette_bytes cs)
            (len (@nil Z)) [] = Ok colors) in H.
  rewrite paletteToColors_loop_spec in H
    by (rewrite <- Hp; unfold len; lia).
  injection H as <-. pose proof (len_nonneg palette).
  assert (Hlc : len cs = len palette / 3) by (unfold len in *; lia).
  split; [lia|]. split; [lia|]. split; [auto|].
  unfold colorsToPalette. rewrite colorsToPalette_loop by auto.
  rewrite Hp. reflexivity.
Qed.

Lemma palette_colors_round_trip_witness :
  3 * len [mkRGB 255 0 0; mkRGB 0 128 255] = len [255; 0; 0; 0; 128; 255] /\
  1 <= len [mkRGB 255 0 0; mkRGB 0 128 255] <= 256 /\
  Forall color_ok [mkRGB 255 0 0; mkRGB 0 128 255] /\
  colorsToPalette [mkRGB 255 0 0; mkRGB 0 128 255]
  = Ok [255; 0; 0; 0; 128; 255].
Proof.
  apply (palette_colors_round_trip [255; 0; 0; 0; 128; 255]).
  - repeat constructor; unfold is_byte; lia.
  - reflexivity.
Defined.

(** ** utils.ts: the closest palette colour *)

Lemma colorDistanceSquared_nonneg a b : 0 <= colorDistanceSquared a b.
Proof.
  unfold colorDistanceSquared. cbv zeta.
  pose proof (Z.square_nonneg (red a - red b)).
  pose proof (Z.square_nonneg (green a - green b)).
  pose proof (Z.square_nonneg (blue a - blue b)). lia.
Qed.

Lemma closest_loop_nearest target rest : forall pre i bestIndex best,
  i = length pre ->
  (bestIndex < i)%nat ->
  pre !! bestIndex = Some best ->
  (forall j c, pre !! j = Some c ->
     colorDistanceSquared target best <= colorDistanceSquared target c) ->
  (forall j c, (j < bestIndex)%nat -> pre !! j = Some c ->
     colorDistanceSquared target best < colorDistanceSquared target c) ->
  exists index found,
    closest_loop target rest (Z.of_nat i) (Z.of_nat bestIndex)
      (colorDistanceSquared target best) = Z.of_nat index /\
    (pre ++ rest) !! index = Some found /\
    (forall j c, (pre ++ rest) !! j = Some c ->
       colorDistanceSquared target found <= colorDistanceSquared target c) /\
    (forall j c, (j < index)%nat -> (pre ++ rest) !! j = Some c ->
       colorDistanceSquared target found < colorDistanceSquared target c).
Proof.
  induction rest as [|c rest IH]; intros pre i bestIndex best Hi Hb Hbest Hmin Hfirst.
  - exists bestIndex, best. simpl. rewrite app_nil_r. auto.
  - cbn [closest_loop].
    assert (Hlook : forall j x, (pre ++ [c]) !! j = Some x ->
              pre !! j = Some x \/ (j = i /\ x = c)).
    { intros j x Hj. apply lookup_app_Some in Hj as [Hj|[Hge Hj]]; [auto|].
      right. destruct (j - length pre)%nat as [|n] eqn:En; [|destruct n; discriminate].
      injection Hj as <-. split; [lia|reflexivity]. }
    replace (Z.of_nat i + 1) with (Z.of_nat (S i)) by lia.
    replace (pre ++ c :: rest) with ((pre ++ [c]) ++ rest)
      by (rewrite <- app_assoc; reflexivity).
    destruct (colorDistanceSquared target c <? colorDistanceSquared target best)
      eqn:E.
    + apply Z.ltb_lt in E.
      assert (Hc : (pre ++ [c]) !! i = Some c).
      { rewrite lookup_app_r by lia. rewrite Hi, Nat.sub_diag. reflexivity. }
      destruct (colorDistanceSquared target c =? 0) eqn:E0.
      * apply Z.eqb_eq in E0. exists i, c. split; [reflexivity|].
        split; [apply lookup_app_l_Some; exact Hc|]. split.
        -- intros j x _. rewrite E0. apply colorDistanceSquared_nonneg.
        -- intros j x Hj Hx.
           rewrite lookup_app_l in Hx by (rewrite length_app; simpl; lia).
           destruct (Hlook j x Hx) as [Hp|[-> _]]; [|lia].
           specialize (Hmin j x Hp). lia.
      * apply (IH (pre ++ [c]) (S i) i c).
        -- rewrite length_app. simpl. lia.
        -- lia.
        -- exact Hc.
        -- intros j x Hx. destruct (Hlook j x Hx) as [Hp|[_ ->]]; [|lia].
           specialize (Hmin j x Hp). lia.
        -- intros j x Hj Hx. destruct (Hlook j x Hx) as [Hp|[-> _]]; [|lia].
           specialize (Hmin j x Hp). lia.
    + apply Z.ltb_ge in E.
      apply (IH (pre ++ [c]) (S i) bestIndex best).
      * rewrite length_app. simpl. lia.
      * lia.
      * apply lookup_app_l_Some. exact Hbest.
      * intros j x Hx. destruct (Hlook j x Hx) as [Hp|[_ ->]]; [|lia].
        exact (Hmin j x Hp).
      * intros j x Hj Hx. destruct (Hlook j x Hx) as [Hp|[-> _]]; [|lia].
        exact (Hfirst j x Hj Hp).
Qed.

(** X3. On a non-empty palette [findClosestColorIndex] returns the index of
    a colour at the least squared distance from the target, and the first
    such index: every colour is at least as far, every earlier one
    strictly farther. *)
Theorem closest_color_is_nearest (target : RGBColor) (palette : list RGBColor) :
  palette <> [] ->
  exists index found,
    findClosestColorIndex target palette = Ok (Z.of_nat index) /\
    palette !! index = Some found /\
    (forall j c, palette !! j = Some c ->
       colorDistanceSquared target found <= colorDistanceSquared target c) /\
    (forall j c, (j < index)%nat -> palette !! j = Some c ->
       colorDistanceSquared target found < colorDistanceSquared target c).
Proof.
  intros Hne. destruct palette as [|c0 rest]; [contradiction|].
  unfold findClosestColorIndex.
  destruct (closest_loop_nearest target rest [c0] 1 0 c0)
    as (index & found & E & Hf & Hmin & Hfirst).
  - reflexivity.
  - lia.
  - reflexivity.
  - intros j c Hj. destruct j; [injection Hj as <-; lia|discriminate].
  - intros j c Hj. lia.
  - exists index, found. change (Z.of_nat 1) with 1 in E.
    change (Z.of_nat 0) with 0 in E. rewrite E. auto.
Qed.

Lemma closest_color_is_nearest_witness :
  exists index found,
    findClosestColorIndex (mkRGB 10 10 10)
      [mkRGB 0 0 0; mkRGB 12 9 10; mkRGB 255 255 255; mkRGB 12 9 10]
    = Ok (Z.of_nat index) /\
    [mkRGB 0 0 0; mkRGB 12 9 10; mkRGB 255 255 255; mkRGB 12 9 10] !! index
    = Some found /\
    (forall j c,
       [mkRGB 0 0 0; mkRGB 12 9 10; mkRGB 255 255 255; mkRGB 12 9 10] !! j
       = Some c ->
       colorDistanceSquared (mkRGB 10 10 10) found
       <= colorDistanceSquared (mkRGB 10 10 10) c) /\
    (forall j c, (j < index)%nat ->
       [mkRGB 0 0 0; mkRGB 12 9 10; mkRGB 255 255 255; mkRGB 12 9 10] !! j
       = Some c ->
       colorDistanceSquared (mkRGB 10 10 10) found
       < colorDistanceSquared (mkRGB 10 10 10) c).
Proof.
  apply (closest_color_is_nearest (mkRGB 10 10 10)
           [mkRGB 0 0 0; mkRGB 12 9 10; mkRGB 255 255 255; mkRGB 12 9 10]).
  discriminate.
Defined.

(** ** reader.ts and gif-result.ts: the signature check *)

Lemma list_eqb_true (a b : list Z) : list_eqb a b = true <-> a = b.
Proof. unfold list_eqb. apply bool_decide_eq_true. Qed.

Lemma list_eqb_false (a b : list Z) : list_eqb a b = false <-> a <> b.
Proof. unfold list_eqb. apply bool_decide_eq_false. Qed.

Lemma validateHeader_long (a b c d e f : Z) (rest : list Z) :
  validateHeader (a :: b :: c :: d :: e :: f :: rest) = Ok tt <->
  [a; b; c] = [71; 73; 70] /\ ([d; e; f] = [56; 55; 97] \/ [d; e; f] = [56; 57; 97]).
Proof.
  unfold validateHeader. rewrite !len_cons. pose proof (len_nonneg rest) as Hr.
  replace (len rest + 1 + 1 + 1 + 1 + 1 + 1 <? 6) with false
    by (symmetry; apply Z.ltb_ge; lia).
  cbn -[list_eqb Z.eqb]. rewrite take_0.
  destruct (decide ([a; b; c] = [71; 73; 70])) as [Hs|Hs].
  - injection Hs as -> -> ->.
    change (71 =? 60) with false.
    replace (list_eqb [71; 73; 70] [80; 78; 71]) with false by reflexivity.
    replace (list_eqb [73; 70; d] [80; 78; 71]) with false
      by (symmetry; apply list_eqb_false; discriminate).
    change (71 =? 255) with false.
    replace (list_eqb [71; 73; 70] [71; 73; 70]) with true by reflexivity.
    cbn [orb andb negb].
    destruct (list_eqb [d; e; f] [56; 55; 97]) eqn:E2.
    + apply list_eqb_true in E2. cbn [negb andb]. tauto.
    + apply list_eqb_false in E2.
      destruct (list_eqb [d; e; f] [56; 57; 97]) eqn:E3.
      * apply list_eqb_true in E3. cbn [negb andb]. tauto.
      * apply list_eqb_false in E3. cbn [negb andb].
        split; [intros [=]|]. intros [_ [?|?]]; contradiction.
  - assert (E : list_eqb [a; b; c] [71; 73; 70] = false)
      by (apply list_eqb_false; exact Hs).
    rewrite E. cbn [negb].
    split; [|intros [? _]; contradiction].
    repeat match goal with
           | |- (if ?c then _ else _) = _ -> _ => destruct c
           end; intros [=].
Qed.

Lemma GifResult_isValidGif_long (a b c d e f : Z) (rest : list Z) :
  GifResult_isValidGif (a :: b :: c :: d :: e :: f :: rest) = true <->
  [a; b; c] = [71; 73; 70] /\ ([d; e; f] = [56; 55; 97] \/ [d; e; f] = [56; 57; 97]).
Proof.
  unfold GifResult_isValidGif. rewrite !len_cons. pose proof (len_nonneg rest).
  replace (len rest + 1 + 1 + 1 + 1 + 1 + 1 <? 6) with false
    by (symmetry; apply Z.ltb_ge; lia).
  change (byte_at (a :: b :: c :: d :: e :: f :: rest) 0) with a.
  change (byte_at (a :: b :: c :: d :: e :: f :: rest) 1) with b.
  change (byte_at (a :: b :: c :: d :: e :: f :: rest) 2) with c.
  change (byte_at (a :: b :: c :: d :: e :: f :: rest) 3) with d.
  change (byte_at (a :: b :: c :: d :: e :: f :: rest) 4) with e.
  change (byte_at (a :: b :: c :: d :: e :: f :: rest) 5) with f.
  rewrite !andb_true_iff, orb_true_iff, !Z.eqb_eq.
  split.
  - intros (((((-> & ->) & ->) & ->) & He) & ->).
    split; [reflexivity|]. destruct He as [->| ->]; auto.
  - intros [[= -> -> ->] [[= -> -> ->]|[= -> -> ->]]]; repeat split; auto.
Qed.

Lemma short_header_invalid (data : list Z) :
  (length data < 6)%nat ->
  validateHeader data = Throw (GifValidationError GifTooShort) /\
  GifResult_isValidGif data = false.
Proof.
  intros H. unfold validateHeader, GifResult_isValidGif.
  replace (len data <? 6) with true
    by (symmetry; apply Z.ltb_lt; unfold len; lia).
  auto.
Qed.

(** X4. The two validity checks of the library agree on every byte array:
    [isValidGif] of the reader and [GifResult.isValidGif] both hold exactly
    when the data starts with the six bytes "GIF87a" or "GIF89a"; nothing
    after the signature is looked at, and data shorter than six bytes is
    refused. *)
Theorem isValidGif_is_the_signature (data : list Z) :
  isValidGif data = GifResult_isValidGif data /\
  (isValidGif data = true <->
   exists rest,
     data = [0x47; 0x49; 0x46; 0x38; 0x37; 0x61] ++ rest \/
     data = [0x47; 0x49; 0x46; 0x38; 0x39; 0x61] ++ rest).
Proof.
  destruct data as [|a [|b [|c [|d [|e [|f rest]]]]]];
    try (match goal with
         | |- context [GifResult_isValidGif ?l] =>
             destruct (short_header_invalid l) as [E1 E2]; [simpl; lia|]
         end;
         unfold isValidGif; rewrite E1, E2; split; [reflexivity|];
         split; [intros [=]|]; intros [rest [H|H]]; discriminate).
  pose proof (validateHeader_long a b c d e f rest) as Hv.
  pose proof (GifResult_isValidGif_long a b c d e f rest) as Hg.
  assert (Hi : isValidGif (a :: b :: c :: d :: e :: f :: rest) = true <->
               validateHeader (a :: b :: c :: d :: e :: f :: rest) = Ok tt).
  { unfold isValidGif.
    destruct (validateHeader _) as [[]|?|]; split; auto; discriminate. }
  split.
  - apply Bool.eq_true_iff_eq. rewrite Hi, Hv, Hg. reflexivity.
  - rewrite Hi, Hv. split.
    + intros [[= -> -> ->] [[= -> -> ->]|[= -> -> ->]]]; exists rest; auto.
    + intros [rest' [[= -> -> -> -> -> -> _]|[= -> -> -> -> -> -> _]]]; auto.
Qed.

(** ** reader.ts: interlaced rows *)

(** The sizes of the first three passes: rows 0, 8, ...; 4, 12, ...; and
    2, 6, ... *)
Lemma interlace_passes (height : Z) :
  1 <= height ->
  0 <= ceil_div height 8 /\ 0 <= ceil_div (height - 4) 8 + ceil_div height 8 /\
  8 * ceil_div height 8 < height + 8 /\ height <= 8 * ceil_div height 8 /\
  8 * ceil_div (height - 4) 8 < height + 4 /\
  height - 4 <= 8 * ceil_div (height - 4) 8 /\
  4 * ceil_div (height - 2) 4 < height + 2 /\
  height - 2 <= 4 * ceil_div (height - 2) 4.
Proof. intros Hh. unfold ceil_div. Z.div_mod_to_equations. lia. Qed.

(** X5. For an image of [height >= 1] rows, [deinterlaceY] sends the rows
    [0 .. height - 1] of the interlaced order to distinct rows of the
    image, all within [0 .. height - 1]: the four passes together are a
    permutation of the rows. *)
Theorem deinterlaceY_permutes_rows (height : Z) :
  1 <= height ->
  (forall y, 0 <= y < height -> 0 <= deinterlaceY y height < height) /\
  (forall y1 y2, 0 <= y1 < height -> 0 <= y2 < height ->
     deinterlaceY y1 height = deinterlaceY y2 height -> y1 = y2).
Proof.
  intros Hh. unfold deinterlaceY.
  pose proof (interlace_passes height Hh) as H.
  set (p1 := ceil_div height 8) in *.
  set (p2 := ceil_div (height - 4) 8) in *.
  set (p3 := ceil_div (height - 2) 4) in *.
  clearbody p1 p2 p3.
  split.
  - intros y Hy.
    destruct (y <? p1) eqn:E1; [apply Z.ltb_lt in E1|apply Z.ltb_ge in E1].
    { lia. }
    destruct (y <? p1 + p2) eqn:E2; [apply Z.ltb_lt in E2|apply Z.ltb_ge in E2].
    { lia. }
    destruct (y <? p1 + p2 + p3) eqn:E3;
      [apply Z.ltb_lt in E3|apply Z.ltb_ge in E3]; lia.
  - intros y1 y2 Hy1 Hy2.
    destruct (y1 <? p1) eqn:A1; [apply Z.ltb_lt in A1|apply Z.ltb_ge in A1];
    destruct (y1 <? p1 + p2) eqn:A2;
      [apply Z.ltb_lt in A2|apply Z.ltb_ge in A2| apply Z.ltb_lt in A2|apply Z.ltb_ge in A2];
    destruct (y1 <? p1 + p2 + p3) eqn:A3;
    destruct (y2 <? p1) eqn:B1;
    destruct (y2 <? p1 + p2) eqn:B2;
    destruct (y2 <? p1 + p2 + p3) eqn:B3;
    rewrite ?Z.ltb_lt, ?Z.ltb_ge in *; lia.
Qed.

Lemma deinterlaceY_permutes_rows_witness :
  (forall y, 0 <= y < 5 -> 0 <= deinterlaceY y 5 < 5) /\
  (forall y1 y2, 0 <= y1 < 5 -> 0 <= y2 < 5 ->
     deinterlaceY y1 5 = deinterlaceY y2 5 -> y1 = y2).
Proof. apply (deinterlaceY_permutes_rows 5). lia. Defined.

Example deinterlaceY_five_rows :
  map (fun y => deinterlaceY y 5) [0; 1; 2; 3; 4] = [0; 4; 2; 1; 3].
Proof. reflexivity. Qed.

(** ** writer.ts: a valid image is always written *)

(** The compressed data of a valid index sequence is a byte array that
    decompresses to the sequence. *)
Lemma compressLZW_bytes (k : Z) (s : list Z) :
  2 <= k <= 8 -> s <> [] -> Forall (valid_byte k) s ->
  exists c, compressLZW s k = Ok c /\ Forall is_byte c /\
            decompressLZW c k = Ok s.
Proof.
  intros Hk Hne Hs.
  destruct (round_trip_valid k Hk s Hne Hs) as (c & Hc & Hd).
  exists c. split; [exact Hc|]. split; [|exact Hd].
  pose proof (clear_range k Hk) as Hcr.
  assert (Hcl : 0 <= clearCode k < 2 ^ (k + 1))
    by (pose proof (clear_lt_width k Hk); lia).
  assert (Hpos : 0 < k + 1) by lia.
  destruct (push_spec newCodeToBytesConverter (clearCode k) (k + 1)
              new_converter_wf Hpos Hcl) as (conv1 & Hp1 & Hwf1 & Hv1 & Hl1).
  pose proof (enc_inv_initial k Hk conv1 Hwf1) as Hinv.
  destruct (compress_rest_spec k Hk s _ Hinv Hs) as (cf & Hrun & Hfin).
  destruct (enc_final_ext k Hk s _ cf Hinv Hs Hfin) as [Hwff Hext].
  destruct (flush_spec cf Hwff) as (Hfb & _ & _).
  unfold compressLZW in Hc.
  replace (len s =? 0) with false in Hc.
  2:{ symmetry. apply Z.eqb_neq. destruct s; [contradiction|].
      unfold len. simpl. lia. }
  replace ((k <? 1) || (8 <? k)) with false in Hc
    by (symmetry; apply orb_false_iff; split; apply Z.ltb_ge; lia).
  change (e_clear (newLZWDictionary k)) with (clearCode k) in Hc.
  rewrite Hp1 in Hc. unfold compress_rest in Hrun. cbn [rbind] in Hc.
  rewrite Hrun in Hc. injection Hc as <-. exact Hfb.
Qed.

Lemma lzwCodeSizeFor_range (colorCount : Z) :
  1 <= colorCount <= 256 ->
  2 <= lzwCodeSizeFor colorCount <= 8 /\
  colorCount <= 2 ^ lzwCodeSizeFor colorCount.
Proof.
  intros HC. unfold lzwCodeSizeFor, ceil_log2.
  destruct (colorCount <=? 2) eqn:E.
  - apply Z.leb_le in E. change (Z.max 2 2) with 2. change (2 ^ 2) with 4. lia.
  - apply Z.leb_gt in E.
    assert (H1 : 1 < colorCount) by lia.
    destruct (Z.log2_up_spec colorCount H1) as [Hlo Hhi].
    assert (H8 : Z.log2_up colorCount <= 8).
    { apply Z.log2_up_le_pow2; [lia|]. change (2 ^ 8) with 256. lia. }
    assert (H2 : 2 <= Z.log2_up colorCount).
    { destruct (Z_lt_ge_dec (Z.log2_up colorCount) 2) as [Hlt|]; [|lia].
      assert (2 ^ Z.log2_up colorCount <= 2 ^ 1)
        by (apply Z.pow_le_mono_r; lia).
      change (2 ^ 1) with 2 in *. lia. }
    rewrite Z.max_r by lia. lia.
Qed.

Lemma wbind_lift {A B} (a : A) (k : A -> W B) w :
  wbind (wlift (Ok a)) k w = k a w.
Proof. reflexivity. Qed.

Lemma wbind_get {B} (k : GifWriter -> W B) w : wbind w_get k w = k w w.
Proof. reflexivity. Qed.

Lemma writeBytes_arr_ok bs : forall w,
  Forall is_byte bs ->
  writeBytes_arr bs w = (Ok tt, w_with_output w (w_output w ++ bs)).
Proof.
  induction bs as [|b bs IH]; intros w H; simpl.
  - unfold wret, w_with_output. rewrite app_nil_r. destruct w; reflexivity.
  - inversion H as [|? ? Hb Hbs]; subst. unfold is_byte in Hb.
    rewrite wbind_writeByte by lia. rewrite IH by assumption.
    unfold w_with_output. simpl. rewrite <- app_assoc. reflexivity.
Qed.

Lemma wbind_writeBytes_arr {B} bs (k : unit -> W B) w :
  Forall is_byte bs ->
  wbind (writeBytes_arr bs) k w = k tt (w_with_output w (w_output w ++ bs)).
Proof.
  intros H. unfold wbind at 1. rewrite writeBytes_arr_ok by assumption.
  reflexivity.
Qed.

Lemma Forall_is_byte_take (n : nat) (l : list Z) :
  Forall is_byte l -> Forall is_byte (firstn n l).
Proof. apply Forall_take. Qed.

Lemma writeDataSubBlocks_loop_ok fuel : forall data offset w,
  Forall is_byte data -> 0 <= offset <= len data ->
  len data - offset <= Z.of_nat fuel ->
  writeDataSubBlocks_loop fuel data offset w
  = (Ok tt, w_with_output w
              (w_output w ++ sub_blocks fuel (skipn (Z.to_nat offset) data))).
Proof.
  induction fuel as [|fuel IH]; intros data offset w Hb Ho Hf;
    cbn [writeDataSubBlocks_loop].
  - replace (offset <? len data) with false
      by (symmetry; apply Z.ltb_ge; lia).
    unfold wret, w_with_output. simpl. rewrite app_nil_r. destruct w; reflexivity.
  - destruct (offset <? len data) eqn:E.
    + apply Z.ltb_lt in E.
      set (n := Z.min 255 (len data - offset)).
      assert (Hn : 1 <= n <= 255) by (unfold n; lia).
      rewrite wbind_writeByte by lia.
      assert (Hl : len (skipn (Z.to_nat offset) data) = len data - offset)
        by (rewrite len_skipn; unfold len in *; lia).
      rewrite map_byte_at_seqZ by (unfold n; lia).
      rewrite wbind_writeBytes_arr
        by (apply Forall_take, Forall_drop; assumption).
      rewrite IH by (try assumption; unfold n; lia).
      rewrite sub_blocks_step by lia. rewrite Hl. fold n.
      replace (Z.to_nat (offset + n)) with (Z.to_nat offset + Z.to_nat n)%nat
        by lia.
      rewrite <- drop_drop. unfold w_with_output. simpl.
      rewrite <- !app_assoc. reflexivity.
    + apply Z.ltb_ge in E.
      rewrite skipn_all2 by (unfold len in *; lia). rewrite sub_blocks_nil.
      unfold wret, w_with_output. rewrite app_nil_r. destruct w; reflexivity.
Qed.

Lemma wbind_ok {A B} (m : W A) (k : A -> W B) w a w' :
  m w = (Ok a, w') -> wbind m k w = k a w'.
Proof. intros H. unfold wbind. rewrite H. reflexivity. Qed.

(** An indexed image the writer accepts: dimensions and palette as
    [validateDimensions] and [validatePalette] ask, one index per pixel,
    every index that of a palette colour. *)
Definition image_ok (image : IndexedImage) : Prop :=
  dimensions_ok (i_width image) (i_height image) /\
  palette_ok (i_palette image) /\
  len (i_data image) = i_width image * i_height image /\
  Forall (fun v => 0 <= v < len (i_palette image) / 3) (i_data image).

Definition le16 (v : Z) : list Z := [Z.land v 0xff; Z.land (Z.shiftr v 8) 0xff].

Lemma write16BitLE_ok v : 0 <= v <= 65535 -> write16BitLE v = Ok (le16 v).
Proof.
  intros Hv. unfold write16BitLE.
  replace ((v <? 0) || (65535 <? v)) with false; [reflexivity|].
  symmetry. apply orb_false_iff. split; apply Z.ltb_ge; lia.
Qed.

Lemma calculateColorTableSize_ok (palette : list Z) :
  palette_ok palette ->
  exists s, calculateColorTableSize (len palette / 3) = Ok s /\
            0 <= s <= 7 /\ len (padColorTable palette s) = 3 * 2 ^ (s + 1).
Proof.
  intros Hok. pose proof Hok as (Hne & Hmod & Hmax).
  pose proof (len_nonneg palette).
  assert (HC : 1 <= len palette / 3 <= 256).
  { pose proof (Z.div_mod (len palette) 3). lia. }
  unfold calculateColorTableSize, MAX_COLORS.
  replace ((len palette / 3 <=? 0) || (256 <? len palette / 3)) with false
    by (symmetry; apply orb_false_iff; split;
        [apply Z.leb_gt|apply Z.ltb_ge]; lia).
  destruct (colorTableSize_loop_fuel 8 0 2 (len palette / 3)) as [s Hs];
    [lia|reflexivity| |].
  { change (2 ^ (0 + Z.of_nat 8 + 1)) with 512. lia. }
  rewrite Hs. exists s. split; [reflexivity|].
  apply padColorTable_len; [exact Hok|].
  unfold calculateColorTableSize, MAX_COLORS.
  replace ((len palette / 3 <=? 0) || (256 <? len palette / 3)) with false
    by (symmetry; apply orb_false_iff; split;
        [apply Z.leb_gt|apply Z.ltb_ge]; lia).
  rewrite Hs. reflexivity.
Qed.

Lemma image_packed_byte (s : Z) :
  0 <= s <= 7 -> 0 <= Z.lor (Z.lor (Z.lor 0x80 0x00) 0x00) s <= 255.
Proof.
  intros Hs.
  assert (H : s = 0 \/ s = 1 \/ s = 2 \/ s = 3 \/ s = 4 \/ s = 5 \/ s = 6
              \/ s = 7) by lia.
  repeat (destruct H as [->|H]; [vm_compute; split; discriminate|]).
  subst s. vm_compute. split; discriminate.
Qed.

Lemma writeImageDescriptor_ok image options w s :
  palette_ok (i_palette image) ->
  dimensions_ok (i_width image) (i_height image) ->
  0 <= default 0 (o_left options) <= 65535 ->
  0 <= default 0 (o_top options) <= 65535 ->
  calculateColorTableSize (len (i_palette image) / 3) = Ok s ->
  0 <= s <= 7 ->
  writeImageDescriptor image options w
  = (Ok tt,
     w_with_output w
       (w_output w ++ [0x2c]
          ++ (le16 (default 0 (o_left options))
                ++ le16 (default 0 (o_top options))
                ++ le16 (i_width image) ++ le16 (i_height image))
          ++ [Z.lor (Z.lor (Z.lor 0x80 0x00) 0x00) s])).
Proof.
  intros Hp [Hw Hh] Hl Ht Hs Hs7. unfold writeImageDescriptor.
  destruct (validatePalette_spec (i_palette image)) as [[_ E]|[Hn _]];
    [|contradiction].
  rewrite E, wbind_lift, Hs, wbind_lift.
  rewrite wbind_writeByte by lia.
  rewrite (write16BitLE_ok _ Hl), wbind_lift. unfold writeBytes_u8.
  rewrite wbind_append.
  rewrite (write16BitLE_ok _ Ht), wbind_lift, wbind_append.
  rewrite write16BitLE_ok by lia. rewrite wbind_lift, wbind_append.
  rewrite write16BitLE_ok by lia. rewrite wbind_lift, wbind_append.
  rewrite writeByte_ok by (apply image_packed_byte; assumption).
  unfold w_append, w_with_output, le16. simpl. rewrite <- !app_assoc.
  reflexivity.
Qed.

Lemma forallb_Forall {A} (f : A -> bool) (P : A -> Prop) (l : list A) :
  (forall x, P x -> f x = true) -> Forall P l -> forallb f l = true.
Proof.
  intros Hf H. induction H as [|x l Hx _ IH]; [reflexivity|].
  simpl. rewrite (Hf x Hx), IH. reflexivity.
Qed.

Lemma image_indices_valid image :
  image_ok image ->
  let k := lzwCodeSizeFor (len (i_palette image) / 3) in
  2 <= k <= 8 /\ i_data image <> [] /\ Forall (valid_byte k) (i_data image) /\
  forallb (fun v => v <=? len (i_palette image) / 3 - 1) (i_data image) = true /\
  validateLZWParams (i_data image) k = Ok tt.
Proof.
  intros ([Hw Hh] & (Hne & Hmod & Hmax) & Hlen & Hidx) k.
  pose proof (len_nonneg (i_palette image)).
  assert (HC : 1 <= len (i_palette image) / 3 <= 256).
  { pose proof (Z.div_mod (len (i_palette image)) 3). lia. }
  destruct (lzwCodeSizeFor_range _ HC) as [Hk Hpow]. fold k in Hk, Hpow.
  assert (Hdata : i_data image <> []).
  { intros E. rewrite E in Hlen. change (len []) with 0 in Hlen. nia. }
  assert (Hvalid : Forall (valid_byte k) (i_data image)).
  { eapply Forall_impl; [exact Hidx|]. intros v Hv. unfold valid_byte.
    cbv beta in Hv. rewrite clearCode_pow by lia. lia. }
  split; [exact Hk|]. split; [exact Hdata|]. split; [exact Hvalid|]. split.
  - eapply forallb_Forall; [|exact Hidx]. intros v Hv. cbv beta in Hv.
    apply Z.leb_le. lia.
  - unfold validateLZWParams.
    replace (len (i_data image) =? 0) with false
      by (symmetry; apply Z.eqb_neq; nia).
    replace ((k <? 1) || (8 <? k)) with false
      by (symmetry; apply orb_false_iff; split; apply Z.ltb_ge; lia).
    replace (forallb _ (i_data image)) with true; [reflexivity|].
    symmetry. eapply forallb_Forall; [|exact Hidx]. intros v Hv.
    cbv beta in Hv. apply Z.leb_le. rewrite Z.shiftl_mul_pow2 by lia. lia.
Qed.

Lemma writeImageData_ok image w :
  image_ok image ->
  let k := lzwCodeSizeFor (len (i_palette image) / 3) in
  exists c,
    compressLZW (i_data image) k = Ok c /\
    decompressLZW c k = Ok (i_data image) /\
    writeImageData image w
    = (Ok tt,
       w_with_output w
         (w_output w ++ [k] ++ sub_blocks (length c) c ++ [0x00])).
Proof.
  intros Hok k.
  destruct (image_indices_valid image Hok) as (Hk & Hne & Hvalid & Hfa & Hv).
  fold k in Hk, Hvalid, Hv.
  destruct (compressLZW_bytes k (i_data image) Hk Hne Hvalid)
    as (c & Hc & Hbytes & Hd).
  exists c. split; [exact Hc|]. split; [exact Hd|].
  unfold writeImageData. destruct Hok as (_ & _ & Hlen & _).
  replace (len (i_data image) =? i_width image * i_height image) with true
    by (symmetry; apply Z.eqb_eq; exact Hlen).
  cbn [negb]. rewrite Hfa. cbn [negb]. fold k.
  rewrite Hv, wbind_lift, Hc, wbind_lift.
  rewrite wbind_writeByte by lia.
  unfold writeDataSubBlocks. unfold wbind at 1.
  rewrite (writeDataSubBlocks_loop_ok (length c) c 0 _ Hbytes)
    by (pose proof (len_nonneg c); unfold len in *; lia).
  rewrite writeByte_ok by lia.
  unfold w_append, w_with_output. simpl. rewrite drop_0, <- !app_assoc.
  reflexivity.
Qed.

(** The graphics control extension [writeGraphicsControl] writes. *)
Definition gce_packed (options : ImageOptions) : Z :=
  let transparentIndex := default (-1) (o_transparentIndex options) in
  Z.lor (Z.shiftl (Z.land (disposal_value
                             (default RestoreToBackground (o_disposal options)))
                          0x07) 2)
        (if (0 <=? transparentIndex) && (transparentIndex <=? 255)
         then 0x01 else 0x00).

Definition gce_transparent (options : ImageOptions) : Z :=
  let transparentIndex := default (-1) (o_transparentIndex options) in
  if (0 <=? transparentIndex) && (transparentIndex <=? 255)
  then Z.land transparentIndex 0xff else 0.

Definition gce_bytes (options : ImageOptions) : list Z :=
  graphics_control (gce_packed options)
    (msToGifDelay (default 0 (o_delay options))) (gce_transparent options).

Lemma writeGraphicsControl_ok options w :
  msToGifDelay (default 0 (o_delay options)) <= 65535 ->
  writeGraphicsControl options w
  = (Ok tt, w_with_output w (w_output w ++ gce_bytes options)).
Proof.
  intros Hr. set (v := msToGifDelay (default 0 (o_delay options))) in *.
  pose proof (msToGifDelay_nonneg (default 0 (o_delay options))) as Hv.
  fold v in Hv. unfold writeGraphicsControl, gce_bytes. fold v.
  fold (gce_packed options). fold (gce_transparent options).
  assert (Hp : 0 <= gce_packed options <= 255)
    by apply graphics_control_packed_byte.
  assert (Hti : 0 <= gce_transparent options <= 255).
  { unfold gce_transparent. cbv zeta. destruct (_ && _); [|lia].
    rewrite land_255.
    pose proof (Z.mod_pos_bound (default (-1) (o_transparentIndex options)) 256).
    lia. }
  cbn [writeBytes_arr]. rewrite !wbind_assoc.
  rewrite wbind_writeByte by lia. rewrite wbind_assoc.
  rewrite wbind_writeByte by lia. rewrite wbind_assoc.
  rewrite wbind_writeByte by lia. rewrite wbind_ret.
  rewrite wbind_writeByte by lia.
  rewrite write16BitLE_ok by lia. rewrite wbind_lift.
  unfold writeBytes_u8. rewrite wbind_append.
  rewrite wbind_writeByte by assumption. rewrite writeByte_ok by lia.
  unfold w_append, w_with_output, graphics_control, le16.
  cbn [w_output hasWrittenHeader hasWrittenLogicalScreen frameCount].
  rewrite <- !app_assoc. reflexivity.
Qed.

Definition options_ok (options : ImageOptions) : Prop :=
  0 <= default 0 (o_left options) <= 65535 /\
  0 <= default 0 (o_top options) <= 65535 /\
  msToGifDelay (default 0 (o_delay options)) <= 65535.

(** The bytes [writeImage] writes for a frame. *)
Definition frame_bytes (frameCount : Z) (image : IndexedImage)
    (options : ImageOptions) (s : Z) (c : list Z) : list Z :=
  (if needsGraphicsControl frameCount options then gce_bytes options else [])
  ++ image_record
       (le16 (default 0 (o_left options)) ++ le16 (default 0 (o_top options))
          ++ le16 (i_width image) ++ le16 (i_height image))
       s (padColorTable (i_palette image) s)
       (lzwCodeSizeFor (len (i_palette image) / 3)) c.

Lemma writeImage_ok image options w :
  image_ok image -> options_ok options ->
  hasWrittenLogicalScreen w = true ->
  exists s c,
    calculateColorTableSize (len (i_palette image) / 3) = Ok s /\
    0 <= s <= 7 /\
    len (padColorTable (i_palette image) s) = 3 * 2 ^ (s + 1) /\
    decompressLZW c (lzwCodeSizeFor (len (i_palette image) / 3))
    = Ok (i_data image) /\
    writeImage image options w
    = (Ok tt,
       mkGifWriter (w_output w ++ frame_bytes (frameCount w) image options s c)
         (hasWrittenHeader w) true (frameCount w + 1)).
Proof.
  intros Hok (Hl & Ht & Hd) Hls.
  pose proof Hok as (Hdim & Hpal & Hlen & Hidx).
  destruct (calculateColorTableSize_ok _ Hpal) as (s & Hs & Hs7 & Hpad).
  unfold writeImage. rewrite wbind_get, Hls. cbn [negb].
  destruct (validateDimensions_spec (i_width image) (i_height image))
    as [[_ E]|[Hn _]]; [|contradiction].
  rewrite E, wbind_lift.
  destruct (validatePalette_spec (i_palette image)) as [[_ E2]|[Hn _]];
    [|contradiction].
  rewrite E2, wbind_lift.
  fold (needsGraphicsControl (frameCount w) options).
  set (gce := if needsGraphicsControl (frameCount w) options
              then gce_bytes options else []).
  assert (Hgce : (if needsGraphicsControl (frameCount w) options
                  then writeGraphicsControl options else wret tt) w
                 = (Ok tt, w_with_output w (w_output w ++ gce))).
  { unfold gce. destruct (needsGraphicsControl (frameCount w) options).
    - apply writeGraphicsControl_ok. exact Hd.
    - unfold wret, w_with_output. rewrite app_nil_r. destruct w; reflexivity. }
  rewrite (wbind_ok _ _ _ _ _ Hgce).
  rewrite (wbind_ok _ _ _ _ _
             (writeImageDescriptor_ok image options _ s Hpal Hdim Hl Ht Hs Hs7)).
  rewrite Hs, wbind_lift. unfold writeBytes_u8. rewrite wbind_append.
  cbv beta.
  match goal with
  | |- context [wbind (writeImageData image) _ ?w1] =>
      destruct (writeImageData_ok image w1 Hok) as (c & Hc & Hdec & Hw)
  end.
  rewrite (wbind_ok _ _ _ _ _ Hw). exists s, c.
  split; [reflexivity|]. split; [exact Hs7|]. split; [exact Hpad|].
  split; [exact Hdec|].
  unfold incr_frameCount, w_with_output, frame_bytes, image_record. fold gce.
  cbn [w_output hasWrittenHeader hasWrittenLogicalScreen frameCount].
  rewrite Hls. rewrite <- !app_assoc. reflexivity.
Qed.

(** Global options the writer accepts: no colours, or a valid palette. *)
Definition global_ok (options : GlobalColorTableOptions) : Prop :=
  match g_colors options with
  | Some colors => len colors = 0 \/ palette_ok colors
  | None => True
  end.

Lemma screen_packed_byte (flag sorted : bool) (s : Z) :
  0 <= s <= 7 ->
  0 <= Z.lor (Z.lor (Z.lor (if flag then 0x80 else 0x00) 0x70)
                (if sorted then 0x08 else 0x00)) s <= 255.
Proof.
  intros Hs.
  assert (H : s = 0 \/ s = 1 \/ s = 2 \/ s = 3 \/ s = 4 \/ s = 5 \/ s = 6
              \/ s = 7) by lia.
  destruct flag, sorted;
    repeat (destruct H as [->|H]; [vm_compute; split; discriminate|]);
    subst s; vm_compute; split; discriminate.
Qed.

Lemma land_ff_byte (x : Z) : 0 <= Z.land x 0xff <= 255.
Proof. rewrite land_255. pose proof (Z.mod_pos_bound x 256). lia. Qed.

Lemma writeLogicalScreen_ok width height options w :
  dimensions_ok width height -> global_ok options ->
  hasWrittenHeader w = true -> hasWrittenLogicalScreen w = false ->
  exists packed gct,
    writeLogicalScreen width height options w
    = (Ok tt,
       mkGifWriter
         (w_output w ++ le16 width ++ le16 height
            ++ [packed; Z.land (default 0 (g_backgroundColorIndex options)) 0xff;
                Z.land (default 0 (g_pixelAspectRatio options)) 0xff]
            ++ gct)
         true true (frameCount w)) /\
    (((Z.land packed 0x80 =? 0) = true /\ gct = []) \/
     ((Z.land packed 0x80 =? 0) = false /\
      len gct = Z.shiftl 2 (Z.land packed 0x07) * 3)).
Proof.
  intros [Hw Hh] Hg Hhdr Hls. unfold writeLogicalScreen.
  rewrite wbind_get, Hhdr, Hls. cbn [negb].
  destruct (validateDimensions_spec width height) as [[_ E]|[Hn _]];
    [|exfalso; apply Hn; split; assumption].
  rewrite E, wbind_lift.
  assert (Htable : exists flag size table,
    match g_colors options with
    | Some colors =>
        if 0 <? len colors then
          wlift (validatePalette colors) ;;*
          let* size := wlift (calculateColorTableSize (len colors / 3)) in
          wret (true, size, Some (padColorTable colors size))
        else wret (false, 0, None)
    | None => wret (false, 0, None)
    end w = (Ok (flag, size, table), w) /\
    0 <= size <= 7 /\
    ((flag = false /\ table = None) \/
     (flag = true /\ exists t, table = Some t /\ len t = 3 * 2 ^ (size + 1)))).
  { unfold global_ok in Hg. destruct (g_colors options) as [colors|].
    - destruct (0 <? len colors) eqn:E0.
      + apply Z.ltb_lt in E0. destruct Hg as [Hz|Hp]; [lia|].
        destruct (validatePalette_spec colors) as [[_ E1]|[Hn _]];
          [|contradiction].
        destruct (calculateColorTableSize_ok _ Hp) as (s & Hs & Hs7 & Hpad).
        rewrite E1, wbind_lift, Hs, wbind_lift.
        do 3 eexists. split; [reflexivity|]. split; [exact Hs7|].
        right. eauto.
      + do 3 eexists. split; [reflexivity|]. split; [lia|]. left. auto.
    - do 3 eexists. split; [reflexivity|]. split; [lia|]. left. auto. }
  destruct Htable as (flag & size & table & Ht & Hsize & Htab).
  rewrite (wbind_ok _ _ _ _ _ Ht). cbv beta iota.
  rewrite write16BitLE_ok by lia. rewrite wbind_lift.
  unfold writeBytes_u8. rewrite wbind_append.
  rewrite write16BitLE_ok by lia. rewrite wbind_lift, wbind_append.
  destruct (screen_packed_fields flag (default false (g_sorted options)) size
              Hsize) as [Hp1 Hp2].
  rewrite wbind_writeByte by (apply screen_packed_byte; exact Hsize).
  rewrite wbind_writeByte by apply land_ff_byte.
  rewrite wbind_writeByte by apply land_ff_byte.
  destruct Htab as [[-> ->]|[-> (t & -> & Hl)]].
  - rewrite wbind_ret. do 2 eexists. split.
    + unfold set_hasWrittenLogicalScreen, w_with_output.
      cbn [w_output hasWrittenHeader hasWrittenLogicalScreen frameCount].
      rewrite Hhdr. rewrite <- !app_assoc. cbn [app].
      instantiate (1 := []). reflexivity.
    + left. rewrite Hp1. auto.
  - rewrite wbind_append. do 2 eexists. split.
    + unfold set_hasWrittenLogicalScreen, w_with_output.
      cbn [w_output hasWrittenHeader hasWrittenLogicalScreen frameCount].
      rewrite Hhdr. rewrite <- !app_assoc. cbn [app]. reflexivity.
    + right. rewrite Hp1, Hp2. split; [reflexivity|].
      rewrite shiftl_2_size by lia. exact Hl.
Qed.

(** ** reader.ts: compositing a full frame *)

(** The RGBA pixel of a colour index. *)
Definition rgba_of (colorTable : list Z) (v : Z) : list Z :=
  [byte_at colorTable (v * 3); byte_at colorTable (v * 3 + 1);
   byte_at colorTable (v * 3 + 2); 255].

Lemma set_at_app (A B : list Z) (i v x : Z) :
  len A = i -> set_at (A ++ x :: B) i v = A ++ v :: B.
Proof.
  intros Hi. unfold set_at. pose proof (len_nonneg A).
  replace (i <? 0) with false by (symmetry; apply Z.ltb_ge; lia).
  replace (Z.to_nat i) with (length A + 0)%nat by (unfold len in *; lia).
  rewrite insert_app_r. reflexivity.
Qed.

Lemma set_rgba_app (A B : list Z) (i r g b a b0 b1 b2 b3 : Z) :
  len A = i ->
  set_rgba (A ++ b0 :: b1 :: b2 :: b3 :: B) i r g b a
  = A ++ r :: g :: b :: a :: B.
Proof.
  intros Hi. unfold set_rgba.
  rewrite (set_at_app A _ i r b0 Hi).
  replace (A ++ r :: b1 :: b2 :: b3 :: B)
    with ((A ++ [r]) ++ b1 :: b2 :: b3 :: B)
    by (rewrite <- app_assoc; reflexivity).
  rewrite (set_at_app (A ++ [r]) _ (i + 1) g b1)
    by (rewrite len_app; change (len [r]) with 1; lia).
  replace ((A ++ [r]) ++ g :: b2 :: b3 :: B)
    with ((A ++ [r; g]) ++ b2 :: b3 :: B)
    by (rewrite <- !app_assoc; reflexivity).
  rewrite (set_at_app (A ++ [r; g]) _ (i + 2) b b2)
    by (rewrite len_app; change (len [r; g]) with 2; lia).
  replace ((A ++ [r; g]) ++ b :: b3 :: B)
    with ((A ++ [r; g; b]) ++ b3 :: B)
    by (rewrite <- !app_assoc; reflexivity).
  rewrite (set_at_app (A ++ [r; g; b]) _ (i + 3) a b3)
    by (rewrite len_app; change (len [r; g; b]) with 3; lia).
  rewrite <- !app_assoc. reflexivity.
Qed.

Lemma seqZ_step (i : Z) (m : nat) :
  seqZ i (Z.of_nat (S m)) = i :: seqZ (i + 1) (Z.of_nat m).
Proof.
  rewrite seqZ_cons by lia. f_equal. f_equal; lia.
Qed.

Section Composite.
Variables (data colorTable : list Z) (width height transparentIndex : Z).
Hypothesis Hwidth : 0 < width.
Hypothesis Hdata : len data = width * height.
Hypothesis Hindex :
  Forall (fun v => 0 <= v /\ v * 3 + 2 < len colorTable
                   /\ v <> transparentIndex) data.

Let step : list Z -> Z -> list Z :=
  fun canvas i =>
    let colorIndex := byte_at data i in
    if colorIndex =? transparentIndex then canvas
    else
      let frameX := i mod width in
      let frameY := i / width in
      let actualY := if false then deinterlaceY frameY height else frameY in
      let canvasX := 0 + frameX in
      let canvasY := 0 + actualY in
      if (0 <=? canvasX) && (canvasX <? width)
         && (0 <=? canvasY) && (canvasY <? height) then
        let canvasIndex := (canvasY * width + canvasX) * 4 in
        if canvasIndex <? len canvas then
          match Some colorTable with
          | Some ct =>
              if colorIndex * 3 + 2 <? len ct
              then set_rgba canvas canvasIndex (byte_at ct (colorIndex * 3))
                     (byte_at ct (colorIndex * 3 + 1))
                     (byte_at ct (colorIndex * 3 + 2)) 255
              else set_rgba canvas canvasIndex 0 0 0 255
          | None => set_rgba canvas canvasIndex 0 0 0 255
          end
        else canvas
      else canvas.

Lemma byte_at_Forall (P : Z -> Prop) (l : list Z) (i : Z) :
  Forall P l -> 0 <= i < len l -> P (byte_at l i).
Proof.
  intros H Hi. unfold byte_at.
  destruct (nth_lookup_or_length l (Z.to_nat i) 0) as [E|E];
    [|unfold len in Hi; lia].
  exact (Forall_lookup_1 _ _ _ _ H E).
Qed.

Lemma composite_loop (m : nat) : forall (i : Z) (A B : list Z),
  0 <= i -> len A = 4 * i -> len B = 4 * Z.of_nat m ->
  i + Z.of_nat m <= width * height ->
  foldl step (A ++ B) (seqZ i (Z.of_nat m))
  = A ++ flat_map (rgba_of colorTable)
           (firstn m (skipn (Z.to_nat i) data)).
Proof.
  induction m as [|m IH]; intros i A B Hi HA HB Hm.
  - destruct B; [|unfold len in HB; simpl in HB; lia].
    simpl. reflexivity.
  - destruct B as [|b0 [|b1 [|b2 [|b3 B]]]];
      try (unfold len in HB; simpl in HB; lia).
    rewrite seqZ_step. cbn [foldl].
    assert (Hlt : 0 <= i < len data) by lia.
    pose proof (byte_at_Forall _ _ _ Hindex Hlt) as (Hv0 & Hvct & Hvt).
    cbv beta in Hv0, Hvct, Hvt.
    assert (Hstep : step (A ++ b0 :: b1 :: b2 :: b3 :: B) i
                    = A ++ rgba_of colorTable (byte_at data i) ++ B).
    { unfold step. cbv zeta.
      replace (byte_at data i =? transparentIndex) with false
        by (symmetry; apply Z.eqb_neq; exact Hvt).
      pose proof (Z.mod_pos_bound i width Hwidth) as Hmod.
      assert (Hdiv : 0 <= i / width < height).
      { split; [apply Z.div_pos; lia|].
        apply Z.div_lt_upper_bound; [lia|]. nia. }
      replace ((0 <=? 0 + i mod width) && (0 + i mod width <? width)
               && (0 <=? 0 + i / width) && (0 + i / width <? height))
        with true.
      2:{ symmetry. rewrite !andb_true_iff, !Z.leb_le, !Z.ltb_lt. lia. }
      assert (Hidx : ((0 + i / width) * width + (0 + i mod width)) * 4 = 4 * i).
      { pose proof (Z.div_mod i width). lia. }
      rewrite Hidx.
      replace (4 * i <? len (A ++ b0 :: b1 :: b2 :: b3 :: B)) with true.
      2:{ symmetry. apply Z.ltb_lt. rewrite len_app, !len_cons.
          pose proof (len_nonneg B). lia. }
      replace (byte_at data i * 3 + 2 <? len colorTable) with true
        by (symmetry; apply Z.ltb_lt; exact Hvct).
      rewrite set_rgba_app by exact HA. reflexivity. }
    rewrite Hstep. rewrite app_assoc.
    rewrite (IH (i + 1) (A ++ rgba_of colorTable (byte_at data i)) B).
    + rewrite <- app_assoc. f_equal.
      rewrite (skipn_byte_at data i Hlt). cbn [firstn flat_map].
      reflexivity.
    + lia.
    + rewrite len_app. change (len (rgba_of colorTable (byte_at data i))) with 4.
      lia.
    + rewrite !len_cons in HB. lia.
    + lia.
Qed.

(** A frame that covers the canvas, with no transparent pixel and every
    index in the colour table, replaces every pixel of the canvas. *)
Lemma compositeFrame_full (canvas : list Z) :
  len canvas = width * height * 4 ->
  compositeFrame canvas data 0 0 width height (Some colorTable)
    transparentIndex false width height
  = flat_map (rgba_of colorTable) data.
Proof.
  intros Hc. unfold compositeFrame. rewrite Hdata, Z.min_id.
  assert (Hh : 0 <= width * height) by (rewrite <- Hdata; apply len_nonneg).
  replace (seqZ 0 (width * height)) with (seqZ 0 (Z.of_nat (length data)))
    by (f_equal; unfold len in Hdata; lia).
  change (foldl step ([] ++ canvas) (seqZ 0 (Z.of_nat (length data)))
          = flat_map (rgba_of colorTable) data).
  rewrite composite_loop.
  - change (Z.to_nat 0) with 0%nat. rewrite drop_0, firstn_all. reflexivity.
  - lia.
  - reflexivity.
  - unfold len in *. lia.
  - unfold len in *. lia.
Qed.

End Composite.

Lemma set_at_length (a : list Z) (i v : Z) : length (set_at a i v) = length a.
Proof.
  unfold set_at. destruct (i <? 0); [reflexivity|]. apply length_insert.
Qed.

Lemma set_rgba_length (canvas : list Z) (i r g b a : Z) :
  length (set_rgba canvas i r g b a) = length canvas.
Proof. unfold set_rgba. rewrite !set_at_length. reflexivity. Qed.

Lemma foldl_length {A} (f : list Z -> A -> list Z) (l : list A) :
  (forall c x, length (f c x) = length c) ->
  forall c, length (foldl f c l) = length c.
Proof.
  intros Hf. induction l as [|x l IH]; intros c; [reflexivity|].
  simpl. rewrite IH. apply Hf.
Qed.

Lemma clearFrameArea_length canvas left top width height gct bg cw :
  length (clearFrameArea canvas left top width height gct bg cw)
  = length canvas.
Proof.
  unfold clearFrameArea.
  destruct (match backgroundColor gct bg with
            | Some (r, g, b) => (r, g, b, 255)
            | None => (0, 0, 0, 0)
            end) as [[[bgR bgG] bgB] bgA].
  apply foldl_length. intros c y. apply foldl_length. intros c' x.
  cbv zeta. destruct (_ && _); [|reflexivity].
  destruct (_ <? _); [apply set_rgba_length|reflexivity].
Qed.

Lemma initialCanvas_length width height gct bg :
  0 <= width * height ->
  len (initialCanvas width height gct bg) = width * height * 4.
Proof.
  intros H. unfold initialCanvas, len.
  destruct (backgroundColor gct bg) as [[[r g] b]|].
  - assert (E : forall n, length (concat (repeat [r; g; b; 255] n)) = (4 * n)%nat).
    { induction n as [|n IH]; [reflexivity|]. simpl. rewrite IH. lia. }
    rewrite E. lia.
  - rewrite repeat_length. lia.
Qed.

(** ** Writing a frame and reading it back *)

Lemma step_graphics_control_exact sc st packed v transparentIndex tail :
  at_pos (sc_data sc) (fs_position st)
    (graphics_control packed v transparentIndex ++ tail) ->
  0 <= v <= 65535 ->
  exists p,
    getFrames_step sc st
    = Ok (Continue
            (mkFramesState p (fs_canvas st) (fs_previousCanvas st) (v * 10)
               (disposalOfFlag (Z.shiftr (Z.land packed 0x1c) 2))
               (if Z.land packed 0x01 =? 0 then -1 else transparentIndex)
               (fs_frames st))) /\
    at_pos (sc_data sc) p tail.
Proof.
  intros H Hv. unfold getFrames_step, graphics_control in *.
  cbn [app] in H. rewrite (at_pos_in_range _ _ _ _ H).
  read_byte H. change (0x21 =? 0x21) with true. cbv iota.
  read_byte H. change (0xf9 =? 0xff) with false.
  change (0xf9 =? 0xf9) with true. cbv iota.
  unfold readGraphicsControl.
  read_byte H. change (0x04 =? 4) with true. cbv iota.
  read_byte H. read_16 H. read_byte H. read_byte H.
  rewrite le16_read_back by assumption.
  eexists. split; [reflexivity|exact H].
Qed.

Lemma step_image_exact sc st left top width height s table codeSize
    compressed tail :
  at_pos (sc_data sc) (fs_position st)
    (image_record (le16 left ++ le16 top ++ le16 width ++ le16 height)
       s table codeSize compressed ++ tail) ->
  0 <= left <= 65535 -> 0 <= top <= 65535 ->
  0 <= width <= 65535 -> 0 <= height <= 65535 ->
  0 <= s <= 7 -> len table = 3 * 2 ^ (s + 1) ->
  exists p,
    getFrames_step sc st
    = (let! st' := processImage sc st p left top width height (Some table)
                     false codeSize compressed in
       Ok (Continue st')) /\
    at_pos (sc_data sc) p tail.
Proof.
  intros H Hl Ht Hw Hh Hs Htab. unfold getFrames_step, image_record, le16 in *.
  destruct (image_packed_fields s Hs) as (Hflag & Hint & Hsize).
  set (packed := Z.lor (Z.lor (Z.lor 0x80 0x00) 0x00) s) in *.
  rewrite <- !app_assoc in H. cbn [app] in H.
  rewrite (at_pos_in_range _ _ _ _ H).
  read_byte H. change (0x2c =? 0x21) with false.
  change (0x2c =? 0x2c) with true. cbv iota.
  unfold readImage.
  read_16 H. read_16 H. read_16 H. read_16 H. read_byte H.
  rewrite !le16_read_back by assumption.
  rewrite Hflag, Hint, Hsize. cbn [negb].
  rewrite shiftl_2_size by lia. rewrite <- Htab.
  pose proof (at_pos_readBytes _ _ _ _ H) as [E H1]. rewrite E. clear E H.
  cbn [rbind].
  read_byte H1.
  destruct (at_pos_readDataSubBlocks compressed _ _ tail H1) as (p' & E & H2).
  rewrite E. cbn [rbind]. exists p'. split; [reflexivity|exact H2].
Qed.

Lemma byte_at_padColorTable palette s i :
  0 <= i < len palette -> byte_at (padColorTable palette s) i = byte_at palette i.
Proof.
  intros Hi. unfold padColorTable.
  destruct (_ <=? _); [reflexivity|].
  unfold byte_at, len in *. apply app_nth1. lia.
Qed.

Lemma gce_no_transparency options :
  o_transparentIndex options = None ->
  Z.land (gce_packed options) 0x01 = 0.
Proof.
  intros H. unfold gce_packed. rewrite H. cbn [default].
  change ((0 <=? -1) && (-1 <=? 255)) with false. cbv iota.
  destruct (default RestoreToBackground (o_disposal options)); reflexivity.
Qed.

(** The canvas a first frame is drawn on has the size of the screen. *)
Lemma disposed_canvas_length (canvas : list Z) (disposal : DisposalMethod)
    left top width height gct bg cw :
  length (if bool_decide (disposal = RestoreToBackground)
          then clearFrameArea canvas left top width height gct bg cw
          else canvas) = length canvas.
Proof.
  destruct (bool_decide _); [apply clearFrameArea_length|reflexivity].
Qed.

Lemma processImage_first_frame sc st p width height table k c data :
  fs_previousCanvas st = None ->
  sc_width sc = width -> sc_height sc = height ->
  0 < width -> len (fs_canvas st) = width * height * 4 ->
  len data = width * height ->
  Forall (fun v => 0 <= v /\ v * 3 + 2 < len table
                   /\ v <> fs_currentTransparentIndex st) data ->
  decompressLZW c k = Ok data ->
  exists st',
    processImage sc st p 0 0 width height (Some table) false k c = Ok st' /\
    fs_position st' = p /\
    fs_frames st'
    = fs_frames st
        ++ [mkGifFrame
              (mkImageData (flat_map (rgba_of table) data) width height)
              (fs_currentDelay st) (fs_currentDisposal st) 0 0
              (fs_currentTransparentIndex st)].
Proof.
  intros Hprev Hw Hh Hpos Hc Hd Hidx Hdec. unfold processImage.
  rewrite Hprev, Hdec, Hw, Hh.
  rewrite (compositeFrame_full data table width height
             (fs_currentTransparentIndex st) Hpos Hd Hidx).
  - eexists. split; [reflexivity|]. split; reflexivity.
  - unfold len in *. rewrite disposed_canvas_length. exact Hc.
Qed.

Lemma writeHeader_fresh :
  writeHeader newGifWriter
  = (Ok tt, mkGifWriter [0x47; 0x49; 0x46; 0x38; 0x39; 0x61] true false 0).
Proof. reflexivity. Qed.

(** The bytes of a static encode of a valid image. *)
Lemma encodeStatic_ok image globalOptions options :
  image_ok image -> global_ok globalOptions -> options_ok options ->
  exists packed gct s c,
    encodeStatic image globalOptions options
    = Ok ([0x47; 0x49; 0x46; 0x38; 0x39; 0x61]
            ++ le16 (i_width image) ++ le16 (i_height image)
            ++ [packed;
                Z.land (default 0 (g_backgroundColorIndex globalOptions)) 0xff;
                Z.land (default 0 (g_pixelAspectRatio globalOptions)) 0xff]
            ++ gct ++ frame_bytes 0 image options s c ++ [0x3b]) /\
    (((Z.land packed 0x80 =? 0) = true /\ gct = []) \/
     ((Z.land packed 0x80 =? 0) = false /\
      len gct = Z.shiftl 2 (Z.land packed 0x07) * 3)) /\
    0 <= s <= 7 /\
    len (padColorTable (i_palette image) s) = 3 * 2 ^ (s + 1) /\
    decompressLZW c (lzwCodeSizeFor (len (i_palette image) / 3))
    = Ok (i_data image).
Proof.
  intros Hok Hg Ho. pose proof Hok as (Hdim & _).
  destruct (writeLogicalScreen_ok (i_width image) (i_height image)
              globalOptions
              (mkGifWriter [0x47; 0x49; 0x46; 0x38; 0x39; 0x61] true false 0)
              Hdim Hg eq_refl eq_refl) as (packed & gct & Hls & Hgct).
  match type of Hls with
  | _ = (_, ?w2) =>
      destruct (writeImage_ok image options w2 Hok Ho eq_refl)
        as (s & c & Hs & Hs7 & Hpad & Hdec & Hwi)
  end.
  exists packed, gct, s, c. split; [|auto].
  unfold encodeStatic, writeStaticGif.
  rewrite (wbind_ok _ _ _ _ _ writeHeader_fresh).
  rewrite (wbind_ok _ _ _ _ _ Hls).
  rewrite (wbind_ok _ _ _ _ _ Hwi).
  unfold writeTrailer, GIF_TRAILER. rewrite writeByte_ok by lia.
  unfold w_append. cbn [w_output frameCount rbind].
  rewrite <- !app_assoc. reflexivity.
Qed.

(** A valid image, written and read back. *)
Lemma encode_decode_static (image : IndexedImage)
    (globalOptions : GlobalColorTableOptions) (options : ImageOptions) :
  image_ok image -> global_ok globalOptions ->
  default 0 (o_left options) = 0 -> default 0 (o_top options) = 0 ->
  o_transparentIndex options = None ->
  msToGifDelay (default 0 (o_delay options)) <= 65535 ->
  exists bytes frame,
    encodeStatic image globalOptions options = Ok bytes /\
    getFrames bytes = Ok [frame] /\
    f_imageData frame
    = mkImageData (flat_map (rgba_of (i_palette image)) (i_data image))
        (i_width image) (i_height image) /\
    f_delay frame = decoded_delay 0 options.
Proof.
  intros Hok Hg Hleft Htop Hti Hdelay.
  assert (Ho : options_ok options) by (unfold options_ok; lia).
  destruct (encodeStatic_ok image globalOptions options Hok Hg Ho)
    as (packed & gct & s & c & Henc & Hgct & Hs7 & Hpad & Hdec).
  pose proof Hok as ([Hw Hh] & (Hne & Hmod & Hmax) & Hlen & Hidx).
  set (width := i_width image) in *. set (height := i_height image) in *.
  set (bg := Z.land (default 0 (g_backgroundColorIndex globalOptions)) 0xff) in *.
  set (par := Z.land (default 0 (g_pixelAspectRatio globalOptions)) 0xff) in *.
  set (table := padColorTable (i_palette image) s) in *.
  set (k := lzwCodeSizeFor (len (i_palette image) / 3)) in *.
  set (frame := frame_bytes 0 image options s c) in *.
  set (data := [0x47; 0x49; 0x46; 0x38; 0x39; 0x61]
                 ++ le16 width ++ le16 height ++ [packed; bg; par] ++ gct
                 ++ frame ++ [0x3b]) in *.
  (* the frame the reader builds *)
  assert (Htable_idx : forall ti, ti < 0 ->
            Forall (fun v => 0 <= v /\ v * 3 + 2 < len table /\ v <> ti)
                   (i_data image)).
  { intros ti Hneg. eapply Forall_impl; [exact Hidx|]. intros v Hv.
    cbv beta in Hv. rewrite Hpad.
    assert (len (i_palette image) <= 3 * 2 ^ (s + 1)).
    { rewrite <- Hpad. unfold table, padColorTable.
      destruct (_ <=? _); [lia|]. rewrite len_app.
      pose proof (len_nonneg (repeat 0 (Z.to_nat (Z.shiftl 1 (s + 1) * 3)
                                        - length (i_palette image)))). lia. }
    pose proof (Z.div_mod (len (i_palette image)) 3). lia. }
  assert (Hrgba : flat_map (rgba_of table) (i_data image)
                  = flat_map (rgba_of (i_palette image)) (i_data image)).
  { clear -Hidx Hmod. induction Hidx as [|v l Hv _ IH]; [reflexivity|].
    cbn [flat_map]. rewrite IH. f_equal. unfold rgba_of, table.
    pose proof (Z.div_mod (len (i_palette image)) 3).
    rewrite !byte_at_padColorTable by lia. reflexivity. }
  exists data, (mkGifFrame
                  (mkImageData (flat_map (rgba_of table) (i_data image))
                     width height)
                  (decoded_delay 0 options)
                  (if needsGraphicsControl 0 options
                   then disposalOfFlag
                          (Z.shiftr (Z.land (gce_packed options) 0x1c) 2)
                   else DoNotDispose)
                  0 0 (-1)).
  split; [exact Henc|]. split; [|split; [rewrite Hrgba; reflexivity|reflexivity]].
  (* reading *)
  pose proof (at_pos_start [0x47; 0x49; 0x46; 0x38; 0x39; 0x61]
                (le16 width ++ le16 height ++ [packed; bg; par] ++ gct
                   ++ frame ++ [0x3b])) as H.
  fold data in H. change (len [0x47; 0x49; 0x46; 0x38; 0x39; 0x61]) with 6 in H.
  unfold getFrames. unfold data at 1. rewrite validateHeader_gif89a.
  fold data. cbn [rbind]. unfold le16 in H. cbn [app] in H.
  read_16 H. read_16 H. read_byte H. read_byte H. read_byte H.
  rewrite !le16_read_back by lia.
  assert (Htable : exists gtable p,
    (if negb (Z.land packed 0x80 =? 0)
     then let! (t, p) := readBytes data (6 + 2 + 2 + 1 + 1 + 1)
                           (Z.shiftl 2 (Z.land packed 0x07) * 3) in
          Ok (Some t, p)
     else Ok (None, 6 + 2 + 2 + 1 + 1 + 1)) = Ok (gtable, p) /\
    at_pos data p (frame ++ [0x3b])).
  { destruct Hgct as [[-> ->]|[-> Hl]]; cbn [negb].
    - do 2 eexists. split; [reflexivity|exact H].
    - rewrite <- Hl. apply at_pos_readBytes in H as [E H]. rewrite E.
      cbn [rbind]. do 2 eexists. split; [reflexivity|exact H]. }
  destruct Htable as (gtable & p & -> & Hp). cbn [rbind]. clear H.
  set (sc := mkScreen data width height gtable bg).
  set (st0 := mkFramesState p (initialCanvas width height gtable bg) None 100
                DoNotDispose (-1) []).
  change data with (sc_data sc) in Hp.
  change p with (fs_position st0) in Hp.
  assert (Hcanvas : len (initialCanvas width height gtable bg)
                    = width * height * 4)
    by (apply initialCanvas_length; nia).
  (* the optional graphics control extension *)
  assert (Hgce : exists st1 e,
    (e <= 1)%nat /\
    (forall fuel, while_loop (e + fuel) (getFrames_step sc) st0
                  = while_loop fuel (getFrames_step sc) st1) /\
    fs_previousCanvas st1 = None /\ fs_canvas st1 = fs_canvas st0 /\
    fs_frames st1 = [] /\ fs_currentTransparentIndex st1 = -1 /\
    fs_currentDelay st1 = decoded_delay 0 options /\
    fs_currentDisposal st1
    = (if needsGraphicsControl 0 options
       then disposalOfFlag (Z.shiftr (Z.land (gce_packed options) 0x1c) 2)
       else DoNotDispose) /\
    at_pos (sc_data sc) (fs_position st1)
      (image_record (le16 0 ++ le16 0 ++ le16 width ++ le16 height) s table k c
         ++ [0x3b])).
  { unfold frame, frame_bytes, decoded_delay in *.
    rewrite Hleft, Htop in Hp. fold width height table k in Hp.
    destruct (needsGraphicsControl 0 options).
    - rewrite <- app_assoc in Hp. unfold gce_bytes in Hp.
      pose proof (msToGifDelay_nonneg (default 0 (o_delay options))) as Hv0.
      destruct (step_graphics_control_exact sc st0 _ _ _ _ Hp
                  (conj Hv0 Hdelay)) as (p1 & E & H1).
      eexists. exists 1%nat. split; [lia|]. split.
      { intros fuel. apply while_loop_continue. exact E. }
      cbn [fs_previousCanvas fs_canvas fs_frames fs_currentTransparentIndex
           fs_currentDelay fs_currentDisposal fs_position].
      rewrite (gce_no_transparency options Hti). auto 10.
    - rewrite app_nil_l in Hp. exists st0, 0%nat. split; [lia|].
      split; [reflexivity|]. auto 10. }
  destruct Hgce as (st1 & e & He & E1 & Hprev & Hcan & Hfr & Hti1 & Hd1 & Hdisp
                    & H1).
  assert (H0 : 0 <= 0 <= 65535) by lia.
  destruct (step_image_exact sc st1 0 0 width height s table k c [0x3b] H1
              H0 H0) as (p2 & E2 & H2); try lia.
  destruct (processImage_first_frame sc st1 p2 width height table k c
              (i_data image) Hprev eq_refl eq_refl) as (st2 & Ep & Hp2 & Hf2).
  { lia. }
  { rewrite Hcan. exact Hcanvas. }
  { exact Hlen. }
  { rewrite Hti1. apply Htable_idx. lia. }
  { exact Hdec. }
  rewrite Ep in E2. cbn [rbind] in E2.
  rewrite <- Hp2 in H2.
  assert (Hlen_data : (3 <= length data)%nat) by (unfold data; simpl; lia).
  replace (S (length data)) with (e + S (S (length data - e - 1)))%nat by lia.
  rewrite E1. rewrite (while_loop_continue _ _ _ _ E2).
  rewrite (while_loop_break _ _ _ _ (step_trailer sc st2 H2)).
  cbn [rbind with_position fs_frames]. rewrite Hf2, Hfr, Hd1, Hdisp, Hti1.
  reflexivity.
Qed.

(** X6. A valid indexed image written by [writeStaticGif] (any valid global
    options; any delay that fits and any disposal; no offset and no
    transparent index) is read back by [getFrames] as exactly one frame
    whose canvas has the image's width and height and holds, pixel by
    pixel, the palette colour of the pixel's index with alpha 255. *)
Theorem static_gif_round_trip (image : IndexedImage)
    (globalOptions : GlobalColorTableOptions) (options : ImageOptions) :
  image_ok image -> global_ok globalOptions ->
  default 0 (o_left options) = 0 -> default 0 (o_top options) = 0 ->
  o_transparentIndex options = None ->
  msToGifDelay (default 0 (o_delay options)) <= 65535 ->
  exists bytes frame,
    encodeStatic image globalOptions options = Ok bytes /\
    getFrames bytes = Ok [frame] /\
    f_imageData frame
    = mkImageData (flat_map (rgba_of (i_palette image)) (i_data image))
        (i_width image) (i_height image) /\
    f_delay frame = decoded_delay 0 options.
Proof. exact (encode_decode_static image globalOptions options). Qed.

Lemma static_gif_round_trip_witness :
  exists bytes frame,
    encodeStatic (mkIndexedImage 2 1 [0; 1] [255; 0; 0; 0; 0; 255])
      (mkGlobalOptions (Some [9; 9; 9]) None None None)
      (mkImageOptions None None (Some 50) None None) = Ok bytes /\
    getFrames bytes = Ok [frame] /\
    f_imageData frame
    = mkImageData
        (flat_map (rgba_of (i_palette
                              (mkIndexedImage 2 1 [0; 1] [255; 0; 0; 0; 0; 255])))
           (i_data (mkIndexedImage 2 1 [0; 1] [255; 0; 0; 0; 0; 255])))
        (i_width (mkIndexedImage 2 1 [0; 1] [255; 0; 0; 0; 0; 255]))
        (i_height (mkIndexedImage 2 1 [0; 1] [255; 0; 0; 0; 0; 255])) /\
    f_delay frame
    = decoded_delay 0 (mkImageOptions None None (Some 50) None None).
Proof.
  apply (static_gif_round_trip
           (mkIndexedImage 2 1 [0; 1] [255; 0; 0; 0; 0; 255])
           (mkGlobalOptions (Some [9; 9; 9]) None None None)
           (mkImageOptions None None (Some 50) None None)).
  - unfold image_ok, dimensions_ok, palette_ok. simpl.
    split; [lia|]. split; [vm_compute; repeat split; discriminate|].
    split; [reflexivity|]. repeat constructor; vm_compute; discriminate.
  - right. vm_compute. repeat split; discriminate.
  - reflexivity.
  - reflexivity.
  - reflexivity.
  - vm_compute. discriminate.
Defined.

Example static_gif_round_trip_pixels :
  (let! bytes := encodeStatic (mkIndexedImage 2 1 [0; 1] [255; 0; 0; 0; 0; 255])
                   noGlobalOptions noImageOptions in
   let! frames := getFrames bytes in
   Ok (map (fun f => id_data (f_imageData f)) frames))
  = Ok [[255; 0; 0; 255; 0; 0; 255; 255]].
Proof. vm_compute. reflexivity. Qed.

(** ** index.ts: ready-made GIFs *)

Lemma getFrames_nonempty (bytes : list Z) (frames : list GifFrame) :
  getFrames bytes = Ok frames -> newGifResult bytes = Ok bytes.
Proof.
  intros H. unfold newGifResult. destruct bytes as [|b bytes].
  - discriminate H.
  - rewrite len_cons. pose proof (len_nonneg bytes).
    replace (len bytes + 1 =? 0) with false
      by (symmetry; apply Z.eqb_neq; lia).
    reflexivity.
Qed.

Lemma solid_pixels (r g b : Z) (n : nat) :
  flat_map (rgba_of [r; g; b]) (repeat 0 n) = concat (repeat [r; g; b; 255] n).
Proof.
  induction n as [|n IH]; [reflexivity|].
  cbn [repeat flat_map concat]. rewrite IH. reflexivity.
Qed.

(** X7. For a width and a height in [1, 65535] and a colour with
    components in [0, 255], [createSolidColorGif] returns a GIF that
    [getFrames] reads as one frame of that width and height in which
    every pixel is the colour, with alpha 255. *)
Theorem solid_color_gif_reads_back (width height : Z) (color : RGBColor) :
  1 <= width <= 65535 -> 1 <= height <= 65535 -> color_ok color ->
  exists bytes frame,
    createSolidColorGif width height color = Ok bytes /\
    getFrames bytes = Ok [frame] /\
    f_imageData frame
    = mkImageData
        (concat (repeat [red color; green color; blue color; 255]
                   (Z.to_nat (width * height))))
        width height.
Proof.
  intros Hw Hh (Hr & Hg & Hb).
  set (image := mkIndexedImage width height
                  (repeat 0 (Z.to_nat (width * height)))
                  [red color; green color; blue color]).
  assert (Hok : image_ok image).
  { unfold image_ok, dimensions_ok, palette_ok. cbn [image i_width i_height
      i_palette i_data].
    change (len [red color; green color; blue color]) with 3.
    split; [lia|]. split; [vm_compute; repeat split; discriminate|].
    split; [unfold len; rewrite repeat_length; nia|].
    change (3 / 3) with 1.
    generalize (Z.to_nat (width * height)). intros n.
    induction n as [|n IH]; simpl; constructor; [lia|exact IH]. }
  destruct (encode_decode_static image noGlobalOptions noImageOptions Hok)
    as (bytes & frame & Henc & Hdec & Hdata & _);
    [exact I|reflexivity|reflexivity|reflexivity|vm_compute; discriminate|].
  exists bytes, frame. split; [|split; [exact Hdec|]].
  - unfold createSolidColorGif.
    replace (width <=? 0) with false by (symmetry; apply Z.leb_gt; lia).
    replace (height <=? 0) with false by (symmetry; apply Z.leb_gt; lia).
    replace ((red color <? 0) || (255 <? red color)) with false
      by (symmetry; apply orb_false_iff; split; apply Z.ltb_ge; lia).
    replace ((green color <? 0) || (255 <? green color)) with false
      by (symmetry; apply orb_false_iff; split; apply Z.ltb_ge; lia).
    replace ((blue color <? 0) || (255 <? blue color)) with false
      by (symmetry; apply orb_false_iff; split; apply Z.ltb_ge; lia).
    fold image. rewrite Henc. cbn [rbind].
    exact (getFrames_nonempty _ _ Hdec).
  - rewrite Hdata. cbn [image i_width i_height i_palette i_data].
    rewrite solid_pixels. reflexivity.
Qed.

Lemma solid_color_gif_reads_back_witness :
  exists bytes frame,
    createSolidColorGif 3 2 (mkRGB 10 200 30) = Ok bytes /\
    getFrames bytes = Ok [frame] /\
    f_imageData frame
    = mkImageData
        (concat (repeat [red (mkRGB 10 200 30); green (mkRGB 10 200 30);
                         blue (mkRGB 10 200 30); 255]
                   (Z.to_nat (3 * 2))))
        3 2.
Proof.
  apply (solid_color_gif_reads_back 3 2 (mkRGB 10 200 30)).
  - lia.
  - lia.
  - unfold color_ok. simpl. lia.
Defined.

(** ** gif-result.ts: quantizing an image of few colours *)

Lemma extractColors_loop (data : list Z) (l : list Z) : forall acc,
  NoDup acc ->
  let colors :=
    foldl (fun colorMap i =>
             let color := pixel_color data i in
             if bool_decide (color ∈ colorMap) then colorMap
             else colorMap ++ [color]) acc l in
  NoDup colors /\
  (forall c, c ∈ acc -> c ∈ colors) /\
  (forall i, i ∈ l -> pixel_color data i ∈ colors) /\
  (forall c, c ∈ colors -> c ∈ acc \/ exists i, i ∈ l /\ c = pixel_color data i).
Proof.
  induction l as [|i l IH]; intros acc Hnd; cbn [foldl].
  - split; [exact Hnd|]. split; [auto|]. split.
    + intros i Hi. inversion Hi.
    + auto.
  - cbv zeta. case_bool_decide as Hin.
    + destruct (IH acc Hnd) as (H1 & H2 & H3 & H4).
      split; [exact H1|]. split; [exact H2|]. split.
      * intros j Hj. apply elem_of_cons in Hj as [->|Hj]; [auto|auto].
      * intros c Hc. destruct (H4 c Hc) as [?|(j & Hj & ->)]; [auto|].
        right. exists j. split; [apply elem_of_cons; auto|reflexivity].
    + assert (Hnd' : NoDup (acc ++ [pixel_color data i])).
      { apply NoDup_app. split; [exact Hnd|]. split.
        - intros c Hc Hc'. apply list_elem_of_singleton in Hc'. subst c.
          contradiction.
        - apply NoDup_singleton. }
      destruct (IH _ Hnd') as (H1 & H2 & H3 & H4).
      split; [exact H1|]. split.
      * intros c Hc. apply H2. apply elem_of_app. auto.
      * split.
        -- intros j Hj. apply elem_of_cons in Hj as [->|Hj]; [|auto].
           apply H2. apply elem_of_app. right. apply list_elem_of_singleton.
           reflexivity.
        -- intros c Hc. destruct (H4 c Hc) as [Hc'|(j & Hj & ->)].
           ++ apply elem_of_app in Hc' as [?|Hc']; [auto|].
              apply list_elem_of_singleton in Hc'. subst c.
              right. exists i. split; [apply elem_of_cons; auto|reflexivity].
           ++ right. exists j. split; [apply elem_of_cons; auto|reflexivity].
Qed.

Lemma extractColors_spec (imageData : ImageData) :
  NoDup (extractColors imageData) /\
  (forall i, 0 <= i < id_width imageData * id_height imageData ->
     pixel_color (id_data imageData) i ∈ extractColors imageData) /\
  (forall c, c ∈ extractColors imageData ->
     exists i, 0 <= i < id_width imageData * id_height imageData /\
               c = pixel_color (id_data imageData) i).
Proof.
  destruct (extractColors_loop (id_data imageData)
              (seqZ 0 (id_width imageData * id_height imageData)) []
              (NoDup_nil_2)) as (H1 & _ & H3 & H4).
  fold (extractColors imageData) in H1, H3, H4.
  split; [exact H1|]. split.
  - intros i Hi. apply H3. apply elem_of_seqZ. lia.
  - intros c Hc. destruct (H4 c Hc) as [Hn|(i & Hi & ->)]; [inversion Hn|].
    exists i. apply elem_of_seqZ in Hi. split; [lia|reflexivity].
Qed.

(** One colour per cube: the palette is the list of colours. *)
Lemma averages_of_singletons (colors : list RGBColor) : forall acc,
  for_each (fun acc cube =>
              let! c := calculateAverageColor cube in Ok (acc ++ [c]))
           (map (fun color => [color]) colors) acc
  = Ok (acc ++ colors).
Proof.
  induction colors as [|c colors IH]; intros acc; cbn [map for_each].
  - rewrite app_nil_r. reflexivity.
  - unfold calculateAverageColor at 1. cbn [foldl len length].
    change (Z.of_nat 1) with 1. rewrite !Z.div_1_r, !Z.add_0_l.
    replace (mkRGB (red c) (green c) (blue c)) with c by (destruct c; reflexivity).
    cbn [rbind]. rewrite IH, <- app_assoc. reflexivity.
Qed.

Definition colorMap_step : gmap RGBColor Z * Z -> list RGBColor
                           -> gmap RGBColor Z * Z :=
  fun '(m, paletteIndex) cube =>
    (foldl (fun m color => <[ color := paletteIndex ]> m) m cube,
     paletteIndex + 1).

Lemma colorMap_of_singletons_frame (colors : list RGBColor) :
  forall (m : gmap RGBColor Z) idx c,
  c ∉ colors ->
  fst (foldl colorMap_step (m, idx) (map (fun color => [color]) colors)) !! c
  = m !! c.
Proof.
  induction colors as [|c0 colors IH]; intros m idx c Hc; [reflexivity|].
  cbn [map foldl colorMap_step]. rewrite IH.
  - apply lookup_insert_ne. intros ->. apply Hc. apply elem_of_cons. auto.
  - intros Hin. apply Hc. apply elem_of_cons. auto.
Qed.

Lemma colorMap_of_singletons (colors : list RGBColor) :
  forall (m : gmap RGBColor Z) idx j c,
  NoDup colors -> colors !! j = Some c ->
  fst (foldl colorMap_step (m, idx) (map (fun color => [color]) colors)) !! c
  = Some (idx + Z.of_nat j).
Proof.
  induction colors as [|c0 colors IH]; intros m idx j c Hnd Hj; [discriminate|].
  apply NoDup_cons in Hnd as [Hnotin Hnd].
  cbn [map foldl colorMap_step]. destruct j as [|j].
  - injection Hj as <-. rewrite colorMap_of_singletons_frame by exact Hnotin.
    rewrite lookup_insert_eq. f_equal. lia.
  - cbn in Hj. rewrite (IH _ _ j c Hnd Hj). f_equal. lia.
Qed.

Lemma buildColorMap_of_singletons (colors : list RGBColor) j c :
  NoDup colors -> colors !! j = Some c ->
  buildColorMap (map (fun color => [color]) colors) !! c = Some (Z.of_nat j).
Proof.
  intros Hnd Hj. unfold buildColorMap.
  change (fun '(m, paletteIndex) cube =>
            (foldl (fun m color => <[ color := paletteIndex ]> m) m cube,
             paletteIndex + 1)) with colorMap_step.
  rewrite (colorMap_of_singletons colors ∅ 0 j c Hnd Hj). reflexivity.
Qed.

(** Every pixel's colour is in the colour map: [mapColor] answers from the
    map and leaves it as it is. *)
Lemma convertToIndexed_exact (palette : list RGBColor)
    (colorMap : gmap RGBColor Z) (data : list Z) (l : list Z) :
  forall indexed,
  (forall i, i ∈ l ->
     exists j, colorMap !! pixel_color data i = Some (Z.of_nat j) /\
               (j < 256)%nat /\ palette !! j = Some (pixel_color data i)) ->
  exists out,
    for_each (fun '(indexed, colorMap) i =>
                let color := pixel_color data i in
                let! (index, colorMap) := mapColor palette colorMap color in
                Ok (indexed ++ [index mod 256], colorMap))
             l (indexed, colorMap) = Ok (indexed ++ out, colorMap) /\
    Forall2 (fun i v => palette !! Z.to_nat v = Some (pixel_color data i)
                        /\ 0 <= v < len palette) l out.
Proof.
  induction l as [|i l IH]; intros indexed H; cbn [for_each].
  - exists []. rewrite app_nil_r. split; [reflexivity|constructor].
  - destruct (H i) as (j & Hj & Hj256 & Hp); [apply elem_of_cons; auto|].
    cbv beta iota zeta. unfold mapColor at 1. rewrite Hj.
    cbn [rbind]. cbv beta iota. cbn [rbind].
    rewrite Z.mod_small by lia.
    destruct (IH (indexed ++ [Z.of_nat j])) as (out & E & Hout).
    { intros i' Hi'. apply H. apply elem_of_cons. auto. }
    exists (Z.of_nat j :: out). rewrite <- app_assoc in E.
    split; [exact E|].
    constructor; [|exact Hout]. rewrite Nat2Z.id. split; [exact Hp|].
    apply lookup_lt_Some in Hp. unfold len. lia.
Qed.

Lemma getPaletteData_bytes (colors : list RGBColor) :
  Forall color_ok colors -> getPaletteData colors = palette_bytes colors.
Proof.
  intros H. unfold getPaletteData, palette_bytes.
  induction H as [|c colors (Hr & Hg & Hb) _ IH]; [reflexivity|].
  cbn [flat_map]. rewrite IH, !Z.mod_small by lia. reflexivity.
Qed.

Definition palette_color (palette : list Z) (v : Z) : RGBColor :=
  mkRGB (byte_at palette (v * 3)) (byte_at palette (v * 3 + 1))
        (byte_at palette (v * 3 + 2)).

Lemma palette_color_lookup (colors : list RGBColor) : forall j c,
  colors !! j = Some c ->
  palette_color (palette_bytes colors) (Z.of_nat j) = c.
Proof.
  induction colors as [|c0 colors IH]; intros j c Hj; [discriminate|].
  destruct j as [|j].
  - injection Hj as <-. destruct c0; reflexivity.
  - cbn in Hj. rewrite <- (IH j c Hj). unfold palette_color.
    change (palette_bytes (c0 :: colors))
      with ([red c0; green c0; blue c0] ++ palette_bytes colors).
    pose proof (byte_at_app_r [red c0; green c0; blue c0]
                  (palette_bytes colors)) as E.
    change (len [red c0; green c0; blue c0]) with 3 in E.
    replace (Z.of_nat (S j) * 3) with (3 + Z.of_nat j * 3) by lia.
    replace (3 + Z.of_nat j * 3 + 1) with (3 + (Z.of_nat j * 3 + 1)) by lia.
    replace (3 + Z.of_nat j * 3 + 2) with (3 + (Z.of_nat j * 3 + 2)) by lia.
    rewrite !E by lia. reflexivity.
Qed.

Lemma pixel_color_ok (data : list Z) (i : Z) :
  Forall is_byte data -> color_ok (pixel_color data i).
Proof.
  intros H. unfold color_ok, pixel_color. cbn [red green blue].
  pose proof (byte_at_is_byte data (i * 4) H).
  pose proof (byte_at_is_byte data (i * 4 + 1) H).
  pose proof (byte_at_is_byte data (i * 4 + 2) H).
  unfold is_byte in *. lia.
Qed.

(** The indexed image of a picture with at most [maxColors] colours. *)
Lemma quantize_few_colors (imageData : ImageData) (N : Z) :
  0 < id_width imageData * id_height imageData ->
  Forall is_byte (id_data imageData) ->
  1 <= N <= 256 ->
  len (extractColors imageData) <= N ->
  exists indexed,
    quantizeImage imageData N
    = Ok (mkIndexedImage (id_width imageData) (id_height imageData) indexed
            (palette_bytes (extractColors imageData))) /\
    Forall2 (fun i v =>
               extractColors imageData !! Z.to_nat v
               = Some (pixel_color (id_data imageData) i)
               /\ 0 <= v < len (extractColors imageData))
            (seqZ 0 (id_width imageData * id_height imageData)) indexed.
Proof.
  intros Hpix Hbytes HN Hfew.
  destruct (extractColors_spec imageData) as (Hnd & Hin & Hfrom).
  set (colors := extractColors imageData) in *.
  unfold quantizeImage, newMedianCutQuantizer.
  replace ((N <=? 0) || (256 <? N)) with false
    by (symmetry; apply orb_false_iff; split;
        [apply Z.leb_gt|apply Z.ltb_ge]; lia).
  cbn [rbind]. unfold quantize. cbn [q_maxColors]. fold colors.
  unfold medianCut.
  replace (N <=? 0) with false by (symmetry; apply Z.leb_gt; lia).
  replace (len colors <=? N) with true by (symmetry; apply Z.leb_le; lia).
  cbn [rbind]. rewrite averages_of_singletons. cbn [rbind app].
  destruct (convertToIndexed_exact colors
              (buildColorMap (map (fun color => [color]) colors))
              (id_data imageData)
              (seqZ 0 (id_width imageData * id_height imageData)) [])
    as (out & E & Hout).
  { intros i Hi. apply elem_of_seqZ in Hi.
    specialize (Hin i ltac:(lia)).
    apply list_elem_of_lookup in Hin as [j Hj]. exists j.
    split; [apply buildColorMap_of_singletons; assumption|].
    split; [|exact Hj]. apply lookup_lt_Some in Hj. unfold len in Hfew. lia. }
  assert (E' : convertToIndexed colors
                 (buildColorMap (map (fun color => [color]) colors)) imageData
               = Ok (out, buildColorMap (map (fun color => [color]) colors)))
    by exact E.
  rewrite E'. cbn [rbind app].
  exists out. split; [|exact Hout].
  rewrite getPaletteData_bytes; [reflexivity|].
  apply Forall_forall. intros c Hc. destruct (Hfrom c Hc) as (i & _ & ->).
  apply pixel_color_ok. exact Hbytes.
Qed.

(** X8. When an RGBA image of at least one pixel has at most [maxColors]
    distinct colours, [quantizeImage] loses nothing: the palette holds the
    distinct colours, three bytes each, and every pixel's index points at
    the pixel's own colour. *)
Theorem quantize_few_colors_is_lossless (imageData : ImageData) (N : Z) :
  0 < id_width imageData * id_height imageData ->
  len (id_data imageData) = id_width imageData * id_height imageData * 4 ->
  Forall is_byte (id_data imageData) ->
  1 <= N <= 256 ->
  len (extractColors imageData) <= N ->
  exists image,
    quantizeImage imageData N = Ok image /\
    i_width image = id_width imageData /\
    i_height image = id_height imageData /\
    len (i_palette image) = 3 * len (extractColors imageData) /\
    len (i_data image) = id_width imageData * id_height imageData /\
    forall i, 0 <= i < id_width imageData * id_height imageData ->
      0 <= byte_at (i_data image) i < len (extractColors imageData) /\
      palette_color (i_palette image) (byte_at (i_data image) i)
      = pixel_color (id_data imageData) i.
Proof.
  intros Hpix _ Hbytes HN Hfew.
  destruct (quantize_few_colors imageData N Hpix Hbytes HN Hfew)
    as (indexed & E & Hout).
  eexists. split; [exact E|]. cbn [i_width i_height i_palette i_data].
  split; [reflexivity|]. split; [reflexivity|].
  split; [apply palette_bytes_len|].
  pose proof (Forall2_length _ _ _ Hout) as Hlen. rewrite length_seqZ in Hlen.
  split; [unfold len; lia|].
  intros i Hi.
  assert (Hi' : seqZ 0 (id_width imageData * id_height imageData) !! Z.to_nat i
                = Some i).
  { rewrite lookup_seqZ_lt by lia. f_equal. lia. }
  destruct (Forall2_lookup_l _ _ _ _ _ Hout Hi') as (v & Hv & Hc & Hr).
  assert (Hb : byte_at indexed i = v).
  { unfold byte_at. apply nth_lookup_Some. exact Hv. }
  rewrite Hb. split; [exact Hr|].
  rewrite <- (Z2Nat.id v) by lia.
  apply palette_color_lookup. exact Hc.
Qed.

Lemma quantize_few_colors_is_lossless_witness :
  exists image,
    quantizeImage
      (mkImageData [255; 0; 0; 255; 0; 0; 255; 255; 255; 0; 0; 255] 3 1) 2
    = Ok image /\
    i_width image = 3 /\ i_height image = 1 /\
    len (i_palette image)
    = 3 * len (extractColors
                 (mkImageData [255; 0; 0; 255; 0; 0; 255; 255; 255; 0; 0; 255]
                    3 1)) /\
    len (i_data image) = 3 * 1 /\
    forall i, 0 <= i < 3 * 1 ->
      0 <= byte_at (i_data image) i
      < len (extractColors
               (mkImageData [255; 0; 0; 255; 0; 0; 255; 255; 255; 0; 0; 255]
                  3 1)) /\
      palette_color (i_palette image) (byte_at (i_data image) i)
      = pixel_color [255; 0; 0; 255; 0; 0; 255; 255; 255; 0; 0; 255] i.
Proof.
  apply (quantize_few_colors_is_lossless
           (mkImageData [255; 0; 0; 255; 0; 0; 255; 255; 255; 0; 0; 255] 3 1)
           2).
  - simpl. lia.
  - reflexivity.
  - repeat constructor; unfold is_byte; lia.
  - lia.
  - vm_compute. discriminate.
Defined.

(** ** index.ts: [createStaticGif] *)

(** What [quantizeImage] returns is an image the writer accepts. *)
Lemma quantizeImage_image_ok (imageData : ImageData) (N : Z) :
  dimensions_ok (id_width imageData) (id_height imageData) ->
  1 <= N <= 256 ->
  exists image,
    quantizeImage imageData N = Ok image /\
    i_width image = id_width imageData /\
    i_height image = id_height imageData /\
    image_ok image.
Proof.
  intros [Hw Hh] HN.
  assert (Hpix : 0 < id_width imageData * id_height imageData) by nia.
  unfold quantizeImage, newMedianCutQuantizer.
  replace ((N <=? 0) || (256 <? N)) with false
    by (symmetry; apply orb_false_iff; split;
        [apply Z.leb_gt|apply Z.ltb_ge]; lia).
  cbn [rbind]. unfold quantize. cbn [q_maxColors].
  assert (HN1 : 1 <= N) by lia.
  destruct (medianCut_spec (extractColors imageData) N
              (extractColors_nonempty imageData Hpix) HN1)
    as (cubes & -> & [Hlen Hne]).
  cbn [rbind].
  destruct (averages_spec cubes [] Hne) as (palette & -> & Hpl).
  change (len []) with 0 in Hpl. cbn [rbind].
  assert (Hpne : palette <> []) by (apply len_pos_iff; lia).
  assert (H256 : len palette <= 256) by lia.
  assert (Hpix0 : 0 <= id_width imageData * id_height imageData) by lia.
  destruct (convertToIndexed_spec palette (buildColorMap cubes) imageData
              Hpne H256) as (indexed & colorMap & -> & Hil & Hall);
    [|assumption|].
  { replace (len palette) with (len cubes) by lia. apply buildColorMap_below. }
  cbn [rbind]. eexists. split; [reflexivity|].
  cbn [i_width i_height]. split; [reflexivity|]. split; [reflexivity|].
  unfold image_ok, dimensions_ok, palette_ok.
  cbn [i_width i_height i_palette i_data]. rewrite getPaletteData_len.
  replace (3 * len palette) with (len palette * 3) by lia.
  rewrite Z.mod_mul, Z.div_mul by lia.
  split; [lia|]. split; [lia|]. split; assumption.
Qed.

(** X9. For an RGBA image with width and height in [1, 65535] and
    [maxColors] in [1, 256], [createStaticGif] (valid global options, a
    delay that fits, no offset, no transparent index) returns a GIF that
    [getFrames] reads as one frame: the image [quantizeImage] computes,
    each index drawn in its palette colour with alpha 255. *)
Theorem createStaticGif_reads_back (imageData : ImageData) (N : Z)
    (globalOptions : GlobalColorTableOptions) (options : ImageOptions) :
  dimensions_ok (id_width imageData) (id_height imageData) ->
  1 <= N <= 256 ->
  global_ok globalOptions ->
  default 0 (o_left options) = 0 -> default 0 (o_top options) = 0 ->
  o_transparentIndex options = None ->
  msToGifDelay (default 0 (o_delay options)) <= 65535 ->
  exists image bytes frame,
    quantizeImage imageData N = Ok image /\
    createStaticGif imageData N globalOptions options = Ok bytes /\
    getFrames bytes = Ok [frame] /\
    f_imageData frame
    = mkImageData (flat_map (rgba_of (i_palette image)) (i_data image))
        (id_width imageData) (id_height imageData).
Proof.
  intros Hdim HN Hg Hl Ht Hti Hd.
  destruct (quantizeImage_image_ok imageData N Hdim HN)
    as (image & Hq & Hw & Hh & Hok).
  destruct (encode_decode_static image globalOptions options Hok Hg Hl Ht Hti Hd)
    as (bytes & frame & Henc & Hdec & Hdata & _).
  exists image, bytes, frame. split; [exact Hq|]. split; [|split; [exact Hdec|]].
  - unfold createStaticGif. rewrite Hq. cbn [rbind]. rewrite Henc.
    cbn [rbind]. exact (getFrames_nonempty _ _ Hdec).
  - rewrite Hdata, Hw, Hh. reflexivity.
Qed.

Lemma createStaticGif_reads_back_witness :
  exists image bytes frame,
    quantizeImage
      (mkImageData [255; 0; 0; 255; 0; 0; 255; 255; 255; 0; 0; 255] 3 1) 2
    = Ok image /\
    createStaticGif
      (mkImageData [255; 0; 0; 255; 0; 0; 255; 255; 255; 0; 0; 255] 3 1) 2
      noGlobalOptions noImageOptions = Ok bytes /\
    getFrames bytes = Ok [frame] /\
    f_imageData frame
    = mkImageData (flat_map (rgba_of (i_palette image)) (i_data image))
        (id_width
           (mkImageData [255; 0; 0; 255; 0; 0; 255; 255; 255; 0; 0; 255] 3 1))
        (id_height
           (mkImageData [255; 0; 0; 255; 0; 0; 255; 255; 255; 0; 0; 255] 3 1)).
Proof.
  apply (createStaticGif_reads_back
           (mkImageData [255; 0; 0; 255; 0; 0; 255; 255; 255; 0; 0; 255] 3 1)
           2 noGlobalOptions noImageOptions).
  - unfold dimensions_ok. simpl. lia.
  - lia.
  - exact I.
  - reflexivity.
  - reflexivity.
  - reflexivity.
  - vm_compute. discriminate.
Defined.

(** The source picture with every pixel opaque. *)
Definition opaque_pixels (imageData : ImageData) : list Z :=
  flat_map (fun i =>
              let color := pixel_color (id_data imageData) i in
              [red color; green color; blue color; 255])
           (seqZ 0 (id_width imageData * id_height imageData)).

Lemma render_few_colors (colors : list RGBColor) (data : list Z)
    (l indexed : list Z) :
  Forall2 (fun i v => colors !! Z.to_nat v = Some (pixel_color data i)
                      /\ 0 <= v < len colors) l indexed ->
  flat_map (rgba_of (palette_bytes colors)) indexed
  = flat_map (fun i => let color := pixel_color data i in
                       [red color; green color; blue color; 255]) l.
Proof.
  induction 1 as [|i v l indexed [Hc Hr] _ IH]; [reflexivity|].
  cbn [flat_map]. rewrite IH. f_equal.
  pose proof (palette_color_lookup colors _ _ Hc) as E.
  rewrite Z2Nat.id in E by lia. unfold palette_color in E.
  unfold rgba_of. cbv zeta. rewrite <- E. reflexivity.
Qed.

(** X10. When the picture has at most [maxColors] distinct colours, the
    frame [getFrames] reads from the GIF of [createStaticGif] is the
    picture itself, pixel by pixel, with every alpha set to 255. *)
Theorem createStaticGif_few_colors_is_lossless (imageData : ImageData) (N : Z)
    (globalOptions : GlobalColorTableOptions) (options : ImageOptions) :
  dimensions_ok (id_width imageData) (id_height imageData) ->
  len (id_data imageData) = id_width imageData * id_height imageData * 4 ->
  Forall is_byte (id_data imageData) ->
  1 <= N <= 256 ->
  len (extractColors imageData) <= N ->
  global_ok globalOptions ->
  default 0 (o_left options) = 0 -> default 0 (o_top options) = 0 ->
  o_transparentIndex options = None ->
  msToGifDelay (default 0 (o_delay options)) <= 65535 ->
  exists bytes frame,
    createStaticGif imageData N globalOptions options = Ok bytes /\
    getFrames bytes = Ok [frame] /\
    f_imageData frame
    = mkImageData (opaque_pixels imageData)
        (id_width imageData) (id_height imageData).
Proof.
  intros Hdim _ Hbytes HN Hfew Hg Hl Ht Hti Hd.
  assert (Hpix : 0 < id_width imageData * id_height imageData)
    by (destruct Hdim; nia).
  destruct (quantize_few_colors imageData N Hpix Hbytes HN Hfew)
    as (indexed & Hq & Hout).
  destruct (quantizeImage_image_ok imageData N Hdim HN)
    as (image & Hq' & _ & _ & Hok).
  rewrite Hq in Hq'. injection Hq' as <-.
  destruct (encode_decode_static _ globalOptions options Hok Hg Hl Ht Hti Hd)
    as (bytes & frame & Henc & Hdec & Hdata & _).
  exists bytes, frame. split; [|split; [exact Hdec|]].
  - unfold createStaticGif. rewrite Hq. cbn [rbind]. rewrite Henc.
    cbn [rbind]. exact (getFrames_nonempty _ _ Hdec).
  - rewrite Hdata. cbn [i_width i_height i_palette i_data].
    rewrite (render_few_colors _ _ _ _ Hout). reflexivity.
Qed.

Lemma createStaticGif_few_colors_is_lossless_witness :
  exists bytes frame,
    createStaticGif
      (mkImageData [255; 0; 0; 7; 0; 0; 255; 255; 255; 0; 0; 0] 3 1) 2
      noGlobalOptions noImageOptions = Ok bytes /\
    getFrames bytes = Ok [frame] /\
    f_imageData frame
    = mkImageData
        (opaque_pixels
           (mkImageData [255; 0; 0; 7; 0; 0; 255; 255; 255; 0; 0; 0] 3 1))
        (id_width (mkImageData [255; 0; 0; 7; 0; 0; 255; 255; 255; 0; 0; 0] 3 1))
        (id_height (mkImageData [255; 0; 0; 7; 0; 0; 255; 255; 255; 0; 0; 0] 3 1)).
Proof.
  apply (createStaticGif_few_colors_is_lossless
           (mkImageData [255; 0; 0; 7; 0; 0; 255; 255; 255; 0; 0; 0] 3 1)
           2 noGlobalOptions noImageOptions).
  - unfold dimensions_ok. simpl. lia.
  - reflexivity.
  - repeat constructor; unfold is_byte; lia.
  - lia.
  - vm_compute. discriminate.
  - exact I.
  - reflexivity.
  - reflexivity.
  - reflexivity.
  - vm_compute. discriminate.
Defined.

Example createStaticGif_three_pixels :
  (let! bytes := createStaticGif
                   (mkImageData [255; 0; 0; 7; 0; 0; 255; 255; 255; 0; 0; 0] 3 1)
                   2 noGlobalOptions noImageOptions in
   let! frames := getFrames bytes in
   Ok (map (fun f => id_data (f_imageData f)) frames))
  = Ok [[255; 0; 0; 255; 0; 0; 255; 255; 255; 0; 0; 255]].
Proof. vm_compute. reflexivity. Qed.

(** ** reader.ts: the information [parse] reads from an encoded GIF *)

Lemma at_pos_skip_loop wfuel : forall rest data p tail rfuel,
  at_pos data p (sub_blocks wfuel rest ++ 0 :: tail) ->
  len rest <= Z.of_nat wfuel -> len rest <= Z.of_nat rfuel ->
  exists p',
    (let! (blockSize, p) := readByte data p in
     skipDataSubBlocks_loop rfuel data blockSize p) = Ok p'
    /\ at_pos data p' tail.
Proof.
  induction wfuel as [|wfuel IH]; intros l data p tail rfuel H Hw Hr.
  - destruct l as [|x rest];
      [|rewrite len_cons in Hw; pose proof (len_nonneg rest); lia].
    simpl in H. apply at_pos_readByte in H as [E H]. rewrite E. simpl.
    exists (p + 1). destruct rfuel; simpl; auto.
  - destruct (Z_lt_ge_dec (len l) 1) as [Hz|Hpos].
    + destruct l as [|x rest];
        [|rewrite len_cons in Hz; pose proof (len_nonneg rest); lia].
      simpl in H. apply at_pos_readByte in H as [E H]. rewrite E. simpl.
      exists (p + 1). destruct rfuel; simpl; auto.
    + rewrite sub_blocks_step in H by lia.
      set (n := Z.min 255 (len l)) in *.
      assert (Hn : 1 <= n <= len l) by (unfold n; lia).
      rewrite <- app_comm_cons in H.
      apply at_pos_readByte in H as [E H]. rewrite E.
      destruct rfuel as [|rfuel]; [lia|].
      cbn [rbind skipDataSubBlocks_loop].
      replace (0 <? n) with true by (symmetry; apply Z.ltb_lt; lia).
      rewrite <- app_assoc in H.
      assert (Hf : len (firstn (Z.to_nat n) l) = n)
        by (rewrite len_firstn; unfold len in *; lia).
      apply at_pos_skip in H. rewrite Hf in H.
      destruct (IH (skipn (Z.to_nat n) l) data (p + 1 + n) tail rfuel H)
        as (p' & E3 & H3).
      * rewrite len_skipn; unfold len in *; lia.
      * rewrite len_skipn; unfold len in *; lia.
      * exists p'. auto.
Qed.

Lemma at_pos_skipDataSubBlocks (c : list Z) data p tail :
  at_pos data p (sub_blocks (length c) c ++ 0 :: tail) ->
  exists p', skipDataSubBlocks data p = Ok p' /\ at_pos data p' tail.
Proof.
  intros H. unfold skipDataSubBlocks.
  assert (Hlen : len c <= Z.of_nat (length data)).
  { pose proof (at_pos_len _ _ _ H) as Hl. rewrite len_app in Hl.
    destruct H as (pre & _ & Hp). pose proof (len_nonneg pre).
    pose proof (len_nonneg (0 :: tail)).
    pose proof (sub_blocks_len (length c) c). unfold len in *. lia. }
  apply (at_pos_skip_loop (length c) c data p tail (length data) H);
    [unfold len; lia|lia].
Qed.

(** *** The records, as written *)

Lemma writeLogicalScreen_exact_inv width height options w w' :
  writeLogicalScreen width height options w = (Ok tt, w') ->
  dimensions_ok width height /\
  exists packed bg par gct,
    w' = mkGifWriter
           (w_output w ++ le16 width ++ le16 height ++ [packed; bg; par]
              ++ gct)
           (hasWrittenHeader w) true (frameCount w) /\
    (((Z.land packed 0x80 =? 0) = true /\ gct = []) \/
     ((Z.land packed 0x80 =? 0) = false /\
      len gct = Z.shiftl 2 (Z.land packed 0x07) * 3)).
Proof.
  intros H.
  assert (Hdim : dimensions_ok width height).
  { unfold writeLogicalScreen in H.
    apply wbind_ok_inv in H as (w1 & w2 & Hg & H).
    apply w_get_inv in Hg as [-> ->].
    destruct (hasWrittenHeader w); [|discriminate]. simpl in H.
    destruct (hasWrittenLogicalScreen w); [discriminate|].
    apply wbind_ok_inv in H as ([] & w1 & Hd & _).
    apply wlift_ok_inv in Hd as [Hd _].
    destruct (validateDimensions_spec width height) as [[Hok _]|[_ [t Ht]]];
      [exact Hok|congruence]. }
  split; [exact Hdim|].
  destruct (writeLogicalScreen_ok_inv _ _ _ _ _ H)
    as (Hhdr & w0 & w1 & h0 & h1 & packed & bg & par & gct & Hw' & Hgct).
  (* the four dimension bytes are those of [write16BitLE] *)
  unfold writeLogicalScreen in H.
  apply wbind_ok_inv in H as (x1 & x2 & Hg & H).
  apply w_get_inv in Hg as [-> ->]. rewrite Hhdr in H. simpl in H.
  destruct (hasWrittenLogicalScreen w); [discriminate|].
  apply wbind_ok_inv in H as ([] & x1 & Hd & H).
  apply wlift_ok_inv in Hd as [_ ->].
  apply wbind_ok_inv in H as ([[flag size] padded] & x1 & Ht & H).
  assert (Hx1 : exists extra, w_output x1 = w_output w ++ extra /\ extra = []).
  { destruct (g_colors options) as [colors|].
    - destruct (0 <? len colors).
      + apply wbind_ok_inv in Ht as ([] & x3 & Hv & Ht).
        apply wlift_ok_inv in Hv as [_ ->].
        apply wbind_ok_inv in Ht as (s & x3 & Hc & Ht).
        apply wlift_ok_inv in Hc as [_ ->].
        apply wret_inv in Ht as [_ ->]. exists []. rewrite app_nil_r. auto.
      + apply wret_inv in Ht as [_ ->]. exists []. rewrite app_nil_r. auto.
    - apply wret_inv in Ht as [_ ->]. exists []. rewrite app_nil_r. auto. }
  destruct Hx1 as (extra & Hx1 & ->). rewrite app_nil_r in Hx1.
  apply wbind_ok_inv in H as (wb & x2 & Hwb & H).
  apply wlift_ok_inv in Hwb as [Hwb ->].
  apply write16BitLE_ok_inv in Hwb as [_ ->].
  apply wbind_ok_inv in H as ([] & x2 & Ha & H).
  apply w_append_inv in Ha. subst x2.
  apply wbind_ok_inv in H as (hb & x2 & Hhb & H).
  apply wlift_ok_inv in Hhb as [Hhb ->].
  apply write16BitLE_ok_inv in Hhb as [_ ->].
  apply wbind_ok_inv in H as ([] & x2 & Ha & H).
  apply w_append_inv in Ha. subst x2.
  match type of H with
  | ?m _ = _ => assert (Happ : appends m) by (repeat appends_step)
  end.
  destruct (Happ _ _ _ H) as (rest & Hrest).
  rewrite Hw' in Hrest. cbn [w_output w_with_output] in Hrest.
  rewrite Hx1 in Hrest. rewrite <- !app_assoc in Hrest.
  apply app_inv_head in Hrest. cbn [app] in Hrest.
  injection Hrest as -> -> -> -> _.
  exists packed, bg, par, gct. split; [|exact Hgct].
  rewrite Hw'. unfold le16. reflexivity.
Qed.

Lemma writeAnimationInfo_exact_inv options w w' :
  writeAnimationInfo options w = (Ok tt, w') ->
  let loopCount := Z.max 0 (Z.min 65535 (default 0 (a_loops options))) in
  w' = w_with_output w
         (w_output w ++ animation_info (Z.land loopCount 0xff)
                          (Z.land (Z.shiftr loopCount 8) 0xff)).
Proof.
  intros H loopCount. unfold writeAnimationInfo in H.
  apply wbind_ok_inv in H as (x1 & x2 & Hg & H).
  apply w_get_inv in Hg as [-> ->].
  destruct (hasWrittenLogicalScreen w); [|discriminate]. cbn [negb] in H.
  apply wbind_ok_inv in H as (lc & x1 & Hlc & H).
  apply wlift_ok_inv in Hlc as [Hlc ->].
  apply write16BitLE_ok_inv in Hlc as [_ ->].
  apply writeBytes_arr_ok_inv in H. rewrite H. reflexivity.
Qed.

(** *** The records, as [parse] reads them *)

(** The fields of the loop state that the records of an encoded file
    change or keep. *)
Definition ps_fields (st : parse_state)
  : Z * Z * Z * list ExtensionName * bool :=
  (ps_loops st, ps_frameCount st, ps_totalDuration st, ps_extensions st,
   ps_hasInterlacedFrames st).

Lemma ps_fields_inv st a b c d e :
  ps_fields st = (a, b, c, d, e) ->
  ps_loops st = a /\ ps_frameCount st = b /\ ps_totalDuration st = c /\
  ps_extensions st = d /\ ps_hasInterlacedFrames st = e.
Proof. intros [= <- <- <- <- <-]. auto. Qed.

Lemma ps_fields_intro st a b c d e :
  ps_loops st = a -> ps_frameCount st = b -> ps_totalDuration st = c ->
  ps_extensions st = d -> ps_hasInterlacedFrames st = e ->
  ps_fields st = (a, b, c, d, e).
Proof. intros <- <- <- <- <-. reflexivity. Qed.

Lemma pstep_graphics_control data st packed v transparentIndex tail :
  at_pos data (ps_position st)
    (graphics_control packed v transparentIndex ++ tail) ->
  0 <= v <= 65535 ->
  exists st',
    parse_step data st = Ok (Continue st') /\
    ps_fields st'
    = (ps_loops st, ps_frameCount st, ps_totalDuration st + v * 10,
       ps_extensions st, ps_hasInterlacedFrames st) /\
    ps_hasLocalColorTables st' = ps_hasLocalColorTables st /\
    at_pos data (ps_position st') tail.
Proof.
  intros H Hv. unfold parse_step, graphics_control in *.
  cbn [app] in H. rewrite (at_pos_in_range _ _ _ _ H).
  read_byte H. change (0x21 =? 0x21) with true. cbv iota.
  read_byte H. change (0xf9 =? 0xff) with false.
  change (0xf9 =? 0xf9) with true. cbv iota.
  unfold parseGraphicsControl.
  read_byte H. change (0x04 =? 4) with true. cbv iota.
  read_byte H. read_16 H. read_byte H. read_byte H.
  eexists. split; [reflexivity|]. unfold ps_fields.
  cbn [ps_loops ps_frameCount ps_totalDuration ps_extensions
       ps_hasInterlacedFrames ps_hasLocalColorTables ps_position].
  rewrite le16_read_back by assumption.
  split; [reflexivity|]. split; [reflexivity|exact H].
Qed.

Lemma pstep_image data st position s table codeSize compressed tail :
  at_pos data (ps_position st)
    (image_record position s table codeSize compressed ++ tail) ->
  len position = 8 -> 0 <= s <= 7 -> len table = 3 * 2 ^ (s + 1) ->
  exists st',
    parse_step data st = Ok (Continue st') /\
    ps_fields st'
    = (ps_loops st, ps_frameCount st + 1, ps_totalDuration st,
       ps_extensions st, ps_hasInterlacedFrames st) /\
    ps_hasLocalColorTables st' = true /\
    at_pos data (ps_position st') tail.
Proof.
  intros H Hpos Hs Htab. unfold parse_step, image_record in *.
  destruct (image_packed_fields s Hs) as (Hflag & Hint & Hsize).
  set (packed := Z.lor (Z.lor (Z.lor 0x80 0x00) 0x00) s) in *.
  rewrite <- !app_assoc in H. cbn [app] in H.
  rewrite (at_pos_in_range _ _ _ _ H).
  read_byte H. change (0x2c =? 0x21) with false.
  change (0x2c =? 0x2c) with true. cbv iota.
  unfold parseImage. cbv zeta.
  apply at_pos_skip in H. rewrite Hpos in H.
  cbn [app] in H. read_byte H.
  rewrite Hflag, Hint, Hsize. cbn [negb].
  rewrite shiftl_2_size by lia. rewrite <- Htab.
  apply at_pos_skip in H. cbn [app] in H.
  read_byte H.
  destruct (at_pos_skipDataSubBlocks compressed _ _ tail H) as (p' & E & H2).
  rewrite E. cbn [rbind].
  eexists. split; [reflexivity|]. unfold ps_fields.
  cbn [ps_loops ps_frameCount ps_totalDuration ps_extensions
       ps_hasInterlacedFrames ps_hasLocalColorTables ps_position].
  split; [reflexivity|]. split; [reflexivity|exact H2].
Qed.

Lemma pstep_trailer data st :
  at_pos data (ps_position st) [0x3b] ->
  parse_step data st = Ok (Break (ps_at st (ps_position st + 1))).
Proof.
  intros H. unfold parse_step. rewrite (at_pos_in_range _ _ _ _ H).
  read_byte H. reflexivity.
Qed.

Lemma pstep_animation_info data st loopCount tail :
  at_pos data (ps_position st)
    (animation_info (Z.land loopCount 0xff)
       (Z.land (Z.shiftr loopCount 8) 0xff) ++ tail) ->
  0 <= loopCount <= 65535 ->
  exists st',
    parse_step data st = Ok (Continue st') /\
    ps_fields st'
    = (loopCount, ps_frameCount st, ps_totalDuration st,
       ps_extensions st ++ [NetscapeAnimation], ps_hasInterlacedFrames st) /\
    ps_hasLocalColorTables st' = ps_hasLocalColorTables st /\
    at_pos data (ps_position st') tail.
Proof.
  intros H Hl. unfold parse_step, animation_info in *.
  unfold NETSCAPE_APPLICATION_IDENTIFIER,
    NETSCAPE_APPLICATION_AUTHENTICATION_CODE in H.
  cbn [app] in H. rewrite (at_pos_in_range _ _ _ _ H).
  read_byte H. change (0x21 =? 0x21) with true. cbv iota.
  read_byte H. change (0xff =? 0xff) with true. cbv iota.
  unfold parseApplicationExtension.
  read_byte H.
  match type of H with
  | at_pos _ _ (?a :: ?b :: ?c :: ?d :: ?e :: ?f :: ?g :: ?h :: ?i :: ?j
                  :: ?k :: ?rest) =>
      change (at_pos data (ps_position st + 1 + 1 + 1)
                ([a; b; c; d; e; f; g; h; i; j; k] ++ rest)) in H
  end.
  pose proof (at_pos_readBytes _ _ _ _ H) as [E H1].
  change (len [78; 69; 84; 83; 67; 65; 80; 69; 50; 46; 48]) with 11 in E, H1.
  rewrite E. clear E H. cbn [rbind].
  change (11 =? 11) with true.
  replace (list_eqb (firstn 8 [78; 69; 84; 83; 67; 65; 80; 69; 50; 46; 48])
             str_NETSCAPE) with true by reflexivity.
  cbn [andb]. cbv zeta.
  read_byte H1. change (3 =? 3) with true. cbv iota.
  read_byte H1. read_16 H1. read_byte H1.
  eexists. split; [reflexivity|]. unfold ps_fields, ps_extension.
  cbn [ps_loops ps_frameCount ps_totalDuration ps_extensions
       ps_hasInterlacedFrames ps_hasLocalColorTables ps_position].
  rewrite le16_read_back by assumption.
  split; [reflexivity|]. split; [reflexivity|exact H1].
Qed.

(** The bytes of one frame and the time [parse] adds for it: nothing for a
    frame without a graphics control extension. *)
Definition info_record (duration : Z) (bytes : list Z) : Prop :=
  exists gce position s table codeSize compressed,
    bytes = gce ++ image_record position s table codeSize compressed /\
    len position = 8 /\ 0 <= s <= 7 /\ len table = 3 * 2 ^ (s + 1) /\
    ((gce = [] /\ duration = 0) \/
     (exists packed v transparentIndex,
        gce = graphics_control packed v transparentIndex /\
        0 <= v <= 65535 /\ duration = v * 10)).

(** The duration of a written frame: its delay in centiseconds, times
    ten. *)
Definition encoded_duration (options : ImageOptions) : Z :=
  msToGifDelay (default 0 (o_delay options)) * 10.

Lemma writeImage_info_record image options w w' :
  writeImage image options w = (Ok tt, w') ->
  exists bytes,
    w' = mkGifWriter (w_output w ++ bytes) (hasWrittenHeader w)
           (hasWrittenLogicalScreen w) (frameCount w + 1) /\
    info_record (encoded_duration options) bytes.
Proof.
  intros H. apply writeImage_ok_inv in H.
  destruct H as (gce & position & s & table & codeSize & compressed & -> &
                 Hpos & Hs & Htab & Hgce).
  eexists. split; [reflexivity|].
  exists gce, position, s, table, codeSize, compressed.
  split; [reflexivity|]. split; [assumption|]. split; [assumption|].
  split; [assumption|]. unfold encoded_duration.
  destruct Hgce as [[Hn ->]|(_ & Hv & packed & ti & ->)].
  - left. split; [reflexivity|].
    unfold needsGraphicsControl in Hn.
    apply orb_false_iff in Hn as [Hn _].
    apply orb_false_iff in Hn as [Hn _].
    apply orb_false_iff in Hn as [_ Hn].
    apply bool_decide_eq_false in Hn.
    destruct (o_delay options) as [d|]; [exfalso; apply Hn; eauto|].
    reflexivity.
  - right. exists packed, (msToGifDelay (default 0 (o_delay options))), ti.
    auto.
Qed.

Fixpoint encoded_durations (images : list IndexedImage) (index : nat)
    (imageOptions : list ImageOptions) : list Z :=
  match images with
  | [] => []
  | _ :: rest =>
      encoded_duration (nth index imageOptions noImageOptions)
        :: encoded_durations rest (S index) imageOptions
  end.

Lemma writeImages_info_records images : forall index imageOptions w w',
  writeImages images index imageOptions w = (Ok tt, w') ->
  exists chunks,
    w' = mkGifWriter (w_output w ++ concat chunks) (hasWrittenHeader w)
           (hasWrittenLogicalScreen w) (frameCount w + len images) /\
    Forall2 info_record (encoded_durations images index imageOptions) chunks.
Proof.
  induction images as [|image images IH]; intros index imageOptions w w' H;
    simpl in H.
  - apply wret_inv in H as [_ ->]. exists []. split; [|constructor].
    cbn [concat]. rewrite app_nil_r.
    replace (frameCount w + len []) with (frameCount w)
      by (unfold len; simpl; lia).
    destruct w; reflexivity.
  - apply wbind_ok_inv in H as ([] & w1 & H1 & H).
    apply writeImage_info_record in H1 as (bytes & -> & Hrec).
    apply IH in H as (chunks & -> & Hrest). cbn in Hrest |- *.
    exists (bytes :: chunks). split.
    + rewrite len_cons. cbn [concat]. rewrite <- app_assoc.
      f_equal. lia.
    + constructor; assumption.
Qed.

Lemma info_record_len duration bytes : info_record duration bytes -> 2 <= len bytes.
Proof.
  intros (gce & position & s & table & codeSize & compressed & -> &
          Hpos & _).
  unfold image_record. rewrite !len_app.
  pose proof (len_nonneg gce). pose proof (len_nonneg table).
  pose proof (len_nonneg (sub_blocks (length compressed) compressed)).
  change (len [44]) with 1. change (len [codeSize]) with 1.
  change (len [0]) with 1.
  change (len [Z.lor (Z.lor (Z.lor 128 0) 0) s]) with 1. lia.
Qed.

Definition sum_durations (durations : list Z) : Z := foldr Z.add 0 durations.

Lemma info_record_read data st duration bytes tail :
  info_record duration bytes ->
  at_pos data (ps_position st) (bytes ++ tail) ->
  exists st' n,
    (n <= 2)%nat /\
    (forall fuel,
       while_loop (n + fuel) (parse_step data) st
       = while_loop fuel (parse_step data) st') /\
    ps_fields st'
    = (ps_loops st, ps_frameCount st + 1, ps_totalDuration st + duration,
       ps_extensions st, ps_hasInterlacedFrames st) /\
    ps_hasLocalColorTables st' = true /\
    at_pos data (ps_position st') tail.
Proof.
  intros (gce & position & s & table & codeSize & compressed & -> &
          Hpos & Hs & Htab & Hgce) H.
  rewrite <- app_assoc in H.
  destruct Hgce as [[-> ->]|(packed & v & ti & -> & Hv & ->)].
  - rewrite app_nil_l in H.
    destruct (pstep_image data st _ _ _ _ _ _ H Hpos Hs Htab)
      as (st' & E & Hf & Hl & H').
    exists st', 1%nat. split; [lia|]. split.
    { intros fuel. apply while_loop_continue. exact E. }
    rewrite Z.add_0_r. auto.
  - destruct (pstep_graphics_control data st _ _ _ _ H Hv)
      as (st1 & E1 & Hf1 & Hl1 & H1).
    destruct (pstep_image data st1 _ _ _ _ _ _ H1 Hpos Hs Htab)
      as (st' & E & Hf & Hl & H').
    exists st', 2%nat. split; [lia|]. split.
    { intros fuel. change (2 + fuel)%nat with (S (S fuel)).
      rewrite (while_loop_continue _ _ _ _ E1).
      apply while_loop_continue. exact E. }
    apply ps_fields_inv in Hf1 as (A1 & A2 & A3 & A4 & A5).
    apply ps_fields_inv in Hf as (B1 & B2 & B3 & B4 & B5).
    split; [|auto]. apply ps_fields_intro; congruence.
Qed.

Lemma info_records_read data durations : forall chunks,
  Forall2 info_record durations chunks ->
  forall st tail,
  at_pos data (ps_position st) (concat chunks ++ tail) ->
  exists st' n,
    Z.of_nat n <= len (concat chunks) /\
    (forall fuel,
       while_loop (n + fuel) (parse_step data) st
       = while_loop fuel (parse_step data) st') /\
    ps_fields st'
    = (ps_loops st, ps_frameCount st + len chunks,
       ps_totalDuration st + sum_durations durations,
       ps_extensions st, ps_hasInterlacedFrames st) /\
    ps_hasLocalColorTables st'
    = match chunks with
      | [] => ps_hasLocalColorTables st
      | _ :: _ => true
      end /\
    at_pos data (ps_position st') tail.
Proof.
  induction 1 as [|duration bytes durations chunks Hc Hrest IH];
    intros st tail H.
  - exists st, 0%nat. split; [unfold len; simpl; lia|].
    split; [reflexivity|]. unfold ps_fields, sum_durations. cbn [foldr].
    change (len []) with 0. rewrite !Z.add_0_r.
    split; [reflexivity|]. split; [reflexivity|exact H].
  - cbn [concat] in H. rewrite <- app_assoc in H.
    destruct (info_record_read data st _ _ _ Hc H)
      as (st1 & n1 & Hn1 & E1 & Hf1 & Hl1 & H1).
    destruct (IH st1 tail H1) as (st' & n & Hn & E & Hf & Hl & H').
    exists st', (n1 + n)%nat. split.
    { cbn [concat]. rewrite len_app.
      pose proof (info_record_len _ _ Hc). lia. }
    split.
    { intros fuel. rewrite <- Nat.add_assoc. rewrite E1. apply E. }
    apply ps_fields_inv in Hf1 as (A1 & A2 & A3 & A4 & A5).
    apply ps_fields_inv in Hf as (B1 & B2 & B3 & B4 & B5).
    split; [|split; [|exact H']].
    + apply ps_fields_intro; try congruence.
      * rewrite B2, A2, len_cons. lia.
      * rewrite B3, A3. unfold sum_durations. cbn [foldr]. lia.
    + rewrite Hl. destruct chunks; [exact Hl1|reflexivity].
Qed.

Lemma le16_read value :
  0 <= value <= 65535 ->
  Z.lor (Z.land value 0xff) (Z.shiftl (Z.land (Z.shiftr value 8) 0xff) 8)
  = value.
Proof. apply le16_read_back. Qed.

(** A file made of the header, the logical screen descriptor with its
    colour table, an optional animation block, frames and the trailer, as
    [parse] reads it. *)
Lemma parse_of_records (width height packed bg par loops : Z)
    (gct ext : list Z) (names : list ExtensionName)
    (durations : list Z) (chunks : list (list Z)) :
  0 <= width <= 65535 -> 0 <= height <= 65535 ->
  (((Z.land packed 0x80 =? 0) = true /\ gct = []) \/
   ((Z.land packed 0x80 =? 0) = false /\
    len gct = Z.shiftl 2 (Z.land packed 0x07) * 3)) ->
  ((ext = [] /\ loops = 0 /\ names = []) \/
   (ext = animation_info (Z.land loops 0xff) (Z.land (Z.shiftr loops 8) 0xff)
    /\ 0 <= loops <= 65535 /\ names = [NetscapeAnimation])) ->
  Forall2 info_record durations chunks ->
  forall data,
  data = [0x47; 0x49; 0x46; 0x38; 0x39; 0x61]
           ++ le16 width ++ le16 height ++ [packed; bg; par] ++ gct ++ ext
           ++ concat chunks ++ [0x3b] ->
  exists info,
    readGifInfo data = Ok info /\
    gi_width info = width /\ gi_height info = height /\
    gi_frameCount info = len chunks /\ gi_loops info = loops /\
    gi_duration info = sum_durations durations /\
    gi_size info = len data /\
    gi_version info = [0x38; 0x39; 0x61] /\
    gi_globalColorTable info
    = (if Z.land packed 0x80 =? 0 then None else Some gct) /\
    m_extensions (gi_metadata info) = names /\
    m_hasInterlacedFrames (gi_metadata info) = false.
Proof.
  intros Hw Hh Hgct Hext Hchunks data Hdata.
  assert (Hlen : length data
                 = (14 + length gct + length ext + length (concat chunks))%nat).
  { rewrite Hdata. unfold le16. rewrite !length_app. simpl. lia. }
  pose proof (at_pos_start [0x47; 0x49; 0x46; 0x38; 0x39; 0x61]
                (le16 width ++ le16 height ++ [packed; bg; par] ++ gct ++ ext
                   ++ concat chunks ++ [0x3b])) as H.
  rewrite <- Hdata in H.
  change (len [0x47; 0x49; 0x46; 0x38; 0x39; 0x61]) with 6 in H.
  unfold readGifInfo.
  assert (Hhdr : validateHeader data = Ok tt)
    by (rewrite Hdata; apply validateHeader_gif89a).
  rewrite Hhdr. cbn [rbind].
  assert (Hversion : slice data 3 6 = [0x38; 0x39; 0x61])
    by (rewrite Hdata; reflexivity).
  unfold parse. cbv zeta. rewrite Hversion.
  unfold le16 in H. cbn [app] in H.
  read_16 H. read_16 H. read_byte H. read_byte H. read_byte H.
  rewrite !le16_read by assumption.
  assert (Htable : exists p,
    (if negb (Z.land packed 0x80 =? 0)
     then let! (t, p) := readBytes data (6 + 2 + 2 + 1 + 1 + 1)
                           (Z.shiftl 2 (Z.land packed 0x07) * 3) in
          Ok (Some t, p)
     else Ok (None, 6 + 2 + 2 + 1 + 1 + 1))
    = Ok (if Z.land packed 0x80 =? 0 then None else Some gct, p) /\
    at_pos data p (ext ++ concat chunks ++ [0x3b])).
  { destruct Hgct as [[-> ->]|[-> Hl]]; cbn [negb].
    - eexists. split; [reflexivity|exact H].
    - rewrite <- Hl. apply at_pos_readBytes in H as [E H]. rewrite E.
      cbn [rbind]. eexists. split; [reflexivity|exact H]. }
  destruct Htable as (p & -> & Hp). cbn [rbind]. clear H.
  set (st0 := mkParseState p 0 0 0 [] [] None false false false).
  change p with (ps_position st0) in Hp.
  assert (Hext' : exists st1 e,
    (e <= 1)%nat /\ (e <= length ext)%nat /\
    (forall fuel, while_loop (e + fuel) (parse_step data) st0
                  = while_loop fuel (parse_step data) st1) /\
    ps_fields st1 = (loops, 0, 0, names, false) /\
    at_pos data (ps_position st1) (concat chunks ++ [0x3b])).
  { destruct Hext as [(-> & -> & ->)|(-> & Hl & ->)].
    - exists st0, 0%nat. split; [lia|]. split; [simpl; lia|].
      split; [reflexivity|]. auto.
    - destruct (pstep_animation_info data st0 loops _ Hp Hl)
        as (st1 & E & Hf & _ & H1).
      exists st1, 1%nat. split; [lia|]. split; [simpl; lia|]. split.
      { intros fuel. apply while_loop_continue. exact E. }
      auto. }
  destruct Hext' as (st1 & e & He & He' & E1 & Hf1 & H1).
  destruct (info_records_read data durations chunks Hchunks st1 [0x3b] H1)
    as (st2 & n & Hn & E2 & Hf2 & _ & H2).
  replace (S (length data))
    with (e + (n + S (length data - e - n)))%nat
    by (unfold len in Hn; lia).
  rewrite E1, E2.
  rewrite (while_loop_break _ _ _ _ (pstep_trailer data st2 H2)).
  cbn [rbind]. eexists. split; [reflexivity|].
  apply ps_fields_inv in Hf1 as (A1 & A2 & A3 & A4 & A5).
  apply ps_fields_inv in Hf2 as (B1 & B2 & B3 & B4 & B5).
  cbn [gi_width gi_height gi_frameCount gi_loops gi_duration gi_size
       gi_version gi_globalColorTable gi_metadata m_extensions
       m_hasInterlacedFrames ps_at ps_loops ps_frameCount ps_totalDuration
       ps_extensions ps_hasInterlacedFrames].
  repeat split; try reflexivity; try congruence; lia.
Qed.

(** *** The files of [writeStaticGif] and [writeAnimatedGif] *)

Lemma encodeStatic_info_inv image globalOptions imageOptions bytes :
  encodeStatic image globalOptions imageOptions = Ok bytes ->
  dimensions_ok (i_width image) (i_height image) /\
  exists packed bg par gct chunk,
    bytes = [0x47; 0x49; 0x46; 0x38; 0x39; 0x61]
              ++ le16 (i_width image) ++ le16 (i_height image)
              ++ [packed; bg; par] ++ gct ++ []
              ++ concat [chunk] ++ [0x3b] /\
    (((Z.land packed 0x80 =? 0) = true /\ gct = []) \/
     ((Z.land packed 0x80 =? 0) = false /\
      len gct = Z.shiftl 2 (Z.land packed 0x07) * 3)) /\
    info_record (encoded_duration imageOptions) chunk.
Proof.
  unfold encodeStatic.
  destruct (writeStaticGif _ _ _ _) as [[[]|e|] w'] eqn:E; simpl;
    try discriminate.
  intros [= <-]. unfold writeStaticGif in E.
  apply wbind_ok_inv in E as ([] & w1 & H1 & E).
  apply wbind_ok_inv in E as ([] & w2 & H2 & E).
  apply wbind_ok_inv in E as ([] & w3 & H3 & E).
  apply writeHeader_ok_inv in H1. subst w1.
  apply writeLogicalScreen_exact_inv in H2
    as (Hdim & packed & bg & par & gct & -> & Hgct).
  apply writeImage_info_record in H3 as (chunk & -> & Hrec).
  apply writeTrailer_ok_inv in E. rewrite E. cbn in Hrec |- *.
  split; [exact Hdim|].
  exists packed, bg, par, gct, chunk.
  split; [|auto]. rewrite <- !app_assoc. reflexivity.
Qed.

Lemma encodeAnimated_info_inv images globalOptions animationOptions
    imageOptions bytes :
  encodeAnimated images globalOptions animationOptions imageOptions
    = Ok bytes ->
  let loopCount := Z.max 0 (Z.min 65535 (default 0 (a_loops animationOptions))) in
  exists first packed bg par gct chunks,
    head images = Some first /\
    dimensions_ok (i_width first) (i_height first) /\
    bytes = [0x47; 0x49; 0x46; 0x38; 0x39; 0x61]
              ++ le16 (i_width first) ++ le16 (i_height first)
              ++ [packed; bg; par] ++ gct
              ++ animation_info (Z.land loopCount 0xff)
                   (Z.land (Z.shiftr loopCount 8) 0xff)
              ++ concat chunks ++ [0x3b] /\
    (((Z.land packed 0x80 =? 0) = true /\ gct = []) \/
     ((Z.land packed 0x80 =? 0) = false /\
      len gct = Z.shiftl 2 (Z.land packed 0x07) * 3)) /\
    Forall2 info_record (encoded_durations images 0 imageOptions) chunks.
Proof.
  unfold encodeAnimated.
  destruct (writeAnimatedGif _ _ _ _ _) as [[[]|e|] w'] eqn:E; simpl;
    try discriminate.
  intros [= <-]. unfold writeAnimatedGif in E.
  destruct images as [|first rest]; [discriminate|].
  apply wbind_ok_inv in E as ([] & w1 & H1 & E).
  apply wbind_ok_inv in E as ([] & w2 & H2 & E).
  apply wbind_ok_inv in E as ([] & w3 & H3 & E).
  apply wbind_ok_inv in E as ([] & w4 & H4 & E).
  apply writeHeader_ok_inv in H1. subst w1.
  apply writeLogicalScreen_exact_inv in H2
    as (Hdim & packed & bg & par & gct & -> & Hgct).
  apply writeAnimationInfo_exact_inv in H3. subst w3.
  apply writeImages_info_records in H4 as (chunks & -> & Hrec).
  apply writeTrailer_ok_inv in E. rewrite E. cbn in Hrec |- *.
  exists first, packed, bg, par, gct, chunks.
  split; [reflexivity|]. split; [exact Hdim|].
  split; [|auto]. rewrite <- !app_assoc. reflexivity.
Qed.

(** X11. Whenever [writeStaticGif] succeeds, [readGifInfo] reads the file
    back without an error and reports the width and height of the image,
    one frame, no loop count, no extension, the size of the file and, as
    duration, ten times the frame's delay in centiseconds; [isAnimated]
    answers false. *)
Theorem static_gif_info (image : IndexedImage)
    (globalOptions : GlobalColorTableOptions) (options : ImageOptions)
    (bytes : list Z) :
  encodeStatic image globalOptions options = Ok bytes ->
  exists info,
    readGifInfo bytes = Ok info /\
    gi_width info = i_width image /\ gi_height info = i_height image /\
    gi_frameCount info = 1 /\ gi_loops info = 0 /\
    gi_duration info = msToGifDelay (default 0 (o_delay options)) * 10 /\
    gi_size info = len bytes /\
    gi_version info = [0x38; 0x39; 0x61] /\
    m_extensions (gi_metadata info) = [] /\
    isAnimated bytes = Ok false.
Proof.
  intros H.
  apply encodeStatic_info_inv in H
    as ([Hw Hh] & packed & bg & par & gct & chunk & Hbytes & Hgct & Hrec).
  destruct (parse_of_records (i_width image) (i_height image) packed bg par 0
              gct [] [] [encoded_duration options] [chunk]
              ltac:(lia) ltac:(lia) Hgct ltac:(left; auto)
              ltac:(constructor; [exact Hrec|constructor]) bytes Hbytes)
    as (info & E & H1 & H2 & H3 & H4 & H5 & H6 & H7 & _ & H9 & _).
  exists info. unfold isAnimated. rewrite E. cbn [rbind]. rewrite H3.
  repeat split; try assumption.
  rewrite H5. unfold sum_durations, encoded_duration. cbn [foldr]. lia.
Qed.

(** X12. Whenever [writeAnimatedGif] succeeds, [readGifInfo] reads the
    file back without an error and reports the width and height of the
    first image, as many frames as images were given, the loop count
    clamped to 0..65535, the Netscape extension, the size of the file and,
    as duration, the sum over the frames of ten times the delay in
    centiseconds; [isAnimated] holds exactly when there is more than one
    image. *)
Theorem animated_gif_info (images : list IndexedImage)
    (globalOptions : GlobalColorTableOptions)
    (animationOptions : AnimationOptions) (imageOptions : list ImageOptions)
    (bytes : list Z) :
  encodeAnimated images globalOptions animationOptions imageOptions
    = Ok bytes ->
  exists info first,
    head images = Some first /\
    readGifInfo bytes = Ok info /\
    gi_width info = i_width first /\ gi_height info = i_height first /\
    gi_frameCount info = len images /\
    gi_loops info
    = Z.max 0 (Z.min 65535 (default 0 (a_loops animationOptions))) /\
    gi_duration info
    = sum_durations (encoded_durations images 0 imageOptions) /\
    gi_size info = len bytes /\
    m_extensions (gi_metadata info) = [NetscapeAnimation] /\
    isAnimated bytes = Ok (1 <? len images).
Proof.
  intros H.
  apply encodeAnimated_info_inv in H
    as (first & packed & bg & par & gct & chunks & Hfirst & [Hw Hh] & Hbytes
        & Hgct & Hrec).
  set (loopCount := Z.max 0 (Z.min 65535 (default 0 (a_loops animationOptions))))
    in *.
  assert (Hl : 0 <= loopCount <= 65535) by (unfold loopCount; lia).
  destruct (parse_of_records (i_width first) (i_height first) packed bg par
              loopCount gct _ [NetscapeAnimation] _ chunks
              ltac:(lia) ltac:(lia) Hgct
              (or_intror (conj eq_refl (conj Hl eq_refl))) Hrec bytes Hbytes)
    as (info & E & H1 & H2 & H3 & H4 & H5 & H6 & _ & _ & H9 & _).
  assert (Hn : len chunks = len images).
  { apply Forall2_length in Hrec. unfold len. rewrite <- Hrec. f_equal.
    clear. generalize 0%nat. induction images as [|x l IH]; intros n;
      simpl; [reflexivity|]. rewrite IH. reflexivity. }
  exists info, first. unfold isAnimated. rewrite E. cbn [rbind].
  rewrite H3, Hn. repeat split; assumption.
Qed.

Lemma static_gif_info_witness :
  exists info,
    readGifInfo
      [71; 73; 70; 56; 57; 97; 2; 0; 1; 0; 240; 0; 0; 9; 9; 9; 0; 0; 0;
       33; 249; 4; 8; 5; 0; 0; 0; 44; 0; 0; 0; 0; 2; 0; 1; 0; 128; 255; 0;
       0; 0; 0; 255; 2; 2; 68; 10; 0; 59] = Ok info /\
    gi_width info = 2 /\ gi_height info = 1 /\
    gi_frameCount info = 1 /\ gi_loops info = 0 /\
    gi_duration info = msToGifDelay (default 0 (Some 50)) * 10 /\
    gi_size info = 49 /\
    gi_version info = [0x38; 0x39; 0x61] /\
    m_extensions (gi_metadata info) = [] /\
    isAnimated
      [71; 73; 70; 56; 57; 97; 2; 0; 1; 0; 240; 0; 0; 9; 9; 9; 0; 0; 0;
       33; 249; 4; 8; 5; 0; 0; 0; 44; 0; 0; 0; 0; 2; 0; 1; 0; 128; 255; 0;
       0; 0; 0; 255; 2; 2; 68; 10; 0; 59] = Ok false.
Proof.
  apply (static_gif_info
           (mkIndexedImage 2 1 [0; 1] [255; 0; 0; 0; 0; 255])
           (mkGlobalOptions (Some [9; 9; 9]) None None None)
           (mkImageOptions None None (Some 50) None None)).
  vm_compute. reflexivity.
Defined.

Lemma animated_gif_info_witness :
  exists info first,
    head [mkIndexedImage 1 1 [0] [255; 0; 0];
          mkIndexedImage 1 1 [0] [0; 255; 0]] = Some first /\
    readGifInfo
      [71; 73; 70; 56; 57; 97; 1; 0; 1; 0; 112; 0; 0; 33; 255; 11; 78; 69;
       84; 83; 67; 65; 80; 69; 50; 46; 48; 3; 1; 255; 255; 0; 33; 249; 4;
       8; 12; 0; 0; 0; 44; 0; 0; 0; 0; 1; 0; 1; 0; 128; 255; 0; 0; 0; 0;
       0; 2; 2; 68; 1; 0; 33; 249; 4; 8; 5; 0; 0; 0; 44; 0; 0; 0; 0; 1; 0;
       1; 0; 128; 0; 255; 0; 0; 0; 0; 2; 2; 68; 1; 0; 59] = Ok info /\
    gi_width info = i_width first /\ gi_height info = i_height first /\
    gi_frameCount info = 2 /\
    gi_loops info = 65535 /\
    gi_duration info = 170 /\
    gi_size info = 91 /\
    m_extensions (gi_metadata info) = [NetscapeAnimation] /\
    isAnimated
      [71; 73; 70; 56; 57; 97; 1; 0; 1; 0; 112; 0; 0; 33; 255; 11; 78; 69;
       84; 83; 67; 65; 80; 69; 50; 46; 48; 3; 1; 255; 255; 0; 33; 249; 4;
       8; 12; 0; 0; 0; 44; 0; 0; 0; 0; 1; 0; 1; 0; 128; 255; 0; 0; 0; 0;
       0; 2; 2; 68; 1; 0; 33; 249; 4; 8; 5; 0; 0; 0; 44; 0; 0; 0; 0; 1; 0;
       1; 0; 128; 0; 255; 0; 0; 0; 0; 2; 2; 68; 1; 0; 59] = Ok true.
Proof.
  apply (animated_gif_info
           [mkIndexedImage 1 1 [0] [255; 0; 0];
            mkIndexedImage 1 1 [0] [0; 255; 0]]
           (mkGlobalOptions None None None None)
           (mkAnimationOptions (Some 70000))
           [mkImageOptions None None (Some 123) None None;
            mkImageOptions None None (Some 46) None None]).
  vm_compute. reflexivity.
Defined.

(** ** reader.ts: the record loops end on every file *)

(** A turn of a record loop that went on has moved the reader forward; no
    turn runs out of fuel. *)
Definition advances {S} (position : S -> Z) (p0 : Z)
    (r : result (step_result S)) : Prop :=
  match r with
  | Ok (Continue s') => p0 < position s'
  | Ok (Break _) => True
  | Throw _ => True
  | OutOfFuel => False
  end.

Lemma readByte_adv data p b p' :
  Forall is_byte data ->
  readByte data p = Ok (b, p') ->
  p' = p + 1 /\ p < len data /\ 0 <= b <= 255.
Proof.
  intros Hd. unfold readByte.
  destruct (len data <=? p) eqn:E; [discriminate|]. apply Z.leb_gt in E.
  intros [= <- <-]. split; [reflexivity|]. split; [exact E|].
  pose proof (byte_at_is_byte data p Hd) as Hb. unfold is_byte in Hb. lia.
Qed.

Lemma readByte_fuel data p : readByte data p <> OutOfFuel.
Proof. unfold readByte. destruct (len data <=? p); discriminate. Qed.

Lemma read16_adv data p v p' :
  Forall is_byte data ->
  read16 data p = Ok (v, p') -> p' = p + 2 /\ p + 1 < len data.
Proof.
  intros Hd. unfold read16.
  destruct (readByte data p) as [[lo q]|e|] eqn:E1; [|discriminate..].
  cbn [rbind].
  destruct (readByte data q) as [[hi q']|e|] eqn:E2; [|discriminate..].
  cbn [rbind]. intros [= <- <-].
  apply (readByte_adv _ _ _ _ Hd) in E1 as (-> & H1 & _).
  apply (readByte_adv _ _ _ _ Hd) in E2 as (-> & H2 & _). lia.
Qed.

Lemma read16_fuel data p : read16 data p <> OutOfFuel.
Proof.
  unfold read16, readByte.
  destruct (len data <=? p); [discriminate|]. cbn [rbind].
  destruct (len data <=? p + 1); discriminate.
Qed.

Lemma readBytes_adv data p count bs p' :
  readBytes data p count = Ok (bs, p') -> p' = p + count /\ p + count <= len data.
Proof.
  unfold readBytes. destruct (len data <? p + count) eqn:E; [discriminate|].
  apply Z.ltb_ge in E. intros [= <- <-]. auto.
Qed.

Lemma readBytes_fuel data p count : readBytes data p count <> OutOfFuel.
Proof. unfold readBytes. destruct (len data <? p + count); discriminate. Qed.

Lemma skipDataSubBlocks_loop_adv data (Hd : Forall is_byte data) fuel :
  forall blockSize p,
  0 <= blockSize -> p <= len data -> len data - p < Z.of_nat fuel ->
  match skipDataSubBlocks_loop fuel data blockSize p with
  | Ok p' => p <= p' <= len data
  | Throw _ => True
  | OutOfFuel => False
  end.
Proof.
  induction fuel as [|fuel IH]; intros blockSize p Hb Hp Hf.
  - lia.
  - cbn [skipDataSubBlocks_loop].
    destruct (0 <? blockSize) eqn:E; [|lia]. apply Z.ltb_lt in E.
    destruct (readByte data (p + blockSize)) as [[b q]|e|] eqn:E1;
      cbn [rbind]; [|exact I|exact (readByte_fuel _ _ E1)].
    apply (readByte_adv _ _ _ _ Hd) in E1 as (-> & H1 & Hb').
    specialize (IH b (p + blockSize + 1) ltac:(lia) ltac:(lia) ltac:(lia)).
    destruct (skipDataSubBlocks_loop fuel data b (p + blockSize + 1));
      [lia|exact I|exact IH].
Qed.

Lemma skipDataSubBlocks_adv data p :
  Forall is_byte data -> 0 <= p ->
  match skipDataSubBlocks data p with
  | Ok p' => p < p' <= len data
  | Throw _ => True
  | OutOfFuel => False
  end.
Proof.
  intros Hd Hp. unfold skipDataSubBlocks.
  destruct (readByte data p) as [[b q]|e|] eqn:E1;
    cbn [rbind]; [|exact I|exact (readByte_fuel _ _ E1)].
  apply (readByte_adv _ _ _ _ Hd) in E1 as (-> & H1 & Hb).
  pose proof (skipDataSubBlocks_loop_adv data Hd (length data) b (p + 1)
                ltac:(lia) ltac:(lia) ltac:(unfold len; lia)) as H.
  destruct (skipDataSubBlocks_loop (length data) data b (p + 1));
    [lia|exact I|exact H].
Qed.

Lemma readDataSubBlocks_loop_adv data (Hd : Forall is_byte data) fuel :
  forall blockSize p acc,
  0 <= blockSize -> p <= len data -> len data - p < Z.of_nat fuel ->
  match readDataSubBlocks_loop fuel data blockSize p acc with
  | Ok (_, p') => p <= p' <= len data
  | Throw _ => True
  | OutOfFuel => False
  end.
Proof.
  induction fuel as [|fuel IH]; intros blockSize p acc Hb Hp Hf.
  - lia.
  - cbn [readDataSubBlocks_loop].
    destruct (0 <? blockSize) eqn:E; [|lia]. apply Z.ltb_lt in E.
    destruct (readBytes data p blockSize) as [[bs q0]|e|] eqn:E0;
      cbn [rbind]; [|exact I|exact (readBytes_fuel _ _ _ E0)].
    apply readBytes_adv in E0 as (-> & H0).
    destruct (readByte data (p + blockSize)) as [[b q]|e|] eqn:E1;
      cbn [rbind]; [|exact I|exact (readByte_fuel _ _ E1)].
    apply (readByte_adv _ _ _ _ Hd) in E1 as (-> & H1 & Hb').
    specialize (IH b (p + blockSize + 1) (acc ++ bs)
                  ltac:(lia) ltac:(lia) ltac:(lia)).
    destruct (readDataSubBlocks_loop fuel data b (p + blockSize + 1) (acc ++ bs))
      as [[? ?]|?|]; [lia|exact I|exact IH].
Qed.

Lemma readDataSubBlocks_adv data p :
  Forall is_byte data -> 0 <= p ->
  match readDataSubBlocks data p with
  | Ok (_, p') => p < p' <= len data
  | Throw _ => True
  | OutOfFuel => False
  end.
Proof.
  intros Hd Hp. unfold readDataSubBlocks.
  destruct (readByte data p) as [[b q]|e|] eqn:E1;
    cbn [rbind]; [|exact I|exact (readByte_fuel _ _ E1)].
  apply (readByte_adv _ _ _ _ Hd) in E1 as (-> & H1 & Hb).
  pose proof (readDataSubBlocks_loop_adv data Hd (length data) b (p + 1) []
                ltac:(lia) ltac:(lia) ltac:(unfold len; lia)) as H.
  destruct (readDataSubBlocks_loop (length data) data b (p + 1) [])
    as [[? ?]|?|]; [lia|exact I|exact H].
Qed.

(** A loop whose turns move forward ends within [length data + 1] turns. *)
Lemma while_loop_advancing {S} (position : S -> Z) (bound : Z)
    (body : S -> result (step_result S)) :
  (forall s, 0 <= position s -> advances position (position s) (body s)) ->
  (forall s, bound <= position s -> exists s', body s = Ok (Break s')) ->
  forall fuel s,
    0 <= position s ->
    Z.max 0 (bound - position s) < Z.of_nat fuel ->
    while_loop fuel body s <> OutOfFuel.
Proof.
  intros Hadv Hend. induction fuel as [|fuel IH]; intros s Hp Hf; [lia|].
  cbn [while_loop]. specialize (Hadv s Hp).
  destruct (Z_le_gt_dec bound (position s)) as [Hge|Hlt].
  - destruct (Hend s Hge) as [s' ->]. discriminate.
  - destruct (body s) as [[s'|s']|e|]; cbn [advances] in Hadv;
      [|discriminate|discriminate|contradiction].
    apply IH; lia.
Qed.

Ltac read_next Hd :=
  match goal with
  | |- context [readByte ?d ?p] =>
      let E := fresh "E" in
      destruct (readByte d p) as [[? ?]|?|] eqn:E; cbn [rbind];
      [apply (readByte_adv _ _ _ _ Hd) in E as (-> & ? & ?)
      |first [exact I|discriminate]|destruct (readByte_fuel _ _ E)]
  | |- context [read16 ?d ?p] =>
      let E := fresh "E" in
      destruct (read16 d p) as [[? ?]|?|] eqn:E; cbn [rbind];
      [apply (read16_adv _ _ _ _ Hd) in E as (-> & ?)
      |first [exact I|discriminate]|destruct (read16_fuel _ _ E)]
  | |- context [readBytes ?d ?p ?n] =>
      let E := fresh "E" in
      destruct (readBytes d p n) as [[? ?]|?|] eqn:E; cbn [rbind];
      [apply readBytes_adv in E as (-> & ?)
      |first [exact I|discriminate]|destruct (readBytes_fuel _ _ _ E)]
  | |- context [skipDataSubBlocks ?d ?p] =>
      let H := fresh "H" in
      pose proof (skipDataSubBlocks_adv d p Hd ltac:(lia)) as H;
      destruct (skipDataSubBlocks d p) as [?|?|]; cbn [rbind];
      [|first [exact I|discriminate]|contradiction]
  | |- context [readDataSubBlocks ?d ?p] =>
      let H := fresh "H" in
      pose proof (readDataSubBlocks_adv d p Hd ltac:(lia)) as H;
      destruct (readDataSubBlocks d p) as [[? ?]|?|]; cbn [rbind];
      [|first [exact I|discriminate]|contradiction]
  | |- context [if ?c then _ else _] => destruct c; cbn [rbind]
  end.

Lemma parse_step_advances data (Hd : Forall is_byte data) (st : parse_state) :
  0 <= ps_position st ->
  advances ps_position (ps_position st) (parse_step data st).
Proof.
  intros Hp. unfold parse_step.
  destruct (negb (ps_position st <? len data)); [exact I|].
  read_next Hd.
  destruct (_ =? 0x21).
  - read_next Hd.
    destruct (_ =? 0xff).
    { unfold parseApplicationExtension. cbv zeta.
      repeat read_next Hd;
        cbn [advances ps_position ps_at ps_extension]; lia. }
    destruct (_ =? 0xf9).
    { unfold parseGraphicsControl. cbv zeta.
      repeat read_next Hd;
        cbn [advances ps_position ps_at ps_extension]; lia. }
    repeat read_next Hd;
      cbn [advances ps_position ps_at ps_extension]; lia.
  - destruct (_ =? 0x2c).
    { unfold parseImage. cbv zeta.
      read_next Hd.
      match goal with
      | |- context [Z.shiftl 2 (Z.land ?x 7)] =>
          assert (Hsize : 0 <= Z.shiftl 2 (Z.land x 7))
            by (apply Z.shiftl_nonneg; lia)
      end.
      repeat read_next Hd;
        cbn [advances ps_position ps_at ps_extension]; lia. }
    destruct (_ =? 0x3b); exact I.
Qed.

Lemma parse_step_ends data (st : parse_state) :
  len data <= ps_position st -> exists st', parse_step data st = Ok (Break st').
Proof.
  intros H. unfold parse_step.
  replace (ps_position st <? len data) with false
    by (symmetry; apply Z.ltb_ge; exact H).
  eauto.
Qed.

Lemma getFrames_step_advances (sc : screen) (Hd : Forall is_byte (sc_data sc))
    (st : frames_state) :
  0 <= fs_position st ->
  advances fs_position (fs_position st) (getFrames_step sc st).
Proof.
  intros Hp. unfold getFrames_step. cbv zeta.
  destruct (negb (fs_position st <? len (sc_data sc))); [exact I|].
  read_next Hd.
  destruct (_ =? 0x21).
  - read_next Hd.
    destruct (_ =? 0xff).
    { repeat read_next Hd; cbn [advances fs_position with_position]; lia. }
    destruct (_ =? 0xf9).
    { unfold readGraphicsControl. cbv zeta.
      repeat read_next Hd; cbn [advances fs_position with_position]; lia. }
    repeat read_next Hd; cbn [advances fs_position with_position]; lia.
  - destruct (_ =? 0x2c).
    { unfold readImage. cbv zeta.
      do 5 read_next Hd.
      match goal with
      | |- context [Z.shiftl 2 (Z.land ?x 7)] =>
          assert (Hsize : 0 <= Z.shiftl 2 (Z.land x 7))
            by (apply Z.shiftl_nonneg; lia)
      end.
      destruct (Z.land _ 0x80 =? 0); cbn [negb rbind]; repeat read_next Hd;
        match goal with
        | |- context [processImage ?a ?b ?c ?d ?e ?f ?g ?h ?i ?j ?k] =>
            destruct (processImage_adds_frame a b c d e f g h i j k)
              as (st' & fr & -> & _ & Hpos & _)
        end; cbn [rbind advances]; lia. }
    destruct (_ =? 0x3b); exact I.
Qed.

Lemma getFrames_step_ends (sc : screen) (st : frames_state) :
  len (sc_data sc) <= fs_position st ->
  exists st', getFrames_step sc st = Ok (Break st').
Proof.
  intros H. unfold getFrames_step. cbv zeta.
  replace (fs_position st <? len (sc_data sc)) with false
    by (symmetry; apply Z.ltb_ge; exact H).
  eauto.
Qed.

Lemma validateHeader_fuel data : validateHeader data <> OutOfFuel.
Proof.
  unfold validateHeader.
  repeat match goal with
         | |- (if ?c then _ else _) <> _ => destruct c
         end; discriminate.
Qed.

(** Whether a call came to an end: it returned or it threw. *)
Definition ended {A} (r : result A) : Prop :=
  match r with
  | Ok _ | Throw _ => True
  | OutOfFuel => False
  end.

Lemma ended_iff {A} (r : result A) : ended r <-> r <> OutOfFuel.
Proof. destruct r; simpl; split; try tauto; try discriminate; congruence. Qed.

Lemma table_read data p flag size :
  exists r,
    (if flag : bool
     then let! (t, p) := readBytes data p size in Ok (Some t, p)
     else Ok (None, p)) = r /\
    match r with
    | Ok (_, p') => p' = (if flag then p + size else p)
    | Throw _ => True
    | OutOfFuel => False
    end.
Proof.
  destruct flag.
  - destruct (readBytes data p size) as [[t q]|e|] eqn:E; cbn [rbind];
      eexists; (split; [reflexivity|]); cbn.
    + apply readBytes_adv in E as [-> _]. reflexivity.
    + exact I.
    + exact (readBytes_fuel _ _ _ E).
  - eexists. split; [reflexivity|]. reflexivity.
Qed.

(** X13. On every byte array the two entry points of the reader come to
    an end: [readGifInfo] and [getFrames] each return a result or throw,
    however malformed the file is; no record loop, no sub-block loop and
    no run of the LZW decoder goes on for ever. *)
Theorem reader_ends_on_every_file (data : list Z) :
  Forall is_byte data ->
  ended (readGifInfo data) /\ ended (getFrames data) /\
  forall minCodeSize, ended (decompressLZW data minCodeSize).
Proof.
  intros Hd.
  cut (ended (readGifInfo data) /\ ended (getFrames data)).
  { intros [H1 H2]. split; [exact H1|]. split; [exact H2|].
    intros k. apply ended_iff. apply decompressLZW_returns. }
  assert (Hsh : forall x, 0 <= Z.shiftl 2 (Z.land x 7))
    by (intros x; apply Z.shiftl_nonneg; lia).
  split; apply ended_iff.
  - unfold readGifInfo.
    destruct (validateHeader data) as [[]|e|] eqn:Eh; cbn [rbind];
      [|discriminate|destruct (validateHeader_fuel _ Eh)].
    unfold parse. cbv zeta.
    do 5 read_next Hd.
    match goal with
    | |- context [if ?flag then rbind (readBytes ?d ?p ?n) _ else _] =>
        destruct (table_read d p flag n) as (r & -> & Hr)
    end.
    destruct r as [[t q]|e|]; cbn [rbind]; [|discriminate|contradiction].
    match goal with
    | |- context [while_loop ?fuel ?body ?s] =>
        pose proof (while_loop_advancing ps_position (len data) body
                      (parse_step_advances data Hd) (parse_step_ends data)
                      fuel s) as Hloop;
          destruct (while_loop fuel body s) as [st'|e|]
    end; cbn [rbind]; try discriminate.
    exfalso. apply Hloop; [| |reflexivity]; cbn [ps_position].
    + subst q.
      try match goal with
          | |- context [Z.shiftl 2 (Z.land ?x 7)] => pose proof (Hsh x)
          end.
      destruct (negb _); lia.
    + subst q.
      try match goal with
          | |- context [Z.shiftl 2 (Z.land ?x 7)] => pose proof (Hsh x)
          end.
      unfold len in *. destruct (negb _); lia.
  - unfold getFrames.
    destruct (validateHeader data) as [[]|e|] eqn:Eh; cbn [rbind];
      [|discriminate|destruct (validateHeader_fuel _ Eh)].
    cbv zeta.
    do 5 read_next Hd.
    match goal with
    | |- context [if ?flag then rbind (readBytes ?d ?p ?n) _ else _] =>
        destruct (table_read d p flag n) as (r & -> & Hr)
    end.
    destruct r as [[t q]|e|]; cbn [rbind]; [|discriminate|contradiction].
    match goal with
    | |- context [while_loop ?fuel (getFrames_step ?sc) ?s] =>
        pose proof (while_loop_advancing fs_position (len data)
                      (getFrames_step sc)
                      (getFrames_step_advances sc Hd)
                      (getFrames_step_ends sc) fuel s) as Hloop;
          destruct (while_loop fuel (getFrames_step sc) s) as [st'|e|]
    end; cbn [rbind]; try discriminate.
    exfalso. apply Hloop; [| |reflexivity]; cbn [fs_position].
    + subst q.
      try match goal with
          | |- context [Z.shiftl 2 (Z.land ?x 7)] => pose proof (Hsh x)
          end.
      destruct (negb _); lia.
    + subst q.
      try match goal with
          | |- context [Z.shiftl 2 (Z.land ?x 7)] => pose proof (Hsh x)
          end.
      unfold len in *. destruct (negb _); lia.
Qed.

Lemma reader_ends_on_every_file_witness :
  ended (readGifInfo [71; 73; 70; 56; 57; 97; 1; 0; 1; 0; 128; 0; 0; 33; 249]) /\
  ended (getFrames [71; 73; 70; 56; 57; 97; 1; 0; 1; 0; 128; 0; 0; 33; 249]) /\
  forall minCodeSize,
    ended (decompressLZW
             [71; 73; 70; 56; 57; 97; 1; 0; 1; 0; 128; 0; 0; 33; 249]
             minCodeSize).
Proof.
  apply reader_ends_on_every_file.
  repeat (constructor; [unfold is_byte; lia|]). constructor.
Defined.

(** ** reader.ts: drawing stays inside the frame *)

(** The byte [j] of a canvas of [canvasWidth] columns belongs to a pixel
    of the rectangle of the frame. *)
Definition in_frame (canvasWidth left top width height : Z) (j : nat) : Prop :=
  let pixel := Z.of_nat j / 4 in
  left <= pixel mod canvasWidth < left + width /\
  top <= pixel / canvasWidth < top + height.

Lemma set_at_lookup_ne (a : list Z) (i v : Z) (j : nat) :
  Z.of_nat j <> i -> set_at a i v !! j = a !! j.
Proof.
  intros H. unfold set_at. destruct (i <? 0) eqn:E; [reflexivity|].
  apply Z.ltb_ge in E. apply list_lookup_insert_ne. lia.
Qed.

Lemma set_rgba_lookup_ne (canvas : list Z) (i r g b a : Z) (j : nat) :
  Z.of_nat j < i \/ i + 3 < Z.of_nat j ->
  set_rgba canvas i r g b a !! j = canvas !! j.
Proof.
  intros H. unfold set_rgba. rewrite !set_at_lookup_ne by lia. reflexivity.
Qed.

Lemma pixel_of_byte (cw cx cy : Z) (j : nat) :
  0 <= cx < cw -> 0 <= cy ->
  (cy * cw + cx) * 4 <= Z.of_nat j <= (cy * cw + cx) * 4 + 3 ->
  (Z.of_nat j / 4) mod cw = cx /\ (Z.of_nat j / 4) / cw = cy.
Proof.
  intros Hx Hy Hj.
  assert (E : Z.of_nat j / 4 = cy * cw + cx).
  { symmetry. apply (Z.div_unique _ 4 _ (Z.of_nat j - (cy * cw + cx) * 4)); lia. }
  rewrite E. split.
  - rewrite Z.add_comm, Z_mod_plus_full. apply Z.mod_small. lia.
  - symmetry. apply (Z.div_unique _ cw _ cx); lia.
Qed.

Lemma foldl_invariant {A} (P : list Z -> Prop) (f : list Z -> A -> list Z)
    (l : list A) :
  (forall c x, In x l -> P c -> P (f c x)) ->
  forall c, P c -> P (foldl f c l).
Proof.
  induction l as [|x l IH]; intros Hf c Hc; [exact Hc|].
  simpl. apply IH.
  - intros c' x' Hin. apply Hf. right. exact Hin.
  - apply Hf; [left; reflexivity|exact Hc].
Qed.

Lemma deinterlaceY_in_range (y height : Z) :
  0 <= y < height -> 0 <= deinterlaceY y height < height.
Proof.
  intros Hy. unfold deinterlaceY.
  pose proof (interlace_passes height ltac:(lia)) as H.
  set (p1 := ceil_div height 8) in *.
  set (p2 := ceil_div (height - 4) 8) in *.
  set (p3 := ceil_div (height - 2) 4) in *.
  clearbody p1 p2 p3.
  destruct (y <? p1) eqn:E1; [apply Z.ltb_lt in E1|apply Z.ltb_ge in E1].
  { lia. }
  destruct (y <? p1 + p2) eqn:E2; [apply Z.ltb_lt in E2|apply Z.ltb_ge in E2].
  { lia. }
  destruct (y <? p1 + p2 + p3) eqn:E3;
    [apply Z.ltb_lt in E3|apply Z.ltb_ge in E3]; lia.
Qed.

(** X14. [compositeFrame] keeps the size of the canvas and draws only
    inside the rectangle of the frame: every byte of a pixel outside the
    rectangle [left .. left + width - 1] by [top .. top + height - 1] is
    the byte the canvas had before, whatever the index data, the colour
    table and the interlace flag are. *)
Theorem compositeFrame_stays_in_frame (canvas indexData : list Z)
    (left top width height : Z) (colorTable : option (list Z))
    (transparentIndex : Z) (interlaced : bool) (canvasWidth canvasHeight : Z) :
  0 < canvasWidth -> 0 < width ->
  length (compositeFrame canvas indexData left top width height colorTable
            transparentIndex interlaced canvasWidth canvasHeight)
  = length canvas /\
  forall j : nat,
    ~ in_frame canvasWidth left top width height j ->
    compositeFrame canvas indexData left top width height colorTable
      transparentIndex interlaced canvasWidth canvasHeight !! j
    = canvas !! j.
Proof.
  intros Hcw Hw. unfold compositeFrame.
  set (n := Z.min (len indexData) (width * height)).
  match goal with
  | |- context [foldl ?f canvas (seqZ 0 n)] => set (step := f)
  end.
  apply (foldl_invariant
           (fun c => length c = length canvas /\
                     forall j : nat,
                       ~ in_frame canvasWidth left top width height j ->
                       c !! j = canvas !! j) step (seqZ 0 n));
    [|split; [reflexivity|intros; reflexivity]].
  intros c i Hin [Hlen Hout].
  apply list_elem_of_In, elem_of_seqZ in Hin.
  assert (Hi : 0 <= i < width * height) by (unfold n in Hin; lia).
  assert (Hfx : 0 <= i mod width < width) by (apply Z.mod_pos_bound; lia).
  assert (Hfy : 0 <= i / width < height).
  { split; [apply Z.div_pos; lia|].
    apply Z.div_lt_upper_bound; lia. }
  unfold step. cbv zeta.
  destruct (byte_at indexData i =? transparentIndex); [auto|].
  set (actualY := if interlaced then deinterlaceY (i / width) height
                  else i / width).
  assert (Hay : 0 <= actualY < height).
  { unfold actualY. destruct interlaced; [|exact Hfy].
    apply deinterlaceY_in_range. exact Hfy. }
  destruct ((0 <=? left + i mod width) && (left + i mod width <? canvasWidth)
            && (0 <=? top + actualY) && (top + actualY <? canvasHeight))
    eqn:Ec; [|auto].
  apply andb_true_iff in Ec as [Ec Ec4].
  apply andb_true_iff in Ec as [Ec Ec3].
  apply andb_true_iff in Ec as [Ec1 Ec2].
  apply Z.leb_le in Ec1, Ec3. apply Z.ltb_lt in Ec2, Ec4.
  destruct (_ <? len c); [|auto].
  assert (Hset : forall r g b,
    length (set_rgba c (((top + actualY) * canvasWidth + (left + i mod width)) * 4)
              r g b 255) = length canvas /\
    forall j : nat,
      ~ in_frame canvasWidth left top width height j ->
      set_rgba c (((top + actualY) * canvasWidth + (left + i mod width)) * 4)
        r g b 255 !! j = canvas !! j).
  { intros r g b. split; [rewrite set_rgba_length; exact Hlen|].
    intros j Hj. rewrite set_rgba_lookup_ne; [apply Hout; exact Hj|].
    set (idx := ((top + actualY) * canvasWidth + (left + i mod width)) * 4).
    destruct (Z_lt_ge_dec (Z.of_nat j) idx) as [?|Hge]; [left; assumption|].
    destruct (Z_lt_ge_dec (idx + 3) (Z.of_nat j)) as [?|Hle];
      [right; assumption|].
    exfalso. apply Hj.
    destruct (pixel_of_byte canvasWidth (left + i mod width) (top + actualY) j
                ltac:(lia) ltac:(lia) ltac:(unfold idx in *; lia)) as [E1 E2].
    unfold in_frame. cbv zeta. rewrite E1, E2. lia. }
  destruct colorTable as [ct|]; [|apply Hset].
  destruct (_ <? len ct); apply Hset.
Qed.

Lemma compositeFrame_stays_in_frame_witness :
  length (compositeFrame [1; 2; 3; 4; 5; 6; 7; 8] [0] 1 0 1 1
            (Some [9; 9; 9]) (-1) false 2 1)
  = length [1; 2; 3; 4; 5; 6; 7; 8] /\
  forall j : nat,
    ~ in_frame 2 1 0 1 1 j ->
    compositeFrame [1; 2; 3; 4; 5; 6; 7; 8] [0] 1 0 1 1
      (Some [9; 9; 9]) (-1) false 2 1 !! j
    = [1; 2; 3; 4; 5; 6; 7; 8] !! j.
Proof.
  apply (compositeFrame_stays_in_frame [1; 2; 3; 4; 5; 6; 7; 8] [0] 1 0 1 1
           (Some [9; 9; 9]) (-1) false 2 1); lia.
Defined.

(** The four bytes [clearFrameArea] writes into a pixel: the background
    colour of the global table, opaque, or transparent black when there
    is none. *)
Definition clearColor (globalColorTable : option (list Z))
    (backgroundColorIndex : Z) : list Z :=
  match backgroundColor globalColorTable backgroundColorIndex with
  | Some (r, g, b) => [r; g; b; 255]
  | None => [0; 0; 0; 0]
  end.

Lemma set_at_lookup_eq (a : list Z) (i v : Z) :
  0 <= i < len a -> set_at a i v !! Z.to_nat i = Some v.
Proof.
  intros H. unfold set_at.
  replace (i <? 0) with false by (symmetry; apply Z.ltb_ge; lia).
  apply list_lookup_insert_eq. unfold len in H. lia.
Qed.

Lemma set_rgba_lookup_at (canvas : list Z) (i r g b a : Z) (k : nat) :
  0 <= i -> i + 3 < len canvas -> (k < 4)%nat ->
  set_rgba canvas i r g b a !! (Z.to_nat i + k)%nat = [r; g; b; a] !! k.
Proof.
  intros Hi Hl Hk. unfold set_rgba.
  assert (Hlen : forall c j v, len (set_at c j v) = len c)
    by (intros; unfold len; rewrite set_at_length; reflexivity).
  destruct k as [|[|[|[|k]]]]; [| | |  |lia]; cbn [lookup list_lookup].
  - rewrite !set_at_lookup_ne by lia. rewrite Nat.add_0_r.
    rewrite set_at_lookup_eq by lia. reflexivity.
  - rewrite !set_at_lookup_ne by lia.
    replace (Z.to_nat i + 1)%nat with (Z.to_nat (i + 1)) by lia.
    rewrite set_at_lookup_eq by (rewrite Hlen; lia). reflexivity.
  - rewrite !set_at_lookup_ne by lia.
    replace (Z.to_nat i + 2)%nat with (Z.to_nat (i + 2)) by lia.
    rewrite set_at_lookup_eq by (rewrite !Hlen; lia). reflexivity.
  - replace (Z.to_nat i + 3)%nat with (Z.to_nat (i + 3)) by lia.
    rewrite set_at_lookup_eq by (rewrite !Hlen; lia). reflexivity.
Qed.

Lemma foldl_establish {A} (L T : list Z -> Prop) (f : list Z -> A -> list Z)
    (l : list A) (x0 : A) :
  (forall c x, In x l -> L c -> L (f c x)) ->
  (forall c x, In x l -> L c -> T c -> T (f c x)) ->
  (forall c, L c -> T (f c x0)) ->
  In x0 l ->
  forall c, L c -> T (foldl f c l).
Proof.
  induction l as [|x l IH]; intros HL HT H0 Hin c Hc; [destruct Hin|].
  simpl. destruct Hin as [->|Hin].
  - apply (foldl_invariant (fun c => L c /\ T c) f l).
    + intros c' x' Hx' [H1 H2]. split.
      * apply HL; [right; exact Hx'|exact H1].
      * apply HT; [right; exact Hx'|exact H1|exact H2].
    + split; [apply HL; [left; reflexivity|exact Hc]|apply H0; exact Hc].
  - apply IH; try assumption.
    + intros c' x' Hx'. apply HL. right. exact Hx'.
    + intros c' x' Hx'. apply HT. right. exact Hx'.
    + apply HL; [left; reflexivity|exact Hc].
Qed.

(** X15. [clearFrameArea] keeps the size of the canvas, leaves every byte
    of a pixel outside the rectangle of the frame as it was, and sets
    every pixel of the rectangle that lies on the canvas to the background
    colour of the global table with alpha 255, or to transparent black
    when the table has no such entry. *)
Theorem clearFrameArea_clears_the_frame (canvas : list Z)
    (left top width height : Z) (globalColorTable : option (list Z))
    (backgroundColorIndex canvasWidth : Z) :
  0 < canvasWidth ->
  length (clearFrameArea canvas left top width height globalColorTable
            backgroundColorIndex canvasWidth) = length canvas /\
  (forall j : nat,
     ~ in_frame canvasWidth left top width height j ->
     clearFrameArea canvas left top width height globalColorTable
       backgroundColorIndex canvasWidth !! j = canvas !! j) /\
  (forall x y : Z,
     left <= x < left + width -> top <= y < top + height ->
     0 <= x < canvasWidth -> 0 <= y ->
     (y * canvasWidth + x) * 4 + 3 < len canvas ->
     forall k : nat, (k < 4)%nat ->
       clearFrameArea canvas left top width height globalColorTable
         backgroundColorIndex canvasWidth
         !! (Z.to_nat ((y * canvasWidth + x) * 4) + k)%nat
       = clearColor globalColorTable backgroundColorIndex !! k).
Proof.
  intros Hcw. unfold clearFrameArea, clearColor.
  set (bg := match backgroundColor globalColorTable backgroundColorIndex with
             | Some (r, g, b) => (r, g, b, 255)
             | None => (0, 0, 0, 0)
             end).
  assert (Hbg : match backgroundColor globalColorTable backgroundColorIndex with
                | Some (r, g, b) => [r; g; b; 255]
                | None => [0; 0; 0; 0]
                end = (let '(r, g, b, a) := bg in [r; g; b; a])).
  { unfold bg. destruct (backgroundColor _ _) as [[[r g] b]|]; reflexivity. }
  rewrite Hbg. clearbody bg. clear Hbg. destruct bg as [[[bgR bgG] bgB] bgA].
  match goal with
  | |- context [foldl (fun c y => foldl (@?f y) c (seqZ 0 width)) canvas _] =>
      set (step := f)
  end.
  set (L := fun c : list Z =>
              length c = length canvas /\
              forall j : nat,
                ~ in_frame canvasWidth left top width height j ->
                c !! j = canvas !! j).
  assert (Hstep : forall y x c,
            In y (seqZ 0 height) -> In x (seqZ 0 width) ->
            L c -> L (step y c x)).
  { intros y x c Hy Hx [Hlen Hout].
    apply list_elem_of_In, elem_of_seqZ in Hy, Hx.
    unfold step. cbv zeta.
    destruct ((0 <=? left + x) && (left + x <? canvasWidth) && (0 <=? top + y))
      eqn:Ec; [|split; assumption].
    apply andb_true_iff in Ec as [Ec Ec3].
    apply andb_true_iff in Ec as [Ec1 Ec2].
    apply Z.leb_le in Ec1, Ec3. apply Z.ltb_lt in Ec2.
    destruct (_ <? len c); [|split; assumption].
    split; [rewrite set_rgba_length; exact Hlen|].
    intros j Hj. rewrite set_rgba_lookup_ne; [apply Hout; exact Hj|].
    set (idx := ((top + y) * canvasWidth + (left + x)) * 4).
    destruct (Z_lt_ge_dec (Z.of_nat j) idx) as [?|Hge]; [left; assumption|].
    destruct (Z_lt_ge_dec (idx + 3) (Z.of_nat j)) as [?|Hle];
      [right; assumption|].
    exfalso. apply Hj.
    destruct (pixel_of_byte canvasWidth (left + x) (top + y) j
                ltac:(lia) ltac:(lia) ltac:(unfold idx in *; lia)) as [E1 E2].
    unfold in_frame. cbv zeta. rewrite E1, E2. lia. }
  assert (Hrow : forall y c,
            In y (seqZ 0 height) -> L c ->
            L (foldl (step y) c (seqZ 0 width))).
  { intros y c Hy Hc.
    apply (foldl_invariant L (step y) (seqZ 0 width)); [|exact Hc].
    intros c' x Hx Hc'. apply Hstep; assumption. }
  assert (HL : L (foldl (fun c y => foldl (step y) c (seqZ 0 width)) canvas
                    (seqZ 0 height))).
  { apply (foldl_invariant L (fun c y => foldl (step y) c (seqZ 0 width))
             (seqZ 0 height)).
    - intros c y Hy Hc. apply Hrow; assumption.
    - split; [reflexivity|intros; reflexivity]. }
  split; [exact (proj1 HL)|]. split; [exact (proj2 HL)|].
  intros x y Hx Hy Hxc Hyc Hfit k Hk.
  set (idx := (y * canvasWidth + x) * 4) in *.
  set (T := fun c : list Z =>
              forall k : nat, (k < 4)%nat ->
                c !! (Z.to_nat idx + k)%nat = [bgR; bgG; bgB; bgA] !! k).
  assert (Hidx : 0 <= idx) by (unfold idx; nia).
  assert (Hkeep : forall y' x' c,
            In y' (seqZ 0 height) -> In x' (seqZ 0 width) ->
            L c -> T c -> T (step y' c x')).
  { intros y' x' c Hy' Hx' [Hlen _] HT.
    apply list_elem_of_In, elem_of_seqZ in Hy', Hx'.
    unfold step. cbv zeta.
    destruct ((0 <=? left + x') && (left + x' <? canvasWidth)
              && (0 <=? top + y')) eqn:Ec; [|exact HT].
    apply andb_true_iff in Ec as [Ec Ec3].
    apply andb_true_iff in Ec as [Ec1 Ec2].
    apply Z.leb_le in Ec1, Ec3. apply Z.ltb_lt in Ec2.
    destruct (_ <? len c); [|exact HT].
    intros k' Hk'.
    set (idx' := ((top + y') * canvasWidth + (left + x')) * 4).
    destruct (Z.eq_dec idx' idx) as [->|Hne].
    - apply set_rgba_lookup_at; [exact Hidx| |exact Hk'].
      unfold len in *. rewrite Hlen. exact Hfit.
    - rewrite set_rgba_lookup_ne; [apply HT; exact Hk'|].
      assert (0 <= idx') by (unfold idx'; nia).
      assert (Hm : idx' mod 4 = 0)
        by (unfold idx'; apply Z_mod_mult).
      assert (Hm' : idx mod 4 = 0)
        by (unfold idx; apply Z_mod_mult).
      clearbody idx idx'. apply Z.mod_divide in Hm, Hm'; try lia.
      destruct Hm as [a ->], Hm' as [b ->]. lia. }
  assert (Hmake : forall c, L c -> T (step (y - top) c (x - left))).
  { intros c [Hlen _]. unfold step. cbv zeta.
    replace (left + (x - left)) with x by lia.
    replace (top + (y - top)) with y by lia.
    replace ((0 <=? x) && (x <? canvasWidth) && (0 <=? y)) with true.
    2:{ symmetry. rewrite !andb_true_iff.
        repeat split; [apply Z.leb_le|apply Z.ltb_lt|apply Z.leb_le]; lia. }
    fold idx.
    replace (idx <? len c) with true
      by (symmetry; apply Z.ltb_lt; unfold len in *; rewrite Hlen; lia).
    intros k' Hk'. apply set_rgba_lookup_at; [exact Hidx| |exact Hk'].
    unfold len in *. rewrite Hlen. exact Hfit. }
  assert (Hiny : In (y - top) (seqZ 0 height))
    by (apply list_elem_of_In, elem_of_seqZ; lia).
  assert (Hinx : In (x - left) (seqZ 0 width))
    by (apply list_elem_of_In, elem_of_seqZ; lia).
  apply (foldl_establish L T (fun c y => foldl (step y) c (seqZ 0 width))
           (seqZ 0 height) (y - top)); try assumption.
  - intros c y' Hy' Hc. apply Hrow; assumption.
  - intros c y' Hy' Hc HT.
    apply (foldl_invariant (fun c => L c /\ T c) (step y') (seqZ 0 width));
      [|split; assumption].
    intros c' x' Hx' [H1 H2]. split; [apply Hstep|apply Hkeep]; assumption.
  - intros c Hc.
    apply (foldl_establish L T (step (y - top)) (seqZ 0 width) (x - left));
      try assumption.
    + intros c' x' Hx' Hc'. apply Hstep; assumption.
    + intros c' x' Hx' Hc' HT'. apply Hkeep; assumption.
  - split; [reflexivity|intros; reflexivity].
Qed.

Lemma clearFrameArea_clears_the_frame_witness :
  length (clearFrameArea [1; 2; 3; 4; 5; 6; 7; 8] 1 0 1 1 (Some [7; 8; 9]) 0 2)
  = length [1; 2; 3; 4; 5; 6; 7; 8] /\
  (forall j : nat,
     ~ in_frame 2 1 0 1 1 j ->
     clearFrameArea [1; 2; 3; 4; 5; 6; 7; 8] 1 0 1 1 (Some [7; 8; 9]) 0 2 !! j
     = [1; 2; 3; 4; 5; 6; 7; 8] !! j) /\
  (forall x y : Z,
     1 <= x < 1 + 1 -> 0 <= y < 0 + 1 -> 0 <= x < 2 -> 0 <= y ->
     (y * 2 + x) * 4 + 3 < len [1; 2; 3; 4; 5; 6; 7; 8] ->
     forall k : nat, (k < 4)%nat ->
       clearFrameArea [1; 2; 3; 4; 5; 6; 7; 8] 1 0 1 1 (Some [7; 8; 9]) 0 2
         !! (Z.to_nat ((y * 2 + x) * 4) + k)%nat
       = clearColor (Some [7; 8; 9]) 0 !! k).
Proof.
  apply (clearFrameArea_clears_the_frame [1; 2; 3; 4; 5; 6; 7; 8] 1 0 1 1
           (Some [7; 8; 9]) 0 2). lia.
Defined.

Example clearFrameArea_second_pixel :
  clearFrameArea [1; 2; 3; 4; 5; 6; 7; 8] 1 0 1 1 (Some [7; 8; 9]) 0 2
  = [1; 2; 3; 4; 7; 8; 9; 255].
Proof. vm_compute. reflexivity. Qed.

(** ** utils.ts: the two delay conversions *)

(** X16. A delay of [d >= 0] centiseconds converted to milliseconds and
    back is [d] again; a time of [ms >= 0] milliseconds converted to
    centiseconds and back differs from [ms] by at most 5, and is [ms]
    itself when [ms] is a multiple of ten. *)
Theorem delay_conversions_round_trip (d ms : Z) :
  0 <= d -> 0 <= ms ->
  msToGifDelay (gifDelayToMs d) = d /\
  ms - 5 < gifDelayToMs (msToGifDelay ms) <= ms + 5 /\
  (ms mod 10 = 0 -> gifDelayToMs (msToGifDelay ms) = ms).
Proof.
  intros Hd Hms. unfold msToGifDelay, gifDelayToMs, round_div.
  repeat split.
  - Z.div_mod_to_equations. lia.
  - Z.div_mod_to_equations. lia.
  - Z.div_mod_to_equations. lia.
  - intros Hm. Z.div_mod_to_equations. lia.
Qed.

Lemma delay_conversions_round_trip_witness :
  msToGifDelay (gifDelayToMs 7) = 7 /\
  46 - 5 < gifDelayToMs (msToGifDelay 46) <= 46 + 5 /\
  (46 mod 10 = 0 -> gifDelayToMs (msToGifDelay 46) = 46).
Proof. apply (delay_conversions_round_trip 7 46); lia. Defined.

(** ** writer.ts and reader.ts: data sub-blocks *)

Lemma sub_blocks_exact_len fuel : forall c,
  len c <= Z.of_nat fuel ->
  len (sub_blocks fuel c) = len c + ceil_div (len c) 255.
Proof.
  induction fuel as [|fuel IH]; intros c Hc.
  - pose proof (len_nonneg c). destruct c; [reflexivity|].
    rewrite len_cons in *. pose proof (len_nonneg c). lia.
  - destruct (Z_lt_ge_dec (len c) 1) as [Hz|Hpos].
    + destruct c; [reflexivity|].
      rewrite len_cons in Hz. pose proof (len_nonneg c). lia.
    + rewrite sub_blocks_step by lia. rewrite len_cons, len_app.
      specialize (IH (skipn (Z.to_nat (Z.min 255 (len c))) c)).
      rewrite len_firstn by (unfold len in *; lia).
      rewrite len_skipn in IH by (unfold len in *; lia).
      rewrite IH by lia. unfold ceil_div.
      Z.div_mod_to_equations. lia.
Qed.

(** X17. For every byte array, [writeDataSubBlocks] succeeds and frames
    the data in blocks of at most 255 bytes: it appends one size byte for
    every 255 bytes of data, or part thereof.  Once the terminator 0 has
    followed, [readDataSubBlocks] reads the data back exactly and
    [skipDataSubBlocks] skips it, both ending just after the terminator,
    whatever follows in the file. *)
Theorem sub_blocks_round_trip (data tail : list Z) (w : GifWriter) :
  Forall is_byte data ->
  exists w',
    writeDataSubBlocks data w = (Ok tt, w') /\
    len (w_output w') = len (w_output w) + len data + ceil_div (len data) 255 /\
    readDataSubBlocks (w_output w' ++ 0 :: tail) (len (w_output w))
    = Ok (data, len (w_output w') + 1) /\
    skipDataSubBlocks (w_output w' ++ 0 :: tail) (len (w_output w))
    = Ok (len (w_output w') + 1).
Proof.
  intros Hd. unfold writeDataSubBlocks.
  pose proof (len_nonneg data) as Hn.
  rewrite (writeDataSubBlocks_loop_ok (length data) data 0 w Hd)
    by (unfold len in *; lia).
  change (Z.to_nat 0) with 0%nat. rewrite drop_0.
  eexists. split; [reflexivity|]. cbn [w_output w_with_output].
  split.
  { rewrite len_app, sub_blocks_exact_len by (unfold len; lia). lia. }
  assert (H : at_pos ((w_output w ++ sub_blocks (length data) data) ++ 0 :: tail)
                (len (w_output w))
                (sub_blocks (length data) data ++ 0 :: tail)).
  { rewrite <- app_assoc. apply at_pos_start. }
  assert (Hend : forall p',
            at_pos ((w_output w ++ sub_blocks (length data) data) ++ 0 :: tail)
              p' tail ->
            p' = len (w_output w ++ sub_blocks (length data) data) + 1).
  { intros p' Hp. apply at_pos_len in Hp. rewrite len_app, len_cons in Hp.
    lia. }
  split.
  - destruct (at_pos_readDataSubBlocks data _ _ tail H) as (p' & E & Hp).
    rewrite E, (Hend p' Hp). reflexivity.
  - destruct (at_pos_skipDataSubBlocks data _ _ tail H) as (p' & E & Hp).
    rewrite E, (Hend p' Hp). reflexivity.
Qed.

Lemma sub_blocks_round_trip_witness :
  exists w',
    writeDataSubBlocks [1; 2; 3] newGifWriter = (Ok tt, w') /\
    len (w_output w')
    = len (w_output newGifWriter) + len [1; 2; 3] + ceil_div (len [1; 2; 3]) 255 /\
    readDataSubBlocks (w_output w' ++ 0 :: [59]) (len (w_output newGifWriter))
    = Ok ([1; 2; 3], len (w_output w') + 1) /\
    skipDataSubBlocks (w_output w' ++ 0 :: [59]) (len (w_output newGifWriter))
    = Ok (len (w_output w') + 1).
Proof.
  apply (sub_blocks_round_trip [1; 2; 3] [59] newGifWriter).
  repeat (constructor; [unfold is_byte; lia|]). constructor.
Defined.

(** ** writer.ts and reader.ts: the global colour table *)

Lemma writeLogicalScreen_table_inv width height options colors w w' :
  writeLogicalScreen width height options w = (Ok tt, w') ->
  g_colors options = Some colors -> 0 < len colors ->
  dimensions_ok width height /\
  exists s packed bg par,
    calculateColorTableSize (len colors / 3) = Ok s /\
    palette_ok colors /\
    (Z.land packed 0x80 =? 0) = false /\ Z.land packed 0x07 = s /\
    w' = mkGifWriter
           (w_output w ++ le16 width ++ le16 height ++ [packed; bg; par]
              ++ padColorTable colors s)
           (hasWrittenHeader w) true (frameCount w).
Proof.
  intros H Hc Hl.
  destruct (writeLogicalScreen_exact_inv _ _ _ _ _ H) as [Hdim _].
  split; [exact Hdim|].
  unfold writeLogicalScreen, set_hasWrittenLogicalScreen in H.
  apply wbind_ok_inv in H as (w1 & w2 & Hg & H).
  apply w_get_inv in Hg as [-> ->].
  destruct (hasWrittenHeader w) eqn:Ehdr; [|discriminate]. cbn [negb] in H.
  destruct (hasWrittenLogicalScreen w) eqn:Els; [discriminate|].
  apply wbind_ok_inv in H as ([] & w1 & Hd & H).
  apply wlift_ok_inv in Hd as [_ ->].
  apply wbind_ok_inv in H as ([[flag size] padded] & w1 & Ht & H).
  rewrite Hc in Ht.
  replace (0 <? len colors) with true in Ht by (symmetry; apply Z.ltb_lt; lia).
  apply wbind_ok_inv in Ht as ([] & w3 & Hv & Ht).
  apply wlift_ok_inv in Hv as [Hv ->].
  apply wbind_ok_inv in Ht as (s & w3 & Hs & Ht).
  apply wlift_ok_inv in Hs as [Hs ->].
  apply wret_inv in Ht as [[= -> -> ->] ->].
  destruct (validatePalette_spec colors) as [[Hok _]|[_ [t Ht]]];
    [|congruence].
  destruct (padColorTable_len colors s Hok Hs) as [Hs7 Hlen].
  destruct (screen_packed_fields true (default false (g_sorted options)) s Hs7)
    as [Hp1 Hp2].
  winv. injection H as <-.
  do 4 eexists. split; [exact Hs|]. split; [exact Hok|].
  split; [exact Hp1|]. split; [exact Hp2|].
  unfold w_with_output, le16. simpl. rewrite Ehdr. rewrite <- !app_assoc.
  reflexivity.
Qed.

Lemma palette_bytes_app (a b : list RGBColor) :
  palette_bytes (a ++ b) = palette_bytes a ++ palette_bytes b.
Proof. unfold palette_bytes. apply flat_map_app. Qed.

Lemma palette_bytes_black (n : nat) :
  palette_bytes (repeat (mkRGB 0 0 0) n) = repeat 0 (3 * n).
Proof.
  induction n as [|n IH]; [reflexivity|].
  cbn [repeat palette_bytes flat_map]. fold (palette_bytes (repeat (mkRGB 0 0 0) n)).
  rewrite IH. replace (3 * S n)%nat with (S (S (S (3 * n)))) by lia.
  reflexivity.
Qed.

(** The padded table holds the colours, then black entries. *)
Lemma padColorTable_colors (colors : list RGBColor) (s : Z) :
  0 <= s -> len colors <= 2 ^ (s + 1) ->
  padColorTable (palette_bytes colors) s
  = palette_bytes
      (colors ++ repeat (mkRGB 0 0 0) (Z.to_nat (2 ^ (s + 1) - len colors))).
Proof.
  intros Hs Hn. unfold padColorTable. cbv zeta.
  rewrite Z.shiftl_1_l, palette_bytes_len.
  rewrite palette_bytes_app, palette_bytes_black.
  destruct (3 * 2 ^ (s + 1) <=? 3 * len colors) eqn:E.
  - apply Z.leb_le in E.
    replace (Z.to_nat (2 ^ (s + 1) - len colors)) with 0%nat by lia.
    simpl. rewrite app_nil_r. reflexivity.
  - f_equal. f_equal.
    pose proof (palette_bytes_len colors) as Hl. unfold len in *. lia.
Qed.

Lemma tableColors_all (colors : list RGBColor) :
  tableColors (palette_bytes colors) None = colors.
Proof.
  unfold tableColors. cbv zeta. rewrite palette_bytes_len.
  replace (ceil_div (3 * len colors) 3) with (len colors)
    by (unfold ceil_div; Z.div_mod_to_equations; lia).
  apply list_eq. intros i. rewrite list_lookup_fmap.
  destruct (colors !! i) as [c|] eqn:E.
  - rewrite lookup_seqZ_lt
      by (apply lookup_lt_Some in E; unfold len; lia).
    cbn [fmap option_fmap option_map].
    rewrite Z.add_0_l. f_equal.
    exact (palette_color_lookup colors i c E).
  - rewrite lookup_seqZ_ge
      by (apply lookup_ge_None in E; unfold len; lia).
    reflexivity.
Qed.

Lemma seqZ_take (n count : Z) :
  0 <= n -> seqZ 0 (Z.min count n) = take (Z.to_nat count) (seqZ 0 n).
Proof.
  intros Hn. apply list_eq. intros i.
  destruct (Z_lt_ge_dec (Z.of_nat i) (Z.min count n)) as [Hlt|Hge].
  - rewrite lookup_seqZ_lt by lia.
    rewrite lookup_take_lt by lia. rewrite lookup_seqZ_lt by lia. reflexivity.
  - rewrite lookup_seqZ_ge by lia.
    destruct (Z_lt_ge_dec (Z.of_nat i) count) as [Hc|Hc].
    + rewrite lookup_take_lt by lia. rewrite lookup_seqZ_ge by lia. reflexivity.
    + rewrite lookup_take_ge by lia. reflexivity.
Qed.

Lemma tableColors_first (colorTable : list Z) (count : Z) :
  tableColors colorTable (Some count)
  = take (Z.to_nat count) (tableColors colorTable None).
Proof.
  unfold tableColors. cbv zeta.
  rewrite seqZ_take.
  - rewrite fmap_take. reflexivity.
  - pose proof (len_nonneg colorTable). unfold ceil_div.
    Z.div_mod_to_equations. lia.
Qed.

(** X18. When [writeStaticGif] is given a non-empty global colour table
    and succeeds, [getAllColors] on the bytes returns the colours of that
    table in order, followed by black entries up to the next power of
    two, and [getDominantColors] returns the first [count] of them. *)
Theorem global_palette_reads_back (image : IndexedImage)
    (globalOptions : GlobalColorTableOptions) (options : ImageOptions)
    (colors : list RGBColor) (bytes : list Z) :
  encodeStatic image globalOptions options = Ok bytes ->
  g_colors globalOptions = Some (palette_bytes colors) -> colors <> [] ->
  exists s,
    calculateColorTableSize (len colors) = Ok s /\
    getAllColors bytes
    = Ok (colors
            ++ repeat (mkRGB 0 0 0) (Z.to_nat (2 ^ (s + 1) - len colors))) /\
    forall count,
      getDominantColors bytes count
      = Ok (take (Z.to_nat count)
              (colors
                 ++ repeat (mkRGB 0 0 0) (Z.to_nat (2 ^ (s + 1) - len colors)))).
Proof.
  intros H Hc Hne.
  assert (Hl : 0 < len (palette_bytes colors)).
  { rewrite palette_bytes_len. destruct colors; [congruence|].
    rewrite len_cons. pose proof (len_nonneg colors). lia. }
  pose proof H as H0. unfold encodeStatic in H0.
  destruct (writeStaticGif _ _ _ _) as [[[]|e|] w'] eqn:E; simpl in H0;
    try discriminate.
  injection H0 as <-. unfold writeStaticGif in E.
  apply wbind_ok_inv in E as ([] & w1 & H1 & E).
  apply wbind_ok_inv in E as ([] & w2 & H2 & E).
  apply wbind_ok_inv in E as ([] & w3 & H3 & E).
  apply writeHeader_ok_inv in H1. subst w1.
  destruct (writeLogicalScreen_table_inv _ _ _ _ _ _ H2 Hc Hl)
    as ([Hw Hh] & s & packed & bg & par & Hs & Hok & Hp1 & Hp2 & Hw2).
  subst w2.
  apply writeImage_info_record in H3 as (chunk & Hw3 & Hrec). subst w3.
  apply writeTrailer_ok_inv in E. cbn in E.
  rewrite palette_bytes_len in Hs.
  replace (3 * len colors / 3) with (len colors) in Hs
    by (symmetry; rewrite Z.mul_comm; apply Z.div_mul; lia).
  destruct (calculateColorTableSize_ok_inv _ _ Hs) as (_ & Hs7 & Hfit).
  set (all := colors
                ++ repeat (mkRGB 0 0 0) (Z.to_nat (2 ^ (s + 1) - len colors))).
  assert (Htable : padColorTable (palette_bytes colors) s = palette_bytes all)
    by (apply padColorTable_colors; lia).
  assert (Hlen : len (padColorTable (palette_bytes colors) s)
                 = Z.shiftl 2 (Z.land packed 0x07) * 3).
  { rewrite Hp2, shiftl_2_size by lia.
    apply padColorTable_len; [exact Hok|].
    rewrite palette_bytes_len.
    replace (3 * len colors / 3) with (len colors)
      by (symmetry; rewrite Z.mul_comm; apply Z.div_mul; lia).
    exact Hs. }
  destruct (parse_of_records (i_width image) (i_height image) packed bg par 0
              (padColorTable (palette_bytes colors) s) [] []
              [encoded_duration options] [chunk]
              ltac:(lia) ltac:(lia) (or_intror (conj Hp1 Hlen))
              ltac:(left; auto)
              ltac:(constructor; [exact Hrec|constructor]) (w_output w'))
    as (info & Ei & _ & _ & _ & _ & _ & _ & _ & Hgct & _).
  { rewrite E. unfold le16. cbn [app concat].
    rewrite app_nil_r, <- ?app_assoc. reflexivity. }
  rewrite Hp1, Htable in Hgct.
  exists s. split; [exact Hs|]. unfold getAllColors, getDominantColors.
  rewrite Ei. cbn [rbind]. rewrite Hgct. split.
  - rewrite tableColors_all. reflexivity.
  - intros count. rewrite tableColors_first, tableColors_all. reflexivity.
Qed.

Lemma global_palette_reads_back_witness :
  exists s,
    calculateColorTableSize (len [mkRGB 1 2 3; mkRGB 4 5 6; mkRGB 7 8 9])
    = Ok s /\
    getAllColors
      [71; 73; 70; 56; 57; 97; 1; 0; 1; 0; 241; 0; 0; 1; 2; 3; 4; 5; 6; 7;
       8; 9; 0; 0; 0; 44; 0; 0; 0; 0; 1; 0; 1; 0; 128; 255; 0; 0; 0; 0; 0;
       2; 2; 68; 1; 0; 59]
    = Ok ([mkRGB 1 2 3; mkRGB 4 5 6; mkRGB 7 8 9]
            ++ repeat (mkRGB 0 0 0)
                 (Z.to_nat
                    (2 ^ (s + 1)
                     - len [mkRGB 1 2 3; mkRGB 4 5 6; mkRGB 7 8 9]))) /\
    forall count,
      getDominantColors
        [71; 73; 70; 56; 57; 97; 1; 0; 1; 0; 241; 0; 0; 1; 2; 3; 4; 5; 6; 7;
         8; 9; 0; 0; 0; 44; 0; 0; 0; 0; 1; 0; 1; 0; 128; 255; 0; 0; 0; 0; 0;
         2; 2; 68; 1; 0; 59] count
      = Ok (take (Z.to_nat count)
              ([mkRGB 1 2 3; mkRGB 4 5 6; mkRGB 7 8 9]
                 ++ repeat (mkRGB 0 0 0)
                      (Z.to_nat
                         (2 ^ (s + 1)
                          - len [mkRGB 1 2 3; mkRGB 4 5 6; mkRGB 7 8 9])))).
Proof.
  apply (global_palette_reads_back
           (mkIndexedImage 1 1 [0] [255; 0; 0])
           (mkGlobalOptions (Some [1; 2; 3; 4; 5; 6; 7; 8; 9]) None None None)
           noImageOptions).
  - vm_compute. reflexivity.
  - reflexivity.
  - discriminate.
Defined.

(** ** Writing an animation and reading it back *)

(** The picture of an indexed image: each index in its palette colour,
    opaque. *)
Definition rendered (image : IndexedImage) : ImageData :=
  mkImageData (flat_map (rgba_of (i_palette image)) (i_data image))
    (i_width image) (i_height image).

(** Options of a frame that covers the screen and has no transparent
    colour. *)
Definition full_frame_options (options : ImageOptions) : Prop :=
  default 0 (o_left options) = 0 /\ default 0 (o_top options) = 0 /\
  o_transparentIndex options = None /\
  msToGifDelay (default 0 (o_delay options)) <= 65535.

(** What [writeImage] wrote for a frame. *)
Definition frame_chunk (frameCount : Z) (image : IndexedImage)
    (options : ImageOptions) (chunk : list Z) : Prop :=
  exists s c,
    chunk = frame_bytes frameCount image options s c /\
    0 <= s <= 7 /\
    len (padColorTable (i_palette image) s) = 3 * 2 ^ (s + 1) /\
    decompressLZW c (lzwCodeSizeFor (len (i_palette image) / 3))
    = Ok (i_data image).

Fixpoint frame_chunks (images : list IndexedImage) (index : nat)
    (imageOptions : list ImageOptions) (frameCount : Z)
    (chunks : list (list Z)) : Prop :=
  match images, chunks with
  | [], [] => True
  | image :: rest, chunk :: chunks' =>
      frame_chunk frameCount image (nth index imageOptions noImageOptions) chunk
      /\ frame_chunks rest (S index) imageOptions (frameCount + 1) chunks'
  | _, _ => False
  end.

Lemma writeImages_ok images : forall index imageOptions w,
  Forall image_ok images ->
  (forall i, (i < length images)%nat ->
     options_ok (nth (index + i) imageOptions noImageOptions)) ->
  hasWrittenLogicalScreen w = true ->
  exists chunks,
    writeImages images index imageOptions w
    = (Ok tt,
       mkGifWriter (w_output w ++ concat chunks) (hasWrittenHeader w) true
         (frameCount w + len images)) /\
    frame_chunks images index imageOptions (frameCount w) chunks.
Proof.
  induction images as [|image images IH]; intros index imageOptions w Hok Ho Hls.
  - exists []. split; [|exact I]. cbn [writeImages concat].
    rewrite app_nil_r. change (len []) with 0. rewrite Z.add_0_r.
    unfold wret. rewrite <- Hls. destruct w; reflexivity.
  - inversion Hok as [|? ? Hi Hrest]; subst.
    assert (Ho0 : options_ok (nth index imageOptions noImageOptions)).
    { specialize (Ho 0%nat ltac:(simpl; lia)).
      rewrite Nat.add_0_r in Ho. exact Ho. }
    destruct (writeImage_ok image _ w Hi Ho0 Hls)
      as (s & c & _ & Hs7 & Hpad & Hdec & Hw).
    match type of Hw with
    | _ = (_, ?w1) =>
        destruct (IH (S index) imageOptions w1 Hrest) as (chunks & Hws & Hch);
          [|reflexivity|]
    end.
    { intros i Hlt. specialize (Ho (S i) ltac:(simpl; lia)).
      replace (S index + i)%nat with (index + S i)%nat by lia. exact Ho. }
    cbn [w_output hasWrittenHeader frameCount] in Hws, Hch.
    exists (frame_bytes (frameCount w) image
              (nth index imageOptions noImageOptions) s c :: chunks).
    split.
    + cbn [writeImages]. rewrite (wbind_ok _ _ _ _ _ Hw). rewrite Hws.
      cbn [concat]. rewrite <- app_assoc, len_cons.
      f_equal. f_equal. lia.
    + split; [|exact Hch]. exists s, c. auto.
Qed.

Lemma writeAnimationInfo_ok options w :
  hasWrittenLogicalScreen w = true ->
  exists lo hi,
    writeAnimationInfo options w
    = (Ok tt, w_with_output w (w_output w ++ animation_info lo hi)).
Proof.
  intros Hls. unfold writeAnimationInfo. rewrite wbind_get, Hls. cbn [negb].
  cbv zeta.
  set (loopCount := Z.max 0 (Z.min 65535 (default 0 (a_loops options)))).
  rewrite write16BitLE_ok by (unfold loopCount; lia). rewrite wbind_lift.
  exists (Z.land loopCount 0xff), (Z.land (Z.shiftr loopCount 8) 0xff).
  rewrite writeBytes_arr_ok; [reflexivity|].
  unfold NETSCAPE_APPLICATION_IDENTIFIER,
    NETSCAPE_APPLICATION_AUTHENTICATION_CODE, le16.
  cbn [app].
  repeat (constructor; [first [unfold is_byte; lia
                              |pose proof (land_ff_byte loopCount);
                               pose proof (land_ff_byte (Z.shiftr loopCount 8));
                               unfold is_byte; lia]|]).
  constructor.
Qed.

(** *** Reading the frames *)

(** Between two frames the canvas and the saved canvas have the size of
    the screen and no transparent index is set. *)
Definition canvas_inv (width height : Z) (st : frames_state) : Prop :=
  len (fs_canvas st) = width * height * 4 /\
  (forall pc, fs_previousCanvas st = Some pc -> len pc = width * height * 4) /\
  fs_currentTransparentIndex st = -1.

Lemma len_rendering (table data : list Z) :
  len (flat_map (rgba_of table) data) = len data * 4.
Proof.
  induction data as [|v data IH]; [reflexivity|].
  cbn [flat_map]. rewrite len_app, IH, len_cons.
  change (len (rgba_of table v)) with 4. lia.
Qed.

Lemma processImage_full_frame sc st p width height table k c data :
  sc_width sc = width -> sc_height sc = height ->
  0 < width -> canvas_inv width height st ->
  len data = width * height ->
  Forall (fun v => 0 <= v /\ v * 3 + 2 < len table
                   /\ v <> fs_currentTransparentIndex st) data ->
  decompressLZW c k = Ok data ->
  exists st',
    processImage sc st p 0 0 width height (Some table) false k c = Ok st' /\
    fs_position st' = p /\
    fs_frames st'
    = fs_frames st
        ++ [mkGifFrame
              (mkImageData (flat_map (rgba_of table) data) width height)
              (fs_currentDelay st) (fs_currentDisposal st) 0 0
              (fs_currentTransparentIndex st)] /\
    canvas_inv width height st'.
Proof.
  intros Hw Hh Hpos (Hc & Hpc & Hti) Hd Hidx Hdec. unfold processImage.
  rewrite Hdec, Hw, Hh.
  set (canvas := match fs_previousCanvas st with
                 | Some previousCanvas => _
                 | None => _
                 end).
  assert (Hcanvas : len canvas = width * height * 4).
  { unfold canvas. destruct (fs_previousCanvas st) as [pc|] eqn:Epc.
    - destruct (bool_decide _); [apply Hpc; reflexivity|].
      unfold len in *. rewrite disposed_canvas_length. exact Hc.
    - unfold len in *. rewrite disposed_canvas_length. exact Hc. }
  rewrite (compositeFrame_full data table width height
             (fs_currentTransparentIndex st) Hpos Hd Hidx canvas Hcanvas).
  eexists. split; [reflexivity|]. split; [reflexivity|].
  split; [reflexivity|]. unfold canvas_inv.
  cbn [fs_canvas fs_previousCanvas fs_currentTransparentIndex].
  split; [rewrite len_rendering; lia|]. split; [|reflexivity].
  intros pc. destruct (bool_decide _).
  - intros [= <-]. exact Hcanvas.
  - apply Hpc.
Qed.

Lemma table_indices (image : IndexedImage) (s : Z) :
  image_ok image ->
  len (padColorTable (i_palette image) s) = 3 * 2 ^ (s + 1) ->
  Forall (fun v => 0 <= v /\ v * 3 + 2 < len (padColorTable (i_palette image) s)
                   /\ v <> -1) (i_data image).
Proof.
  intros (_ & (Hne & Hmod & Hmax) & _ & Hidx) Hpad.
  eapply Forall_impl; [exact Hidx|]. intros v Hv. cbv beta in Hv.
  rewrite Hpad.
  assert (len (i_palette image) <= 3 * 2 ^ (s + 1)).
  { rewrite <- Hpad. unfold padColorTable.
    destruct (_ <=? _); [lia|]. rewrite len_app.
    pose proof (len_nonneg (repeat 0 (Z.to_nat (Z.shiftl 1 (s + 1) * 3)
                                      - length (i_palette image)))). lia. }
  pose proof (Z.div_mod (len (i_palette image)) 3). lia.
Qed.

Lemma rendering_padded (image : IndexedImage) (s : Z) :
  image_ok image ->
  flat_map (rgba_of (padColorTable (i_palette image) s)) (i_data image)
  = flat_map (rgba_of (i_palette image)) (i_data image).
Proof.
  intros (_ & (Hne & Hmod & Hmax) & _ & Hidx).
  induction Hidx as [|v l Hv _ IH]; [reflexivity|].
  cbn [flat_map]. rewrite IH. f_equal. unfold rgba_of.
  pose proof (Z.div_mod (len (i_palette image)) 3).
  rewrite !byte_at_padColorTable by lia. reflexivity.
Qed.

Lemma frame_chunk_read sc st frameCount image options chunk tail :
  frame_chunk frameCount image options chunk ->
  image_ok image -> full_frame_options options ->
  sc_width sc = i_width image -> sc_height sc = i_height image ->
  at_pos (sc_data sc) (fs_position st) (chunk ++ tail) ->
  canvas_inv (i_width image) (i_height image) st ->
  exists st' n,
    (n <= 2)%nat /\ 2 <= len chunk /\
    (forall fuel,
       while_loop (n + fuel) (getFrames_step sc) st
       = while_loop fuel (getFrames_step sc) st') /\
    map f_imageData (fs_frames st')
    = map f_imageData (fs_frames st) ++ [rendered image] /\
    canvas_inv (i_width image) (i_height image) st' /\
    at_pos (sc_data sc) (fs_position st') tail.
Proof.
  intros (s & c & -> & Hs7 & Hpad & Hdec) Hok (Hleft & Htop & Hti & Hdelay)
    Hscw Hsch H Hinv.
  pose proof Hok as ([Hw Hh] & _ & Hlen & _).
  set (width := i_width image) in *. set (height := i_height image) in *.
  set (table := padColorTable (i_palette image) s) in *.
  set (k := lzwCodeSizeFor (len (i_palette image) / 3)) in *.
  unfold frame_bytes in *. rewrite Hleft, Htop in *.
  fold width height table k in H |- *.
  assert (Hlen_chunk : forall gce : list Z,
            2 <= len (gce ++ image_record (le16 0 ++ le16 0 ++ le16 width
                                             ++ le16 height) s table k c)).
  { intros gce. unfold image_record, len. rewrite !length_app.
    cbn [length]. lia. }
  assert (Hgce : exists st1 e,
    (e <= 1)%nat /\
    (forall fuel, while_loop (e + fuel) (getFrames_step sc) st
                  = while_loop fuel (getFrames_step sc) st1) /\
    fs_frames st1 = fs_frames st /\
    canvas_inv width height st1 /\
    at_pos (sc_data sc) (fs_position st1)
      (image_record (le16 0 ++ le16 0 ++ le16 width ++ le16 height) s table k c
         ++ tail)).
  { destruct (needsGraphicsControl frameCount options).
    - rewrite <- app_assoc in H. unfold gce_bytes in H.
      pose proof (msToGifDelay_nonneg (default 0 (o_delay options))) as Hv0.
      destruct (step_graphics_control_exact sc st _ _ _ _ H
                  (conj Hv0 Hdelay)) as (p1 & E & H1).
      eexists. exists 1%nat. split; [lia|]. split.
      { intros fuel. apply while_loop_continue. exact E. }
      destruct Hinv as (Hc & Hpc & _). unfold canvas_inv.
      cbn [fs_previousCanvas fs_canvas fs_frames fs_currentTransparentIndex
           fs_position].
      rewrite (gce_no_transparency options Hti). auto 10.
    - rewrite app_nil_l in H. exists st, 0%nat. split; [lia|].
      split; [reflexivity|]. auto 10. }
  destruct Hgce as (st1 & e & He & E1 & Hfr & Hinv1 & H1).
  assert (H0 : 0 <= 0 <= 65535) by lia.
  destruct (step_image_exact sc st1 0 0 width height s table k c tail H1
              H0 H0) as (p2 & E2 & H2); try lia.
  pose proof Hinv1 as (_ & _ & Hti1).
  destruct (processImage_full_frame sc st1 p2 width height table k c
              (i_data image) Hscw Hsch) as (st2 & Ep & Hp2 & Hf2 & Hinv2);
    try assumption; try lia.
  { rewrite Hti1. apply table_indices; assumption. }
  rewrite Ep in E2. cbn [rbind] in E2.
  exists st2, (e + 1)%nat. split; [lia|]. split; [apply Hlen_chunk|].
  split.
  { intros fuel. rewrite <- Nat.add_assoc. rewrite E1.
    apply while_loop_continue. exact E2. }
  split; [|split; [exact Hinv2|rewrite Hp2; exact H2]].
  rewrite Hf2, Hfr, map_app. cbn [map f_imageData]. unfold rendered.
  unfold table. rewrite rendering_padded by exact Hok. reflexivity.
Qed.

Lemma frame_chunks_read sc (width height : Z) images :
  forall index imageOptions frameCount chunks st tail,
  frame_chunks images index imageOptions frameCount chunks ->
  Forall image_ok images ->
  Forall (fun image => i_width image = width /\ i_height image = height)
    images ->
  (forall i, (i < length images)%nat ->
     full_frame_options (nth (index + i) imageOptions noImageOptions)) ->
  sc_width sc = width -> sc_height sc = height ->
  at_pos (sc_data sc) (fs_position st) (concat chunks ++ tail) ->
  canvas_inv width height st ->
  exists st' n,
    Z.of_nat n <= len (concat chunks) /\
    (forall fuel,
       while_loop (n + fuel) (getFrames_step sc) st
       = while_loop fuel (getFrames_step sc) st') /\
    map f_imageData (fs_frames st')
    = map f_imageData (fs_frames st) ++ map rendered images /\
    at_pos (sc_data sc) (fs_position st') tail.
Proof.
  induction images as [|image images IH];
    intros index imageOptions frameCount chunks st tail Hch Hok Hdim Ho
      Hscw Hsch H Hinv.
  - destruct chunks; [|destruct Hch]. exists st, 0%nat.
    split; [unfold len; simpl; lia|]. split; [reflexivity|].
    cbn [map]. rewrite app_nil_r. split; [reflexivity|exact H].
  - destruct chunks as [|chunk chunks]; [destruct Hch|].
    destruct Hch as [Hc Hch].
    pose proof (Forall_inv Hok) as Hi.
    pose proof (Forall_inv_tail Hok) as Hrest.
    pose proof (Forall_inv Hdim) as [Hwi Hhi].
    pose proof (Forall_inv_tail Hdim) as Hdrest. cbv beta in Hwi, Hhi.
    rewrite <- Hwi in Hscw. rewrite <- Hhi in Hsch.
    rewrite <- Hwi, <- Hhi in Hinv.
    cbn [concat] in H. rewrite <- app_assoc in H.
    assert (Ho0 : full_frame_options (nth index imageOptions noImageOptions)).
    { specialize (Ho 0%nat ltac:(simpl; lia)).
      rewrite Nat.add_0_r in Ho. exact Ho. }
    destruct (frame_chunk_read sc st _ _ _ _ _ Hc Hi Ho0 Hscw Hsch H Hinv)
      as (st1 & n1 & Hn1 & Hl1 & E1 & Hf1 & Hinv1 & H1).
    rewrite Hwi in Hscw. rewrite Hhi in Hsch. rewrite Hwi, Hhi in Hinv1.
    destruct (IH (S index) imageOptions (frameCount + 1) chunks st1 tail
                Hch Hrest Hdrest) as (st' & n & Hn & E & Hf & H');
      try assumption.
    { intros i Hlt. specialize (Ho (S i) ltac:(simpl; lia)).
      replace (S index + i)%nat with (index + S i)%nat by lia. exact Ho. }
    exists st', (n1 + n)%nat. split.
    { cbn [concat]. rewrite len_app. lia. }
    split.
    { intros fuel. rewrite <- Nat.add_assoc. rewrite E1. apply E. }
    split; [|exact H'].
    rewrite Hf, Hf1. cbn [map]. rewrite <- app_assoc. reflexivity.
Qed.

Lemma step_animation_info_exact sc st lo hi tail :
  at_pos (sc_data sc) (fs_position st) (animation_info lo hi ++ tail) ->
  exists p,
    getFrames_step sc st = Ok (Continue (with_position st p)) /\
    at_pos (sc_data sc) p tail.
Proof.
  intros H. unfold getFrames_step, animation_info in *.
  unfold NETSCAPE_APPLICATION_IDENTIFIER,
    NETSCAPE_APPLICATION_AUTHENTICATION_CODE in H.
  cbn [app] in H. rewrite (at_pos_in_range _ _ _ _ H).
  assert (Hfuel : length (sc_data sc) <> 0%nat).
  { destruct H as (pre & -> & _). rewrite length_app. simpl. lia. }
  read_byte H. change (0x21 =? 0x21) with true. cbv iota.
  read_byte H. change (0xff =? 0xff) with true. cbv iota.
  read_byte H.
  change (at_pos (sc_data sc) (fs_position st + 1 + 1 + 1)
            ([78; 69; 84; 83; 67; 65; 80; 69; 50; 46; 48]
               ++ 3 :: [1; lo; hi] ++ 0 :: tail)) in H.
  pose proof (at_pos_readBytes _ _ _ _ H) as [E H1].
  change (len [78; 69; 84; 83; 67; 65; 80; 69; 50; 46; 48]) with 11 in E, H1.
  rewrite E. clear E H. cbn [rbind].
  change (3 :: [1; lo; hi] ++ 0 :: tail)
    with (sub_blocks (length [1; lo; hi]) [1; lo; hi] ++ 0 :: tail) in H1.
  destruct (at_pos_skipDataSubBlocks [1; lo; hi] _ _ tail H1) as (p' & Es & Hp').
  rewrite Es. cbn [rbind]. exists p'.
  split; [destruct (knownApplicationExtension _ _); reflexivity|exact Hp'].
Qed.

(** X19. An animation of valid indexed images that all have the size of
    the first one, written by [writeAnimatedGif] with valid global options
    and frame options without offset and transparent index (any delay that
    fits, any disposal), is read back by [getFrames] frame for frame: the
    canvas of the i-th frame is the i-th image, each index in its palette
    colour with alpha 255. *)
Theorem animated_gif_round_trip (first : IndexedImage)
    (rest : list IndexedImage) (globalOptions : GlobalColorTableOptions)
    (animationOptions : AnimationOptions) (imageOptions : list ImageOptions) :
  Forall image_ok (first :: rest) ->
  Forall (fun image => i_width image = i_width first
                       /\ i_height image = i_height first) rest ->
  global_ok globalOptions ->
  (forall i, (i <= length rest)%nat ->
     full_frame_options (nth i imageOptions noImageOptions)) ->
  exists bytes frames,
    encodeAnimated (first :: rest) globalOptions animationOptions imageOptions
    = Ok bytes /\
    getFrames bytes = Ok frames /\
    map f_imageData frames = map rendered (first :: rest).
Proof.
  intros Hok Hdim Hg Ho.
  set (images := first :: rest) in *.
  pose proof (Forall_inv Hok) as Hfirst.
  pose proof Hfirst as ([Hw Hh] & _).
  set (width := i_width first) in *. set (height := i_height first) in *.
  (* writing *)
  destruct (writeLogicalScreen_ok width height globalOptions
              (mkGifWriter [0x47; 0x49; 0x46; 0x38; 0x39; 0x61] true false 0)
              (conj Hw Hh) Hg eq_refl eq_refl) as (packed & gct & Hls & Hgct).
  set (bg := Z.land (default 0 (g_backgroundColorIndex globalOptions)) 0xff) in *.
  set (par := Z.land (default 0 (g_pixelAspectRatio globalOptions)) 0xff) in *.
  match type of Hls with
  | _ = (_, ?w2) =>
      destruct (writeAnimationInfo_ok animationOptions w2 eq_refl)
        as (lo & hi & Hai)
  end.
  match type of Hai with
  | _ = (_, ?w3) =>
      destruct (writeImages_ok images 0 imageOptions w3 Hok)
        as (chunks & Hwi & Hch); [|reflexivity|]
  end.
  { intros i Hi. cbn [Nat.add]. destruct (Ho i) as (Hl & Ht & _ & Hd).
    - unfold images in Hi. simpl in Hi. lia.
    - unfold options_ok. lia. }
  cbn [w_output w_with_output hasWrittenHeader frameCount] in Hwi, Hch.
  set (data := [0x47; 0x49; 0x46; 0x38; 0x39; 0x61]
                 ++ le16 width ++ le16 height ++ [packed; bg; par] ++ gct
                 ++ animation_info lo hi ++ concat chunks ++ [0x3b]).
  assert (Henc : encodeAnimated images globalOptions animationOptions
                   imageOptions = Ok data).
  { unfold encodeAnimated, writeAnimatedGif, images. fold images.
    change (i_width first) with width. change (i_height first) with height.
    rewrite (wbind_ok _ _ _ _ _ writeHeader_fresh).
    rewrite (wbind_ok _ _ _ _ _ Hls).
    rewrite (wbind_ok _ _ _ _ _ Hai).
    rewrite (wbind_ok _ _ _ _ _ Hwi).
    unfold writeTrailer, GIF_TRAILER. rewrite writeByte_ok by lia.
    unfold w_append. cbn [w_output frameCount rbind].
    unfold data. rewrite <- !app_assoc. reflexivity. }
  (* reading *)
  assert (Hread : exists frames,
            getFrames data = Ok frames /\
            map f_imageData frames = map rendered images).
  2:{ destruct Hread as (frames & E & Hf). exists data, frames. auto. }
  assert (Hlen : length data
                 = (14 + length gct + length (animation_info lo hi)
                    + length (concat chunks))%nat).
  { unfold data, le16. rewrite !length_app. simpl. lia. }
  pose proof (at_pos_start [0x47; 0x49; 0x46; 0x38; 0x39; 0x61]
                (le16 width ++ le16 height ++ [packed; bg; par] ++ gct
                   ++ animation_info lo hi ++ concat chunks ++ [0x3b])) as H.
  fold data in H. change (len [0x47; 0x49; 0x46; 0x38; 0x39; 0x61]) with 6 in H.
  unfold getFrames. unfold data at 1. rewrite validateHeader_gif89a.
  fold data. cbn [rbind]. unfold le16 in H. cbn [app] in H.
  read_16 H. read_16 H. read_byte H. read_byte H. read_byte H.
  rewrite !le16_read_back by lia.
  assert (Htable : exists gtable p,
    (if negb (Z.land packed 0x80 =? 0)
     then let! (t, p) := readBytes data (6 + 2 + 2 + 1 + 1 + 1)
                           (Z.shiftl 2 (Z.land packed 0x07) * 3) in
          Ok (Some t, p)
     else Ok (None, 6 + 2 + 2 + 1 + 1 + 1)) = Ok (gtable, p) /\
    at_pos data p (animation_info lo hi ++ concat chunks ++ [0x3b])).
  { destruct Hgct as [[-> ->]|[-> Hl]]; cbn [negb].
    - do 2 eexists. split; [reflexivity|exact H].
    - rewrite <- Hl. apply at_pos_readBytes in H as [E H]. rewrite E.
      cbn [rbind]. do 2 eexists. split; [reflexivity|exact H]. }
  destruct Htable as (gtable & p & -> & Hp). cbn [rbind]. clear H.
  set (sc := mkScreen data width height gtable bg).
  set (st0 := mkFramesState p (initialCanvas width height gtable bg) None 100
                DoNotDispose (-1) []).
  change data with (sc_data sc) in Hp.
  change p with (fs_position st0) in Hp.
  assert (Hinv0 : canvas_inv width height st0).
  { unfold canvas_inv, st0. cbn [fs_canvas fs_previousCanvas
      fs_currentTransparentIndex].
    split; [apply initialCanvas_length; nia|]. split; [discriminate|reflexivity]. }
  destruct (step_animation_info_exact sc st0 lo hi _ Hp) as (p1 & E1 & H1).
  set (st1 := with_position st0 p1) in *.
  assert (Hinv1 : canvas_inv width height st1) by exact Hinv0.
  change p1 with (fs_position st1) in H1.
  destruct (frame_chunks_read sc width height images 0 imageOptions 0 chunks
              st1 [0x3b] Hch Hok) as (st2 & n & Hn & E2 & Hf2 & H2);
    try assumption; try reflexivity.
  { constructor; [split; reflexivity|exact Hdim]. }
  { intros i Hi. cbn [Nat.add]. apply Ho. unfold images in Hi. simpl in Hi. lia. }
  replace (S (length data))
    with (1 + (n + S (length data - 1 - n)))%nat
    by (unfold len in Hn; lia).
  change (1 + (n + S (length data - 1 - n)))%nat
    with (S (n + S (length data - 1 - n))).
  rewrite (while_loop_continue _ _ _ _ E1). rewrite E2.
  rewrite (while_loop_break _ _ _ _ (step_trailer sc st2 H2)).
  cbn [rbind]. eexists. split; [reflexivity|].
  cbn [with_position fs_frames]. rewrite Hf2. reflexivity.
Qed.

Lemma animated_gif_round_trip_witness :
  exists bytes frames,
    encodeAnimated
      (mkIndexedImage 2 1 [0; 1] [255; 0; 0; 0; 0; 255]
         :: [mkIndexedImage 2 1 [1; 1] [0; 255; 0; 9; 9; 9]])
      (mkGlobalOptions None None None None) (mkAnimationOptions (Some 3))
      [mkImageOptions None None (Some 50) None None] = Ok bytes /\
    getFrames bytes = Ok frames /\
    map f_imageData frames
    = map rendered
        (mkIndexedImage 2 1 [0; 1] [255; 0; 0; 0; 0; 255]
           :: [mkIndexedImage 2 1 [1; 1] [0; 255; 0; 9; 9; 9]]).
Proof.
  apply (animated_gif_round_trip
           (mkIndexedImage 2 1 [0; 1] [255; 0; 0; 0; 0; 255])
           [mkIndexedImage 2 1 [1; 1] [0; 255; 0; 9; 9; 9]]
           (mkGlobalOptions None None None None) (mkAnimationOptions (Some 3))
           [mkImageOptions None None (Some 50) None None]).
  - repeat (constructor;
            [unfold image_ok, dimensions_ok, palette_ok; simpl;
             split; [lia|]; split; [vm_compute; repeat split; discriminate|];
             split; [reflexivity|]; repeat constructor; vm_compute; discriminate|]).
    constructor.
  - repeat (constructor; [split; reflexivity|]). constructor.
  - exact I.
  - intros i Hi. simpl in Hi.
    destruct i as [|[|i]]; [| |lia];
      (split; [reflexivity|]; split; [reflexivity|]; split; [reflexivity|];
       vm_compute; discriminate).
Defined.

Example animated_gif_round_trip_pixels :
  (let! bytes := encodeAnimated
                   [mkIndexedImage 2 1 [0; 1] [255; 0; 0; 0; 0; 255];
                    mkIndexedImage 2 1 [1; 1] [0; 255; 0; 9; 9; 9]]
                   noGlobalOptions (mkAnimationOptions None) [] in
   let! frames := getFrames bytes in
   Ok (map (fun f => id_data (f_imageData f)) frames))
  = Ok [[255; 0; 0; 255; 0; 0; 255; 255]; [9; 9; 9; 255; 9; 9; 9; 255]].
Proof. vm_compute. reflexivity. Qed.

(** ** gif-result.ts: [selectKthElement] *)

Lemma insert_moves_one (l : list Z) : forall (j : nat) (y a : Z),
  l !! j = Some y -> y :: <[j := a]> l ≡ₚ a :: l.
Proof.
  induction l as [|b l IH]; intros j y a Hj; [discriminate|].
  destruct j as [|j]; cbn in Hj |- *.
  - injection Hj as ->. apply perm_swap.
  - rewrite perm_swap. rewrite (IH j y a Hj). apply perm_swap.
Qed.

Lemma swap_is_permutation (l : list Z) : forall (i j : nat) (x y : Z),
  l !! i = Some x -> l !! j = Some y ->
  <[j := x]> (<[i := y]> l) ≡ₚ l.
Proof.
  induction l as [|a l IH]; intros i j x y Hi Hj; [discriminate|].
  destruct i as [|i], j as [|j]; cbn in Hi, Hj |- *.
  - injection Hi as ->. reflexivity.
  - injection Hi as ->. apply insert_moves_one. exact Hj.
  - injection Hj as ->. apply insert_moves_one. exact Hi.
  - f_equiv. apply IH; assumption.
Qed.

Lemma arr_get_lookup (arr : list Z) (m : Z) :
  0 <= m < len arr -> arr !! Z.to_nat m = Some (arr_get arr m).
Proof.
  intros Hm. unfold arr_get.
  destruct (nth_lookup_or_length arr (Z.to_nat m) 0) as [E|E];
    [exact E|unfold len in Hm; lia].
Qed.

Lemma arr_swap_permutation (arr : list Z) (i j : Z) :
  0 <= i < len arr -> 0 <= j < len arr -> arr_swap arr i j ≡ₚ arr.
Proof.
  intros Hi Hj. unfold arr_swap. cbv zeta.
  apply swap_is_permutation; apply arr_get_lookup; assumption.
Qed.

Lemma arr_get_swap (arr : list Z) (i j m : Z) :
  0 <= i < len arr -> 0 <= j < len arr -> 0 <= m < len arr ->
  arr_get (arr_swap arr i j) m
  = if decide (m = j) then arr_get arr i
    else if decide (m = i) then arr_get arr j
    else arr_get arr m.
Proof.
  intros Hi Hj Hm.
  assert (E : arr_swap arr i j !! Z.to_nat m
              = Some (if decide (m = j) then arr_get arr i
                      else if decide (m = i) then arr_get arr j
                      else arr_get arr m)).
  { unfold arr_swap. cbv zeta. destruct (decide (m = j)) as [->|Hne].
    - apply list_lookup_insert_eq. rewrite length_insert.
      unfold len in *. lia.
    - rewrite list_lookup_insert_ne by lia.
      destruct (decide (m = i)) as [->|Hne'].
      + apply list_lookup_insert_eq. unfold len in *. lia.
      + rewrite list_lookup_insert_ne by lia. apply arr_get_lookup. exact Hm. }
  unfold arr_get at 1. rewrite nth_lookup, E. reflexivity.
Qed.

(** The invariant of the [for] loop of [partition], at index [j]. *)
Definition partition_inv (arr0 : list Z) (left right pivot : Z)
    (arr : list Z) (i j : Z) : Prop :=
  left <= i <= j /\ j <= right /\
  length arr = length arr0 /\ arr ≡ₚ arr0 /\
  arr_get arr right = pivot /\
  (forall m, left <= m < i -> arr_get arr m <= pivot) /\
  (forall m, i <= m < j -> pivot < arr_get arr m) /\
  (forall m, 0 <= m < len arr0 -> m < left \/ right < m ->
     arr_get arr m = arr_get arr0 m) /\
  (forall n, left <= n <= right ->
     exists n', left <= n' <= right /\ arr_get arr n = arr_get arr0 n').

Lemma partition_loop_inv (arr0 : list Z) (left right pivot : Z) :
  0 <= left -> right < len arr0 ->
  forall (m : nat) (arr : list Z) (i j : Z) (arr' : list Z) (i' : Z),
  j + Z.of_nat m = right ->
  partition_inv arr0 left right pivot arr i j ->
  foldl (fun '(arr, i) j =>
           if arr_get arr j <=? pivot
           then (arr_swap arr i j, i + 1)
           else (arr, i))
        (arr, i) (seqZ j (Z.of_nat m)) = (arr', i') ->
  partition_inv arr0 left right pivot arr' i' right.
Proof.
  intros Hl Hr. induction m as [|m IH]; intros arr i j arr' i' Hj Hinv.
  - cbn. intros [= <- <-]. assert (Ej : j = right) by lia. subst j. exact Hinv.
  - rewrite seqZ_cons by lia. cbn [foldl].
    replace (Z.pred (Z.of_nat (S m))) with (Z.of_nat m) by lia.
    destruct Hinv as (Hij & Hjr & Hlen & Hperm & Hpiv & Hlow & Hhigh & Hout
                      & Hwin).
    assert (Hlen' : len arr = len arr0) by (unfold len; rewrite Hlen; reflexivity).
    destruct (arr_get arr j <=? pivot) eqn:E;
      [apply Z.leb_le in E|apply Z.leb_gt in E]; apply IH; try lia.
    + assert (Hget : forall n, 0 <= n < len arr0 ->
                arr_get (arr_swap arr i j) n
                = if decide (n = j) then arr_get arr i
                  else if decide (n = i) then arr_get arr j
                  else arr_get arr n)
        by (intros n Hn; apply arr_get_swap; lia).
      split; [lia|]. split; [lia|].
      split; [rewrite arr_swap_length; exact Hlen|].
      split; [rewrite arr_swap_permutation by lia; exact Hperm|].
      split.
      { rewrite Hget by lia. repeat destruct (decide _); lia. }
      split.
      { intros n Hn. rewrite Hget by lia.
        repeat destruct (decide _); subst; try lia; try (apply Hlow; lia).
        replace i with j by lia. exact E. }
      split.
      { intros n Hn. rewrite Hget by lia.
        repeat destruct (decide _); subst; try lia; apply Hhigh; lia. }
      split.
      { intros n Hn Ho. rewrite Hget by lia.
        repeat destruct (decide _); subst; try lia. apply Hout; assumption. }
      intros n Hn. rewrite Hget by lia.
      repeat destruct (decide _); subst; apply Hwin; lia.
    + split; [lia|]. split; [lia|]. split; [exact Hlen|].
      split; [exact Hperm|]. split; [exact Hpiv|]. split; [exact Hlow|].
      split; [|split; assumption].
      intros n Hn. destruct (decide (n = j)) as [->|]; [exact E|].
      apply Hhigh. lia.
Qed.

(** [partition]: the window is rearranged around the pivot, the rest of
    the array is untouched. *)
Lemma partition_correct (arr : list Z) (left right : Z) (arr' : list Z) (p : Z) :
  0 <= left -> left <= right -> right < len arr ->
  partition arr left right = (arr', p) ->
  left <= p <= right /\ length arr' = length arr /\ arr' ≡ₚ arr /\
  (forall m, left <= m < p -> arr_get arr' m <= arr_get arr' p) /\
  (forall m, p < m <= right -> arr_get arr' p < arr_get arr' m) /\
  (forall m, 0 <= m < len arr -> m < left \/ right < m ->
     arr_get arr' m = arr_get arr m) /\
  (forall n, left <= n <= right ->
     exists n', left <= n' <= right /\ arr_get arr' n = arr_get arr n').
Proof.
  intros Hl Hlr Hr. unfold partition. cbv zeta.
  destruct (foldl _ _ _) as [arr1 i] eqn:E. intros [= <- <-].
  assert (Hinv0 : partition_inv arr left right (arr_get arr right) arr left left).
  { split; [lia|]. split; [lia|]. split; [reflexivity|]. split; [reflexivity|].
    split; [reflexivity|]. split; [intros; lia|]. split; [intros; lia|].
    split; [reflexivity|]. intros n Hn. exists n. auto. }
  replace (right - left) with (Z.of_nat (Z.to_nat (right - left))) in E by lia.
  apply (partition_loop_inv arr left right (arr_get arr right) Hl Hr
           (Z.to_nat (right - left)) arr left left arr1 i ltac:(lia) Hinv0)
    in E.
  destruct E as (Hij & _ & Hlen & Hperm & Hpiv & Hlow & Hhigh & Hout & Hwin).
  assert (Hlen' : len arr1 = len arr) by (unfold len; rewrite Hlen; reflexivity).
  assert (Hget : forall n, 0 <= n < len arr ->
            arr_get (arr_swap arr1 i right) n
            = if decide (n = right) then arr_get arr1 i
              else if decide (n = i) then arr_get arr1 right
              else arr_get arr1 n)
    by (intros n Hn; apply arr_get_swap; lia).
  split; [lia|]. split; [rewrite arr_swap_length; exact Hlen|].
  split; [rewrite arr_swap_permutation by lia; exact Hperm|].
  assert (Hp : arr_get (arr_swap arr1 i right) i = arr_get arr right).
  { rewrite Hget by lia. repeat destruct (decide _); subst; try lia; assumption. }
  rewrite Hp. split.
  { intros n Hn. rewrite Hget by lia.
    repeat destruct (decide _); subst; try lia. apply Hlow. lia. }
  split.
  { intros n Hn. rewrite Hget by lia.
    repeat destruct (decide _); subst; try lia; apply Hhigh; lia. }
  split.
  { intros n Hn Ho. rewrite Hget by lia.
    repeat destruct (decide _); subst; try lia. apply Hout; assumption. }
  intros n Hn. rewrite Hget by lia.
  repeat destruct (decide _); subst; apply Hwin; lia.
Qed.

(** The invariant of [quickSelect]: what lies left of the window is below
    what lies in it or right of it, and what lies right of the window is
    above. *)
Definition select_inv (arr0 arr : list Z) (left right k : Z) : Prop :=
  0 <= left /\ right < len arr0 /\ left <= k <= right /\
  length arr = length arr0 /\ arr ≡ₚ arr0 /\
  (forall m n, 0 <= m < left -> left <= n < len arr0 ->
     arr_get arr m <= arr_get arr n) /\
  (forall m n, right < m < len arr0 -> 0 <= n <= right ->
     arr_get arr n <= arr_get arr m).

(** The element at [k] is where it would be in the sorted array. *)
Definition in_place (arr : list Z) (k : Z) : Prop :=
  (forall m, 0 <= m < k -> arr_get arr m <= arr_get arr k) /\
  (forall m, k < m < len arr -> arr_get arr k <= arr_get arr m).

Lemma quickSelect_correct (arr0 : list Z) (k : Z) (fuel : nat) :
  forall arr left right v,
  select_inv arr0 arr left right k ->
  quickSelect fuel arr left right k = Some v ->
  exists arr', arr' ≡ₚ arr0 /\ length arr' = length arr0 /\
               in_place arr' k /\ v = arr_get arr' k.
Proof.
  induction fuel as [|fuel IH]; intros arr left right v Hinv;
    cbn [quickSelect].
  - destruct (left <? right) eqn:E; [discriminate|]. apply Z.ltb_ge in E.
    intros [= <-]. exists arr.
    destruct Hinv as (Hl & Hr & Hk & Hlen & Hperm & Hlow & Hhigh).
    assert (Hlen' : len arr = len arr0) by (unfold len; rewrite Hlen; reflexivity).
    split; [exact Hperm|]. split; [exact Hlen|]. split; [|reflexivity].
    split; intros m Hm; [apply Hlow|apply Hhigh]; lia.
  - destruct (left <? right) eqn:E; [apply Z.ltb_lt in E|apply Z.ltb_ge in E].
    2:{ intros [= <-]. exists arr.
        destruct Hinv as (Hl & Hr & Hk & Hlen & Hperm & Hlow & Hhigh).
        assert (Hlen' : len arr = len arr0)
          by (unfold len; rewrite Hlen; reflexivity).
        split; [exact Hperm|]. split; [exact Hlen|]. split; [|reflexivity].
        split; intros m Hm; [apply Hlow|apply Hhigh]; lia. }
    destruct Hinv as (Hl & Hr & Hk & Hlen & Hperm & Hlow & Hhigh).
    assert (Hlen' : len arr = len arr0) by (unfold len; rewrite Hlen; reflexivity).
    destruct (partition arr left right) as [arr1 p] eqn:Ep.
    apply partition_correct in Ep
      as (Hp & Hlen1 & Hperm1 & Hbelow & Habove & Hout & Hwin); try lia.
    assert (Hlen1' : len arr1 = len arr0)
      by (unfold len; rewrite Hlen1, Hlen; reflexivity).
    rewrite Hlen' in Hout.
    (* an element of the window, or outside it, as it was before *)
    assert (Hfrom : forall n, 0 <= n < len arr0 ->
              exists n', 0 <= n' < len arr0 /\
                         arr_get arr1 n = arr_get arr n' /\
                         (n < left -> n' = n) /\ (right < n -> n' = n) /\
                         (left <= n <= right -> left <= n' <= right)).
    { intros n Hn.
      destruct (Z_lt_ge_dec n left) as [H1|H1];
        [exists n; rewrite Hout by lia; repeat split; lia|].
      destruct (Z_lt_ge_dec right n) as [H2|H2];
        [exists n; rewrite Hout by lia; repeat split; lia|].
      destruct (Hwin n ltac:(lia)) as (n' & Hn' & En').
      exists n'. repeat split; lia. }
    assert (Hle : forall m n, 0 <= m < len arr0 -> 0 <= n < len arr0 ->
              (m < left /\ left <= n) \/ (m <= right /\ right < n) ->
              arr_get arr1 m <= arr_get arr1 n).
    { intros m n Hm Hn Hmn.
      destruct (Hfrom m Hm) as (m' & Hm' & -> & Hm1 & Hm2 & Hm3).
      destruct (Hfrom n Hn) as (n' & Hn' & -> & Hn1 & Hn2 & Hn3).
      destruct Hmn as [[H1 H2]|[H1 H2]].
      - apply Hlow; [rewrite (Hm1 H1); lia|].
        destruct (Z_lt_ge_dec right n); [rewrite Hn2; lia|].
        specialize (Hn3 ltac:(lia)). lia.
      - apply Hhigh; [rewrite (Hn2 H2); lia|].
        destruct (Z_lt_ge_dec m left); [rewrite Hm1; lia|].
        specialize (Hm3 ltac:(lia)). lia. }
    destruct (p =? k) eqn:Epk; [apply Z.eqb_eq in Epk|apply Z.eqb_neq in Epk].
    + intros [= <-]. subst p. exists arr1.
      split; [rewrite Hperm1; exact Hperm|].
      split; [rewrite Hlen1; exact Hlen|]. split; [|reflexivity].
      split; intros m Hm.
      * destruct (Z_lt_ge_dec m left); [apply Hle; lia|apply Hbelow; lia].
      * rewrite Hlen1' in Hm.
        destruct (Z_lt_ge_dec right m); [apply Hle; lia|].
        apply Z.lt_le_incl. apply Habove. lia.
    + destruct (p <? k) eqn:Elt;
        [apply Z.ltb_lt in Elt|apply Z.ltb_ge in Elt]; apply IH.
      * split; [lia|]. split; [lia|]. split; [lia|].
        split; [rewrite Hlen1; exact Hlen|].
        split; [rewrite Hperm1; exact Hperm|]. split.
        -- intros m n Hm Hn.
           destruct (Z_lt_ge_dec m left); [apply Hle; lia|].
           destruct (Z_lt_ge_dec right n); [apply Hle; lia|].
           specialize (Habove n ltac:(lia)).
           destruct (Z.eq_dec m p) as [->|]; [lia|].
           specialize (Hbelow m ltac:(lia)). lia.
        -- intros m n Hm Hn. apply Hle; lia.
      * split; [lia|]. split; [lia|]. split; [lia|].
        split; [rewrite Hlen1; exact Hlen|].
        split; [rewrite Hperm1; exact Hperm|]. split.
        -- intros m n Hm Hn. apply Hle; lia.
        -- intros m n Hm Hn.
           destruct (Z_lt_ge_dec right m); [apply Hle; lia|].
           destruct (Z_lt_ge_dec n left); [apply Hle; lia|].
           specialize (Hbelow n ltac:(lia)).
           destruct (Z.eq_dec m p) as [->|]; [lia|].
           specialize (Habove m ltac:(lia)). lia.
Qed.

Lemma filter_none (P : Z -> Prop) `{!forall x, Decision (P x)} (l : list Z) :
  Forall (fun x => ~ P x) l -> filter P l = [].
Proof.
  induction 1 as [|x l Hx _ IH]; [reflexivity|].
  rewrite filter_cons. destruct (decide (P x)); [contradiction|exact IH].
Qed.

Lemma filter_all (P : Z -> Prop) `{!forall x, Decision (P x)} (l : list Z) :
  Forall P l -> filter P l = l.
Proof.
  induction 1 as [|x l Hx _ IH]; [reflexivity|].
  rewrite filter_cons. destruct (decide (P x)); [|contradiction].
  rewrite IH. reflexivity.
Qed.

Lemma filter_shorter (P : Z -> Prop) `{!forall x, Decision (P x)} (l : list Z) :
  (length (filter P l) <= length l)%nat.
Proof.
  induction l as [|x l IH]; [reflexivity|].
  rewrite filter_cons. destruct (decide (P x)); simpl; lia.
Qed.

(** An element in its place has fewer than [k + 1] elements below it and
    more than [k] elements not above it. *)
Lemma in_place_rank (arr : list Z) (k : Z) :
  0 <= k < len arr -> in_place arr k ->
  len (filter (fun x => x < arr_get arr k) arr) <= k
  < len (filter (fun x => x <= arr_get arr k) arr).
Proof.
  intros Hk [Hlow Hhigh]. set (v := arr_get arr k) in *.
  split.
  - rewrite <- (take_drop (Z.to_nat k) arr) at 1. rewrite filter_app, len_app.
    rewrite (filter_none (fun x => x < v) (drop (Z.to_nat k) arr)).
    + change (len []) with 0.
      pose proof (filter_shorter (fun x => x < v) (take (Z.to_nat k) arr)) as H.
      rewrite length_take in H. unfold len in *. lia.
    + apply Forall_lookup_2. intros i x Hx. rewrite lookup_drop in Hx.
      assert (Hi : (Z.to_nat k + i < length arr)%nat)
        by (apply lookup_lt_Some in Hx; exact Hx).
      rewrite <- (Z2Nat.id k) in Hhigh by lia.
      pose proof (arr_get_lookup arr (k + Z.of_nat i)
                    ltac:(unfold len in *; lia)) as E.
      replace (Z.to_nat (k + Z.of_nat i)) with (Z.to_nat k + i)%nat in E by lia.
      rewrite E in Hx. injection Hx as <-.
      destruct i as [|i].
      * replace (k + Z.of_nat 0) with k by lia. fold v. lia.
      * rewrite Z2Nat.id in Hhigh by lia.
        specialize (Hhigh (k + Z.of_nat (S i)) ltac:(unfold len in *; lia)).
        lia.
  - rewrite <- (take_drop (S (Z.to_nat k)) arr) at 1.
    rewrite filter_app, len_app.
    rewrite (filter_all (fun x => x <= v) (take (S (Z.to_nat k)) arr)).
    + pose proof (len_nonneg
                    (filter (fun x => x <= v) (drop (S (Z.to_nat k)) arr))).
      unfold len in *. rewrite length_take. lia.
    + apply Forall_lookup_2. intros i x Hx.
      assert (Hi : (i < S (Z.to_nat k))%nat).
      { apply lookup_lt_Some in Hx. rewrite length_take in Hx. lia. }
      rewrite lookup_take_lt in Hx by lia.
      pose proof (arr_get_lookup arr (Z.of_nat i)
                    ltac:(unfold len in *; lia)) as E.
      rewrite Nat2Z.id in E. rewrite E in Hx. injection Hx as <-.
      destruct (Z.eq_dec (Z.of_nat i) k) as [->|Hne]; [fold v; lia|].
      apply Hlow. lia.
Qed.

(** X20. For [0 <= k < array.length], [selectKthElement] returns an
    element of the array that is the k-th smallest: fewer than [k + 1]
    elements are smaller than it and more than [k] elements are not
    larger, so it is the element found at index [k] once the array is
    sorted. *)
Theorem selectKthElement_is_kth_smallest (array : list Z) (k : Z) :
  0 <= k < len array ->
  exists v,
    selectKthElement array k = Ok v /\ In v array /\
    len (filter (fun x => x < v) array) <= k
    < len (filter (fun x => x <= v) array).
Proof.
  intros Hk. unfold selectKthElement.
  replace ((k <? 0) || (len array <=? k)) with false
    by (symmetry; apply orb_false_iff; split;
        [apply Z.ltb_ge|apply Z.leb_gt]; lia).
  destruct (quickSelect_total (length array) array 0 (len array - 1) k)
    as [v E]; [unfold len; lia|].
  rewrite E. exists v. split; [reflexivity|].
  destruct (quickSelect_correct array k (length array) array 0 (len array - 1) v)
    as (arr' & Hperm & Hlen & Hplace & ->); [|exact E|].
  { split; [lia|]. split; [lia|]. split; [lia|]. split; [reflexivity|].
    split; [reflexivity|]. split; intros; lia. }
  assert (Hk' : 0 <= k < len arr') by (unfold len in *; rewrite Hlen; exact Hk).
  split.
  - apply (Permutation_in _ Hperm). apply list_elem_of_In.
    apply (list_elem_of_lookup_2 _ (Z.to_nat k)). apply arr_get_lookup. exact Hk'.
  - pose proof (in_place_rank arr' k Hk' Hplace) as Hrank.
    unfold len in *. rewrite <- !Hperm. exact Hrank.
Qed.

Lemma selectKthElement_is_kth_smallest_witness :
  exists v,
    selectKthElement [5; 1; 4; 1; 3] 2 = Ok v /\ In v [5; 1; 4; 1; 3] /\
    len (filter (fun x => x < v) [5; 1; 4; 1; 3]) <= 2
    < len (filter (fun x => x <= v) [5; 1; 4; 1; 3]).
Proof.
  apply (selectKthElement_is_kth_smallest [5; 1; 4; 1; 3] 2).
  unfold len. simpl. lia.
Defined.

Example selectKthElement_median :
  selectKthElement [5; 1; 4; 1; 3] 2 = Ok 3.
Proof. vm_compute. reflexivity. Qed.

(** ** gif-result.ts: what the quantizer does to a pixel *)

Lemma filter_split (P : RGBColor -> Prop) `{!forall c, Decision (P c)}
    (colors : list RGBColor) :
  filter P colors ++ filter (fun c => ~ P c) colors ≡ₚ colors.
Proof.
  induction colors as [|c colors IH]; [reflexivity|].
  rewrite !filter_cons.
  destruct (decide (P c)); destruct (decide (~ P c)); try tauto.
  - cbn [app]. rewrite IH. reflexivity.
  - rewrite <- Permutation_middle. rewrite IH. reflexivity.
Qed.

Lemma splitColorCube_partition (colors : list RGBColor)
    (splits : list (list RGBColor)) :
  splitColorCube colors = Ok splits -> concat splits ≡ₚ colors.
Proof.
  unfold splitColorCube.
  destruct (len colors <=? 1).
  { intros [= <-]. cbn [concat]. rewrite app_nil_r. reflexivity. }
  destruct (analyzeColorCube colors) as [stats|e|]; cbn [rbind];
    [|discriminate..].
  destruct (findMedian colors _) as [median|e|]; cbn [rbind];
    [|discriminate..].
  destruct (_ || _); intros [= <-]; cbn [concat]; rewrite app_nil_r;
    [reflexivity|].
  apply (filter_split (fun color => component _ color < median)).
Qed.

Lemma concat_delete (cubes : list (list RGBColor)) :
  forall (index : nat) (cube : list RGBColor),
  cubes !! index = Some cube ->
  concat cubes ≡ₚ concat (delete index cubes) ++ cube.
Proof.
  induction cubes as [|c0 cubes IH]; intros index cube H; [discriminate|].
  destruct index as [|index]; cbn in H |- *.
  - injection H as ->. apply Permutation_app_comm.
  - rewrite (IH index cube H). rewrite app_assoc. reflexivity.
Qed.

Lemma medianCut_step_partition (maxColors : Z)
    (cubes cubes' : list (list RGBColor)) :
  medianCut_step maxColors cubes = Ok (Continue cubes') ->
  concat cubes' ≡ₚ concat cubes.
Proof.
  unfold medianCut_step.
  destruct (negb (len cubes <? maxColors)); [discriminate|].
  destruct (findLargestCube cubes) as [index|e|] eqn:Ei; cbn [rbind];
    [|discriminate..].
  destruct (len (nth index cubes []) <=? 1) eqn:El; [discriminate|].
  apply Z.leb_gt in El.
  destruct (splitColorCube (nth index cubes [])) as [splits|e|] eqn:Es;
    cbn [rbind]; [|discriminate..].
  destruct (len splits =? 1); [discriminate|]. intros [= <-].
  apply splitColorCube_partition in Es.
  assert (Hidx : cubes !! index = Some (nth index cubes [])).
  { destruct (nth_lookup_or_length cubes index []) as [E|E]; [exact E|].
    rewrite nth_overflow in El by lia. change (len []) with 0 in El. lia. }
  rewrite concat_app, Es. symmetry. apply concat_delete. exact Hidx.
Qed.

Lemma medianCut_step_break (maxColors : Z) (cubes cubes' : list (list RGBColor)) :
  medianCut_step maxColors cubes = Ok (Break cubes') -> cubes' = cubes.
Proof.
  unfold medianCut_step.
  destruct (negb (len cubes <? maxColors)); [intros [= <-]; reflexivity|].
  destruct (findLargestCube cubes) as [index|e|]; cbn [rbind];
    [|discriminate..].
  destruct (len (nth index cubes []) <=? 1); [intros [= <-]; reflexivity|].
  destruct (splitColorCube (nth index cubes [])) as [splits|e|];
    cbn [rbind]; [|discriminate..].
  destruct (len splits =? 1); [intros [= <-]; reflexivity|discriminate].
Qed.

Lemma medianCut_loop_partition (maxColors : Z) (fuel : nat) :
  forall cubes cubes',
  while_loop fuel (medianCut_step maxColors) cubes = Ok cubes' ->
  concat cubes' ≡ₚ concat cubes.
Proof.
  induction fuel as [|fuel IH]; intros cubes cubes'; [discriminate|].
  cbn [while_loop].
  destruct (medianCut_step maxColors cubes) as [[next|last]|e|] eqn:E;
    [| |discriminate..].
  - intros H. rewrite (IH _ _ H). apply medianCut_step_partition in E. exact E.
  - intros [= <-]. apply medianCut_step_break in E. subst last. reflexivity.
Qed.

(** The cubes of [medianCut] hold every colour once. *)
Lemma medianCut_partition (colors : list RGBColor) (maxColors : Z)
    (cubes : list (list RGBColor)) :
  medianCut colors maxColors = Ok cubes -> concat cubes ≡ₚ colors.
Proof.
  unfold medianCut. destruct (maxColors <=? 0); [discriminate|].
  destruct (len colors <=? maxColors).
  - intros [= <-]. clear. induction colors as [|c colors IH]; [reflexivity|].
    cbn [map concat app]. rewrite IH. reflexivity.
  - intros H. apply medianCut_loop_partition in H.
    cbn [concat] in H. rewrite app_nil_r in H. exact H.
Qed.

Lemma averages_pointwise (cubes : list (list RGBColor)) :
  forall acc palette,
  for_each (fun acc cube =>
              let! c := calculateAverageColor cube in Ok (acc ++ [c]))
           cubes acc = Ok palette ->
  exists averages,
    palette = acc ++ averages /\
    Forall2 (fun cube average => calculateAverageColor cube = Ok average)
      cubes averages.
Proof.
  induction cubes as [|cube cubes IH]; intros acc palette; cbn [for_each].
  - intros [= <-]. exists []. rewrite app_nil_r. split; [reflexivity|constructor].
  - destruct (calculateAverageColor cube) as [c|e|] eqn:E; cbn [rbind];
      [|discriminate..].
    intros H. destruct (IH _ _ H) as (averages & -> & Hall).
    exists (c :: averages). rewrite <- app_assoc. split; [reflexivity|].
    constructor; assumption.
Qed.

Lemma sum_bounds (f : RGBColor -> Z) (l : list RGBColor) : forall a,
  Forall (fun c => 0 <= f c <= 255) l ->
  a <= foldl (fun t c => t + f c) a l <= a + 255 * len l.
Proof.
  induction l as [|c l IH]; intros a H; cbn [foldl].
  - change (len []) with 0. lia.
  - pose proof (Forall_inv H) as Hc. cbv beta in Hc.
    specialize (IH (a + f c) (Forall_inv_tail H)). rewrite len_cons. lia.
Qed.

Lemma average_color_ok (cube : list RGBColor) (average : RGBColor) :
  Forall color_ok cube -> calculateAverageColor cube = Ok average ->
  color_ok average.
Proof.
  intros H. unfold calculateAverageColor.
  destruct cube as [|c0 cube]; [discriminate|]. intros [= <-].
  set (l := c0 :: cube) in *.
  assert (Hn : 0 < len l) by (unfold l; rewrite len_cons; pose proof (len_nonneg cube); lia).
  unfold color_ok. cbn [red green blue].
  assert (Hr : 0 <= foldl (fun t c => t + red c) 0 l <= 0 + 255 * len l).
  { apply sum_bounds. eapply Forall_impl; [exact H|].
    intros c (? & ? & ?). lia. }
  assert (Hg : 0 <= foldl (fun t c => t + green c) 0 l <= 0 + 255 * len l).
  { apply sum_bounds. eapply Forall_impl; [exact H|].
    intros c (? & ? & ?). lia. }
  assert (Hb : 0 <= foldl (fun t c => t + blue c) 0 l <= 0 + 255 * len l).
  { apply sum_bounds. eapply Forall_impl; [exact H|].
    intros c (? & ? & ?). lia. }
  unfold l in Hr, Hg, Hb. cbn [foldl] in Hr, Hg, Hb. fold l in Hr, Hg, Hb.
  repeat split;
    first [apply Z.div_pos; lia | apply Z.div_le_upper_bound; lia].
Qed.

Lemma colorMap_inner (cube : list RGBColor) : forall (m : gmap RGBColor Z) idx c,
  foldl (fun m color => <[ color := idx ]> m) m cube !! c
  = if decide (c ∈ cube) then Some idx else m !! c.
Proof.
  induction cube as [|c0 cube IH]; intros m idx c; cbn [foldl].
  - destruct (decide (c ∈ [])) as [H|_]; [inversion H|reflexivity].
  - rewrite IH. destruct (decide (c ∈ cube)) as [Hin|Hnin].
    + rewrite decide_True by (apply elem_of_cons; auto). reflexivity.
    + destruct (decide (c = c0)) as [->|Hne].
      * rewrite decide_True by (apply elem_of_cons; auto).
        apply lookup_insert_eq.
      * rewrite decide_False
          by (intros [?|?]%elem_of_cons; contradiction).
        apply lookup_insert_ne. congruence.
Qed.

Lemma colorMap_fold (cubes : list (list RGBColor)) :
  forall (m : gmap RGBColor Z) (idx : Z),
  NoDup (concat cubes) ->
  (forall c, c ∉ concat cubes ->
     fst (foldl colorMap_step (m, idx) cubes) !! c = m !! c) /\
  (forall (j : nat) cube c, cubes !! j = Some cube -> c ∈ cube ->
     fst (foldl colorMap_step (m, idx) cubes) !! c = Some (idx + Z.of_nat j)).
Proof.
  induction cubes as [|c0 cubes IH]; intros m idx Hnd.
  - split; [reflexivity|]. intros j cube c H. discriminate.
  - cbn [concat] in Hnd. apply NoDup_app in Hnd as (Hnd0 & Hdisj & Hnd).
    cbn [foldl colorMap_step].
    destruct (IH (foldl (fun m color => <[ color := idx ]> m) m c0) (idx + 1) Hnd)
      as [Hframe Hhit].
    split.
    + intros c Hc. cbn [concat] in Hc. rewrite Hframe.
      * rewrite colorMap_inner. rewrite decide_False; [reflexivity|].
        intros Hin. apply Hc. apply elem_of_app. auto.
      * intros Hin. apply Hc. apply elem_of_app. auto.
    + intros j cube c Hj Hc. destruct j as [|j].
      * injection Hj as <-. rewrite Hframe by (apply Hdisj; exact Hc).
        rewrite colorMap_inner, decide_True by exact Hc. f_equal. lia.
      * cbn in Hj. rewrite (Hhit j cube c Hj Hc). f_equal. lia.
Qed.

Lemma buildColorMap_lookup (cubes : list (list RGBColor)) (j : nat)
    (cube : list RGBColor) (c : RGBColor) :
  NoDup (concat cubes) -> cubes !! j = Some cube -> c ∈ cube ->
  buildColorMap cubes !! c = Some (Z.of_nat j).
Proof.
  intros Hnd Hj Hc. unfold buildColorMap.
  change (fun '(m, paletteIndex) cube =>
            (foldl (fun m color => <[ color := paletteIndex ]> m) m cube,
             paletteIndex + 1)) with colorMap_step.
  destruct (colorMap_fold cubes ∅ 0 Hnd) as [_ H].
  rewrite (H j cube c Hj Hc). reflexivity.
Qed.

(** Every pixel's colour is in the colour map: [mapColor] answers from the
    map, which stays as it is. *)
Lemma convertToIndexed_from_map (palette : list RGBColor)
    (colorMap : gmap RGBColor Z) (data : list Z) (l : list Z) :
  forall indexed,
  (forall i, i ∈ l ->
     exists j, colorMap !! pixel_color data i = Some j /\ 0 <= j < 256) ->
  exists out,
    for_each (fun '(indexed, colorMap) i =>
                let color := pixel_color data i in
                let! (index, colorMap) := mapColor palette colorMap color in
                Ok (indexed ++ [index mod 256], colorMap))
             l (indexed, colorMap) = Ok (indexed ++ out, colorMap) /\
    Forall2 (fun i v => colorMap !! pixel_color data i = Some v) l out.
Proof.
  induction l as [|i l IH]; intros indexed H; cbn [for_each].
  - exists []. rewrite app_nil_r. split; [reflexivity|constructor].
  - destruct (H i) as (j & Hj & Hj256); [apply elem_of_cons; auto|].
    cbv beta iota zeta. unfold mapColor at 1. rewrite Hj.
    cbn [rbind]. cbv beta iota. cbn [rbind].
    rewrite Z.mod_small by lia.
    destruct (IH (indexed ++ [j])) as (out & E & Hout).
    { intros i' Hi'. apply H. apply elem_of_cons. auto. }
    exists (j :: out). rewrite <- app_assoc in E. split; [exact E|].
    constructor; assumption.
Qed.

Lemma elem_of_concat (cubes : list (list RGBColor)) (c : RGBColor) :
  c ∈ concat cubes ->
  exists (j : nat) cube, cubes !! j = Some cube /\ c ∈ cube.
Proof.
  intros H. apply list_elem_of_In, in_concat in H as (cube & Hcube & Hc).
  apply list_elem_of_In, list_elem_of_lookup in Hcube as [j Hj].
  exists j, cube. split; [exact Hj|]. apply list_elem_of_In. exact Hc.
Qed.

(** X21. For an RGBA image of at least one pixel and [maxColors] in
    [1, 256], the cubes of [medianCut] hold every distinct colour of the
    image exactly once, the palette of [quantizeImage] has one entry per
    cube, and every pixel gets the index of the cube that holds its
    colour; the palette entry at that index is the average colour of the
    cube. *)
Theorem quantize_maps_pixels_to_their_cubes (imageData : ImageData) (N : Z) :
  0 < id_width imageData * id_height imageData ->
  len (id_data imageData) = id_width imageData * id_height imageData * 4 ->
  Forall is_byte (id_data imageData) ->
  1 <= N <= 256 ->
  exists image cubes,
    quantizeImage imageData N = Ok image /\
    medianCut (extractColors imageData) N = Ok cubes /\
    concat cubes ≡ₚ extractColors imageData /\
    len (i_palette image) = 3 * len cubes /\
    forall i, 0 <= i < id_width imageData * id_height imageData ->
      exists cube,
        cubes !! Z.to_nat (byte_at (i_data image) i) = Some cube /\
        pixel_color (id_data imageData) i ∈ cube /\
        calculateAverageColor cube
        = Ok (palette_color (i_palette image) (byte_at (i_data image) i)).
Proof.
  intros Hpix _ Hbytes HN.
  destruct (extractColors_spec imageData) as (Hnd & Hin & Hfrom).
  pose proof (extractColors_nonempty imageData Hpix) as Hne.
  set (colors := extractColors imageData) in *.
  destruct (medianCut_spec colors N Hne ltac:(lia))
    as (cubes & Hcut & [Hcount Hfull]).
  pose proof (medianCut_partition colors N cubes Hcut) as Hperm.
  assert (Hnd' : NoDup (concat cubes)) by (rewrite Hperm; exact Hnd).
  destruct (averages_spec cubes [] Hfull) as (palette & Hav & Hlen).
  destruct (averages_pointwise cubes [] palette Hav) as (averages & Ha & Hall).
  cbn [app] in Ha. subst averages. change (len []) with 0 in Hlen.
  assert (Hpok : Forall color_ok palette).
  { apply Forall_lookup_2. intros j p Hp.
    destruct (Forall2_lookup_r _ _ _ _ _ Hall Hp) as (cube & Hj & Hc).
    apply (average_color_ok cube p); [|exact Hc].
    apply Forall_forall. intros c Hcin.
    assert (Hcc : c ∈ colors).
    { rewrite <- Hperm. apply list_elem_of_In, in_concat.
      exists cube. split; apply list_elem_of_In;
        [apply (list_elem_of_lookup_2 _ j); exact Hj|exact Hcin]. }
    destruct (Hfrom c Hcc) as (i & _ & ->). apply pixel_color_ok. exact Hbytes. }
  assert (Hmap : forall i,
            0 <= i < id_width imageData * id_height imageData ->
            exists (j : nat) cube,
              cubes !! j = Some cube /\
              pixel_color (id_data imageData) i ∈ cube /\
              buildColorMap cubes !! pixel_color (id_data imageData) i
              = Some (Z.of_nat j) /\ Z.of_nat j < 256).
  { intros i Hi. specialize (Hin i Hi). rewrite <- Hperm in Hin.
    destruct (elem_of_concat cubes _ Hin) as (j & cube & Hj & Hc).
    exists j, cube. split; [exact Hj|]. split; [exact Hc|].
    split; [apply (buildColorMap_lookup cubes j cube); assumption|].
    apply lookup_lt_Some in Hj. unfold len in Hcount. lia. }
  destruct (convertToIndexed_from_map palette (buildColorMap cubes)
              (id_data imageData)
              (seqZ 0 (id_width imageData * id_height imageData)) [])
    as (out & E & Hout).
  { intros i Hi. apply elem_of_seqZ in Hi.
    destruct (Hmap i ltac:(lia)) as (j & cube & _ & _ & Hm & Hj).
    exists (Z.of_nat j). split; [exact Hm|lia]. }
  assert (E' : convertToIndexed palette (buildColorMap cubes) imageData
               = Ok (out, buildColorMap cubes)) by exact E.
  exists (mkIndexedImage (id_width imageData) (id_height imageData) out
            (palette_bytes palette)), cubes.
  split.
  { unfold quantizeImage, newMedianCutQuantizer.
    replace ((N <=? 0) || (256 <? N)) with false
      by (symmetry; apply orb_false_iff; split;
          [apply Z.leb_gt|apply Z.ltb_ge]; lia).
    cbn [rbind]. unfold quantize. cbn [q_maxColors]. fold colors.
    rewrite Hcut. cbn [rbind]. rewrite Hav. cbn [rbind]. rewrite E'.
    cbn [rbind]. rewrite getPaletteData_bytes by exact Hpok. reflexivity. }
  split; [exact Hcut|]. split; [exact Hperm|].
  cbn [i_palette i_data].
  split; [rewrite palette_bytes_len; lia|].
  intros i Hi.
  assert (Hi' : seqZ 0 (id_width imageData * id_height imageData) !! Z.to_nat i
                = Some i).
  { rewrite lookup_seqZ_lt by lia. f_equal. lia. }
  destruct (Forall2_lookup_l _ _ _ _ _ Hout Hi') as (v & Hv & Hm).
  assert (Hb : byte_at out i = v).
  { unfold byte_at. apply nth_lookup_Some. exact Hv. }
  rewrite Hb.
  destruct (Hmap i Hi) as (j & cube & Hj & Hc & Hm' & _).
  rewrite Hm' in Hm. injection Hm as <-. rewrite Nat2Z.id.
  exists cube. split; [exact Hj|]. split; [exact Hc|].
  destruct (Forall2_lookup_l _ _ _ _ _ Hall Hj) as (p & Hp & Hcp).
  rewrite Hcp. f_equal. symmetry. apply palette_color_lookup. exact Hp.
Qed.

Lemma quantize_maps_pixels_to_their_cubes_witness :
  exists image cubes,
    quantizeImage
      (mkImageData [10; 0; 0; 255; 20; 0; 0; 255; 200; 0; 0; 255] 3 1) 2
    = Ok image /\
    medianCut
      (extractColors
         (mkImageData [10; 0; 0; 255; 20; 0; 0; 255; 200; 0; 0; 255] 3 1)) 2
    = Ok cubes /\
    concat cubes
    ≡ₚ extractColors
         (mkImageData [10; 0; 0; 255; 20; 0; 0; 255; 200; 0; 0; 255] 3 1) /\
    len (i_palette image) = 3 * len cubes /\
    forall i, 0 <= i < 3 * 1 ->
      exists cube,
        cubes !! Z.to_nat (byte_at (i_data image) i) = Some cube /\
        pixel_color [10; 0; 0; 255; 20; 0; 0; 255; 200; 0; 0; 255] i ∈ cube /\
        calculateAverageColor cube
        = Ok (palette_color (i_palette image) (byte_at (i_data image) i)).
Proof.
  apply (quantize_maps_pixels_to_their_cubes
           (mkImageData [10; 0; 0; 255; 20; 0; 0; 255; 200; 0; 0; 255] 3 1) 2).
  - simpl. lia.
  - reflexivity.
  - repeat (constructor; [unfold is_byte; lia|]). constructor.
  - lia.
Defined.

Example quantize_three_reds :
  quantizeImage
    (mkImageData [10; 0; 0; 255; 20; 0; 0; 255; 200; 0; 0; 255] 3 1) 2
  = Ok (mkIndexedImage 3 1 [0; 1; 1] [10; 0; 0; 110; 0; 0]).
Proof. vm_compute. reflexivity. Qed.

(** ** lzw.ts: the two bit converters *)

(** A run of [push] calls, and a run of [readCode] calls. *)
Definition push_all (codes : list (Z * Z)) (c : CodeToBytesConverter)
  : result CodeToBytesConverter :=
  for_each (fun c '(code, numBits) => push c code numBits) codes c.

Fixpoint read_all (widths : list Z) (b : BytesToCodeConverter)
  : result (list (option Z) * BytesToCodeConverter) :=
  match widths with
  | [] => Ok ([], b)
  | numBits :: rest =>
      let! (code, b) := readCode b numBits in
      let! (codes, b) := read_all rest b in
      Ok (code :: codes, b)
  end.

(** The codes as one number, the first code in the lowest bits. *)
Fixpoint packed_val (codes : list (Z * Z)) : Z :=
  match codes with
  | [] => 0
  | (code, numBits) :: rest => code + 2 ^ numBits * packed_val rest
  end.

Definition total_bits (codes : list (Z * Z)) : Z :=
  foldr (fun '(_, numBits) t => numBits + t) 0 codes.

Definition code_ok (cw : Z * Z) : Prop :=
  1 <= snd cw <= 16 /\ 0 <= fst cw < 2 ^ snd cw.

Lemma total_bits_nonneg codes : Forall code_ok codes -> 0 <= total_bits codes.
Proof.
  induction 1 as [|[c w] codes [Hw _] _ IH]; unfold total_bits in *;
    cbn [foldr snd] in *; lia.
Qed.

Lemma push_all_spec (codes : list (Z * Z)) : forall conv,
  Forall code_ok codes -> cv_wf conv ->
  exists conv',
    push_all codes conv = Ok conv' /\ cv_wf conv' /\
    cv_val conv' = cv_val conv + packed_val codes * 2 ^ cv_len conv /\
    cv_len conv' = cv_len conv + total_bits codes.
Proof.
  induction codes as [|[c w] codes IH]; intros conv Hok Hwf.
  - exists conv. cbn. repeat split; try apply Hwf; lia.
  - pose proof (Forall_inv Hok) as [Hw Hc]. cbn [fst snd] in Hw, Hc.
    destruct (push_spec conv c w Hwf ltac:(lia) Hc)
      as (c1 & Hp & Hwf1 & Hv1 & Hl1).
    destruct (IH c1 (Forall_inv_tail Hok) Hwf1) as (conv' & Hall & Hwf' & Hv & Hl).
    exists conv'. unfold push_all in *. cbn [for_each]. rewrite Hp. cbn [rbind].
    split; [exact Hall|]. split; [exact Hwf'|].
    pose proof (cv_len_nonneg conv Hwf).
    split.
    + rewrite Hv, Hv1, Hl1. cbn [packed_val]. rewrite Z.pow_add_r by lia. ring.
    + rewrite Hl, Hl1. cbn [total_bits foldr]. fold (total_bits codes). lia.
Qed.

Lemma read_all_spec (codes : list (Z * Z)) : forall rd,
  Forall code_ok codes -> rd_wf rd ->
  rd_val rd = packed_val codes -> total_bits codes <= rem_bits rd ->
  exists rd',
    read_all (map snd codes) rd
    = Ok (map (fun cw => Some (fst cw)) codes, rd') /\
    rem_bits rd' = rem_bits rd - total_bits codes.
Proof.
  induction codes as [|[c w] codes IH]; intros rd Hok Hwf Hv Hrem.
  - exists rd. cbn. split; [reflexivity|lia].
  - pose proof (Forall_inv Hok) as [Hw Hc]. cbn [fst snd] in Hw, Hc.
    pose proof (total_bits_nonneg codes (Forall_inv_tail Hok)) as Hnn.
    cbn [total_bits foldr] in Hrem. fold (total_bits codes) in Hrem.
    destruct (readCode_spec rd w Hwf Hw) as [Hread _].
    destruct (Hread ltac:(lia)) as (rd1 & E & Hwf1 & Hv1 & Hrem1 & _).
    assert (Hpow : 0 < 2 ^ w) by (apply pow2_pos; lia).
    assert (Hmod : rd_val rd mod 2 ^ w = c).
    { rewrite Hv. cbn [packed_val].
      replace (c + 2 ^ w * packed_val codes)
        with (c + packed_val codes * 2 ^ w) by ring.
      rewrite Z_mod_plus_full. apply Z.mod_small. exact Hc. }
    assert (Hdiv : rd_val rd / 2 ^ w = packed_val codes).
    { rewrite Hv. cbn [packed_val]. symmetry.
      apply (Z.div_unique _ _ _ c); lia. }
    rewrite Hmod in E. rewrite Hdiv in Hv1.
    destruct (IH rd1 (Forall_inv_tail Hok) Hwf1 Hv1 ltac:(lia))
      as (rd' & Hall & Hrem').
    exists rd'. cbn [map read_all fst snd]. rewrite E. cbn [rbind].
    rewrite Hall. cbn [rbind]. split; [reflexivity|].
    cbn [total_bits foldr]. fold (total_bits codes). lia.
Qed.

(** X22. Codes of 1 to 16 bits, each below two to the power of its width,
    pushed into a new [CodeToBytesConverter] and flushed, take as many
    bytes as their bits need; a [BytesToCodeConverter] over these bytes
    reads the same codes back when asked for the same widths, and is then
    left with fewer than eight bits of padding. *)
Theorem bit_packing_round_trip (codes : list (Z * Z)) :
  Forall code_ok codes ->
  exists conv rd,
    push_all codes newCodeToBytesConverter = Ok conv /\
    8 * len (flush conv) - 8 < total_bits codes <= 8 * len (flush conv) /\
    read_all (map snd codes) (newBytesToCodeConverter (flush conv))
    = Ok (map (fun cw => Some (fst cw)) codes, rd) /\
    0 <= rem_bits rd < 8.
Proof.
  intros Hok.
  destruct (push_all_spec codes newCodeToBytesConverter Hok new_converter_wf)
    as (conv & Hpush & Hwf & Hv & Hl).
  change (cv_val newCodeToBytesConverter) with 0 in Hv.
  change (cv_len newCodeToBytesConverter) with 0 in Hv, Hl.
  change (2 ^ 0) with 1 in Hv.
  destruct (flush_spec conv Hwf) as (Hbytes & Hfv & Hfl).
  set (rd0 := newBytesToCodeConverter (flush conv)).
  assert (Hrd : rd_wf rd0).
  { unfold rd_wf, conv_wf, rd0, newBytesToCodeConverter. simpl.
    pose proof (len_nonneg (flush conv)). repeat split; try lia. exact Hbytes. }
  assert (Hrv : rd_val rd0 = packed_val codes).
  { unfold rd_val, rd0, newBytesToCodeConverter. simpl. rewrite drop_0. lia. }
  assert (Hrem : rem_bits rd0 = 8 * len (flush conv)).
  { unfold rem_bits, rd0, newBytesToCodeConverter. simpl. lia. }
  destruct (read_all_spec codes rd0 Hok Hrd Hrv ltac:(lia)) as (rd & Hread & Hr).
  exists conv, rd. split; [exact Hpush|]. split; [lia|].
  split; [exact Hread|lia].
Qed.

Lemma bit_packing_round_trip_witness :
  exists conv rd,
    push_all [(5, 3); (300, 9); (1, 1)] newCodeToBytesConverter = Ok conv /\
    8 * len (flush conv) - 8 < total_bits [(5, 3); (300, 9); (1, 1)]
    <= 8 * len (flush conv) /\
    read_all (map snd [(5, 3); (300, 9); (1, 1)])
      (newBytesToCodeConverter (flush conv))
    = Ok (map (fun cw => Some (fst cw)) [(5, 3); (300, 9); (1, 1)], rd) /\
    0 <= rem_bits rd < 8.
Proof.
  apply (bit_packing_round_trip [(5, 3); (300, 9); (1, 1)]).
  repeat (constructor; [unfold code_ok; simpl; lia|]). constructor.
Defined.

(** ** index.ts: when [createSolidColorGif] succeeds *)

(** X23. [createSolidColorGif] returns a GIF exactly when the width and
    the height lie in [1, 65535] and the three components of the colour
    lie in [0, 255]; on every other input it throws. *)
Theorem createSolidColorGif_succeeds_iff (width height : Z) (color : RGBColor) :
  (exists bytes, createSolidColorGif width height color = Ok bytes) <->
  (1 <= width <= 65535 /\ 1 <= height <= 65535 /\ color_ok color).
Proof.
  split.
  - intros [bytes H]. unfold createSolidColorGif in H.
    destruct (width <=? 0) eqn:Ew; [discriminate|]. apply Z.leb_gt in Ew.
    destruct (height <=? 0) eqn:Eh; [discriminate|]. apply Z.leb_gt in Eh.
    destruct ((red color <? 0) || (255 <? red color)) eqn:Er; [discriminate|].
    destruct ((green color <? 0) || (255 <? green color)) eqn:Eg;
      [discriminate|].
    destruct ((blue color <? 0) || (255 <? blue color)) eqn:Eb; [discriminate|].
    apply orb_false_iff in Er as [Er1 Er2].
    apply orb_false_iff in Eg as [Eg1 Eg2].
    apply orb_false_iff in Eb as [Eb1 Eb2].
    apply Z.ltb_ge in Er1, Er2, Eg1, Eg2, Eb1, Eb2.
    cbv zeta in H.
    destruct (encodeStatic _ _ _) as [encoded|e|] eqn:Eenc; cbn [rbind] in H;
      [|discriminate..].
    apply encodeStatic_info_inv in Eenc as [[Hw Hh] _].
    cbn [i_width i_height] in Hw, Hh. unfold color_ok. lia.
  - intros (Hw & Hh & Hr & Hg & Hb).
    set (image := mkIndexedImage width height
                    (repeat 0 (Z.to_nat (width * height)))
                    [red color; green color; blue color]).
    assert (Hok : image_ok image).
    { unfold image_ok, dimensions_ok, palette_ok.
      cbn [image i_width i_height i_palette i_data].
      change (len [red color; green color; blue color]) with 3.
      split; [lia|]. split; [vm_compute; repeat split; discriminate|].
      split; [unfold len; rewrite repeat_length; nia|].
      change (3 / 3) with 1.
      generalize (Z.to_nat (width * height)). intros n.
      induction n as [|n IH]; simpl; constructor; [lia|exact IH]. }
    destruct (encode_decode_static image noGlobalOptions noImageOptions Hok)
      as (bytes & frame & Henc & Hdec & _);
      [exact I|reflexivity|reflexivity|reflexivity|vm_compute; discriminate|].
    exists bytes. unfold createSolidColorGif.
    replace (width <=? 0) with false by (symmetry; apply Z.leb_gt; lia).
    replace (height <=? 0) with false by (symmetry; apply Z.leb_gt; lia).
    replace ((red color <? 0) || (255 <? red color)) with false
      by (symmetry; apply orb_false_iff; split; apply Z.ltb_ge; lia).
    replace ((green color <? 0) || (255 <? green color)) with false
      by (symmetry; apply orb_false_iff; split; apply Z.ltb_ge; lia).
    replace ((blue color <? 0) || (255 <? blue color)) with false
      by (symmetry; apply orb_false_iff; split; apply Z.ltb_ge; lia).
    fold image. rewrite Henc. cbn [rbind].
    exact (getFrames_nonempty _ _ Hdec).
Qed.

(** ** writer.ts: the images the writer accepts *)

Lemma writeImageData_accepts image w w' :
  writeImageData image w = (Ok tt, w') ->
  len (i_data image) = i_width image * i_height image /\
  Forall (fun v => v <= len (i_palette image) / 3 - 1) (i_data image).
Proof.
  unfold writeImageData.
  destruct (len (i_data image) =? i_width image * i_height image) eqn:El;
    [|discriminate]. apply Z.eqb_eq in El. cbn [negb]. cbv zeta.
  destruct (forallb _ (i_data image)) eqn:Ef; [|discriminate].
  intros _. split; [exact El|].
  rewrite forallb_forall in Ef. apply Forall_forall. intros v Hv.
  apply list_elem_of_In in Hv. apply Z.leb_le. exact (Ef v Hv).
Qed.

Lemma writeImage_accepts image options w w' :
  writeImage image options w = (Ok tt, w') ->
  dimensions_ok (i_width image) (i_height image) /\
  palette_ok (i_palette image) /\
  len (i_data image) = i_width image * i_height image /\
  Forall (fun v => v <= len (i_palette image) / 3 - 1) (i_data image).
Proof.
  unfold writeImage. intros H.
  apply wbind_ok_inv in H as (w1 & w2 & Hg & H).
  apply w_get_inv in Hg as [-> ->].
  destruct (hasWrittenLogicalScreen w); [|discriminate]. cbn [negb] in H.
  apply wbind_ok_inv in H as ([] & w1 & Hd & H).
  apply wlift_ok_inv in Hd as [Hd ->].
  apply wbind_ok_inv in H as ([] & w1 & Hp & H).
  apply wlift_ok_inv in Hp as [Hp ->].
  destruct (validateDimensions_spec (i_width image) (i_height image))
    as [[Hdim _]|[_ [t Ht]]]; [|congruence].
  destruct (validatePalette_spec (i_palette image)) as [[Hok _]|[_ [t Ht]]];
    [|congruence].
  apply wbind_ok_inv in H as ([] & w1 & _ & H).
  apply wbind_ok_inv in H as ([] & w2 & _ & H).
  apply wbind_ok_inv in H as (s & w3 & _ & H).
  apply wbind_ok_inv in H as ([] & w4 & _ & H).
  apply wbind_ok_inv in H as ([] & w5 & Hdata & _).
  apply writeImageData_accepts in Hdata as [Hlen Hidx].
  auto.
Qed.

(** X24. With valid global options and frame options, [writeStaticGif]
    succeeds exactly on the valid images: width and height in [1, 65535],
    a palette of 1 to 256 colours (three bytes each), one index per pixel,
    and every index below the number of palette colours. *)
Theorem writer_accepts_exactly_valid_images (image : IndexedImage)
    (globalOptions : GlobalColorTableOptions) (options : ImageOptions) :
  Forall is_byte (i_data image) ->
  global_ok globalOptions -> options_ok options ->
  (exists bytes, encodeStatic image globalOptions options = Ok bytes) <->
  image_ok image.
Proof.
  intros Hbytes Hg Ho. split.
  - intros [bytes H]. unfold encodeStatic in H.
    destruct (writeStaticGif _ _ _ _) as [[[]|e|] w'] eqn:E; simpl in H;
      try discriminate.
    unfold writeStaticGif in E.
    apply wbind_ok_inv in E as ([] & w1 & _ & E).
    apply wbind_ok_inv in E as ([] & w2 & _ & E).
    apply wbind_ok_inv in E as ([] & w3 & H3 & _).
    apply writeImage_accepts in H3 as (Hdim & Hpal & Hlen & Hidx).
    split; [exact Hdim|]. split; [exact Hpal|]. split; [exact Hlen|].
    apply Forall_forall. intros v Hv.
    rewrite Forall_forall in Hbytes, Hidx.
    specialize (Hbytes v Hv). specialize (Hidx v Hv). unfold is_byte in Hbytes.
    lia.
  - intros Hok.
    destruct (encodeStatic_ok image globalOptions options Hok Hg Ho)
      as (packed & gct & s & c & Henc & _).
    eexists. exact Henc.
Qed.

Lemma writer_accepts_exactly_valid_images_witness :
  (exists bytes,
     encodeStatic (mkIndexedImage 2 1 [0; 1] [255; 0; 0; 0; 0; 255])
       noGlobalOptions noImageOptions = Ok bytes) <->
  image_ok (mkIndexedImage 2 1 [0; 1] [255; 0; 0; 0; 0; 255]).
Proof.
  apply (writer_accepts_exactly_valid_images
           (mkIndexedImage 2 1 [0; 1] [255; 0; 0; 0; 0; 255])
           noGlobalOptions noImageOptions).
  - repeat (constructor; [unfold is_byte; lia|]). constructor.
  - exact I.
  - unfold options_ok. simpl. split; [lia|]. split; [lia|].
    vm_compute. discriminate.
Defined.


(** ** reader.ts: the frame loop on a stream of well-formed records *)

(** Data sub-blocks as they lie in a file: each block after its size, then
    the terminator. *)
Definition data_sub_blocks (blocks : list (list Z)) : list Z :=
  flat_map (fun block => len block :: block) blocks ++ [0].

Definition blocks_ok (blocks : list (list Z)) : Prop :=
  Forall (fun block => 1 <= len block <= 255) blocks.

(** An image record of a file: the descriptor, the local colour table the
    packed byte announces, the code size and the LZW data in sub-blocks.
    Nothing is asked of the LZW data itself. *)
Record ImageRecord := mkImageRecord {
  ir_left : Z;
  ir_top : Z;
  ir_width : Z;
  ir_height : Z;
  ir_packed : Z;
  ir_localColorTable : list Z;
  ir_lzwMinimumCodeSize : Z;
  ir_blocks : list (list Z)
}.

(** The records [getFrames] tells apart: a graphics control extension of
    block size 4, one of another block size, an application extension, a
    plain text extension, an extension of any other label, an image. *)
Inductive GifRecord :=
| GceRecord (packedFlags delay transparentIndex terminator : Z)
| GceSkipped (body : list Z) (terminator : Z)
| AppRecord (appData : list Z) (blocks : list (list Z))
| TextRecord (grid : list Z) (blocks : list (list Z))
| ExtRecord (label : Z) (blocks : list (list Z))
| ImgRecord (image : ImageRecord).

Definition record_bytes (r : GifRecord) : list Z :=
  match r with
  | GceRecord packedFlags delay transparentIndex terminator =>
      [0x21; 0xf9; 4; packedFlags] ++ le16 delay
        ++ [transparentIndex; terminator]
  | GceSkipped body terminator =>
      [0x21; 0xf9; len body] ++ body ++ [terminator]
  | AppRecord appData blocks =>
      [0x21; 0xff; len appData] ++ appData ++ data_sub_blocks blocks
  | TextRecord grid blocks =>
      [0x21; 0x01; len grid] ++ grid ++ data_sub_blocks blocks
  | ExtRecord label blocks => [0x21; label] ++ data_sub_blocks blocks
  | ImgRecord image =>
      [0x2c] ++ le16 (ir_left image) ++ le16 (ir_top image)
        ++ le16 (ir_width image) ++ le16 (ir_height image)
        ++ [ir_packed image] ++ ir_localColorTable image
        ++ [ir_lzwMinimumCodeSize image] ++ data_sub_blocks (ir_blocks image)
  end.

(** A colour table is present when bit 7 of the packed byte is set, and
    then has the size the low three bits give. *)
Definition table_fits (packed : Z) (table : list Z) : Prop :=
  if Z.land packed 0x80 =? 0 then table = []
  else len table = Z.shiftl 2 (Z.land packed 0x07) * 3.

Definition table_of (packed : Z) (table : list Z) : option (list Z) :=
  if Z.land packed 0x80 =? 0 then None else Some table.

Definition image_record_ok (image : ImageRecord) : Prop :=
  0 <= ir_left image <= 65535 /\ 0 <= ir_top image <= 65535 /\
  0 <= ir_width image <= 65535 /\ 0 <= ir_height image <= 65535 /\
  table_fits (ir_packed image) (ir_localColorTable image) /\
  blocks_ok (ir_blocks image).

Definition record_ok (r : GifRecord) : Prop :=
  match r with
  | GceRecord _ delay _ _ => 0 <= delay <= 65535
  | GceSkipped body _ => len body <> 4
  | AppRecord _ blocks => blocks_ok blocks
  | TextRecord _ blocks => blocks_ok blocks
  | ExtRecord label blocks =>
      label <> 0xff /\ label <> 0xf9 /\ label <> 0x01 /\ blocks_ok blocks
  | ImgRecord image => image_record_ok image
  end.

Definition images_of (records : list GifRecord) : list ImageRecord :=
  flat_map (fun r => match r with ImgRecord image => [image] | _ => [] end)
    records.

(** The signature, the logical screen descriptor and the global colour
    table. *)
Record ScreenRecord := mkScreenRecord {
  sr_version : Z;
  sr_width : Z;
  sr_height : Z;
  sr_packed : Z;
  sr_backgroundColorIndex : Z;
  sr_aspect : Z;
  sr_globalColorTable : list Z
}.

Definition screen_bytes (s : ScreenRecord) : list Z :=
  [0x47; 0x49; 0x46; 0x38; sr_version s; 0x61]
    ++ le16 (sr_width s) ++ le16 (sr_height s)
    ++ [sr_packed s; sr_backgroundColorIndex s; sr_aspect s]
    ++ sr_globalColorTable s.

Definition screen_record_ok (s : ScreenRecord) : Prop :=
  (sr_version s = 0x37 \/ sr_version s = 0x39) /\
  0 <= sr_width s <= 65535 /\ 0 <= sr_height s <= 65535 /\
  table_fits (sr_packed s) (sr_globalColorTable s).

Definition gif_stream (s : ScreenRecord) (records : list GifRecord)
    (rest : list Z) : list Z :=
  screen_bytes s ++ flat_map record_bytes records ++ rest.

(** After the last record the file ends or the trailer stands. *)
Definition stream_end (rest : list Z) : Prop :=
  rest = [] \/ exists trailing, rest = 0x3b :: trailing.

(** The canvas an image is drawn on: the canvas the loop holds, after the
    disposal at the head of the [try] block (the saved canvas put back, or
    the frame's rectangle cleared to the background). *)
Definition canvas_for (width : Z) (globalColorTable : option (list Z))
    (backgroundColorIndex : Z) (canvas : list Z)
    (previousCanvas : option (list Z)) (disposal : DisposalMethod)
    (image : ImageRecord) : list Z :=
  match previousCanvas with
  | Some saved =>
      if bool_decide (disposal = RestoreToPrevious) then saved
      else if bool_decide (disposal = RestoreToBackground)
      then clearFrameArea canvas (ir_left image) (ir_top image)
             (ir_width image) (ir_height image) globalColorTable
             backgroundColorIndex width
      else canvas
  | None =>
      if bool_decide (disposal = RestoreToBackground)
      then clearFrameArea canvas (ir_left image) (ir_top image)
             (ir_width image) (ir_height image) globalColorTable
             backgroundColorIndex width
      else canvas
  end.

(** The decoded indices of an image, drawn on a canvas in the image's
    colour table (the local one, else the global one). *)
Definition composited (width height : Z) (globalColorTable : option (list Z))
    (canvas indexData : list Z) (transparentIndex : Z) (image : ImageRecord)
  : list Z :=
  compositeFrame canvas indexData (ir_left image) (ir_top image)
    (ir_width image) (ir_height image)
    (if Z.land (ir_packed image) 0x80 =? 0 then globalColorTable
     else Some (ir_localColorTable image))
    transparentIndex (negb (Z.land (ir_packed image) 0x40 =? 0)) width height.

(** The frame record of an image, given the canvas and the saved canvas the
    loop holds when it reaches the image: a white frame of the size and at
    the offset of the descriptor when [decompressLZW] throws on the image's
    data; otherwise the whole canvas with the decoded indices composited. *)
Definition frame_of_image (width height : Z)
    (globalColorTable : option (list Z)) (backgroundColorIndex : Z)
    (canvas : list Z) (previousCanvas : option (list Z))
    (image : ImageRecord) (f : GifFrame) : Prop :=
  let drawn := canvas_for width globalColorTable backgroundColorIndex canvas
                 previousCanvas (f_disposal f) image in
  match decompressLZW (concat (ir_blocks image)) (ir_lzwMinimumCodeSize image)
  with
  | Ok indexData =>
      f_imageData f
      = mkImageData
          (composited width height globalColorTable drawn indexData
             (f_transparentIndex f) image) width height /\
      f_left f = 0 /\ f_top f = 0
  | _ =>
      is_placeholder f (ir_width image) (ir_height image) /\
      f_left f = ir_left image /\ f_top f = ir_top image
  end.

(** The canvas the loop holds after the image: nothing is drawn when
    [decompressLZW] throws. *)
Definition canvas_after (width height : Z)
    (globalColorTable : option (list Z)) (backgroundColorIndex : Z)
    (canvas : list Z) (previousCanvas : option (list Z))
    (image : ImageRecord) (f : GifFrame) : list Z :=
  let drawn := canvas_for width globalColorTable backgroundColorIndex canvas
                 previousCanvas (f_disposal f) image in
  match decompressLZW (concat (ir_blocks image)) (ir_lzwMinimumCodeSize image)
  with
  | Ok indexData =>
      composited width height globalColorTable drawn indexData
        (f_transparentIndex f) image
  | _ => drawn
  end.

Definition saved_after (width : Z) (globalColorTable : option (list Z))
    (backgroundColorIndex : Z) (canvas : list Z)
    (previousCanvas : option (list Z)) (image : ImageRecord) (f : GifFrame)
  : option (list Z) :=
  if bool_decide (f_disposal f = RestoreToPrevious)
  then Some (canvas_for width globalColorTable backgroundColorIndex canvas
               previousCanvas (f_disposal f) image)
  else previousCanvas.

(** The frame records of the images of a file, one per image and in order,
    from the canvas the loop starts with. *)
Fixpoint frames_drawn (width height : Z) (globalColorTable : option (list Z))
    (backgroundColorIndex : Z) (canvas : list Z)
    (previousCanvas : option (list Z)) (images : list ImageRecord)
    (frames : list GifFrame) : Prop :=
  match images, frames with
  | [], [] => True
  | image :: images', f :: frames' =>
      frame_of_image width height globalColorTable backgroundColorIndex
        canvas previousCanvas image f /\
      frames_drawn width height globalColorTable backgroundColorIndex
        (canvas_after width height globalColorTable backgroundColorIndex
           canvas previousCanvas image f)
        (saved_after width globalColorTable backgroundColorIndex canvas
           previousCanvas image f)
        images' frames'
  | _, _ => False
  end.

(** *** Sub-blocks of any framing *)

Lemma data_sub_blocks_cons (block : list Z) (blocks : list (list Z)) :
  data_sub_blocks (block :: blocks)
  = len block :: block ++ data_sub_blocks blocks.
Proof. unfold data_sub_blocks. cbn [flat_map]. rewrite <- app_assoc. reflexivity. Qed.

Lemma at_pos_read_blocks (blocks : list (list Z)) : forall data p tail acc rfuel,
  at_pos data p (data_sub_blocks blocks ++ tail) ->
  blocks_ok blocks -> (length blocks <= rfuel)%nat ->
  exists p',
    (let! (blockSize, p) := readByte data p in
     readDataSubBlocks_loop rfuel data blockSize p acc)
    = Ok (acc ++ concat blocks, p')
    /\ at_pos data p' tail.
Proof.
  induction blocks as [|block blocks IH]; intros data p tail acc rfuel H Hok Hr.
  - unfold data_sub_blocks in H. cbn [flat_map app] in H.
    apply at_pos_readByte in H as [E H]. rewrite E. cbn [rbind].
    exists (p + 1). cbn [concat]. rewrite app_nil_r.
    destruct rfuel; simpl; auto.
  - apply Forall_cons in Hok as [Hb Hok].
    rewrite data_sub_blocks_cons in H. rewrite <- app_comm_cons in H.
    apply at_pos_readByte in H as [E H]. rewrite E.
    destruct rfuel as [|rfuel]; [simpl in Hr; lia|].
    cbn [rbind readDataSubBlocks_loop].
    replace (0 <? len block) with true by (symmetry; apply Z.ltb_lt; lia).
    rewrite <- app_assoc in H.
    pose proof (at_pos_readBytes _ _ _ _ H) as [E2 H2].
    rewrite E2. cbn [rbind].
    destruct (IH data (p + 1 + len block) tail (acc ++ block) rfuel H2 Hok)
      as (p' & E3 & H3); [simpl in Hr; lia|].
    exists p'. rewrite E3. cbn [concat]. rewrite <- app_assoc. auto.
Qed.

Lemma at_pos_skip_blocks (blocks : list (list Z)) : forall data p tail rfuel,
  at_pos data p (data_sub_blocks blocks ++ tail) ->
  blocks_ok blocks -> (length blocks <= rfuel)%nat ->
  exists p',
    (let! (blockSize, p) := readByte data p in
     skipDataSubBlocks_loop rfuel data blockSize p) = Ok p'
    /\ at_pos data p' tail.
Proof.
  induction blocks as [|block blocks IH]; intros data p tail rfuel H Hok Hr.
  - unfold data_sub_blocks in H. cbn [flat_map app] in H.
    apply at_pos_readByte in H as [E H]. rewrite E. cbn [rbind].
    exists (p + 1). destruct rfuel; simpl; auto.
  - apply Forall_cons in Hok as [Hb Hok].
    rewrite data_sub_blocks_cons in H. rewrite <- app_comm_cons in H.
    apply at_pos_readByte in H as [E H]. rewrite E.
    destruct rfuel as [|rfuel]; [simpl in Hr; lia|].
    cbn [rbind skipDataSubBlocks_loop].
    replace (0 <? len block) with true by (symmetry; apply Z.ltb_lt; lia).
    rewrite <- app_assoc in H. apply at_pos_skip in H.
    destruct (IH data (p + 1 + len block) tail rfuel H Hok)
      as (p' & E3 & H3); [simpl in Hr; lia|].
    exists p'. auto.
Qed.

Lemma data_sub_blocks_length (blocks : list (list Z)) :
  (length blocks < length (data_sub_blocks blocks))%nat.
Proof.
  induction blocks as [|block blocks IH]; [simpl; lia|].
  rewrite data_sub_blocks_cons. cbn [length]. rewrite length_app. lia.
Qed.

Lemma at_pos_fuel data p (bs tail : list Z) :
  at_pos data p (bs ++ tail) -> (length bs <= length data)%nat.
Proof.
  intros (pre & -> & _). rewrite !length_app. lia.
Qed.

Lemma at_pos_readDataSubBlocks_any (blocks : list (list Z)) data p tail :
  at_pos data p (data_sub_blocks blocks ++ tail) -> blocks_ok blocks ->
  exists p',
    readDataSubBlocks data p = Ok (concat blocks, p') /\ at_pos data p' tail.
Proof.
  intros H Hok. unfold readDataSubBlocks.
  pose proof (at_pos_fuel _ _ _ _ H) as Hf.
  pose proof (data_sub_blocks_length blocks) as Hl.
  apply (at_pos_read_blocks blocks data p tail [] (length data) H Hok). lia.
Qed.

Lemma at_pos_skipDataSubBlocks_any (blocks : list (list Z)) data p tail :
  at_pos data p (data_sub_blocks blocks ++ tail) -> blocks_ok blocks ->
  exists p', skipDataSubBlocks data p = Ok p' /\ at_pos data p' tail.
Proof.
  intros H Hok. unfold skipDataSubBlocks.
  pose proof (at_pos_fuel _ _ _ _ H) as Hf.
  pose proof (data_sub_blocks_length blocks) as Hl.
  apply (at_pos_skip_blocks blocks data p tail (length data) H Hok). lia.
Qed.

(** *** One record *)

Lemma processImage_draws sc st p (image : ImageRecord) :
  exists st' f,
    processImage sc st p (ir_left image) (ir_top image) (ir_width image)
      (ir_height image)
      (if Z.land (ir_packed image) 0x80 =? 0 then sc_globalColorTable sc
       else Some (ir_localColorTable image))
      (negb (Z.land (ir_packed image) 0x40 =? 0))
      (ir_lzwMinimumCodeSize image) (concat (ir_blocks image)) = Ok st' /\
    fs_position st' = p /\
    fs_frames st' = fs_frames st ++ [f] /\
    frame_of_image (sc_width sc) (sc_height sc) (sc_globalColorTable sc)
      (sc_backgroundColorIndex sc) (fs_canvas st) (fs_previousCanvas st)
      image f /\
    fs_canvas st'
    = canvas_after (sc_width sc) (sc_height sc) (sc_globalColorTable sc)
        (sc_backgroundColorIndex sc) (fs_canvas st) (fs_previousCanvas st)
        image f /\
    fs_previousCanvas st'
    = saved_after (sc_width sc) (sc_globalColorTable sc)
        (sc_backgroundColorIndex sc) (fs_canvas st) (fs_previousCanvas st)
        image f.
Proof.
  unfold processImage, frame_of_image, canvas_after, saved_after, composited,
    canvas_for.
  pose proof (decompressLZW_returns (concat (ir_blocks image))
                (ir_lzwMinimumCodeSize image)) as Hret.
  destruct (decompressLZW (concat (ir_blocks image))
              (ir_lzwMinimumCodeSize image)) as [indexData|e|];
    [| |contradiction].
  - do 2 eexists. split; [reflexivity|].
    cbn [fs_position fs_frames fs_canvas fs_previousCanvas f_imageData
         f_transparentIndex f_left f_top f_disposal].
    repeat split.
  - do 2 eexists. split; [reflexivity|].
    cbn [fs_position fs_frames fs_canvas fs_previousCanvas f_imageData
         f_transparentIndex f_left f_top f_disposal].
    unfold is_placeholder. cbn [f_imageData]. repeat split.
Qed.

(** What one turn of the loop does at a record: the record is read to its
    end; an image adds one frame record, anything else leaves the frames and
    the canvases alone. *)
Definition record_read (sc : screen) (r : GifRecord) (st st' : frames_state)
  : Prop :=
  match r with
  | ImgRecord image =>
      exists f,
        fs_frames st' = fs_frames st ++ [f] /\
        frame_of_image (sc_width sc) (sc_height sc) (sc_globalColorTable sc)
          (sc_backgroundColorIndex sc) (fs_canvas st) (fs_previousCanvas st)
          image f /\
        fs_canvas st'
        = canvas_after (sc_width sc) (sc_height sc) (sc_globalColorTable sc)
            (sc_backgroundColorIndex sc) (fs_canvas st)
            (fs_previousCanvas st) image f /\
        fs_previousCanvas st'
        = saved_after (sc_width sc) (sc_globalColorTable sc)
            (sc_backgroundColorIndex sc) (fs_canvas st)
            (fs_previousCanvas st) image f
  | _ =>
      fs_frames st' = fs_frames st /\ fs_canvas st' = fs_canvas st /\
      fs_previousCanvas st' = fs_previousCanvas st
  end.

Lemma step_record sc st (r : GifRecord) tail :
  at_pos (sc_data sc) (fs_position st) (record_bytes r ++ tail) ->
  record_ok r ->
  exists st',
    getFrames_step sc st = Ok (Continue st') /\
    at_pos (sc_data sc) (fs_position st') tail /\
    record_read sc r st st'.
Proof.
  intros H Hok. unfold getFrames_step.
  destruct r as [packedFlags delay transparentIndex terminator
                |body terminator|appData blocks|grid blocks|label blocks
                |image];
    cbn [record_bytes record_ok record_read] in *.
  - (* graphics control, block size 4 *)
    unfold le16 in H. cbn [app] in H. rewrite (at_pos_in_range _ _ _ _ H).
    read_byte H. change (0x21 =? 0x21) with true. cbv iota.
    read_byte H. change (0xf9 =? 0xff) with false.
    change (0xf9 =? 0xf9) with true. cbv iota.
    unfold readGraphicsControl.
    read_byte H. change (4 =? 4) with true. cbv iota.
    read_byte H. read_16 H. read_byte H. read_byte H.
    eexists. split; [reflexivity|].
    cbn [fs_frames fs_position fs_canvas fs_previousCanvas].
    split; [exact H|]. auto.
  - (* graphics control of another block size *)
    cbn [app] in H. rewrite (at_pos_in_range _ _ _ _ H).
    read_byte H. change (0x21 =? 0x21) with true. cbv iota.
    read_byte H. change (0xf9 =? 0xff) with false.
    change (0xf9 =? 0xf9) with true. cbv iota.
    unfold readGraphicsControl.
    read_byte H.
    replace (len body =? 4) with false by (symmetry; apply Z.eqb_neq; exact Hok).
    rewrite <- app_assoc in H. apply at_pos_skip in H. cbn [app] in H.
    read_byte H.
    eexists. split; [reflexivity|]. split; [exact H|]. auto.
  - (* application extension *)
    cbn [app] in H. rewrite (at_pos_in_range _ _ _ _ H).
    read_byte H. change (0x21 =? 0x21) with true. cbv iota.
    read_byte H. change (0xff =? 0xff) with true. cbv iota.
    read_byte H. rewrite <- app_assoc in H.
    pose proof (at_pos_readBytes _ _ _ _ H) as [E H1]. rewrite E. clear E H.
    cbn [rbind].
    destruct (at_pos_skipDataSubBlocks_any blocks _ _ tail H1 Hok)
      as (p' & E & H2).
    rewrite E. cbn [rbind].
    destruct (knownApplicationExtension _ _);
      (eexists; split; [reflexivity|]; split; [exact H2|]; auto).
  - (* plain text *)
    cbn [app] in H. rewrite (at_pos_in_range _ _ _ _ H).
    read_byte H. change (0x21 =? 0x21) with true. cbv iota.
    read_byte H. change (0x01 =? 0xff) with false.
    change (0x01 =? 0xf9) with false. change (0x01 =? 0xfe) with false.
    change (0x01 =? 0x01) with true. cbv iota.
    read_byte H. rewrite <- app_assoc in H.
    pose proof (at_pos_readBytes _ _ _ _ H) as [E H1]. rewrite E. clear E H.
    cbn [rbind].
    destruct (at_pos_skipDataSubBlocks_any blocks _ _ tail H1 Hok)
      as (p' & E & H2).
    rewrite E. cbn [rbind].
    eexists. split; [reflexivity|]. split; [exact H2|]. auto.
  - (* any other extension *)
    destruct Hok as (Hff & Hf9 & H01 & Hok).
    cbn [app] in H. rewrite (at_pos_in_range _ _ _ _ H).
    read_byte H. change (0x21 =? 0x21) with true. cbv iota.
    read_byte H.
    replace (label =? 0xff) with false by (symmetry; apply Z.eqb_neq; exact Hff).
    replace (label =? 0xf9) with false by (symmetry; apply Z.eqb_neq; exact Hf9).
    replace (label =? 0x01) with false by (symmetry; apply Z.eqb_neq; exact H01).
    destruct (at_pos_skipDataSubBlocks_any blocks _ _ tail H Hok)
      as (p' & E & H2).
    rewrite E. cbn [rbind].
    destruct (label =? 0xfe);
      [eexists; split; [reflexivity|]; split; [exact H2|]; auto|].
    destruct (label =? 0xfd);
      [eexists; split; [reflexivity|]; split; [exact H2|]; auto|].
    destruct ((0x80 <=? label) && (label <=? 0xfc));
      (eexists; split; [reflexivity|]; split; [exact H2|]; auto).
  - (* image *)
    destruct Hok as (Hl & Ht & Hw & Hh & Htab & Hblocks).
    unfold le16 in H. cbn [app] in H. rewrite (at_pos_in_range _ _ _ _ H).
    read_byte H. change (0x2c =? 0x21) with false.
    change (0x2c =? 0x2c) with true. cbv iota.
    unfold readImage.
    read_16 H. read_16 H. read_16 H. read_16 H. read_byte H.
    rewrite !le16_read_back by assumption.
    rewrite <- !app_assoc in H. cbn [app] in H.
    assert (Hrest : forall p,
      at_pos (sc_data sc) p
        (ir_lzwMinimumCodeSize image
           :: data_sub_blocks (ir_blocks image) ++ tail) ->
      exists st',
        (let! (lzwMinimumCodeSize, p) := readByte (sc_data sc) p in
         let! (compressedData, p) := readDataSubBlocks (sc_data sc) p in
         processImage sc st p (ir_left image) (ir_top image) (ir_width image)
           (ir_height image)
           (if Z.land (ir_packed image) 0x80 =? 0 then sc_globalColorTable sc
            else Some (ir_localColorTable image))
           (negb (Z.land (ir_packed image) 0x40 =? 0))
           lzwMinimumCodeSize compressedData) = Ok st' /\
        at_pos (sc_data sc) (fs_position st') tail /\
        record_read sc (ImgRecord image) st st').
    { intros p Hp. read_byte Hp.
      destruct (at_pos_readDataSubBlocks_any (ir_blocks image) _ _ tail Hp
                  Hblocks) as (p' & E & H2).
      rewrite E. cbn [rbind].
      destruct (processImage_draws sc st p' image)
        as (st' & f & Ep & Hpos & Hf & Hfr & Hc & Hs).
      rewrite Ep. exists st'. split; [reflexivity|]. rewrite Hpos.
      split; [exact H2|]. exists f. auto. }
    cbv zeta. unfold table_fits in Htab.
    destruct (Z.land (ir_packed image) 0x80 =? 0) eqn:Eflag; cbn [negb rbind].
    + rewrite Htab in H. cbn [app] in H.
      destruct (Hrest _ H) as (st' & E & Hst'). rewrite E. cbn [rbind].
      exists st'. split; [reflexivity|]. exact Hst'.
    + rewrite <- Htab. apply at_pos_readBytes in H as [E H]. rewrite E.
      cbn [rbind].
      destruct (Hrest _ H) as (st' & E' & Hst'). rewrite E'. cbn [rbind].
      exists st'. split; [reflexivity|]. exact Hst'.
Qed.

(** *** The loop over the records *)

Lemma records_read sc (records : list GifRecord) : forall st tail fuel,
  at_pos (sc_data sc) (fs_position st)
    (flat_map record_bytes records ++ tail) ->
  Forall record_ok records ->
  exists st' frames,
    while_loop (length records + fuel) (getFrames_step sc) st
    = while_loop fuel (getFrames_step sc) st' /\
    at_pos (sc_data sc) (fs_position st') tail /\
    fs_frames st' = fs_frames st ++ frames /\
    frames_drawn (sc_width sc) (sc_height sc) (sc_globalColorTable sc)
      (sc_backgroundColorIndex sc) (fs_canvas st) (fs_previousCanvas st)
      (images_of records) frames.
Proof.
  induction records as [|r records IH]; intros st tail fuel H Hok.
  - exists st, []. split; [reflexivity|]. split; [exact H|].
    split; [rewrite app_nil_r; reflexivity|exact I].
  - apply Forall_cons in Hok as [Hr Hok].
    cbn [flat_map] in H. rewrite <- app_assoc in H.
    destruct (step_record sc st r _ H Hr) as (st1 & E1 & H1 & Hrd).
    destruct (IH st1 tail fuel H1 Hok) as (st' & frames & E & H' & Hf & Hfr).
    cbn [length Nat.add].
    rewrite (while_loop_continue _ _ _ _ E1), E.
    destruct r; cbn [record_read] in Hrd;
      try (destruct Hrd as (Hf1 & Hc1 & Hs1);
           exists st', frames; split; [reflexivity|]; split; [exact H'|];
           split; [rewrite Hf, Hf1; reflexivity|];
           rewrite <- Hc1, <- Hs1; exact Hfr).
    destruct Hrd as (f & Hf1 & Hfi & Hc1 & Hs1).
    exists st', (f :: frames). split; [reflexivity|]. split; [exact H'|].
    split; [rewrite Hf, Hf1, <- app_assoc; reflexivity|].
    cbn [images_of flat_map app frames_drawn]. split; [exact Hfi|].
    rewrite <- Hc1, <- Hs1. exact Hfr.
Qed.

Lemma frames_drawn_length width height globalColorTable backgroundColorIndex
    (images : list ImageRecord) : forall canvas previousCanvas frames,
  frames_drawn width height globalColorTable backgroundColorIndex canvas
    previousCanvas images frames ->
  length frames = length images.
Proof.
  induction images as [|image images IH]; intros canvas previousCanvas
    [|f frames] H; cbn [frames_drawn] in H; try contradiction.
  - reflexivity.
  - destruct H as [_ H]. cbn [length]. f_equal. exact (IH _ _ _ H).
Qed.

(** Reading [frames_drawn]: the record at the place of an image is that
    image's, and it is the placeholder as soon as [decompressLZW] throws. *)
Lemma frames_drawn_lookup width height globalColorTable backgroundColorIndex
    (images : list ImageRecord) :
  forall canvas previousCanvas frames (i : nat) image,
  frames_drawn width height globalColorTable backgroundColorIndex canvas
    previousCanvas images frames ->
  images !! i = Some image ->
  exists f canvas' previousCanvas',
    frames !! i = Some f /\
    frame_of_image width height globalColorTable backgroundColorIndex canvas'
      previousCanvas' image f.
Proof.
  induction images as [|image0 images IH];
    intros canvas previousCanvas [|f0 frames] i image H Hi;
    cbn [frames_drawn] in H; try contradiction; try discriminate.
  destruct H as [H0 H]. destruct i as [|i].
  - injection Hi as <-. exists f0, canvas, previousCanvas. auto.
  - exact (IH _ _ _ i image H Hi).
Qed.

Lemma frame_of_image_placeholder width height globalColorTable
    backgroundColorIndex canvas previousCanvas image f e :
  frame_of_image width height globalColorTable backgroundColorIndex canvas
    previousCanvas image f ->
  decompressLZW (concat (ir_blocks image)) (ir_lzwMinimumCodeSize image)
  = Throw e ->
  is_placeholder f (ir_width image) (ir_height image) /\
  f_left f = ir_left image /\ f_top f = ir_top image.
Proof. unfold frame_of_image. intros H E. rewrite E in H. exact H. Qed.

Lemma step_stream_end sc st rest :
  at_pos (sc_data sc) (fs_position st) rest -> stream_end rest ->
  exists st', getFrames_step sc st = Ok (Break st') /\
              fs_frames st' = fs_frames st.
Proof.
  intros H [->|(trailing & ->)]; unfold getFrames_step.
  - apply at_pos_len in H. change (len []) with 0 in H.
    replace (fs_position st <? len (sc_data sc)) with false
      by (symmetry; apply Z.ltb_ge; lia).
    exists st. auto.
  - rewrite (at_pos_in_range _ _ _ _ H). read_byte H.
    eexists. split; reflexivity.
Qed.

Lemma record_bytes_length (records : list GifRecord) :
  (length records <= length (flat_map record_bytes records))%nat.
Proof.
  induction records as [|r records IH]; [simpl; lia|].
  cbn [flat_map length]. rewrite length_app.
  assert (1 <= length (record_bytes r))%nat by (destruct r; simpl; lia).
  lia.
Qed.

(** C2, amended.  Take any file made of a signature, a logical screen with
    its colour table, and records that are whole (extensions, and images
    whose descriptor, colour table and data sub-blocks are all there),
    ended by the trailer or by the end of the file; the bytes inside the
    data sub-blocks of the images are arbitrary.  [getFrames] does not
    throw: it returns exactly one frame record per image, in order.  The
    record of an image on whose data [decompressLZW] throws is a placeholder
    of bytes 255 with the width, height, left and top of the image
    descriptor, and the loop goes on with the canvas untouched by that
    image's data; the record of an image on whose data [decompressLZW]
    returns, as it does on a bit stream that merely ends early, is the full
    canvas the loop holds, with the decoded indices composited.  So a file
    of three images yields three frame records whatever the LZW data of the
    middle one is. *)
Theorem frame_decode_failure_is_contained (s : ScreenRecord)
    (records : list GifRecord) (rest : list Z) :
  screen_record_ok s -> Forall record_ok records -> stream_end rest ->
  exists frames,
    getFrames (gif_stream s records rest) = Ok frames /\
    length frames = length (images_of records) /\
    frames_drawn (sr_width s) (sr_height s)
      (table_of (sr_packed s) (sr_globalColorTable s))
      (sr_backgroundColorIndex s)
      (initialCanvas (sr_width s) (sr_height s)
         (table_of (sr_packed s) (sr_globalColorTable s))
         (sr_backgroundColorIndex s))
      None (images_of records) frames.
Proof.
  intros (Hv & Hw & Hh & Htab) Hok Hend.
  set (data := gif_stream s records rest).
  pose proof (at_pos_start [0x47; 0x49; 0x46; 0x38; sr_version s; 0x61]
                (le16 (sr_width s) ++ le16 (sr_height s)
                   ++ [sr_packed s; sr_backgroundColorIndex s; sr_aspect s]
                   ++ sr_globalColorTable s
                   ++ flat_map record_bytes records ++ rest)) as H.
  assert (Ed : [0x47; 0x49; 0x46; 0x38; sr_version s; 0x61]
                 ++ le16 (sr_width s) ++ le16 (sr_height s)
                 ++ [sr_packed s; sr_backgroundColorIndex s; sr_aspect s]
                 ++ sr_globalColorTable s
                 ++ flat_map record_bytes records ++ rest = data).
  { unfold data, gif_stream, screen_bytes. rewrite <- !app_assoc.
    reflexivity. }
  rewrite Ed in H.
  change (len [0x47; 0x49; 0x46; 0x38; sr_version s; 0x61]) with 6 in H.
  assert (Hhead : validateHeader data = Ok tt).
  { rewrite <- Ed. cbn [app]. apply validateHeader_long.
    split; [reflexivity|]. destruct Hv as [-> | ->]; auto. }
  unfold getFrames. rewrite Hhead. cbn [rbind].
  unfold le16 in H. cbn [app] in H.
  read_16 H. read_16 H. read_byte H. read_byte H. read_byte H.
  rewrite !le16_read_back by assumption.
  assert (Htable : exists p,
    (if negb (Z.land (sr_packed s) 0x80 =? 0)
     then let! (t, p) := readBytes data (6 + 2 + 2 + 1 + 1 + 1)
                           (Z.shiftl 2 (Z.land (sr_packed s) 0x07) * 3) in
          Ok (Some t, p)
     else Ok (None, 6 + 2 + 2 + 1 + 1 + 1))
    = Ok (table_of (sr_packed s) (sr_globalColorTable s), p) /\
    at_pos data p (flat_map record_bytes records ++ rest)).
  { unfold table_fits in Htab. unfold table_of.
    destruct (Z.land (sr_packed s) 0x80 =? 0); cbn [negb].
    - rewrite Htab in H. cbn [app] in H. eexists. split; [reflexivity|].
      exact H.
    - rewrite <- Htab. apply at_pos_readBytes in H as [E H]. rewrite E.
      cbn [rbind]. eexists. split; [reflexivity|]. exact H. }
  destruct Htable as (p & -> & Hp). cbn [rbind]. clear H.
  set (table := table_of (sr_packed s) (sr_globalColorTable s)).
  set (sc := mkScreen data (sr_width s) (sr_height s) table
               (sr_backgroundColorIndex s)).
  set (st0 := mkFramesState p
                (initialCanvas (sr_width s) (sr_height s) table
                   (sr_backgroundColorIndex s)) None 100 DoNotDispose (-1) []).
  change data with (sc_data sc) in Hp.
  change p with (fs_position st0) in Hp.
  assert (Hfuel : (length records <= length data)%nat).
  { pose proof (at_pos_fuel _ _ _ _ Hp) as Hf.
    pose proof (record_bytes_length records).
    unfold sc in Hf. cbn [sc_data] in Hf. lia. }
  destruct (records_read sc records st0 rest (S (length data - length records))
              Hp Hok) as (st1 & frames & E & H1 & Hf & Hfr).
  replace (S (length data))
    with (length records + S (length data - length records))%nat by lia.
  rewrite E.
  destruct (step_stream_end sc st1 rest H1 Hend) as (st2 & E2 & Hf2).
  rewrite (while_loop_break _ _ _ _ E2). cbn [rbind].
  exists (fs_frames st2). split; [reflexivity|].
  rewrite Hf2, Hf. cbn [fs_frames app].
  split; [exact (frames_drawn_length _ _ _ _ _ _ _ _ Hfr)|exact Hfr].
Qed.

(** The three-frame animation of [gif3_head] and [gif3_tail] as records,
    with the data sub-blocks of the middle image left open. *)
Definition gif3_screen : ScreenRecord := mkScreenRecord 0x39 2 1 0x70 0 0 [].

Definition gif3_records (middle : list (list Z)) : list GifRecord :=
  [AppRecord [78; 69; 84; 83; 67; 65; 80; 69; 50; 46; 48] [[1; 0; 0]];
   ImgRecord (mkImageRecord 0 0 2 1 0x80 [255; 0; 0; 0; 0; 0] 2 [[4; 10]]);
   GceRecord 8 0 0 0;
   ImgRecord (mkImageRecord 0 0 1 1 0x80 [0; 0; 255; 0; 0; 0] 2 middle);
   GceRecord 8 0 0 0;
   ImgRecord (mkImageRecord 0 0 2 1 0x80 [0; 255; 0; 0; 0; 0] 2 [[4; 10]])].

Example gif3_as_records :
  gif_stream gif3_screen (gif3_records [[68; 1]]) [0x3b]
  = gif3_head ++ [2; 2; 68; 1; 0] ++ gif3_tail /\
  gif_stream gif3_screen (gif3_records [[6]]) [0x3b]
  = gif3_head ++ [2; 1; 6; 0] ++ gif3_tail /\
  gif_stream gif3_screen (gif3_records [[68]]) [0x3b]
  = gif3_head ++ [2; 1; 68; 0] ++ gif3_tail.
Proof. repeat split. Qed.

Lemma frame_decode_failure_is_contained_witness :
  exists frames,
    getFrames (gif_stream gif3_screen (gif3_records [[6]]) [0x3b]) = Ok frames /\
    length frames = length (images_of (gif3_records [[6]])) /\
    frames_drawn (sr_width gif3_screen) (sr_height gif3_screen)
      (table_of (sr_packed gif3_screen) (sr_globalColorTable gif3_screen))
      (sr_backgroundColorIndex gif3_screen)
      (initialCanvas (sr_width gif3_screen) (sr_height gif3_screen)
         (table_of (sr_packed gif3_screen) (sr_globalColorTable gif3_screen))
         (sr_backgroundColorIndex gif3_screen))
      None (images_of (gif3_records [[6]])) frames.
Proof.
  apply (frame_decode_failure_is_contained gif3_screen (gif3_records [[6]])
           [0x3b]).
  - unfold screen_record_ok, table_fits. simpl. repeat split; auto; lia.
  - unfold gif3_records, blocks_ok.
    repeat (constructor;
            [first [unfold record_ok, image_record_ok, table_fits, blocks_ok;
                    simpl; repeat split; try lia;
                    repeat (constructor; [unfold len; simpl; lia|]);
                    constructor
                   |simpl; lia]|]).
    constructor.
  - right. exists []. reflexivity.
Defined.
